(** * hls-vod-too: the on-demand segmenting and transcoding engine

    A shallow embedding of the TypeScript sources
    ([MediaInfo.ts], [VideoInfo.ts], [AudioInfo.ts], [MediaBackend.ts],
    [Utils.ts], [HlsVod.ts]) and the properties of the engine that follow
    from it.

    Conventions.
    - A JavaScript [number] that takes part in floating-point arithmetic is
      an IEEE-754 binary64 value, [float]; array indices and counters that
      the code keeps integral are [Z] or [nat].
    - A JavaScript [Map] keeps insertion order: it is an association list
      with the operations [map_get], [map_set] and [map_delete] below.
    - An exception is the [Throw] case of [result].
    - Asynchronous code runs on an explicit promise runtime (module
      [Utils]): a heap of promise cells, a queue of reaction jobs and the
      operations in flight; every interleaving is a path of [Utils.step]. *)

From Stdlib Require Import ZArith List String Ascii Floats Lia Bool Sorted.
From stdpp Require Import base list strings gmap.
Import ListNotations.

Set Warnings "-inexact-float".

Local Open Scope Z_scope.

(** ** JavaScript runtime vocabulary *)

Module JS.

(** The outcome of a call that may throw. *)
Inductive result (A : Type) : Type :=
| Ok (a : A)
| Throw (msg : string).
Arguments Ok {A} a.
Arguments Throw {A} msg.

(** [Map.prototype.get] on an insertion-ordered map. *)
Fixpoint map_get {K V : Type} `{EqDecision K} (k : K) (m : list (K * V)) : option V :=
  match m with
  | [] => None
  | (k', v) :: m' => if decide (k' = k) then Some v else map_get k m'
  end.

(** [Map.prototype.delete]; a key has at most one binding. *)
Fixpoint map_delete {K V : Type} `{EqDecision K} (k : K) (m : list (K * V)) : list (K * V) :=
  match m with
  | [] => []
  | (k', v) :: m' => if decide (k' = k) then map_delete k m' else (k', v) :: map_delete k m'
  end.

(** [Map.prototype.set]: an existing key keeps its position, a new key goes
    to the end. *)
Fixpoint map_set {K V : Type} `{EqDecision K} (k : K) (v : V) (m : list (K * V)) : list (K * V) :=
  match m with
  | [] => [(k, v)]
  | (k', v') :: m' => if decide (k' = k) then (k, v) :: m' else (k', v') :: map_set k v m'
  end.

(** The integer a binary64 value denotes, when it denotes one. *)
Definition float_to_Z (x : float) : option Z :=
  match Prim2SF x with
  | S754_zero _ => Some 0
  | S754_finite s m e =>
      let mag :=
        if 0 <=? e then Some (Z.pos m * 2 ^ e)
        else if Z.pos m mod 2 ^ (- e) =? 0 then Some (Z.pos m / 2 ^ (- e))
        else None in
      (fun z => if s then - z else z) <$> mag
  | _ => None
  end.

(** The binary64 value of an integer below 2^63 in magnitude. *)
Definition Z_to_float (z : Z) : float :=
  if z <? 0 then PrimFloat.opp (PrimFloat.of_uint63 (Uint63.of_Z (- z)))
  else PrimFloat.of_uint63 (Uint63.of_Z z).

(** [Math.ceil]. A finite value with a negative exponent has magnitude below
    2^53, so the rounded integer converts back exactly. *)
Definition Math_ceil (x : float) : float :=
  match Prim2SF x with
  | S754_finite s m e =>
      if 0 <=? e then x
      else
        let q := Z.pos m / 2 ^ (- e) in
        let r := Z.pos m mod 2 ^ (- e) in
        if s then (if q =? 0 then PrimFloat.neg_zero else PrimFloat.opp (Z_to_float q))
        else Z_to_float (if r =? 0 then q else q + 1)
  | _ => x
  end.

Definition digit (n : Z) : ascii := ascii_of_nat (48 + Z.to_nat n).

(** The decimal digits of a natural number, most significant first. *)
Fixpoint digits (fuel : nat) (n : Z) : string :=
  match fuel with
  | O => EmptyString
  | S fuel' =>
      if n <? 10 then String (digit n) EmptyString
      else digits fuel' (n / 10) +:+ String (digit (n mod 10)) EmptyString
  end.

(** The decimal numeral of an integer, as [Number.prototype.toString] and C
    [printf("%d")] both write it. *)
Definition decimal (n : Z) : string :=
  if n <? 0 then "-" +:+ digits (S (Z.to_nat (Z.log2 (- n)))) (- n)
  else digits (S (Z.to_nat (Z.log2 n))) n.


(** [Number.prototype.toString] on the numbers whose rendering is plain:
    [NaN], the infinities, and the integers up to 2^53 in magnitude (which a
    binary64 holds exactly and JavaScript prints digit for digit). [None] is
    a number outside this fragment. *)
Definition Number_toString (x : float) : option string :=
  match Prim2SF x with
  | S754_nan => Some "NaN"
  | S754_infinity false => Some "Infinity"
  | S754_infinity true => Some "-Infinity"
  | _ =>
      match float_to_Z x with
      | Some z => if Z.abs z <=? 2 ^ 53 then Some (decimal z) else None
      | None => None
      end
  end.

(** [Math.floor], [Math.round] (halves go up) and [Math.min] of two numbers. *)
Definition Math_floor (x : float) : float := PrimFloat.opp (Math_ceil (PrimFloat.opp x)).

Definition Math_round (x : float) : float :=
  match Prim2SF x with
  | S754_finite _ _ _ =>
      let f := Math_floor x in
      if PrimFloat.leb 0.5 (PrimFloat.sub x f) then PrimFloat.add f 1 else f
  | _ => x
  end.

Definition Math_min (x y : float) : float :=
  if PrimFloat.is_nan x then x
  else if PrimFloat.is_nan y then y
  else if PrimFloat.ltb y x then y else x.

(** Reading [a[i]] for a number [i] that holds an integer: [None] is
    [undefined], which a negative or too large index gives. *)
Definition at_Z {A : Type} (l : list A) (i : Z) : option A :=
  if 0 <=? i then l !! Z.to_nat i else None.

(** [String.prototype.startsWith], [endsWith] and [substring(start, end)]. *)
Fixpoint startsWith (p s : string) : bool :=
  match p, s with
  | EmptyString, _ => true
  | String a p', String b s' => Ascii.eqb a b && startsWith p' s'
  | String _ _, EmptyString => false
  end.

Definition endsWith (p s : string) : bool :=
  (String.length p <=? String.length s)%nat
  && String.eqb (String.substring (String.length s - String.length p) (String.length p) s) p.

Definition substring (start end_ : Z) (s : string) : string :=
  let len := Z.of_nat (String.length s) in
  let a := Z.max 0 (Z.min start len) in
  let b := Z.max 0 (Z.min end_ len) in
  String.substring (Z.to_nat (Z.min a b)) (Z.to_nat (Z.max a b - Z.min a b)) s.

(** [Number.prototype.toString(16)] on an integer. *)
Definition hexChar (d : Z) : ascii :=
  if d <? 10 then ascii_of_nat (48 + Z.to_nat d) else ascii_of_nat (87 + Z.to_nat d).

Fixpoint hexDigits (fuel : nat) (n : Z) : string :=
  match fuel with
  | O => EmptyString
  | S fuel' =>
      if n <? 16 then String (hexChar n) EmptyString
      else hexDigits fuel' (n / 16) +:+ String (hexChar (n mod 16)) EmptyString
  end.

Definition toString16 (n : Z) : string :=
  if n <? 0 then "-" +:+ hexDigits (S (Z.to_nat (Z.log2 (- n)))) (- n)
  else hexDigits (S (Z.to_nat (Z.log2 n))) n.

(** The digits of [n] with a point before the last [f] of them, padded with
    zeros to at least one digit before the point. *)
Fixpoint zeroPad (k : nat) (s : string) : string :=
  match k with
  | O => s
  | S k' => String "0" (zeroPad k' s)
  end.

Definition fixedPoint (f : nat) (n : Z) : string :=
  let m := decimal n in
  let m := zeroPad (S f - String.length m) m in
  let k := String.length m in
  if (f =? 0)%nat then m
  else String.substring 0 (k - f) m +:+ "." +:+ String.substring (k - f) f m.

(** [Number.prototype.toFixed(f)]: the decimal with [f] fraction digits
    nearest to the exact value of the number, the larger one at a tie.
    [None] is a finite number of magnitude 10^21 or more, which is written
    in exponent notation. *)
Definition Number_toFixed (f : nat) (x : float) : option string :=
  match Prim2SF x with
  | S754_nan => Some "NaN"
  | S754_infinity false => Some "Infinity"
  | S754_infinity true => Some "-Infinity"
  | S754_zero _ => Some (fixedPoint f 0)
  | S754_finite s m e =>
      let num := Z.pos m * 2 ^ Z.max e 0 in
      let den := 2 ^ Z.max (- e) 0 in
      if 10 ^ 21 * den <=? num then None
      else
        let n := (2 * num * 10 ^ Z.of_nat f + den) / (2 * den) in
        Some ((if s then "-" else "") +:+ fixedPoint f n)
  end.

End JS.

(** ** MediaInfo.ts: the segmentation planner *)

Module MediaInfo.
Import JS.

Local Open Scope float_scope.

(** The inner loop of the subdividing branch,
    [for (let i = 1; i < numOfSegmentsNeeded; i++)]: the counter is a
    binary64 like every JavaScript number. [fuel] bounds the iterations;
    [None] is a loop that has not finished within it. *)
Fixpoint subdivide (fuel : nat) (i numOfSegmentsNeeded durationOfEach lastTime : float)
  (segmentStartTimes : list float) : option (float * list float) :=
  if i <? numOfSegmentsNeeded then
    match fuel with
    | O => None
    | S fuel' =>
        let lastTime := lastTime + durationOfEach in
        subdivide fuel' (i + 1) numOfSegmentsNeeded durationOfEach lastTime
          (segmentStartTimes ++ [lastTime])
    end
  else Some (lastTime, segmentStartTimes).

(** The body of [for (const time of timeList)]. *)
Definition visit (fuel : nat) (segmentLength minSegmentLength maxSegmentLength : float)
  (st : float * list float) (time : float) : option (float * list float) :=
  let '(lastTime, segmentStartTimes) := st in
  if time - lastTime <? minSegmentLength then
    Some (lastTime, segmentStartTimes)
  else if time - lastTime <? maxSegmentLength then
    Some (time, segmentStartTimes ++ [time])
  else
    let numOfSegmentsNeeded := Math_ceil ((time - lastTime) / segmentLength) in
    let durationOfEach := (time - lastTime) / numOfSegmentsNeeded in
    match subdivide fuel 1 numOfSegmentsNeeded durationOfEach lastTime segmentStartTimes with
    | None => None
    | Some (_, segmentStartTimes) => Some (time, segmentStartTimes ++ [time])
    end.

Fixpoint visitAll (fuel : nat) (segmentLength minSegmentLength maxSegmentLength : float)
  (st : float * list float) (timeList : list float) : option (float * list float) :=
  match timeList with
  | [] => Some st
  | time :: rest =>
      match visit fuel segmentLength minSegmentLength maxSegmentLength st time with
      | None => None
      | Some st' => visitAll fuel segmentLength minSegmentLength maxSegmentLength st' rest
      end
  end.

(** [MediaInfo.convertToSegments(rawTimeList, duration, segmentLength, segmentOffset)]. *)
Definition convertToSegments (fuel : nat) (rawTimeList : list float)
  (duration segmentLength segmentOffset : float) : option (list float) :=
  let minSegmentLength := segmentLength - segmentOffset in
  let maxSegmentLength := segmentLength + segmentOffset in
  let timeList := rawTimeList ++ [duration] in
  match visitAll fuel segmentLength minSegmentLength maxSegmentLength (0, [0]) timeList with
  | None => None
  | Some (_, segmentStartTimes) =>
      let segmentStartTimes :=
        if (1 <? length segmentStartTimes)%nat then
          let segmentStartTimes := List.removelast segmentStartTimes in
          let lastSegmentLength := duration - List.last segmentStartTimes 0 in
          if maxSegmentLength <? lastSegmentLength then
            segmentStartTimes ++ [duration - lastSegmentLength / 2]
          else segmentStartTimes
        else segmentStartTimes in
      Some (segmentStartTimes ++ [duration])
  end.

(** The default arguments [segmentLength = 3.5, segmentOffset = 1.25]. *)
Definition convertToSegments_default (fuel : nat) (rawTimeList : list float) (duration : float) :
  option (list float) :=
  convertToSegments fuel rawTimeList duration 3.5 1.25.

(** Consecutive differences [b[i+1] - b[i]] of a breakpoint sequence. *)
Fixpoint differences (b : list float) : list float :=
  match b with
  | x :: (y :: _) as rest => (y - x) :: differences rest
  | _ => []
  end.

(** The differences that fall short of [segmentLength - segmentOffset]. *)
Definition shortDifferences (segmentLength segmentOffset : float) (b : list float) : list float :=
  List.filter (fun g => g <? segmentLength - segmentOffset) (differences b).

End MediaInfo.

(** ** MediaBackend.ts: one media at one quality level *)

Module MediaBackend.
Import JS.

Record QualityLevelPreset := {
  name : string;
  resolution : float;
  videoBitrate : float;
  audioBitrate : float
}.

(** [QualityLevel] without its back pointer [backend], which the owning
    media descriptor keeps (see [VideoInfo.QualityLevel]). *)
Record QualityLevelConfig := {
  preset : QualityLevelPreset;
  width : float;
  height : float
}.

Record TranscoderStatus := {
  t_head : Z;
  t_id : Z
}.

(** [deleted?: boolean]: an absent field reads as [false]. A
    [SubProcessInvocation] is known by its handle, a [nat]. *)
Record ClientStatus := {
  head : Z;
  transcoder : option nat;
  deleted : bool
}.

Definition EMPTY : Z := 0.
Definition DONE : Z := 255.

Record t := {
  config : QualityLevelConfig;
  breakpoints : list float;
  relPath : string;
  outDir : string;
  segmentStatus : list Z;
  encoderHeads : list (nat * TranscoderStatus);
  clients : list (string * ClientStatus);
  lastAssignedId : Z
}.

Definition set_segmentStatus (v : list Z) (b : t) : t :=
  {| config := config b; breakpoints := breakpoints b; relPath := relPath b; outDir := outDir b;
     segmentStatus := v; encoderHeads := encoderHeads b; clients := clients b;
     lastAssignedId := lastAssignedId b |}.

Definition set_encoderHeads (v : list (nat * TranscoderStatus)) (b : t) : t :=
  {| config := config b; breakpoints := breakpoints b; relPath := relPath b; outDir := outDir b;
     segmentStatus := segmentStatus b; encoderHeads := v; clients := clients b;
     lastAssignedId := lastAssignedId b |}.

Definition set_clients (v : list (string * ClientStatus)) (b : t) : t :=
  {| config := config b; breakpoints := breakpoints b; relPath := relPath b; outDir := outDir b;
     segmentStatus := segmentStatus b; encoderHeads := encoderHeads b; clients := v;
     lastAssignedId := lastAssignedId b |}.

Definition set_lastAssignedId (v : Z) (b : t) : t :=
  {| config := config b; breakpoints := breakpoints b; relPath := relPath b; outDir := outDir b;
     segmentStatus := segmentStatus b; encoderHeads := encoderHeads b; clients := clients b;
     lastAssignedId := v |}.

(** The object that [new MediaBackend(context, config, breakpoints, relPath,
    outDir)] leaves when it succeeds, that is for at least one breakpoint;
    the caller checks [config.backend === null]. *)
Definition create (config : QualityLevelConfig) (breakpoints : list float)
  (relPath outDir : string) : t :=
  {| config := config; breakpoints := breakpoints; relPath := relPath; outDir := outDir;
     segmentStatus := replicate (length breakpoints - 1) EMPTY;
     encoderHeads := []; clients := []; lastAssignedId := 1 |}.

(** [new MediaBackend(...)] itself: without any breakpoint,
    [new Uint8Array(breakpoints.length - 1)] is [new Uint8Array(-1)], which
    throws. *)
Definition construct (config : QualityLevelConfig) (breakpoints : list float)
  (relPath outDir : string) : result t :=
  match breakpoints with
  | [] => Throw "RangeError: Invalid typed array length: -1"
  | _ => Ok (create config breakpoints relPath outDir)
  end.

(** The number of segments, [this.breakpoints.length - 1]. *)
Definition segmentCount (b : t) : Z := Z.of_nat (length (breakpoints b)) - 1.

(** [findNextAvailableId]: the loop [for (let i = -1; i <= 250; i++)], with
    [n] iterations left. *)
Fixpoint findNextAvailableId_from (n : nat) (i : Z) (b : t) : option Z :=
  match n with
  | O => None
  | S n' =>
      let attempt := Z.rem (lastAssignedId b + i) 252 + 2 in
      if existsb (fun id => id =? attempt) (segmentStatus b) then
        findNextAvailableId_from n' (i + 1) b
      else if existsb (fun encoder => t_id encoder =? attempt) (map snd (encoderHeads b)) then
        findNextAvailableId_from n' (i + 1) b
      else Some attempt
  end.

Definition findNextAvailableId (b : t) : result (Z * t) :=
  match findNextAvailableId_from 252 (-1) b with
  | Some attempt => Ok (attempt, set_lastAssignedId attempt b)
  | None => Throw "No available Uint8 value."
  end.

(** The loop of [startTranscode] that looks for the first segment after
    [startAt] that is not [EMPTY]:
    [for (let i = startAt + 1; i < this.breakpoints.length - 1; i++)], with
    [n] iterations left. Reading a typed array out of range gives
    [undefined], which is [!== EMPTY]. *)
Fixpoint firstBusyFrom (n : nat) (i : nat) (status : list Z) (endAt : Z) : Z :=
  match n with
  | O => endAt
  | S n' =>
      match status !! i with
      | Some v => if v =? EMPTY then firstBusyFrom n' (S i) status endAt else Z.of_nat i
      | None => Z.of_nat i
      end
  end.

(** The end index [endAt] that [startTranscode(startAt)] settles on, for
    [0 <= startAt]. *)
Definition chooseEndAt (startAt : Z) (b : t) : Z :=
  let endAt := Z.min (segmentCount b) (startAt + 512) in
  firstBusyFrom (Z.to_nat (segmentCount b - (startAt + 1))) (Z.to_nat (startAt + 1))
    (segmentStatus b) endAt.

(** What [startTranscode] hands to ffmpeg, as far as the segmenting goes. *)
Record FfmpegSegmenting := {
  ss : option float;                 (* -ss, left out at segment 0 *)
  to : option float;                 (* -to breakpoints[endAt] *)
  segment_times : list float;        (* -force_key_frames and -segment_times *)
  segment_start_number : Z;
  output_pattern : string
}.

Record Started := {
  process : nat;
  endAt : Z;
  ffmpeg : FfmpegSegmenting
}.

(** [breakpoints.subarray(begin, end)]. *)
Definition subarray {A : Type} (l : list A) (begin_ end_ : nat) : list A :=
  take (end_ - begin_) (drop begin_ l).

(** [startTranscode(startAt)]; [transcoder] is the handle of the process
    that [context.exec] spawns. *)
Definition startTranscode (startAt : Z) (transcoder : nat) (b : t) : result (Started * t) :=
  if negb ((0 <=? startAt) && (startAt <? segmentCount b)) then Throw "Starting point wrong."
  else if negb (bool_decide (segmentStatus b !! Z.to_nat startAt = Some EMPTY)) then
    Throw "Segment already being encoded."
  else
    let endAt := chooseEndAt startAt b in
    let times := subarray (breakpoints b) (Z.to_nat (startAt + 1)) (Z.to_nat endAt) in
    let args :=
      {| ss := if startAt =? 0 then None else breakpoints b !! Z.to_nat startAt;
         to := breakpoints b !! Z.to_nat endAt;
         segment_times := times;
         segment_start_number := startAt;
         output_pattern := name (preset (config b)) +:+ "-%05d.ts" |} in
    match findNextAvailableId b with
    | Throw msg => Throw msg
    | Ok (encoderId, b) =>
        let status := {| t_head := startAt; t_id := encoderId |} in
        let b := set_segmentStatus (<[Z.to_nat startAt := encoderId]> (segmentStatus b)) b in
        let b := set_encoderHeads (map_set transcoder status (encoderHeads b)) b in
        Ok ({| process := transcoder; endAt := endAt; ffmpeg := args |}, b)
    end.

(** The bit rates among the arguments [startTranscode] hands to ffmpeg:
    [-b:v `${videoBitrate}k`], only for a [videoBitrate] that is truthy
    (neither 0 nor [NaN]), and [-b:a `${audioBitrate}k`]. The suffix [k] is
    ffmpeg's for thousands: the presets give their rates in kbit/s. [None]
    when a rate falls outside the fragment of [Number_toString]. *)
Definition bitrateArguments (b : t) : option (list string) :=
  let videoBitrate := videoBitrate (preset (config b)) in
  audio ← Number_toString (audioBitrate (preset (config b)));
  if PrimFloat.is_nan videoBitrate || PrimFloat.eqb videoBitrate 0 then
    Some [ "-b:a"; audio +:+ "k" ]%string
  else
    video ← Number_toString videoBitrate;
    Some [ "-b:v"; video +:+ "k"; "-b:a"; audio +:+ "k" ]%string.

(** *** Segment file names *)

(** A segment index is an integer far below 2^53, so
    [(segmentIndex + 1e5) % 1e6] is exact integer arithmetic and
    [toString()] writes the decimal numeral. *)

(** [String.prototype.substr(1)]. *)
Definition substr1 (s : string) : string :=
  match s with
  | EmptyString => EmptyString
  | String _ rest => rest
  end.

Fixpoint zeros (n : nat) : string :=
  match n with
  | O => EmptyString
  | S n' => String "0" (zeros n')
  end.

(** What ffmpeg's segment muxer substitutes for [%05d]: the decimal number,
    padded with zeros on the left to at least five characters (C [printf]). *)
Definition printf_05d (n : Z) : string :=
  let s := decimal n in
  zeros (5 - String.length s) +:+ s.

(** The file ffmpeg writes for segment [index] under the output pattern
    [<preset>-%05d.ts]. *)
Definition ffmpegFileName (presetName : string) (index : Z) : string :=
  presetName +:+ "-" +:+ printf_05d index +:+ ".ts".

(** A name that holds no directive of its own: no [%]. *)
Definition noDirective (s : string) : bool :=
  forallb (fun c => negb (Ascii.eqb c "%")) (list_ascii_of_string s).

(** The file name ffmpeg's segment muxer makes of an output pattern for the
    segment number [n], for the patterns this program uses: the one
    directive [%05d] is replaced by [printf_05d n]. [None] is a pattern
    with another [%], or without the directive. With
    [-segment_start_number startAt] the numbers are those of the segments. *)
Fixpoint expandPattern (pattern : string) (n : Z) : option string :=
  match pattern with
  | EmptyString => None
  | String c rest =>
      if Ascii.eqb c "%" then
        match rest with
        | String c1 (String c2 (String c3 tail)) =>
            if Ascii.eqb c1 "0" && Ascii.eqb c2 "5" && Ascii.eqb c3 "d" && noDirective tail
            then Some (printf_05d n +:+ tail)
            else None
        | _ => None
        end
      else String c <$> expandPattern rest n
  end.

(** The middle of the file name in [getSegment]:
    [((segmentIndex + 1e5) % 1e6).toString().substr(1)]. *)
Definition segmentSuffix (segmentIndex : Z) : string :=
  substr1 (decimal (Z.rem (segmentIndex + 100000) 1000000)).

(** [`${this.config.preset.name}-${...}.ts`] in [getSegment]. *)
Definition segmentFileName (presetName : string) (segmentIndex : Z) : string :=
  presetName +:+ "-" +:+ segmentSuffix segmentIndex +:+ ".ts".

(** *** [parseInt(segmentNumber, 16)] *)

Definition isWhiteSpace (c : ascii) : bool :=
  let n := nat_of_ascii c in
  ((n =? 32) || (n =? 9) || (n =? 10) || (n =? 11) || (n =? 12) || (n =? 13))%nat.

Definition hexDigit (c : ascii) : option Z :=
  let n := Z.of_nat (nat_of_ascii c) in
  if (48 <=? n) && (n <=? 57) then Some (n - 48)
  else if (97 <=? n) && (n <=? 102) then Some (n - 87)
  else if (65 <=? n) && (n <=? 70) then Some (n - 55)
  else None.

Fixpoint skipWhiteSpace (s : string) : string :=
  match s with
  | String c rest => if isWhiteSpace c then skipWhiteSpace rest else s
  | EmptyString => s
  end.

(** The longest prefix of hexadecimal digits, accumulated; [None] when there
    is no digit at all. *)
Fixpoint hexPrefix (s : string) (acc : option Z) : option Z :=
  match s with
  | String c rest =>
      match hexDigit c with
      | Some d => hexPrefix rest (Some (default 0 acc * 16 + d))
      | None => acc
      end
  | EmptyString => acc
  end.

Definition strip0x (s : string) : string :=
  match s with
  | String "0" (String "x" rest) => rest
  | String "0" (String "X" rest) => rest
  | _ => s
  end.

(** [parseInt(s, 16)]; [None] is [NaN]. *)
Definition parseInt16 (s : string) : option Z :=
  match skipWhiteSpace s with
  | String "-" rest => Z.opp <$> hexPrefix (strip0x rest) None
  | String "+" rest => hexPrefix (strip0x rest) None
  | rest => hexPrefix (strip0x rest) None
  end.

(** *** Clients *)

(** How the synchronous part of [getSegment] ends. *)
Inductive SegmentReply :=
| SendStatus409
| AssertionError (msg : string)
| Proceed (fileName : string) (fileReady : bool) (segmentIndex : Z).

(** The head of [getSegment]: look the client up, create its record, or
    turn a deleted client away. [None] is the early [return] after
    [response.sendStatus(409)]. *)
Definition lookupClient (clientId : string) (b : t) : t * option ClientStatus :=
  match map_get clientId (clients b) with
  | None =>
      let clientInfo := {| head := -1; transcoder := None; deleted := false |} in
      (set_clients (map_set clientId clientInfo (clients b)) b, Some clientInfo)
  | Some clientInfo =>
      if deleted clientInfo then (b, None) else (b, Some clientInfo)
  end.

(** [onGetSegment], up to the call of [recalculate]. *)
Definition onGetSegment (clientId : string) (clientInfo : ClientStatus) (segmentIndex : Z) (b : t) : t :=
  let clientInfo := {| head := segmentIndex; transcoder := transcoder clientInfo;
                       deleted := deleted clientInfo |} in
  set_clients (map_set clientId clientInfo (clients b)) b.

(** [getSegment(clientId, segmentNumber, request, response)] up to its first
    [await]. *)
Definition getSegment (clientId segmentNumber : string) (b : t) : t * SegmentReply :=
  match lookupClient clientId b with
  | (b, None) => (b, SendStatus409)
  | (b, Some clientInfo) =>
      match parseInt16 segmentNumber with
      | None => (b, AssertionError "Segment index out of range.")
      | Some n =>
          let segmentIndex := n - 1 in
          if negb ((0 <=? segmentIndex) && (segmentIndex <? segmentCount b)) then
            (b, AssertionError "Segment index out of range.")
          else
            let fileName := segmentFileName (name (preset (config b))) segmentIndex in
            let fileReady := bool_decide (segmentStatus b !! Z.to_nat segmentIndex = Some DONE) in
            (onGetSegment clientId clientInfo segmentIndex b, Proceed fileName fileReady segmentIndex)
      end
  end.

(** [removeClient(clientId)] up to its [await]; the flag tells whether the
    call goes on to recalculate and arm the one-second timer. *)
Definition removeClient (clientId : string) (b : t) : t * bool :=
  match map_get clientId (clients b) with
  | Some status =>
      if deleted status then (b, false)
      else
        let status := {| head := head status; transcoder := transcoder status; deleted := true |} in
        (set_clients (map_set clientId status (clients b)) b, true)
  | None =>
      let status := {| head := -1; transcoder := None; deleted := true |} in
      (set_clients (map_set clientId status (clients b)) b, true)
  end.

(** The timer of [removeClient], one second later:
    [this.clients.delete(clientId)]. *)
Definition removeClientTimeout (clientId : string) (b : t) : t :=
  set_clients (map_delete clientId (clients b)) b.

(** *** The handlers of a transcoder *)

(** [parseInt(s, 10)]; [None] is [NaN]. *)
Definition decDigit (c : ascii) : option Z :=
  let n := Z.of_nat (nat_of_ascii c) in
  if (48 <=? n) && (n <=? 57) then Some (n - 48) else None.

Fixpoint decPrefix (s : string) (acc : option Z) : option Z :=
  match s with
  | String c rest =>
      match decDigit c with
      | Some d => decPrefix rest (Some (default 0 acc * 10 + d))
      | None => acc
      end
  | EmptyString => acc
  end.

Definition parseInt10 (s : string) : option Z :=
  match skipWhiteSpace s with
  | String "-" rest => Z.opp <$> decPrefix rest None
  | String "+" rest => decPrefix rest None
  | rest => decPrefix rest None
  end.

(** Writing [a[i] = v] into a typed array: an index outside it is ignored. *)
Definition writeAt (i : Z) (v : Z) (a : list Z) : list Z :=
  if 0 <=? i then <[Z.to_nat i := v]> a else a.

(** [this.breakpoints[i]] inside arithmetic: [undefined] becomes [NaN]. *)
Definition breakpointAt (b : t) (i : Z) : float := default nan (at_Z (breakpoints b) i).

(** What the two handlers that [startTranscode] installs close over: the
    [transcoder], its [status] object (the very object stored in
    [encoderHeads] for as long as the transcoder is attached), [encoderId]
    and [endAt]. *)
Record Closure := {
  c_transcoder : nat;
  c_status : TranscoderStatus;
  c_encoderId : Z;
  c_endAt : Z
}.

(** The closure of the handlers that a successful [startTranscode] left
    behind, read off its results. *)
Definition handlersOf (started : Started) (b : t) : option Closure :=
  status ← map_get (process started) (encoderHeads b);
  Some {| c_transcoder := process started; c_status := status; c_encoderId := t_id status;
          c_endAt := endAt started |}.

(** [status.head = v]: the object is updated, and with it the entry of
    [encoderHeads] that holds it. *)
Definition moveHead (v : Z) (c : Closure) (b : t) : Closure * t :=
  let status := {| t_head := v; t_id := t_id (c_status c) |} in
  ({| c_transcoder := c_transcoder c; c_status := status; c_encoderId := c_encoderId c;
      c_endAt := c_endAt c |},
   match map_get (c_transcoder c) (encoderHeads b) with
   | Some _ => set_encoderHeads (map_set (c_transcoder c) status (encoderHeads b)) b
   | None => b
   end).

(** What a line of ffmpeg's segment list causes besides the new state: the
    event [emit(`${index}`, null, tsFileName)], told by the index ([None] is
    [NaN]) and the file name, and whether [transcoder.kill()] is called. *)
Record LineResult := {
  l_closure : Closure;
  l_emitted : option Z * string;
  l_kill : bool
}.

(** The handler of ['line'] on the transcoder's standard output. *)
Definition onLine (videoMaxBufferLength : float) (c : Closure) (tsFileName : string) (b : t) :
  result (LineResult * t) :=
  let presetName := name (preset (config b)) in
  if negb (startsWith (presetName +:+ "-") tsFileName && endsWith ".ts" tsFileName) then
    Throw "Unexpected segment produced by ffmpeg."
  else
    let index :=
      parseInt10 (substring (Z.of_nat (String.length presetName) + 1)
                            (Z.of_nat (String.length tsFileName) - 3) tsFileName) in
    let encoderHead := t_head (c_status c) in
    let b :=
      if bool_decide (index = Some encoderHead) then b
      else if bool_decide (at_Z (segmentStatus b) encoderHead = Some (c_encoderId c))
           then set_segmentStatus (writeAt encoderHead EMPTY (segmentStatus b)) b
           else b in
    let b :=
      match index with
      | Some i => set_segmentStatus (writeAt i DONE (segmentStatus b)) b
      | None => b
      end in
    let done_ (c : Closure) (kill : bool) (b : t) :=
      Ok ({| l_closure := c; l_emitted := (index, tsFileName); l_kill := kill |}, b) in
    match index with
    | None => done_ c true b
    | Some i =>
        if c_endAt c - 1 <=? i then done_ c false b
        else if negb (bool_decide (at_Z (segmentStatus b) (i + 1) = Some EMPTY)) then done_ c true b
        else
          let needToContinue :=
            existsb
              (fun client =>
                 bool_decide (transcoder client = Some (c_transcoder c))
                 && PrimFloat.ltb
                      (PrimFloat.sub (breakpointAt b (i + 1)) (breakpointAt b (head client)))
                      videoMaxBufferLength)
              (map snd (clients b)) in
          if needToContinue then
            let '(c, b) := moveHead (i + 1) c b in done_ c false b
          else done_ c true b
    end.

(** The [finally] handler on the transcoder's exit: the state afterwards, and
    whether the assertion held (after which [recalculate] is called). *)
Definition onExit (c : Closure) (b : t) : t * result unit :=
  let encoderHead := t_head (c_status c) in
  let b :=
    if bool_decide (at_Z (segmentStatus b) encoderHead = Some (c_encoderId c))
    then set_segmentStatus (writeAt encoderHead EMPTY (segmentStatus b)) b
    else b in
  match map_get (c_transcoder c) (encoderHeads b) with
  | Some _ => (set_encoderHeads (map_delete (c_transcoder c) (encoderHeads b)) b, Ok tt)
  | None => (b, Throw "Transcoder already detached.")
  end.

(** *** Recalculating which transcoders are needed *)

(** [EncoderHeadInfoTuple] and [ClientHeadInfoTuple]; [p_ref] is the client's
    record as the plan saw it. *)
Record EncoderUse := {
  u_process : nat;
  u_clients : list string
}.

Record Playhead := {
  p_client : string;
  firstToEncode : Z;
  bufferedLength : Z;
  p_ref : ClientStatus
}.

(** The first loop: the encoders by their heads; a second encoder at a head
    is killed. *)
Definition mapEncoders (encoderHeads : list (nat * TranscoderStatus)) :
  list (Z * EncoderUse) * list nat :=
  foldl
    (fun st entry =>
       let '(encoders, killOperations) := st in
       let '(process, status) := entry in
       match map_get (t_head status) encoders with
       | Some _ => (encoders, killOperations ++ [process])
       | None =>
           (map_set (t_head status) {| u_process := process; u_clients := [] |} encoders,
            killOperations)
       end)
    ([], []) encoderHeads.

(** The loop over the mandatory buffer range,
    [for (let i = segmentIndex; (i < this.breakpoints.length - 1) &&
    (this.breakpoints[i] - startTime < videoMinBufferLength); i++)], with [n]
    iterations left: the first segment that is not [DONE], or [-1]. *)
Fixpoint shouldStartFrom (n : nat) (i : Z) (startTime videoMinBufferLength : float) (b : t) : Z :=
  match n with
  | O => -1
  | S n' =>
      if (i <? segmentCount b)
         && PrimFloat.ltb (PrimFloat.sub (breakpointAt b i) startTime) videoMinBufferLength
      then
        if negb (bool_decide (at_Z (segmentStatus b) i = Some DONE)) then i
        else shouldStartFrom n' (i + 1) startTime videoMinBufferLength b
      else -1
  end.

(** The playhead of one client, [null] when it needs nothing. *)
Definition playheadOf (videoMinBufferLength : float) (b : t) (entry : string * ClientStatus) :
  option Playhead :=
  let '(client, value) := entry in
  if deleted value || (head value <? 0) then None
  else
    let segmentIndex := head value in
    let startTime := breakpointAt b segmentIndex in
    let shouldStartFromSegment :=
      shouldStartFrom (Z.to_nat (segmentCount b - segmentIndex)) segmentIndex startTime
        videoMinBufferLength b in
    if 0 <=? shouldStartFromSegment then
      Some {| p_client := client; firstToEncode := shouldStartFromSegment;
              bufferedLength := shouldStartFromSegment - segmentIndex; p_ref := value |}
    else None.

(** [playHead.ref.transcoder = process], on the record in the client map. *)
Definition attachClient (playHead : Playhead) (process : nat) (b : t) : t :=
  let ref := p_ref playHead in
  set_clients
    (map_set (p_client playHead)
       {| head := head ref; transcoder := Some process; deleted := deleted ref |} (clients b)) b.

(** The body of the second [filter]: a playhead joins the encoder whose head
    is at its first missing segment or one before it, or stays unresolved. *)
Definition resolve (st : list (Z * EncoderUse) * t * list Playhead) (playHead : Playhead) :
  list (Z * EncoderUse) * t * list Playhead :=
  let '(encoders, b, unresolved) := st in
  let join_ (at_ : Z) (match_ : EncoderUse) :=
    (map_set at_
       {| u_process := u_process match_; u_clients := u_clients match_ ++ [p_client playHead] |}
       encoders,
     attachClient playHead (u_process match_) b, unresolved) in
  match map_get (firstToEncode playHead) encoders with
  | Some exactMatch => join_ (firstToEncode playHead) exactMatch
  | None =>
      match map_get (firstToEncode playHead - 1) encoders with
      | Some minusOneMatch => join_ (firstToEncode playHead - 1) minusOneMatch
      | None => (encoders, b, unresolved ++ [playHead])
      end
  end.

(** [sort((a, b) => a.firstToEncode - b.firstToEncode)], a stable sort. *)
Fixpoint insertPlayhead (a : Playhead) (l : list Playhead) : list Playhead :=
  match l with
  | [] => [a]
  | b :: rest =>
      if 0 <? firstToEncode a - firstToEncode b then b :: insertPlayhead a rest else a :: l
  end.

Definition sortPlayheads (l : list Playhead) : list Playhead := foldr insertPlayhead [] l.

(** What [recalculate] has decided when it reaches
    [await Promise.all(killOperations)]. *)
Record Plan := {
  killOperations : list nat;
  unresolvedPlayheads : list Playhead
}.

(** [recalculate], up to its [await]. *)
Definition recalculatePlan (videoMinBufferLength : float) (b : t) : Plan * t :=
  let '(encoders, killOperations) := mapEncoders (encoderHeads b) in
  let playheads := omap (playheadOf videoMinBufferLength b) (clients b) in
  let '(encoders, b, unresolved) := foldl resolve (encoders, b, []) playheads in
  let unused :=
    omap (fun encoder => if (length (u_clients encoder) =? 0)%nat then Some (u_process encoder)
                         else None)
         (map snd encoders) in
  ({| killOperations := killOperations ++ unused;
      unresolvedPlayheads := sortPlayheads unresolved |}, b).

(** [current.ref.transcoder = process], in the loop of [recalculate] that
    follows its [await]: the record a playhead refers to gets the transcoder,
    here as the record of [client] in the map (a record that has left the map
    by then is changed out of sight). *)
Definition assignTranscoder (client : string) (process : nat) (b : t) : t :=
  match map_get client (clients b) with
  | Some status =>
      set_clients
        (map_set client
           {| head := head status; transcoder := Some process; deleted := deleted status |}
           (clients b)) b
  | None => b
  end.

(** *** The variant manifest *)

(** The two lines per segment, [i] counting from 1; [None] when a duration
    falls outside the fragment of [Number_toFixed]. *)
Fixpoint segmentLines (qualityLevelName : string) (i : Z) (breakpoints : list float) :
  option (list string) :=
  match breakpoints with
  | prev :: (cur :: _) as rest =>
      duration ← Number_toFixed 3 (PrimFloat.sub cur prev);
      more ← segmentLines qualityLevelName (i + 1) rest;
      Some (("#EXTINF:" +:+ duration)
              :: (qualityLevelName +:+ "." +:+ toString16 i +:+ ".ts") :: more)
  | _ => Some []
  end.

(** The lines of [getVariantManifest()], before [join(os.EOL)]. Without any
    breakpoint, [new Array((breakpoints.length - 1) * 2)] is [new Array(-2)],
    which throws. *)
Definition getVariantManifestLines (b : t) : result (option (list string)) :=
  match breakpoints b with
  | [] => Throw "RangeError: Invalid array length"
  | _ =>
      Ok (segments ← segmentLines (name (preset (config b))) 1 (breakpoints b);
          Some ([ "#EXTM3U"; "#EXT-X-PLAYLIST-TYPE:VOD"; "#EXT-X-TARGETDURATION:4.75";
                  "#EXT-X-VERSION:4"; "#EXT-X-MEDIA-SEQUENCE:0" ]%string
                  ++ segments ++ [ "#EXT-X-ENDLIST"%string ]))
  end.

End MediaBackend.

(** ** VideoInfo.ts: a video and its quality levels *)

Module VideoInfo.
Import JS.
Import MediaBackend (QualityLevelPreset, QualityLevelConfig).

Local Open Scope float_scope.

(** Stable insertion sort under a JavaScript comparator ([Array.sort]): [a]
    goes after [b] exactly when [cmp a b > 0]. *)
Fixpoint insertSorted {A : Type} (cmp : A -> A -> float) (a : A) (l : list A) : list A :=
  match l with
  | [] => [a]
  | b :: rest => if 0 <? cmp a b then b :: insertSorted cmp a rest else a :: l
  end.

Definition sortWith {A : Type} (cmp : A -> A -> float) (l : list A) : list A :=
  foldr (insertSorted cmp) [] l.

(** [x || y] on numbers: [0] and [NaN] are falsy. *)
Definition orElse (x y : float) : float :=
  if PrimFloat.is_nan x || PrimFloat.is_zero x then y else x.

Definition qualityLevelPresets : list QualityLevelPreset :=
  sortWith
    (fun a b =>
       orElse (MediaBackend.resolution b - MediaBackend.resolution a)
              (MediaBackend.videoBitrate b - MediaBackend.videoBitrate a))
    [ {| MediaBackend.name := "1080p-extra"; MediaBackend.resolution := 1080;
         MediaBackend.videoBitrate := 14400; MediaBackend.audioBitrate := 320 |};
      {| MediaBackend.name := "1080p"; MediaBackend.resolution := 1080;
         MediaBackend.videoBitrate := 9600; MediaBackend.audioBitrate := 224 |};
      {| MediaBackend.name := "720p"; MediaBackend.resolution := 720;
         MediaBackend.videoBitrate := 4800; MediaBackend.audioBitrate := 160 |};
      {| MediaBackend.name := "480p"; MediaBackend.resolution := 480;
         MediaBackend.videoBitrate := 2400; MediaBackend.audioBitrate := 128 |};
      {| MediaBackend.name := "360p"; MediaBackend.resolution := 360;
         MediaBackend.videoBitrate := 1200; MediaBackend.audioBitrate := 112 |} ].

(** [QualityLevel]: the configuration and the backend built for it, [null]
    until the first request. *)
Record QualityLevel := {
  config : QualityLevelConfig;
  backend : option MediaBackend.t
}.

Record t := {
  relPath : string;
  outDir : string;
  qualityLevels : list (string * QualityLevel);
  breakpoints : list float
}.

(** [new Map(entries)]: later entries overwrite earlier ones of the same key. *)
Definition mapFromEntries {V : Type} (entries : list (string * V)) : list (string * V) :=
  foldl (fun m kv => map_set (fst kv) (snd kv) m) [] entries.

(** The constructor, from what it reads in the ffprobe output: the duration,
    the frame size and the I-frame times. [fuel] is the planner's. *)
Definition create (fuel : nat) (relPath outDir : string)
  (duration width height : float) (rawIFrames : list float) : result t :=
  if negb (0.5 <? duration) then Throw "Video too short."
  else
    let resolution := Math_min width height in
    match MediaInfo.convertToSegments_default fuel rawIFrames duration with
    | None => Throw "planner out of fuel"
    | Some breakpoints =>
        let presets :=
          List.filter (fun preset => MediaBackend.resolution preset <=? resolution)
            qualityLevelPresets in
        let presets :=
          if (length presets =? 0)%nat then
            match List.last (map Some qualityLevelPresets) None with
            | Some p => [p]
            | None => []
            end
          else presets in
        Ok {| relPath := relPath; outDir := outDir;
              qualityLevels :=
                mapFromEntries
                  (map (fun preset =>
                          (MediaBackend.name preset,
                           {| config :=
                                {| MediaBackend.preset := preset;
                                   MediaBackend.width :=
                                     Math_round (width / resolution * MediaBackend.resolution preset);
                                   MediaBackend.height :=
                                     Math_round (height / resolution * MediaBackend.resolution preset) |};
                              backend := None |}))
                     presets);
              breakpoints := breakpoints |}
    end.

(** [getBackendByQualityLevel(qualityLevel)]: the backend, built on first
    use, and the descriptor that now holds it. *)
Definition getBackendByQualityLevel (qualityLevel : string) (v : t) :
  result (option MediaBackend.t * t) :=
  match map_get qualityLevel (qualityLevels v) with
  | None => Throw "Quality level not exists."
  | Some level =>
      match backend level with
      | Some b => Ok (Some b, v)
      | None =>
          match MediaBackend.construct (config level) (breakpoints v) (relPath v) (outDir v) with
          | Throw msg => Throw msg
          | Ok b =>
              let level := {| config := config level; backend := Some b |} in
              Ok (Some b,
                  {| relPath := relPath v; outDir := outDir v;
                     qualityLevels := map_set qualityLevel level (qualityLevels v);
                     breakpoints := breakpoints v |})
          end
      end
  end.

(** The two lines [getMasterManifest] writes for one quality level; [None]
    when a number falls outside the fragment of [Number_toString]. *)
Definition streamInf (entry : string * QualityLevel) : option (list string) :=
  let '(levelName, level) := entry in
  let preset := MediaBackend.preset (config level) in
  bandwidth ← Number_toString
    (Math_ceil ((MediaBackend.videoBitrate preset + MediaBackend.audioBitrate preset) * 1.05));
  width ← Number_toString (MediaBackend.width (config level));
  height ← Number_toString (MediaBackend.height (config level));
  Some [ "#EXT-X-STREAM-INF:BANDWIDTH=" +:+ bandwidth +:+ ",RESOLUTION=" +:+ width +:+ "x"
           +:+ height +:+ ",NAME=" +:+ levelName;
         "quality-" +:+ levelName +:+ ".m3u8" ]%string.

(** [[].concat(...entries.map(...))]: the lines of all quality levels, in
    the order of the map. *)
Fixpoint streamInfAll (entries : list (string * QualityLevel)) : option (list string) :=
  match entries with
  | [] => Some []
  | entry :: rest =>
      lines ← streamInf entry;
      more ← streamInfAll rest;
      Some (lines ++ more)
  end.

(** The lines of [getMasterManifest()], before [join(os.EOL)]. *)
Definition getMasterManifestLines (v : t) : option (list string) :=
  lines ← streamInfAll (qualityLevels v);
  Some ("#EXTM3U"%string :: lines).

(** [Array.prototype.join]. *)
Fixpoint join (sep : string) (l : list string) : string :=
  match l with
  | [] => ""
  | [x] => x
  | x :: rest => x +:+ sep +:+ join sep rest
  end.

Definition getMasterManifest (EOL : string) (v : t) : option string :=
  join EOL <$> getMasterManifestLines v.

End VideoInfo.

(** ** AudioInfo.ts: an audio file and its single backend *)

Module AudioInfo.
Import JS.

Local Open Scope float_scope.

Definition audioPreset : MediaBackend.QualityLevelPreset :=
  {| MediaBackend.name := "audio"; MediaBackend.resolution := nan;
     MediaBackend.videoBitrate := 0; MediaBackend.audioBitrate := 320 |}.

Record t := {
  relPath : string;
  outDir : string;
  backend : MediaBackend.t
}.

(** The constructor, from the duration it reads in the ffprobe output. *)
Definition create (fuel : nat) (relPath outDir : string) (duration : float) : result t :=
  if negb (0.5 <? duration) then Throw "Video too short."
  else
    match MediaInfo.convertToSegments_default fuel [] duration with
    | None => Throw "planner out of fuel"
    | Some breakpoints =>
        match MediaBackend.construct
                {| MediaBackend.preset := audioPreset; MediaBackend.width := 0;
                   MediaBackend.height := 0 |}
                breakpoints relPath outDir with
        | Throw msg => Throw msg
        | Ok backend => Ok {| relPath := relPath; outDir := outDir; backend := backend |}
        end
    end.

(** [getBackendByQualityLevel(level)]: the local [backend] is assigned only
    when the name matches, and [return backend!] hands back whatever it
    holds; [None] is [undefined]. *)
Definition getBackendByQualityLevel (level : string) (a : t) :
  result (option MediaBackend.t * t) :=
  let backend := if String.eqb (MediaBackend.name audioPreset) level then Some (backend a) else None in
  Ok (backend, a).

End AudioInfo.

(** ** HlsVod.ts: the client router *)

Module HlsVod.
Import JS.

(** A [Promise<MediaBackend>] in the client tracker, known by the lookup it
    stands for: [cachedMedia.get(type + file)] followed by
    [getBackendByQualityLevel(qualityLevel)]. A backend it is fulfilled with
    has [relPath = file] and [config.preset.name = qualityLevel]. *)
Record Lookup := {
  mediaType : string;
  file : string;
  qualityLevel : string
}.

(** How such a promise settles, which is up to the environment: fulfilled
    with the backend of its lookup; fulfilled with [undefined], which is
    what [AudioInfo.getBackendByQualityLevel] returns for a quality level
    other than ['audio']; or rejected (a bad media type, a failed probe, a
    quality level the video does not have). *)
Inductive Settled :=
| FulfilledBackend
| FulfilledUndefined
| Rejected (reason : string).

(** [backend.removeClient(clientId)], on the backend a lookup was fulfilled
    with. *)
Record RemoveClientCall := {
  onBackend : Lookup;
  removedClient : string
}.

(** The callback [existing.then(backend => { ... })] of [getBackend], with
    the promise it waits on and the variables it captures. *)
Record ThenCallback := {
  existing : Lookup;
  cb_clientId : string;
  cb_qualityLevel : string;
  cb_file : string
}.

Record Router := {
  maxClientNumber : Z;
  clientTracker : list (string * Lookup)
}.

Definition set_clientTracker (m : list (string * Lookup)) (r : Router) : Router :=
  {| maxClientNumber := maxClientNumber r; clientTracker := m |}.

(** [getBackend(clientId, type, file, qualityLevel)]: the router afterwards,
    the callbacks it leaves on tracked promises, and the promise it returns.
    In the eviction branch [victimValue] is the tracked promise, which has no
    [removeClient] method, so the call throws. *)
Definition getBackend (clientId type file qualityLevel : string) (r : Router) :
  Router * list ThenCallback * result Lookup :=
  let existing := map_get clientId (clientTracker r) in
  let r := set_clientTracker (map_delete clientId (clientTracker r)) r in
  let newLookupPromise := {| mediaType := type; file := file; qualityLevel := qualityLevel |} in
  let track (r : Router) :=
    set_clientTracker (map_set clientId newLookupPromise (clientTracker r)) r in
  match existing with
  | None =>
      if maxClientNumber r <? Z.of_nat (length (clientTracker r)) then
        match clientTracker r with
        | (victimKey, victimValue) :: _ =>
            (set_clientTracker (map_delete victimKey (clientTracker r)) r, [],
             Throw "TypeError: victimValue.removeClient is not a function")
        | [] => (r, [], Throw "TypeError: undefined is not iterable")
        end
      else (track r, [], Ok newLookupPromise)
  | Some existing =>
      (track r,
       [ {| existing := existing; cb_clientId := clientId; cb_qualityLevel := qualityLevel;
            cb_file := file |} ],
       Ok newLookupPromise)
  end.

(** The callback, once [existing] has settled: it does not run for a
    rejected promise; for [undefined] reading [backend.config] throws (inside
    the callback, so nobody sees it); for a backend, which has the
    [config.preset.name] and the [relPath] of its lookup, it calls
    [backend.removeClient(clientId)] when either differs from the request. *)
Definition thenCallback (settled : Settled) (cb : ThenCallback) : result (list RemoveClientCall) :=
  match settled with
  | Rejected _ => Ok []
  | FulfilledUndefined =>
      Throw "TypeError: Cannot read properties of undefined (reading 'config')"
  | FulfilledBackend =>
      if negb (String.eqb (HlsVod.qualityLevel (existing cb)) (cb_qualityLevel cb))
         || negb (String.eqb (HlsVod.file (existing cb)) (cb_file cb))
      then Ok [ {| onBackend := existing cb; removedClient := cb_clientId cb |} ]
      else Ok []
  end.

(** [removeClient(clientId)]. The promise it awaits is read from the tracker
    as it is at the call, [r]; what follows the [await] runs on the tracker
    as it is by then, [r']. An untracked client awaits [undefined] and
    returns; a rejected promise makes the [await] throw; a promise fulfilled
    with [undefined] returns early; only a backend is told to remove the
    client, which is then deleted from the tracker. *)
Definition removeClient (clientId : string) (settled : Settled) (r r' : Router) :
  Router * list RemoveClientCall * result unit :=
  match map_get clientId (clientTracker r) with
  | None => (r', [], Ok tt)
  | Some tracked =>
      match settled with
      | Rejected reason => (r', [], Throw reason)
      | FulfilledUndefined => (r', [], Ok tt)
      | FulfilledBackend =>
          (set_clientTracker (map_delete clientId (clientTracker r')) r',
           [ {| onBackend := tracked; removedClient := clientId |} ], Ok tt)
      end
  end.

(** [ensureType] of the routes: the letter a media type has in the keys of
    [cachedMedia]; what is not ['video'] is asserted to be ['audio']. *)
Definition ensureType (typeStr : string) : result string :=
  if String.eqb typeStr "video" then Ok "V"%string
  else if String.eqb typeStr "audio" then Ok "A"%string
  else Throw "AssertionError: Expected values to be strictly equal".

(** The [asyncConstructor] of [cachedMedia], up to the [getInstance] it
    awaits: which class it asks, and for which path. *)
Inductive MediaKind :=
| VideoKind
| AudioKind.

Definition mediaOfKey (key : string) : result (MediaKind * string) :=
  let type := match key with String c _ => String c EmptyString | EmptyString => EmptyString end in
  let path := MediaBackend.substr1 key in
  if String.eqb type "V" then Ok (VideoKind, path)
  else if String.eqb type "A" then Ok (AudioKind, path)
  else Throw "RangeError: Bad media type.".

(** What happens to the client tracker: [getBackend] for a request, the part
    of a [removeClient] that follows its [await] (called on any earlier
    tracker [r0], whatever the promise settled with), and the deletion of a
    client at any moment. *)
Inductive trackerStep : Router -> Router -> Prop :=
| tracker_getBackend clientId type file qualityLevel r :
    trackerStep r (fst (fst (getBackend clientId type file qualityLevel r)))
| tracker_removeClient clientId settled r0 r :
    trackerStep r (fst (fst (removeClient clientId settled r0 r)))
| tracker_delete clientId r :
    trackerStep r (set_clientTracker (map_delete clientId (clientTracker r)) r).

End HlsVod.

(** ** Utils.ts: the LRU map with asynchronous construction and destruction *)

Module Utils.
Import JS.

Local Open Scope nat_scope.

(** A promise is known by its index in the heap of promises. *)
Abbreviation pid := nat.

Section LruCacheMapForAsync.

(** Keys, and the values promises are fulfilled with (instances, the results
    of destructors, and [undefined]). *)
Context {K : Type} `{EqDecision K} {V : Type}.
Variable undefined : V.

(** The three constructor arguments: [cacheSize] is data; [asyncConstructor]
    and [asyncDestructor] are operations of the environment, which start
    when the map calls them and end when the environment settles the
    promise they returned. *)
Variable cacheSize : nat.

(** *** The promise runtime *)

Inductive outcome :=
| Fulfilled (v : V)
| Rejected.

(** The reactions the map attaches to its promises, one constructor per
    [then]/[catch] in the source, with the variables the closure captures.
    [derived] is the promise that the [then] or [catch] call returned.
    - [ThenConstruct]: [destruction.then(ctor, ctor)] in [get];
    - [ThenDestruct]: [info.then((info) => this.asyncDestructor(info, key))]
      in [delete];
    - [CatchForget]: [info.catch(() => { if (this.cache.get(key) === info)
      this.cache.delete(key) })] in [get]. *)
Inductive reaction :=
| ThenConstruct (key : K) (derived : pid)
| ThenDestruct (key : K) (derived : pid)
| CatchForget (key : K) (info : pid) (derived : pid).

(** A promise: pending ([None]) with the reactions registered on it, or
    settled. *)
Record promise := {
  state : option outcome;
  reactions : list reaction
}.

(** What an observer of the environment sees. *)
Inductive event :=
| ConstructorStarts (key : K)
| ConstructorEnds (key : K)
| DestructorStarts (key : K) (instance : V)
| DestructorEnds (key : K).

(** The map and the runtime around it.
    - [heap]: every promise created so far; a promise is its index.
    - [jobs]: the reaction jobs queued for promises that have settled.
    - [constructing], [destructing]: the calls of [asyncConstructor] and
      [asyncDestructor] still in flight, each with the promise that takes
      its result. A handler that returns a promise makes the derived promise
      adopt it, so the result of a call made inside a handler goes to the
      derived promise.
    - [cache], [destructions]: the two [Map]s of the class.
    - [log]: the events so far, latest first. *)
Record runtime := {
  heap : list promise;
  jobs : list (reaction * outcome);
  constructing : list (K * pid);
  destructing : list (K * pid);
  cache : list (K * pid);
  destructions : list (K * pid);
  log : list event
}.

Definition initial : runtime :=
  {| heap := []; jobs := []; constructing := []; destructing := [];
     cache := []; destructions := []; log := [] |}.

Definition set_heap (h : list promise) (s : runtime) : runtime :=
  {| heap := h; jobs := jobs s; constructing := constructing s; destructing := destructing s;
     cache := cache s; destructions := destructions s; log := log s |}.

Definition set_jobs (j : list (reaction * outcome)) (s : runtime) : runtime :=
  {| heap := heap s; jobs := j; constructing := constructing s; destructing := destructing s;
     cache := cache s; destructions := destructions s; log := log s |}.

Definition set_cache (c : list (K * pid)) (s : runtime) : runtime :=
  {| heap := heap s; jobs := jobs s; constructing := constructing s; destructing := destructing s;
     cache := c; destructions := destructions s; log := log s |}.

Definition set_destructions (d : list (K * pid)) (s : runtime) : runtime :=
  {| heap := heap s; jobs := jobs s; constructing := constructing s; destructing := destructing s;
     cache := cache s; destructions := d; log := log s |}.

(** [new Promise]: a fresh pending promise. *)
Definition alloc (s : runtime) : pid * runtime :=
  (length (heap s), set_heap (heap s ++ [ {| state := None; reactions := [] |} ]) s).

(** [src.then(...)] or [src.catch(...)]: the derived promise is fresh; the
    reaction waits on a pending [src] and is queued at once for a settled
    one. *)
Definition then_ (src : pid) (mk : pid -> reaction) (s : runtime) : pid * runtime :=
  let '(derived, s) := alloc s in
  match heap s !! src with
  | Some {| state := None; reactions := rs |} =>
      (derived, set_heap (<[src := {| state := None; reactions := rs ++ [mk derived] |}]> (heap s)) s)
  | Some {| state := Some o |} => (derived, set_jobs (jobs s ++ [(mk derived, o)]) s)
  | None => (derived, s)
  end.

(** Settling a promise queues its reactions; a promise settles once. *)
Definition settle (p : pid) (o : outcome) (s : runtime) : runtime :=
  match heap s !! p with
  | Some {| state := None; reactions := rs |} =>
      set_jobs (jobs s ++ map (fun r => (r, o)) rs)
        (set_heap (<[p := {| state := Some o; reactions := [] |}]> (heap s)) s)
  | _ => s
  end.

(** The call [this.asyncConstructor(key)] whose result goes to [p]. *)
Definition asyncConstructor (key : K) (p : pid) (s : runtime) : runtime :=
  {| heap := heap s; jobs := jobs s; constructing := constructing s ++ [(key, p)];
     destructing := destructing s; cache := cache s; destructions := destructions s;
     log := ConstructorStarts key :: log s |}.

(** The call [this.asyncDestructor(instance, key)] whose result goes to [p]. *)
Definition asyncDestructor (instance : V) (key : K) (p : pid) (s : runtime) : runtime :=
  {| heap := heap s; jobs := jobs s; constructing := constructing s;
     destructing := destructing s ++ [(key, p)]; cache := cache s;
     destructions := destructions s;
     log := DestructorStarts key instance :: log s |}.

(** *** The class *)

(** [delete(key)]. *)
Definition delete (key : K) (s : runtime) : option pid * runtime :=
  match map_get key (cache s) with
  | None => (map_get key (destructions s), s)
  | Some info =>
      let '(destruction, s) := then_ info (ThenDestruct key) s in
      let s := set_cache (map_delete key (cache s)) s in
      let s := set_destructions (map_set key destruction (destructions s)) s in
      (Some destruction, s)
  end.

(** [set(key, info)]: with the cache full, the first key in it is deleted
    (an empty cache yields the key [undefined], which nothing is stored under). *)
Definition set (key : K) (info : pid) (s : runtime) : runtime :=
  let s :=
    if cacheSize <=? length (cache s) then
      match cache s with
      | (first, _) :: _ => snd (delete first s)
      | [] => s
      end
    else s in
  set_cache (map_set key info (cache s)) s.

(** [get(key)]. *)
Definition get (key : K) (s : runtime) : pid * runtime :=
  match map_get key (cache s) with
  | None =>
      let '(info, s) :=
        match map_get key (destructions s) with
        | Some destruction => then_ destruction (ThenConstruct key) s
        | None => let '(p, s) := alloc s in (p, asyncConstructor key p s)
        end in
      let s := set key info s in
      let '(_, s) := then_ info (CatchForget key info) s in
      (info, set_cache (map_set key info (cache s)) s)
  | Some info =>
      let s := set_cache (map_delete key (cache s)) s in
      (info, set_cache (map_set key info (cache s)) s)
  end.

(** *** The event loop *)

(** Running one reaction job. *)
Definition run (r : reaction) (o : outcome) (s : runtime) : runtime :=
  match r, o with
  | ThenConstruct key derived, _ => asyncConstructor key derived s
  | ThenDestruct key derived, Fulfilled instance => asyncDestructor instance key derived s
  | ThenDestruct key derived, Rejected => settle derived Rejected s
  | CatchForget key info derived, Rejected =>
      let s :=
        if bool_decide (map_get key (cache s) = Some info)
        then set_cache (map_delete key (cache s)) s else s in
      settle derived (Fulfilled undefined) s
  | CatchForget key info derived, Fulfilled v => settle derived (Fulfilled v) s
  end.

(** One step of the system. Callers may invoke [get] and [delete] with any
    key at any moment; any queued job may run next; any operation in flight
    may end, well or badly. (The JavaScript event loop takes jobs in queue
    order and runs callers only when the queue is empty: its runs are among
    these.) *)
Inductive step : runtime -> runtime -> Prop :=
| step_get key s :
    step s (snd (get key s))
| step_delete key s :
    step s (snd (delete key s))
| step_job r o before after s :
    jobs s = before ++ (r, o) :: after ->
    step s (run r o (set_jobs (before ++ after) s))
| step_constructed key p o before after s :
    constructing s = before ++ (key, p) :: after ->
    step s
      (settle p o
         {| heap := heap s; jobs := jobs s; constructing := before ++ after;
            destructing := destructing s; cache := cache s;
            destructions := destructions s; log := ConstructorEnds key :: log s |})
| step_destructed key p o before after s :
    destructing s = before ++ (key, p) :: after ->
    step s
      (settle p o
         {| heap := heap s; jobs := jobs s; constructing := constructing s;
            destructing := before ++ after; cache := cache s;
            destructions := destructions s; log := DestructorEnds key :: log s |}).

(** The states the system can reach. *)
Inductive reachable : runtime -> Prop :=
| reachable_initial : reachable initial
| reachable_step s s' : reachable s -> step s s' -> reachable s'.

(** *** Reading the log *)

(** How many constructors (destructors) of [key] are running after the
    events of a log. *)
Fixpoint constructorsRunning (key : K) (l : list event) : nat :=
  match l with
  | [] => 0
  | ConstructorStarts k :: older =>
      if decide (k = key) then S (constructorsRunning key older) else constructorsRunning key older
  | ConstructorEnds k :: older =>
      if decide (k = key) then pred (constructorsRunning key older) else constructorsRunning key older
  | _ :: older => constructorsRunning key older
  end.

Fixpoint destructorsRunning (key : K) (l : list event) : nat :=
  match l with
  | [] => 0
  | DestructorStarts k _ :: older =>
      if decide (k = key) then S (destructorsRunning key older) else destructorsRunning key older
  | DestructorEnds k :: older =>
      if decide (k = key) then pred (destructorsRunning key older) else destructorsRunning key older
  | _ :: older => destructorsRunning key older
  end.

End LruCacheMapForAsync.

End Utils.

(** ** Utils.ts: [asyncDebounce] *)

Module AsyncDebounce.

Local Open Scope nat_scope.

Abbreviation pid := Utils.pid.

Section asyncDebounce.

(** The type parameter of [asyncDebounce<T>]: what the promise of [method]
    is fulfilled with. [method] itself is an operation of the environment:
    a call starts it and hands back a pending promise, which the environment
    settles when the operation ends. *)
Context {T : Type}.

Inductive outcome :=
| Fulfilled (v : T)
| Rejected.

(** The reactions on the promises of [debounced], with the promise each one
    settles:
    - [FinallyReset]: [method().finally(() => { inProgress = null;
      nextCall = null; })];
    - [ThenDebounced]: [inProgress.then(debounced)];
    - [Adopt]: a promise resolved with another promise takes the outcome of
      that one, once it has settled. *)
Inductive reaction :=
| FinallyReset (derived : pid)
| ThenDebounced (derived : pid)
| Adopt (derived : pid).

Record promise := {
  state : option outcome;
  reactions : list reaction
}.

(** The closure of [debounced] and the runtime around it.
    - [heap]: every promise created so far; a promise is its index.
    - [jobs]: the reaction jobs queued for promises that have settled.
    - [running]: the calls of [method] in flight, each known by the promise
      it returned.
    - [inProgress], [nextCall]: the two variables of the closure; [None] is
      [null]. *)
Record runtime := {
  heap : list promise;
  jobs : list (reaction * outcome);
  running : list pid;
  inProgress : option pid;
  nextCall : option pid
}.

Definition initial : runtime :=
  {| heap := []; jobs := []; running := []; inProgress := None; nextCall := None |}.

Definition set_heap (h : list promise) (s : runtime) : runtime :=
  {| heap := h; jobs := jobs s; running := running s; inProgress := inProgress s;
     nextCall := nextCall s |}.

Definition set_jobs (j : list (reaction * outcome)) (s : runtime) : runtime :=
  {| heap := heap s; jobs := j; running := running s; inProgress := inProgress s;
     nextCall := nextCall s |}.

Definition set_running (r : list pid) (s : runtime) : runtime :=
  {| heap := heap s; jobs := jobs s; running := r; inProgress := inProgress s;
     nextCall := nextCall s |}.

Definition set_inProgress (p : option pid) (s : runtime) : runtime :=
  {| heap := heap s; jobs := jobs s; running := running s; inProgress := p;
     nextCall := nextCall s |}.

Definition set_nextCall (p : option pid) (s : runtime) : runtime :=
  {| heap := heap s; jobs := jobs s; running := running s; inProgress := inProgress s;
     nextCall := p |}.

(** A fresh pending promise. *)
Definition alloc (s : runtime) : pid * runtime :=
  (length (heap s), set_heap (heap s ++ [ {| state := None; reactions := [] |} ]) s).

(** A reaction waits on a pending promise and is queued at once for a
    settled one. *)
Definition register (src : pid) (r : reaction) (s : runtime) : runtime :=
  match heap s !! src with
  | Some {| state := None; reactions := rs |} =>
      set_heap (<[src := {| state := None; reactions := rs ++ [r] |}]> (heap s)) s
  | Some {| state := Some o |} => set_jobs (jobs s ++ [(r, o)]) s
  | None => s
  end.

(** [src.then(...)] or [src.finally(...)]: the promise it returns is fresh. *)
Definition then_ (src : pid) (mk : pid -> reaction) (s : runtime) : pid * runtime :=
  let '(derived, s) := alloc s in
  (derived, register src (mk derived) s).

(** Settling a promise queues its reactions; a promise settles once. *)
Definition settle (p : pid) (o : outcome) (s : runtime) : runtime :=
  match heap s !! p with
  | Some {| state := None; reactions := rs |} =>
      set_jobs (jobs s ++ map (fun r => (r, o)) rs)
        (set_heap (<[p := {| state := Some o; reactions := [] |}]> (heap s)) s)
  | _ => s
  end.

(** The call [method()]: the operation starts, its promise is pending. *)
Definition method (s : runtime) : pid * runtime :=
  let '(p, s) := alloc s in
  (p, set_running (running s ++ [p]) s).

(** [debounced()]. *)
Definition debounced (s : runtime) : pid * runtime :=
  match inProgress s with
  | None =>
      let '(p, s) := method s in
      let '(derived, s) := then_ p FinallyReset s in
      (derived, set_inProgress (Some derived) s)
  | Some current =>
      match nextCall s with
      | None =>
          let '(derived, s) := then_ current ThenDebounced s in
          (derived, set_nextCall (Some derived) s)
      | Some next => (next, s)
      end
  end.

(** Running one reaction job. The callback of [finally] runs whatever the
    outcome, which then passes to the derived promise in a later job; [then]
    calls [debounced] for a fulfilled promise, and its promise takes the
    outcome of the promise [debounced] returned; a rejection skips the call
    and rejects the derived promise. *)
Definition run (r : reaction) (o : outcome) (s : runtime) : runtime :=
  match r, o with
  | FinallyReset derived, _ =>
      let s := set_inProgress None s in
      let s := set_nextCall None s in
      set_jobs (jobs s ++ [(Adopt derived, o)]) s
  | ThenDebounced derived, Fulfilled _ =>
      let '(returned, s) := debounced s in
      register returned (Adopt derived) s
  | ThenDebounced derived, Rejected => settle derived Rejected s
  | Adopt derived, _ => settle derived o s
  end.

(** One step of the system: anybody may call [debounced] at any moment; any
    queued job may run next; a call of [method] in flight may end, well or
    badly. (The JavaScript event loop takes jobs in queue order and runs
    callers only when the queue is empty: its runs are among these.) *)
Inductive step : runtime -> runtime -> Prop :=
| step_call s :
    step s (snd (debounced s))
| step_job r o before after s :
    jobs s = before ++ (r, o) :: after ->
    step s (run r o (set_jobs (before ++ after) s))
| step_methodEnds p o before after s :
    running s = before ++ p :: after ->
    step s (settle p o (set_running (before ++ after) s)).

(** The states the system can reach. *)
Inductive reachable : runtime -> Prop :=
| reachable_initial : reachable initial
| reachable_step s s' : reachable s -> step s s' -> reachable s'.

(** The steps that leave [method] alone: calls of [debounced] and jobs. *)
Inductive quietStep : runtime -> runtime -> Prop :=
| quiet_call s :
    quietStep s (snd (debounced s))
| quiet_job r o before after s :
    jobs s = before ++ (r, o) :: after ->
    quietStep s (run r o (set_jobs (before ++ after) s)).

End asyncDebounce.

End AsyncDebounce.

(** * Properties *)

(** ** Insertion-ordered maps *)

Section map_facts.
Context {K V : Type} `{EqDecision K}.
Implicit Types (k : K) (v : V) (m : list (K * V)).

Lemma map_get_set_eq k v m : JS.map_get k (JS.map_set k v m) = Some v.
Proof.
  induction m as [|[k' v'] m IH]; simpl.
  - by rewrite decide_True.
  - destruct (decide (k' = k)) as [->|Hne]; simpl.
    + by rewrite decide_True.
    + by rewrite decide_False.
Qed.

Lemma map_get_set_ne k k' v m : k <> k' -> JS.map_get k' (JS.map_set k v m) = JS.map_get k' m.
Proof.
  intros Hne. induction m as [|[k0 v0] m IH]; simpl.
  - by rewrite decide_False.
  - destruct (decide (k0 = k)) as [->|Hne0]; simpl.
    + by rewrite !decide_False.
    + destruct (decide (k0 = k')); [done | apply IH].
Qed.

Lemma map_get_delete_eq k m : JS.map_get k (JS.map_delete k m) = None.
Proof.
  induction m as [|[k0 v0] m IH]; simpl; [done |].
  destruct (decide (k0 = k)) as [->|Hne]; simpl; [done |].
  by rewrite decide_False.
Qed.

Lemma map_get_delete_ne k k' m : k <> k' -> JS.map_get k' (JS.map_delete k m) = JS.map_get k' m.
Proof.
  intros Hne. induction m as [|[k0 v0] m IH]; simpl; [done |].
  destruct (decide (k0 = k)) as [->|Hne0]; simpl.
  - by rewrite decide_False.
  - destruct (decide (k0 = k')); [done | apply IH].
Qed.

Lemma map_get_Some_in k v m : JS.map_get k m = Some v -> (k, v) ∈ m.
Proof.
  induction m as [|[k0 v0] m IH]; simpl; [done |].
  destruct (decide (k0 = k)) as [->|Hne]; intros Hg.
  - injection Hg as ->. apply list_elem_of_here.
  - apply list_elem_of_further, IH, Hg.
Qed.

End map_facts.

(** ** The segmentation planner *)

Section planner_fuel.
Local Open Scope float_scope.

Lemma subdivide_more_fuel fuel extra i k each lastTime out r :
  MediaInfo.subdivide fuel i k each lastTime out = Some r ->
  MediaInfo.subdivide (fuel + extra) i k each lastTime out = Some r.
Proof.
  revert i lastTime out. induction fuel as [|fuel IH]; intros i lastTime out; simpl.
  - destruct (i <? k) eqn:Hlt; [done |].
    intros Hr. destruct extra; simpl; by rewrite Hlt.
  - destruct (i <? k); [apply IH | done].
Qed.

Lemma visit_more_fuel fuel extra L lo hi st time r :
  MediaInfo.visit fuel L lo hi st time = Some r ->
  MediaInfo.visit (fuel + extra) L lo hi st time = Some r.
Proof.
  unfold MediaInfo.visit. destruct st as [lastTime out].
  destruct (time - lastTime <? lo); [done |].
  destruct (time - lastTime <? hi); [done |].
  destruct (MediaInfo.subdivide fuel _ _ _ _ _) as [[lt out']|] eqn:Hs; [| done].
  intros Hr. by rewrite (subdivide_more_fuel _ extra _ _ _ _ _ _ Hs).
Qed.

Lemma visitAll_more_fuel fuel extra L lo hi st timeList r :
  MediaInfo.visitAll fuel L lo hi st timeList = Some r ->
  MediaInfo.visitAll (fuel + extra) L lo hi st timeList = Some r.
Proof.
  revert st. induction timeList as [|time rest IH]; intros st; simpl; [done |].
  destruct (MediaInfo.visit fuel L lo hi st time) as [st'|] eqn:Hv; [| done].
  rewrite (visit_more_fuel _ extra _ _ _ _ _ _ Hv). apply IH.
Qed.

Lemma convertToSegments_more_fuel fuel extra rawTimeList duration L O b :
  MediaInfo.convertToSegments fuel rawTimeList duration L O = Some b ->
  MediaInfo.convertToSegments (fuel + extra) rawTimeList duration L O = Some b.
Proof.
  unfold MediaInfo.convertToSegments.
  destruct (MediaInfo.visitAll fuel _ _ _ _ _) as [[lt out]|] eqn:Hv; [| done].
  by rewrite (visitAll_more_fuel _ extra _ _ _ _ _ _ Hv).
Qed.

End planner_fuel.

(** C9. With the default segment length 3.5 and offset 1.25, the planner
    turns the I-frames 3, 6, 20 of a 31-second video into the breakpoints
    0, 3, 6, 9.5, 13, 16.5, 20, 22.75, 25.5, 28.25, 31; three iterations of
    the inner loop are all it needs. *)
Theorem convertToSegments_basic (extra : nat) :
  MediaInfo.convertToSegments_default (3 + extra) [3; 6; 20]%float 31%float
  = Some [0; 3; 6; 9.5; 13; 16.5; 20; 22.75; 25.5; 28.25; 31]%float.
Proof.
  apply convertToSegments_more_fuel. vm_compute. reflexivity.
Qed.

(** C1. At segment length 50 and offset 1, a 51-second video without
    I-frames is cut in two halves of 25.5 seconds: both differences fall
    short of the lower bound 49, and neither comes from the skipping branch. *)
Theorem convertToSegments_50_1_halves (extra : nat) :
  MediaInfo.convertToSegments (1 + extra) [] 51%float 50%float 1%float
  = Some [0; 25.5; 51]%float
  /\ MediaInfo.shortDifferences 50%float 1%float [0; 25.5; 51]%float = [25.5; 25.5]%float.
Proof.
  split.
  - apply convertToSegments_more_fuel. vm_compute. reflexivity.
  - vm_compute. reflexivity.
Qed.

(** ** Segment file names *)

Section file_names.
Import MediaBackend.
Local Open Scope Z_scope.

Lemma string_length_append (s1 s2 : string) :
  String.length (s1 +:+ s2) = (String.length s1 + String.length s2)%nat.
Proof. induction s1 as [|c s1 IH]; simpl; [done | by rewrite IH]. Qed.

Lemma substr1_length (s : string) : String.length (substr1 s) = pred (String.length s).
Proof. by destruct s. Qed.

(** A numeral has no more digits than the power of ten above the number. *)
Lemma digits_length_le (fuel : nat) : forall (n : Z) (k : nat),
  0 <= n < 10 ^ Z.of_nat k -> (1 <= k)%nat -> (String.length (JS.digits fuel n) <= k)%nat.
Proof.
  induction fuel as [|fuel IH]; intros n k Hn Hk; simpl; [lia |].
  destruct (n <? 10) eqn:Hlt; simpl; [lia |].
  apply Z.ltb_ge in Hlt.
  destruct k as [|k]; [lia |].
  rewrite string_length_append; simpl.
  assert (Hk' : (1 <= k)%nat).
  { destruct k; [| lia]. simpl in Hn. lia. }
  assert (Hdiv : 0 <= n / 10 < 10 ^ Z.of_nat k).
  { split; [apply Z.div_pos; lia |].
    apply Z.div_lt_upper_bound; [lia |].
    replace (Z.of_nat (S k)) with (Z.succ (Z.of_nat k)) in Hn by lia.
    rewrite Z.pow_succ_r in Hn by lia. lia. }
  specialize (IH _ _ Hdiv Hk'). lia.
Qed.

(** With enough fuel, a numeral has more digits than the power of ten below
    the number. *)
Lemma digits_length_ge (fuel : nat) : forall (n : Z) (k : nat),
  0 <= n < 8 ^ Z.of_nat fuel -> 10 ^ Z.of_nat k <= n ->
  (k + 1 <= String.length (JS.digits fuel n))%nat.
Proof.
  induction fuel as [|fuel IH]; intros n k Hn Hk.
  - simpl in Hn. assert (0 < 10 ^ Z.of_nat k) by (apply Z.pow_pos_nonneg; lia). lia.
  - simpl. destruct (n <? 10) eqn:Hlt; simpl.
    + apply Z.ltb_lt in Hlt. destruct k as [|k]; [lia |].
      replace (Z.of_nat (S k)) with (Z.succ (Z.of_nat k)) in Hk by lia.
      rewrite Z.pow_succ_r in Hk by lia.
      assert (0 < 10 ^ Z.of_nat k) by (apply Z.pow_pos_nonneg; lia). lia.
    + apply Z.ltb_ge in Hlt. rewrite string_length_append; simpl.
      destruct k as [|k]; [lia |].
      replace (Z.of_nat (S fuel)) with (Z.succ (Z.of_nat fuel)) in Hn by lia.
      rewrite Z.pow_succ_r in Hn by lia.
      replace (Z.of_nat (S k)) with (Z.succ (Z.of_nat k)) in Hk by lia.
      rewrite Z.pow_succ_r in Hk by lia.
      assert (Hdiv : 0 <= n / 10 < 8 ^ Z.of_nat fuel).
      { split; [apply Z.div_pos; lia |]. apply Z.div_lt_upper_bound; lia. }
      assert (Hk' : 10 ^ Z.of_nat k <= n / 10).
      { apply Z.div_le_lower_bound; lia. }
      specialize (IH _ _ Hdiv Hk'). lia.
Qed.

Lemma decimal_fuel (n : Z) : 0 <= n -> 0 <= n < 8 ^ Z.of_nat (S (Z.to_nat (Z.log2 n))).
Proof.
  intros Hn. split; [done |].
  destruct (Z.eq_dec n 0) as [->|Hne]; [simpl; lia |].
  assert (Hlog := Z.log2_spec n ltac:(lia)).
  assert (Hnn := Z.log2_nonneg n).
  replace (Z.of_nat (S (Z.to_nat (Z.log2 n)))) with (Z.succ (Z.log2 n)) by lia.
  eapply Z.lt_le_trans; [apply Hlog |].
  apply Z.pow_le_mono_l. lia.
Qed.

Lemma decimal_length_le (n : Z) (k : nat) :
  0 <= n < 10 ^ Z.of_nat k -> (1 <= k)%nat -> (String.length (JS.decimal n) <= k)%nat.
Proof.
  intros Hn Hk. unfold JS.decimal.
  destruct (n <? 0) eqn:Hneg; [apply Z.ltb_lt in Hneg; lia |].
  by apply digits_length_le.
Qed.

Lemma decimal_length_ge (n : Z) (k : nat) :
  10 ^ Z.of_nat k <= n -> (k + 1 <= String.length (JS.decimal n))%nat.
Proof.
  intros Hk. assert (0 < 10 ^ Z.of_nat k) by (apply Z.pow_pos_nonneg; lia).
  unfold JS.decimal.
  destruct (n <? 0) eqn:Hneg; [apply Z.ltb_lt in Hneg; lia |].
  apply digits_length_ge; [apply decimal_fuel; lia | done].
Qed.

Lemma string_app_cons (c : ascii) (s1 s2 : string) : String c s1 +:+ s2 = String c (s1 +:+ s2).
Proof. reflexivity. Qed.

Lemma string_app_assoc (s1 s2 s3 : string) : (s1 +:+ s2) +:+ s3 = s1 +:+ (s2 +:+ s3).
Proof.
  induction s1 as [|c s1 IH]; [done |].
  rewrite !string_app_cons. f_equal. apply IH.
Qed.

Lemma zeros_length (n : nat) : String.length (zeros n) = n.
Proof. induction n as [|n IH]; simpl; [done | by rewrite IH]. Qed.

Lemma zeros_snoc (n : nat) : zeros n +:+ "0" = zeros (S n).
Proof.
  induction n as [|n IH]; [done |].
  change (zeros (S n)) with (String "0" (zeros n)) at 1.
  rewrite string_app_cons, IH. reflexivity.
Qed.

(** Fuel beyond the number of digits changes nothing. *)
Lemma digits_fuel_irrelevant (fuel : nat) : forall (fuel' : nat) (n : Z),
  0 <= n < 8 ^ Z.of_nat (S fuel) -> 0 <= n < 8 ^ Z.of_nat (S fuel') ->
  JS.digits (S fuel) n = JS.digits (S fuel') n.
Proof.
  induction fuel as [|fuel IH]; intros fuel' n Hn Hn'.
  - change (8 ^ Z.of_nat 1) with 8 in Hn. simpl.
    destruct (n <? 10) eqn:Hlt; [done | apply Z.ltb_ge in Hlt; lia].
  - change (JS.digits (S (S fuel)) n)
      with (if n <? 10 then String (JS.digit n) EmptyString
            else JS.digits (S fuel) (n / 10) +:+ String (JS.digit (n mod 10)) EmptyString).
    change (JS.digits (S fuel') n)
      with (if n <? 10 then String (JS.digit n) EmptyString
            else JS.digits fuel' (n / 10) +:+ String (JS.digit (n mod 10)) EmptyString).
    destruct (n <? 10) eqn:Hlt; [done |].
    apply Z.ltb_ge in Hlt.
    destruct fuel' as [|fuel']; [change (8 ^ Z.of_nat 1) with 8 in Hn'; lia |].
    f_equal.
    replace (Z.of_nat (S (S fuel))) with (Z.succ (Z.of_nat (S fuel))) in Hn by lia.
    replace (Z.of_nat (S (S fuel'))) with (Z.succ (Z.of_nat (S fuel'))) in Hn' by lia.
    rewrite Z.pow_succ_r in Hn, Hn' by lia.
    apply IH; (split; [apply Z.div_pos; lia | apply Z.div_lt_upper_bound; lia]).
Qed.

Lemma decimal_small (n : Z) : 0 <= n < 10 -> JS.decimal n = String (JS.digit n) EmptyString.
Proof.
  intros Hn. unfold JS.decimal.
  destruct (n <? 0) eqn:Hneg; [apply Z.ltb_lt in Hneg; lia |].
  simpl. destruct (n <? 10) eqn:Hlt; [done | apply Z.ltb_ge in Hlt; lia].
Qed.

Lemma decimal_step (n : Z) :
  10 <= n -> JS.decimal n = JS.decimal (n / 10) +:+ String (JS.digit (n mod 10)) EmptyString.
Proof.
  intros Hn. unfold JS.decimal.
  destruct (n <? 0) eqn:Hneg; [apply Z.ltb_lt in Hneg; lia |].
  assert (Hdiv : 0 <= n / 10) by (apply Z.div_pos; lia).
  destruct (n / 10 <? 0) eqn:Hneg'; [apply Z.ltb_lt in Hneg'; lia |].
  assert (Hlog := Z.log2_spec n ltac:(lia)).
  assert (Hlog3 : 3 <= Z.log2 n) by (apply Z.log2_le_pow2; lia).
  destruct (Z.to_nat (Z.log2 n)) as [|fuel] eqn:Hfuel; [lia |].
  change (JS.digits (S (S fuel)) n)
    with (if n <? 10 then String (JS.digit n) EmptyString
          else JS.digits (S fuel) (n / 10) +:+ String (JS.digit (n mod 10)) EmptyString).
  destruct (n <? 10) eqn:Hlt; [apply Z.ltb_lt in Hlt; lia |].
  f_equal. apply digits_fuel_irrelevant; [| apply decimal_fuel; lia].
  split; [done |].
  rewrite <- Hfuel, Z2Nat.id by lia.
  rewrite Z.pow_succ_r in Hlog by lia.
  apply Z.div_lt_upper_bound; [lia |].
  assert (2 ^ Z.log2 n <= 8 ^ Z.log2 n) by (apply Z.pow_le_mono_l; lia).
  lia.
Qed.

(** The numeral of [10^k + i] is a [1] followed by the numeral of [i],
    padded with zeros to [k] digits. *)
Lemma decimal_one_then_padded (k : nat) : forall i : Z,
  0 <= i < 10 ^ Z.of_nat (S k) ->
  JS.decimal (10 ^ Z.of_nat (S k) + i)
  = String "1" (zeros (S k - String.length (JS.decimal i)) +:+ JS.decimal i).
Proof.
  induction k as [|k IH]; intros i Hi.
  - change (10 ^ Z.of_nat 1) with 10 in *.
    rewrite decimal_step by lia.
    replace ((10 + i) / 10) with 1 by (apply Z.div_unique with i; lia).
    replace ((10 + i) mod 10) with i by (apply Z.mod_unique with 1; lia).
    by rewrite (decimal_small i) by lia.
  - replace (Z.of_nat (S (S k))) with (Z.succ (Z.of_nat (S k))) in * by lia.
    rewrite Z.pow_succ_r in * by lia.
    set (P := 10 ^ Z.of_nat (S k)) in *.
    assert (HP : 0 < P) by (apply Z.pow_pos_nonneg; lia).
    rewrite decimal_step by lia.
    assert (Hdm := Z.div_mod i 10 ltac:(lia)).
    assert (Hmb := Z.mod_pos_bound i 10 ltac:(lia)).
    replace ((10 * P + i) / 10) with (P + i / 10)
      by (apply Z.div_unique with (i mod 10); lia).
    replace ((10 * P + i) mod 10) with (i mod 10)
      by (apply Z.mod_unique with (P + i / 10); lia).
    assert (Hdiv : 0 <= i / 10 < P).
    { split; [apply Z.div_pos; lia | apply Z.div_lt_upper_bound; lia]. }
    rewrite (IH _ Hdiv), string_app_cons. f_equal.
    destruct (Z.lt_ge_cases i 10) as [Hsmall|Hbig].
    + rewrite Z.div_small, Z.mod_small by lia.
      rewrite (decimal_small 0), (decimal_small i) by lia.
      change (String.length (String (JS.digit 0) "")) with 1%nat.
      change (String.length (String (JS.digit i) "")) with 1%nat.
      change (String (JS.digit 0) "") with "0"%string.
      rewrite zeros_snoc.
      by replace (S (S k - 1)) with (S (S k) - 1)%nat by lia.
    + rewrite (decimal_step i) by lia.
      rewrite string_length_append, string_app_assoc. simpl String.length.
      by replace (S (S k) - (String.length (JS.decimal (i / 10)) + 1))%nat
        with (S k - String.length (JS.decimal (i / 10)))%nat by lia.
Qed.

(** Below 100000 the suffix computed by [getSegment] is ffmpeg's [%05d],
    five characters long. *)
Lemma segmentSuffix_small (i : Z) :
  0 <= i < 100000 -> segmentSuffix i = printf_05d i /\ String.length (printf_05d i) = 5%nat.
Proof.
  intros Hi. split.
  - unfold segmentSuffix, printf_05d.
    rewrite Z.rem_small by lia.
    rewrite Z.add_comm. change 100000 with (10 ^ Z.of_nat 5) at 1.
    by rewrite decimal_one_then_padded by (change (10 ^ Z.of_nat 5) with 100000; lia).
  - unfold printf_05d. rewrite string_length_append, zeros_length.
    pose proof (decimal_length_le i 5 ltac:(change (10 ^ Z.of_nat 5) with 100000; lia) ltac:(lia)).
    lia.
Qed.

End file_names.

(** The name computed from a segment index against the name ffmpeg writes:
    the same below 100000, with five digits; from 100000 on the computed
    suffix has at most five characters and ffmpeg's number at least six. *)
Lemma segmentFileName_cases (presetName : string) (i : Z) :
  (0 <= i < 100000 ->
     MediaBackend.segmentFileName presetName i
       = presetName +:+ "-" +:+ MediaBackend.printf_05d i +:+ ".ts"
     /\ String.length (MediaBackend.printf_05d i) = 5%nat
     /\ MediaBackend.segmentFileName presetName i = MediaBackend.ffmpegFileName presetName i)
  /\ (100000 <= i ->
     MediaBackend.segmentSuffix i
       = MediaBackend.substr1 (JS.decimal (Z.rem (i + 100000) 1000000))
     /\ (String.length (MediaBackend.segmentSuffix i) <= 5)%nat
     /\ (6 <= String.length (MediaBackend.printf_05d i))%nat
     /\ MediaBackend.segmentFileName presetName i <> MediaBackend.ffmpegFileName presetName i).
Proof.
  split.
  - intros Hi. destruct (segmentSuffix_small i Hi) as [Heq Hlen].
    unfold MediaBackend.segmentFileName, MediaBackend.ffmpegFileName. by rewrite Heq.
  - intros Hi.
    assert (Hshort : (String.length (MediaBackend.segmentSuffix i) <= 5)%nat).
    { unfold MediaBackend.segmentSuffix. rewrite substr1_length.
      assert (Hrem : 0 <= Z.rem (i + 100000) 1000000 < 10 ^ Z.of_nat 6).
      { rewrite Z.rem_mod_nonneg by lia. change (10 ^ Z.of_nat 6) with 1000000.
        apply Z.mod_pos_bound. lia. }
      pose proof (decimal_length_le _ 6 Hrem ltac:(lia)). lia. }
    assert (Hlong : (6 <= String.length (MediaBackend.printf_05d i))%nat).
    { unfold MediaBackend.printf_05d. rewrite string_length_append.
      pose proof (decimal_length_ge i 5 ltac:(simpl; lia)). lia. }
    split; [done |]. split; [done |]. split; [done |].
    unfold MediaBackend.segmentFileName, MediaBackend.ffmpegFileName. intros Heq.
    apply (f_equal String.length) in Heq.
    rewrite !string_length_append in Heq. lia.
Qed.

(** ** Clients of a backend *)

Section backend_clients.
Import MediaBackend.

Lemma getSegment_409_iff (clientId segmentNumber : string) (b : t) :
  snd (getSegment clientId segmentNumber b) = SendStatus409
  <-> exists status, JS.map_get clientId (clients b) = Some status /\ deleted status = true.
Proof.
  unfold getSegment, lookupClient.
  destruct (JS.map_get clientId (clients b)) as [status|] eqn:Hget.
  - destruct (deleted status) eqn:Hdel; simpl.
    + split; [eauto | done].
    + split.
      * destruct (parseInt16 segmentNumber) as [n|]; [| done].
        by destruct (negb _).
      * intros (status' & [= <-] & Hdel'). congruence.
  - split.
    + destruct (parseInt16 segmentNumber) as [n|]; [| done].
      by destruct (negb _).
    + intros (status' & Hnone & _). done.
Qed.

End backend_clients.

(** ** Where a transcode ends *)

Section transcode_range.
Import MediaBackend.
Local Open Scope Z_scope.

(** The scan stops at the first segment that is not [EMPTY], wherever it is. *)
Lemma firstBusyFrom_first (status : list Z) (endAt : Z) (n : nat) : forall (i busy : nat),
  (i <= busy < i + n)%nat ->
  (forall j, (i <= j < busy)%nat -> status !! j = Some EMPTY) ->
  (forall v, status !! busy = Some v -> v <> EMPTY) ->
  firstBusyFrom n i status endAt = Z.of_nat busy.
Proof.
  induction n as [|n IH]; intros i busy Hrange Hempty Hbusy; [lia |].
  simpl. destruct (decide (i = busy)) as [->|Hne].
  - destruct (status !! busy) as [v|] eqn:Hv; [| done].
    destruct (v =? EMPTY) eqn:Heq; [| done].
    apply Z.eqb_eq in Heq. by destruct (Hbusy v).
  - rewrite (Hempty i) by lia. simpl.
    apply IH; [lia | intros j Hj; apply Hempty; lia | done].
Qed.

(** Without such a segment the scan keeps the clamped default. *)
Lemma firstBusyFrom_none (status : list Z) (endAt : Z) (n : nat) : forall (i : nat),
  (forall j, (i <= j < i + n)%nat -> status !! j = Some EMPTY) ->
  firstBusyFrom n i status endAt = endAt.
Proof.
  induction n as [|n IH]; intros i Hempty; [done |].
  simpl. rewrite (Hempty i) by lia. simpl.
  apply IH. intros j Hj. apply Hempty. lia.
Qed.

Lemma chooseEndAt_first_busy (startAt busy : Z) (b : t) :
  0 <= startAt -> startAt < busy < segmentCount b ->
  (forall j, startAt < j < busy -> segmentStatus b !! Z.to_nat j = Some EMPTY) ->
  (forall v, segmentStatus b !! Z.to_nat busy = Some v -> v <> EMPTY) ->
  chooseEndAt startAt b = busy.
Proof.
  intros Hs Hb Hempty Hbusy. unfold chooseEndAt.
  rewrite (firstBusyFrom_first _ _ _ _ (Z.to_nat busy)); [lia | lia | | done].
  intros j Hj. specialize (Hempty (Z.of_nat j) ltac:(lia)). by rewrite Nat2Z.id in Hempty.
Qed.

Lemma chooseEndAt_all_empty (startAt : Z) (b : t) :
  0 <= startAt ->
  (forall j, startAt < j < segmentCount b -> segmentStatus b !! Z.to_nat j = Some EMPTY) ->
  chooseEndAt startAt b = Z.min (segmentCount b) (startAt + 512).
Proof.
  intros Hs Hempty. unfold chooseEndAt. apply firstBusyFrom_none.
  intros j Hj. specialize (Hempty (Z.of_nat j) ltac:(lia)). by rewrite Nat2Z.id in Hempty.
Qed.

(** A video of 1000 segments of 3.5 seconds, of which segment 600 has been
    encoded (a client once jumped there). *)
Definition thousandSegments : t :=
  set_segmentStatus (<[600%nat := DONE]> (replicate 1000 EMPTY))
    (create
       {| preset := {| name := "720p"; resolution := 720; videoBitrate := 4800;
                       audioBitrate := 160 |};
          width := 1280; height := 720 |}
       (default [] (MediaInfo.convertToSegments_default 1000 [] 3500%float))
       "film.mkv" "out").

End transcode_range.

(** C5. In a backend of 1000 segments where only segment 600 is not
    [EMPTY], [startTranscode(0)] passes its two assertions and settles on
    the end index 600, beyond [min(1000, 0 + 512) = 512]: the scan for the
    first non-empty segment runs to the end of the video, not to the clamp. *)
Theorem startTranscode_end_beyond_clamp :
  MediaBackend.segmentCount thousandSegments = 1000
  /\ MediaBackend.segmentStatus thousandSegments !! 0%nat = Some MediaBackend.EMPTY
  /\ (exists started b',
        MediaBackend.startTranscode 0 1 thousandSegments = JS.Ok (started, b')
        /\ MediaBackend.endAt started = 600)
  /\ Z.min (MediaBackend.segmentCount thousandSegments) (0 + 512) = 512.
Proof.
  assert (Hend : match MediaBackend.startTranscode 0 1 thousandSegments with
                 | JS.Ok (started, _) => MediaBackend.endAt started =? 600
                 | JS.Throw _ => false
                 end = true) by (vm_compute; reflexivity).
  assert (Hrun : exists started b',
            MediaBackend.startTranscode 0 1 thousandSegments = JS.Ok (started, b')
            /\ MediaBackend.endAt started = 600).
  { destruct (MediaBackend.startTranscode 0 1 thousandSegments) as [[started b']|msg]; [| done].
    exists started, b'. split; [done | by apply Z.eqb_eq]. }
  split; [by vm_compute |]. split; [by vm_compute |]. split; [done | by vm_compute].
Qed.

(** ** The master manifest *)

Section master_manifest.
Import VideoInfo.
Local Open Scope nat_scope.

(** What it means for the lines of a manifest to carry, for the quality
    level at every position [i], a stream line with the bandwidth
    [bandwidthOf preset] at line [1 + 2i] and the variant URL at line
    [2 + 2i]. *)
Definition streamsCarry (bandwidthOf : MediaBackend.QualityLevelPreset -> float)
  (v : t) (lines : list string) : Prop :=
  forall i levelName level,
    qualityLevels v !! i = Some (levelName, level) ->
    exists bandwidth width height,
      JS.Number_toString (bandwidthOf (MediaBackend.preset (config level))) = Some bandwidth
      /\ JS.Number_toString (MediaBackend.width (config level)) = Some width
      /\ JS.Number_toString (MediaBackend.height (config level)) = Some height
      /\ lines !! (1 + 2 * i)
         = Some ("#EXT-X-STREAM-INF:BANDWIDTH=" +:+ bandwidth +:+ ",RESOLUTION=" +:+ width
                   +:+ "x" +:+ height +:+ ",NAME=" +:+ levelName)%string
      /\ lines !! (2 + 2 * i) = Some ("quality-" +:+ levelName +:+ ".m3u8")%string.

(** The bandwidth the code writes, in the unit of the presets (kbit/s). *)
Definition bandwidthWritten (preset : MediaBackend.QualityLevelPreset) : float :=
  JS.Math_ceil ((MediaBackend.videoBitrate preset + MediaBackend.audioBitrate preset) * 1.05)%float.

(** The same scaled by 1000. *)
Definition bandwidthTimes1000 (preset : MediaBackend.QualityLevelPreset) : float :=
  JS.Math_ceil
    ((MediaBackend.videoBitrate preset + MediaBackend.audioBitrate preset) * 1.05 * 1000)%float.

Lemma streamInfAll_lines (entries : list (string * QualityLevel)) : forall lines i levelName level,
  streamInfAll entries = Some lines ->
  entries !! i = Some (levelName, level) ->
  exists bandwidth width height,
    JS.Number_toString (bandwidthWritten (MediaBackend.preset (config level))) = Some bandwidth
    /\ JS.Number_toString (MediaBackend.width (config level)) = Some width
    /\ JS.Number_toString (MediaBackend.height (config level)) = Some height
    /\ lines !! (2 * i)
       = Some ("#EXT-X-STREAM-INF:BANDWIDTH=" +:+ bandwidth +:+ ",RESOLUTION=" +:+ width
                 +:+ "x" +:+ height +:+ ",NAME=" +:+ levelName)%string
    /\ lines !! (1 + 2 * i) = Some ("quality-" +:+ levelName +:+ ".m3u8")%string.
Proof.
  induction entries as [|[name0 level0] rest IH]; intros lines i levelName level Hall Hi; [done |].
  simpl in Hall.
  destruct (JS.Number_toString (JS.Math_ceil _)) as [bandwidth|] eqn:Hbw; [| done].
  destruct (JS.Number_toString (MediaBackend.width _)) as [width|] eqn:Hw; [| done].
  destruct (JS.Number_toString (MediaBackend.height _)) as [height|] eqn:Hh; [| done].
  simpl in Hall.
  destruct (streamInfAll rest) as [more|] eqn:Hrest; [| done].
  simpl in Hall. injection Hall as <-.
  destruct i as [|i].
  - injection Hi as <- <-. exists bandwidth, width, height. by repeat split.
  - simpl in Hi. destruct (IH more i levelName level eq_refl Hi)
      as (bandwidth' & width' & height' & Hbw' & Hw' & Hh' & Hl1 & Hl2).
    exists bandwidth', width', height'. repeat split; [done..| |].
    + by replace (2 * S i) with (S (S (2 * i))) by lia.
    + by replace (1 + 2 * S i) with (S (S (1 + 2 * i))) by lia.
Qed.

(** A 1920x1080 video of 31 seconds with I-frames at 3, 6 and 20 seconds. *)
Definition fullHdVideo : t :=
  match create 3 "film.mkv" "out" 31 1920 1080 [3; 6; 20]%float with
  | JS.Ok v => v
  | JS.Throw _ => {| relPath := ""; outDir := ""; qualityLevels := []; breakpoints := [] |}
  end.

End master_manifest.

(** What [getMasterManifest] writes. Whenever it renders, the quality level
    at position [i] of the map has its [#EXT-X-STREAM-INF] line at line
    [1 + 2i], with the number [ceil((videoBitrate + audioBitrate) * 1.05)]
    after [BANDWIDTH=], and the relative URL [quality-<preset>.m3u8] on the
    line after it. *)
Theorem getMasterManifest_bandwidth (v : VideoInfo.t) (lines : list string) :
  VideoInfo.getMasterManifestLines v = Some lines ->
  streamsCarry bandwidthWritten v lines.
Proof.
  unfold VideoInfo.getMasterManifestLines. intros Hlines.
  destruct (VideoInfo.streamInfAll (VideoInfo.qualityLevels v)) as [body|] eqn:Hbody; [| done].
  simpl in Hlines. injection Hlines as <-.
  intros i levelName level Hi.
  destruct (streamInfAll_lines _ _ _ _ _ Hbody Hi)
    as (bandwidth & width & height & Hbw & Hw & Hh & Hl1 & Hl2).
  exists bandwidth, width, height. by repeat split.
Qed.

Lemma getMasterManifest_bandwidth_witness :
  VideoInfo.getMasterManifestLines fullHdVideo
  = Some [ "#EXTM3U";
           "#EXT-X-STREAM-INF:BANDWIDTH=15456,RESOLUTION=1920x1080,NAME=1080p-extra";
           "quality-1080p-extra.m3u8";
           "#EXT-X-STREAM-INF:BANDWIDTH=10316,RESOLUTION=1920x1080,NAME=1080p";
           "quality-1080p.m3u8";
           "#EXT-X-STREAM-INF:BANDWIDTH=5208,RESOLUTION=1280x720,NAME=720p";
           "quality-720p.m3u8";
           "#EXT-X-STREAM-INF:BANDWIDTH=2655,RESOLUTION=853x480,NAME=480p";
           "quality-480p.m3u8";
           "#EXT-X-STREAM-INF:BANDWIDTH=1378,RESOLUTION=640x360,NAME=360p";
           "quality-360p.m3u8" ]%string
  /\ streamsCarry bandwidthWritten fullHdVideo
       [ "#EXTM3U";
         "#EXT-X-STREAM-INF:BANDWIDTH=15456,RESOLUTION=1920x1080,NAME=1080p-extra";
         "quality-1080p-extra.m3u8";
         "#EXT-X-STREAM-INF:BANDWIDTH=10316,RESOLUTION=1920x1080,NAME=1080p";
         "quality-1080p.m3u8";
         "#EXT-X-STREAM-INF:BANDWIDTH=5208,RESOLUTION=1280x720,NAME=720p";
         "quality-720p.m3u8";
         "#EXT-X-STREAM-INF:BANDWIDTH=2655,RESOLUTION=853x480,NAME=480p";
         "quality-480p.m3u8";
         "#EXT-X-STREAM-INF:BANDWIDTH=1378,RESOLUTION=640x360,NAME=360p";
         "quality-360p.m3u8" ]%string.
Proof.
  split; [vm_compute; reflexivity |].
  apply (getMasterManifest_bandwidth fullHdVideo). vm_compute. reflexivity.
Defined.

(** C4. For the 1920x1080 video the stream line of the preset
    [1080p-extra] reads [BANDWIDTH=15456], not the [15456000] that
    [ceil((14400 + 320) * 1.05 * 1000)] gives; and so for every preset. The
    backend of the same quality level is told to encode at [14400k] and
    [320k], that is at 14400000 and 320000 bit/s: the manifest announces a
    thousandth of the rate the streams have. *)
Lemma getMasterManifest_bandwidth_not_times_1000 :
  VideoInfo.getMasterManifestLines fullHdVideo
  = Some [ "#EXTM3U";
           "#EXT-X-STREAM-INF:BANDWIDTH=15456,RESOLUTION=1920x1080,NAME=1080p-extra";
           "quality-1080p-extra.m3u8";
           "#EXT-X-STREAM-INF:BANDWIDTH=10316,RESOLUTION=1920x1080,NAME=1080p";
           "quality-1080p.m3u8";
           "#EXT-X-STREAM-INF:BANDWIDTH=5208,RESOLUTION=1280x720,NAME=720p";
           "quality-720p.m3u8";
           "#EXT-X-STREAM-INF:BANDWIDTH=2655,RESOLUTION=853x480,NAME=480p";
           "quality-480p.m3u8";
           "#EXT-X-STREAM-INF:BANDWIDTH=1378,RESOLUTION=640x360,NAME=360p";
           "quality-360p.m3u8" ]%string
  /\ JS.Number_toString
       (bandwidthTimes1000
          {| MediaBackend.name := "1080p-extra"; MediaBackend.resolution := 1080;
             MediaBackend.videoBitrate := 14400; MediaBackend.audioBitrate := 320 |})
     = Some "15456000"%string
  /\ (forall lines,
        VideoInfo.getMasterManifestLines fullHdVideo = Some lines ->
        ~ streamsCarry bandwidthTimes1000 fullHdVideo lines)
  /\ exists b v',
       VideoInfo.getBackendByQualityLevel "1080p-extra" fullHdVideo = JS.Ok (Some b, v')
       /\ MediaBackend.bitrateArguments b = Some [ "-b:v"; "14400k"; "-b:a"; "320k" ]%string.
Proof.
  split; [vm_compute; reflexivity |]. split; [vm_compute; reflexivity |]. split.
  - intros lines Hlines Hclaim.
    destruct (Hclaim 0%nat "1080p-extra"%string
                {| VideoInfo.config :=
                     {| MediaBackend.preset :=
                          {| MediaBackend.name := "1080p-extra"; MediaBackend.resolution := 1080;
                             MediaBackend.videoBitrate := 14400;
                             MediaBackend.audioBitrate := 320 |};
                        MediaBackend.width := 1920; MediaBackend.height := 1080 |};
                   VideoInfo.backend := None |} ltac:(vm_compute; reflexivity))
      as (bandwidth & width & height & Hbw & Hw & Hh & Hl1 & _).
    vm_compute in Hlines. injection Hlines as <-.
    vm_compute in Hbw, Hw, Hh.
    injection Hbw as <-. injection Hw as <-. injection Hh as <-.
    vm_compute in Hl1. discriminate Hl1.
  - eexists _, _. split.
    + vm_compute. reflexivity.
    + vm_compute. reflexivity.
Qed.

(** ** Unknown quality levels *)

Lemma video_unknown_quality_throws (qualityLevel : string) (v : VideoInfo.t) :
  JS.map_get qualityLevel (VideoInfo.qualityLevels v) = None ->
  VideoInfo.getBackendByQualityLevel qualityLevel v = JS.Throw "Quality level not exists.".
Proof. intros Hnone. unfold VideoInfo.getBackendByQualityLevel. by rewrite Hnone. Qed.

(** C6. An audio descriptor asked for the quality level [720p], which is
    not its single preset [audio], does not fail: it returns [undefined]. *)
Theorem audio_unknown_quality_returns_undefined (a : AudioInfo.t) :
  AudioInfo.getBackendByQualityLevel "720p" a = JS.Ok (None, a).
Proof. reflexivity. Qed.

(** ** The client router *)

Section router.
Import HlsVod.

(** A new client never causes a [removeClient] call. *)
Lemma getBackend_new_client_calls_nobody clientId type file qualityLevel (r : Router) :
  JS.map_get clientId (clientTracker r) = None ->
  snd (fst (getBackend clientId type file qualityLevel r)) = [].
Proof.
  intros Hnone. unfold getBackend. rewrite Hnone.
  destruct (_ <? _)%Z; [| done]. simpl.
  by destruct (JS.map_delete clientId (clientTracker r)) as [|[victimKey victimValue] rest].
Qed.

(** The callbacks [getBackend] leaves carry the caller's own id, and so do
    the calls they make. *)
Lemma getBackend_calls_carry_caller clientId type file qualityLevel (r : Router) cb settled
    calls call :
  cb ∈ snd (fst (getBackend clientId type file qualityLevel r)) ->
  thenCallback settled cb = JS.Ok calls ->
  call ∈ calls ->
  cb_clientId cb = clientId /\ removedClient call = clientId.
Proof.
  unfold getBackend.
  destruct (JS.map_get clientId (clientTracker r)) as [backend|].
  - simpl. intros ->%list_elem_of_singleton. unfold thenCallback. simpl.
    destruct settled as [| |reason]; [| done | by intros [= <-] ?%elem_of_nil].
    destruct (_ || _); intros [= <-]; [| by intros ?%elem_of_nil].
    by intros ->%list_elem_of_singleton.
  - destruct (_ <? _)%Z; [| by intros ?%elem_of_nil]. simpl.
    destruct (JS.map_delete clientId (clientTracker r)) as [|[victimKey victimValue] rest];
      by intros ?%elem_of_nil.
Qed.

End router.

(** C2. With [maxClientNumber = 1] and one client tracked, [getBackend] for
    a second client evicts nobody and calls no [removeClient]: both clients
    are tracked afterwards. A third client then does find the tracker over
    its limit; the oldest entry is dropped, but the call meant for its
    backend throws before reaching it, and the third client is not tracked. *)
Theorem getBackend_second_client_evicts_nobody :
  let first := {| HlsVod.mediaType := "V"; HlsVod.file := "a.mkv"; HlsVod.qualityLevel := "720p" |} in
  let second := {| HlsVod.mediaType := "V"; HlsVod.file := "b.mkv"; HlsVod.qualityLevel := "480p" |} in
  let one := {| HlsVod.maxClientNumber := 1; HlsVod.clientTracker := [("c1"%string, first)] |} in
  let two := {| HlsVod.maxClientNumber := 1;
                HlsVod.clientTracker := [("c1"%string, first); ("c2"%string, second)] |} in
  Z.of_nat (length (HlsVod.clientTracker one)) = HlsVod.maxClientNumber one
  /\ HlsVod.getBackend "c2" "V" "b.mkv" "480p" one = (two, [], JS.Ok second)
  /\ HlsVod.getBackend "c3" "V" "c.mkv" "360p" two
     = ({| HlsVod.maxClientNumber := 1; HlsVod.clientTracker := [("c2"%string, second)] |}, [],
        JS.Throw "TypeError: victimValue.removeClient is not a function").
Proof. repeat split. Qed.

(** ** The LRU map: what stays in [destructions] *)

Section lru_run.
Import Utils.
Local Open Scope nat_scope.

(** One key, 7, through a whole life in a cache of 20: [get(7)] starts the
    constructor; it ends with the instance 1; the [catch] job runs;
    [delete(7)] queues the destruction; its job starts the destructor; the
    destructor ends. *)
Definition afterGet : runtime (K := nat) (V := nat) := snd (get 20 7 initial).

Definition afterConstructed : runtime (K := nat) (V := nat) :=
  settle 0 (Fulfilled 1)
    {| heap := heap afterGet; jobs := jobs afterGet; constructing := [] ++ [];
       destructing := destructing afterGet; cache := cache afterGet;
       destructions := destructions afterGet; log := ConstructorEnds 7 :: log afterGet |}.

Definition afterCatchJob : runtime (K := nat) (V := nat) :=
  run 0 (CatchForget 7 0 1) (Fulfilled 1) (set_jobs ([] ++ []) afterConstructed).

Definition afterDelete : runtime (K := nat) (V := nat) := snd (delete 7 afterCatchJob).

Definition afterDestructJob : runtime (K := nat) (V := nat) :=
  run 0 (ThenDestruct 7 2) (Fulfilled 1) (set_jobs ([] ++ []) afterDelete).

Definition afterDestructed : runtime (K := nat) (V := nat) :=
  settle 2 (Fulfilled 0)
    {| heap := heap afterDestructJob; jobs := jobs afterDestructJob;
       constructing := constructing afterDestructJob; destructing := [] ++ [];
       cache := cache afterDestructJob; destructions := destructions afterDestructJob;
       log := DestructorEnds 7 :: log afterDestructJob |}.

Lemma afterDestructed_reachable : reachable 0 20 afterDestructed.
Proof.
  eapply reachable_step; [| by apply (step_destructed 0 20 7 2 (Fulfilled 0) [] [] afterDestructJob)].
  eapply reachable_step; [| by apply (step_job 0 20 (ThenDestruct 7 2) (Fulfilled 1) [] [] afterDelete)].
  eapply reachable_step; [| apply (step_delete 0 20 7 afterCatchJob)].
  eapply reachable_step;
    [| by apply (step_job 0 20 (CatchForget 7 0 1) (Fulfilled 1) [] [] afterConstructed)].
  eapply reachable_step; [| by apply (step_constructed 0 20 7 0 (Fulfilled 1) [] [] afterGet)].
  eapply reachable_step; [apply reachable_initial | apply (step_get 0 20 7 initial)].
Qed.

End lru_run.

(** ** The LRU map: nothing leaves [destructions] *)

Section lru_destructions.
Import Utils.
Local Open Scope nat_scope.
Context {K : Type} `{EqDecision K} {V : Type}.
Variable undefined : V.
Variable cacheSize : nat.
Local Abbreviation runtime := (runtime (K := K) (V := V)).
Implicit Types (s : runtime) (key k : K).

(** [s'] still has every key of [destructions] that [s] has. *)
Definition keepsDestructions s s' : Prop :=
  forall key, is_Some (JS.map_get key (destructions s)) ->
              is_Some (JS.map_get key (destructions s')).

Lemma keepsDestructions_same s s' :
  destructions s' = destructions s -> keepsDestructions s s'.
Proof. intros Heq key. by rewrite Heq. Qed.

Lemma keepsDestructions_trans s1 s2 s3 :
  keepsDestructions s1 s2 -> keepsDestructions s2 s3 -> keepsDestructions s1 s3.
Proof. intros H12 H23 key Hk. by apply H23, H12. Qed.

Lemma map_set_keeps key k (v : pid) (m : list (K * pid)) :
  is_Some (JS.map_get key m) -> is_Some (JS.map_get key (JS.map_set k v m)).
Proof.
  destruct (decide (k = key)) as [->|Hne].
  - rewrite map_get_set_eq. by eexists.
  - by rewrite map_get_set_ne.
Qed.

Lemma then_destructions src mk s : destructions (snd (then_ src mk s)) = destructions s.
Proof.
  unfold then_, alloc. simpl.
  by destruct (_ !! src) as [[[o|] rs]|].
Qed.

Lemma settle_destructions p o s : destructions (settle p o s) = destructions s.
Proof. unfold settle. by destruct (heap s !! p) as [[[?|] ?]|]. Qed.

(** [delete] of a cached key files its destruction under the key. *)
Lemma delete_files_destruction key info s :
  JS.map_get key (cache s) = Some info ->
  exists destruction,
    fst (delete key s) = Some destruction
    /\ JS.map_get key (destructions (snd (delete key s))) = Some destruction
    /\ JS.map_get key (cache (snd (delete key s))) = None.
Proof.
  intros Hc. unfold delete. rewrite Hc.
  destruct (then_ info (ThenDestruct key) s) as [destruction s1] eqn:Ht.
  exists destruction. simpl. split; [done |]. split.
  - apply map_get_set_eq.
  - apply map_get_delete_eq.
Qed.

Lemma delete_keeps key s : keepsDestructions s (snd (delete key s)).
Proof.
  unfold delete. destruct (JS.map_get key (cache s)) as [info|]; [| by intros k Hk].
  pose proof (then_destructions info (ThenDestruct key) s) as Ht.
  destruct (then_ info (ThenDestruct key) s) as [destruction s1].
  simpl in *. intros k Hk. apply map_set_keeps. by rewrite Ht.
Qed.

Lemma set_keeps key info s : keepsDestructions s (set cacheSize key info s).
Proof.
  unfold set. destruct (cacheSize <=? length (cache s)); [| by intros k Hk].
  destruct (cache s) as [|[first info0] rest]; [by intros k Hk |].
  intros k Hk. simpl. by apply delete_keeps.
Qed.

Lemma get_keeps key s : keepsDestructions s (snd (get cacheSize key s)).
Proof.
  unfold get. destruct (JS.map_get key (cache s)) as [info|]; [by intros k Hk |].
  assert (Hfirst : exists info s1,
            match JS.map_get key (destructions s) with
            | Some destruction => then_ destruction (ThenConstruct key) s
            | None => let '(p, s0) := alloc s in (p, asyncConstructor key p s0)
            end = (info, s1) /\ destructions s1 = destructions s).
  { destruct (JS.map_get key (destructions s)) as [destruction|].
    - pose proof (then_destructions destruction (ThenConstruct key) s) as Ht.
      destruct (then_ destruction (ThenConstruct key) s) as [info s1]. by exists info, s1.
    - by eexists _, _. }
  destruct Hfirst as (info & s1 & -> & Hs1).
  pose proof (set_keeps key info s1) as Hset.
  pose proof (then_destructions info (CatchForget key info) (set cacheSize key info s1)) as Ht.
  destruct (then_ info (CatchForget key info) (set cacheSize key info s1)) as [derived s2].
  intros k Hk. cbn [snd set_cache destructions] in Ht |- *. rewrite Ht. apply Hset. by rewrite Hs1.
Qed.

Lemma run_keeps r o s : destructions (run undefined r o s) = destructions s.
Proof.
  destruct r as [key derived|key derived|key info derived], o as [v|]; simpl;
    rewrite ?settle_destructions; try done.
  by destruct (bool_decide _).
Qed.

Lemma step_keeps s s' : step undefined cacheSize s s' -> keepsDestructions s s'.
Proof.
  intros Hstep.
  destruct Hstep as [key s|key s|r o before after s Hjobs|key p o before after s Hc
                    |key p o before after s Hd].
  - apply get_keeps.
  - apply delete_keeps.
  - apply keepsDestructions_same. by rewrite run_keeps.
  - apply keepsDestructions_same. by rewrite settle_destructions.
  - apply keepsDestructions_same. by rewrite settle_destructions.
Qed.

Lemma steps_keep s s' : rtc (step undefined cacheSize) s s' -> keepsDestructions s s'.
Proof.
  induction 1 as [s|s1 s2 s3 H12 _ IH]; [by intros k Hk |].
  eapply keepsDestructions_trans; [by apply step_keeps | exact IH].
Qed.

End lru_destructions.

(** Nothing removes an entry of [destructions]. [delete] of a cached key
    files the destruction it starts under the key, and from then on,
    whatever happens (the destruction completing included), [destructions]
    has an entry for the key: a later [delete] can only replace it. *)
Theorem destructions_entry_stays
    {K : Type} `{EqDecision K} {V : Type} (undefined : V) (cacheSize : nat)
    (key : K) (info : Utils.pid) (s s' : Utils.runtime (K := K) (V := V)) :
  JS.map_get key (Utils.cache s) = Some info ->
  rtc (Utils.step undefined cacheSize) (snd (Utils.delete key s)) s' ->
  (exists destruction,
     fst (Utils.delete key s) = Some destruction
     /\ JS.map_get key (Utils.destructions (snd (Utils.delete key s))) = Some destruction)
  /\ is_Some (JS.map_get key (Utils.destructions s')).
Proof.
  intros Hc Hsteps.
  destruct (delete_files_destruction key info s Hc) as (destruction & Hd & Hm & _).
  split; [by exists destruction |].
  apply (steps_keep undefined cacheSize _ _ Hsteps). rewrite Hm. by eexists.
Qed.

Lemma destructions_entry_stays_witness :
  JS.map_get 7%nat (Utils.cache afterCatchJob) = Some 0%nat
  /\ rtc (Utils.step 0%nat 20) (snd (Utils.delete 7%nat afterCatchJob)) afterDestructed
  /\ is_Some (JS.map_get 7%nat (Utils.destructions afterDestructed)).
Proof.
  assert (Hsteps : rtc (Utils.step 0%nat 20) (snd (Utils.delete 7%nat afterCatchJob))
                     afterDestructed).
  { eapply rtc_l;
      [by apply (Utils.step_job 0%nat 20 (Utils.ThenDestruct 7%nat 2%nat) (Utils.Fulfilled 1%nat)
                   [] [] afterDelete) |].
    eapply rtc_l;
      [by apply (Utils.step_destructed 0%nat 20 7%nat 2%nat (Utils.Fulfilled 0%nat)
                   [] [] afterDestructJob) |].
    apply rtc_refl. }
  split; [reflexivity |]. split; [exact Hsteps |].
  apply (destructions_entry_stays 0%nat 20 7%nat 0%nat afterCatchJob afterDestructed);
    [reflexivity | exact Hsteps].
Defined.

(** C8. After [get(7)], the end of the constructor, [delete(7)] and the end
    of the destructor it started, no destructor is running, the destruction
    promise is settled, and [destructions] still maps 7 to it. A further
    [get(7)] then has the key in [cache] and in [destructions] at once, the
    state that the comment in [delete] rules out ("It must NOT be in
    [this.destructions] yet, since it's in [this.cache]"). *)
Theorem destructions_entry_outlives_destruction :
  Utils.reachable 0%nat 20 afterDestructed
  /\ Utils.log afterDestructed
     = [ Utils.DestructorEnds 7%nat; Utils.DestructorStarts 7%nat 1%nat;
         Utils.ConstructorEnds 7%nat; Utils.ConstructorStarts 7%nat ]
  /\ Utils.destructing afterDestructed = []
  /\ Utils.jobs afterDestructed = []
  /\ JS.map_get 7%nat (Utils.destructions afterDestructed) = Some 2%nat
  /\ Utils.state <$> Utils.heap afterDestructed !! 2%nat = Some (Some (Utils.Fulfilled 0%nat))
  /\ Utils.reachable 0%nat 20 (Utils.get 20 7%nat afterDestructed).2
  /\ is_Some (JS.map_get 7%nat (Utils.cache (Utils.get 20 7%nat afterDestructed).2))
  /\ JS.map_get 7%nat (Utils.destructions (Utils.get 20 7%nat afterDestructed).2) = Some 2%nat.
Proof.
  split; [apply afterDestructed_reachable |].
  do 5 (split; [by vm_compute |]).
  split.
  { eapply Utils.reachable_step;
      [apply afterDestructed_reachable | apply (Utils.step_get 0%nat 20 7%nat afterDestructed)]. }
  split; [by eexists; vm_compute | by vm_compute].
Qed.

(** ** The LRU map: one operation of a key at a time *)

Module LruOrder.
Import Utils.
Local Open Scope nat_scope.

Section vocabulary.
Context {K : Type} `{EqDecision K} {V : Type}.
Local Abbreviation runtime := (runtime (K := K) (V := V)).
Local Abbreviation reaction := (reaction (K := K)).
Local Abbreviation outcome := (outcome (V := V)).

Definition keyOf (r : reaction) : K :=
  match r with
  | ThenConstruct key _ | ThenDestruct key _ | CatchForget key _ _ => key
  end.

Definition derivedOf (r : reaction) : pid :=
  match r with
  | ThenConstruct _ derived | ThenDestruct _ derived | CatchForget _ _ derived => derived
  end.

(** The reactions that carry a key's chain of constructions and
    destructions on; a [catch] only watches. *)
Definition chains (r : reaction) : bool :=
  match r with
  | CatchForget _ _ _ => false
  | _ => true
  end.

(** Whatever will settle a promise: a queued job, an operation in flight, or
    a reaction waiting on another promise. *)
Inductive item :=
| IJob (r : reaction) (o : outcome)
| ICtor (key : K) (p : pid)
| IDtor (key : K) (p : pid)
| IWait (src : pid) (r : reaction).

Definition holds (s : runtime) (i : item) : Prop :=
  match i with
  | IJob r o => (r, o) ∈ jobs s
  | ICtor key p => (key, p) ∈ constructing s
  | IDtor key p => (key, p) ∈ destructing s
  | IWait src r => exists c, heap s !! src = Some c /\ r ∈ reactions c
  end.

Definition ikey (i : item) : K :=
  match i with
  | IJob r _ | IWait _ r => keyOf r
  | ICtor key _ | IDtor key _ => key
  end.

Definition target (i : item) : pid :=
  match i with
  | IJob r _ | IWait _ r => derivedOf r
  | ICtor _ p | IDtor _ p => p
  end.

Definition main (i : item) : bool :=
  match i with
  | IJob r _ | IWait _ r => chains r
  | ICtor _ _ | IDtor _ _ => true
  end.

Definition source (i : item) : option pid :=
  match i with
  | IWait src _ => Some src
  | _ => None
  end.

Definition waitTargets (h : list (promise (K := K) (V := V))) : list pid :=
  h ≫= (fun c => derivedOf <$> reactions c).

(** The promises that something will settle, one entry per item. *)
Definition allTargets (s : runtime) : list pid :=
  ((fun j => derivedOf (fst j)) <$> jobs s) ++ (snd <$> constructing s)
    ++ (snd <$> destructing s) ++ waitTargets (heap s).

Definition pending (s : runtime) (p : pid) : Prop :=
  exists rs, heap s !! p = Some {| state := None; reactions := rs |}.

Definition settled (s : runtime) (p : pid) : Prop :=
  exists o rs, heap s !! p = Some {| state := Some o; reactions := rs |}.

(** The promise at the end of a key's chain: the cached one, or else the
    latest destruction. *)
Definition tail (s : runtime) (key : K) : option pid :=
  match JS.map_get key (cache s) with
  | Some p => Some p
  | None => JS.map_get key (destructions s)
  end.

(** The order in which the promises of a key settle. [ends key] is the last
    promise of the key's chain. *)
Record ordered (ends : K -> option pid) (s : runtime) : Prop := {
  targets_pending : forall i, holds s i -> pending s (target i);
  ends_allocated : forall key p, ends key = Some p -> p < length (heap s);
  destructions_allocated :
    forall key p, JS.map_get key (destructions s) = Some p -> p < length (heap s);
  ends_driven : forall key p, ends key = Some p -> pending s p ->
    exists i, holds s i /\ main i = true /\ ikey i = key /\ target i = p;
  destructions_driven : forall key p,
    JS.map_get key (destructions s) = Some p -> pending s p ->
    exists i, holds s i /\ main i = true /\ ikey i = key /\ target i = p;
  sources_driven : forall i src, holds s i -> source i = Some src ->
    src < target i
    /\ exists j, holds s j /\ main j = true /\ ikey j = ikey i /\ target j = src;
  active_first : forall i j, holds s i -> holds s j -> main i = true -> main j = true ->
    source i = None -> ikey i = ikey j -> target i <= target j;
  waiting_next : forall i j src, holds s i -> holds s j -> main i = true -> main j = true ->
    source i = Some src -> ikey i = ikey j -> target j <= src \/ target i <= target j;
  ends_last : forall j, holds s j -> main j = true ->
    exists p, ends (ikey j) = Some p /\ pending s p /\ target j <= p;
  catch_on_info : forall src key info d, holds s (IWait src (CatchForget key info d)) -> src = info;
  catch_after_info : forall key info d o, holds s (IJob (CatchForget key info d) o) -> settled s info
}.

(** The log agrees with the operations in flight. *)
Definition logged (s : runtime) : Prop :=
  forall key,
    constructorsRunning key (log s) = length (filter (fun e => fst e = key) (constructing s))
    /\ destructorsRunning key (log s) = length (filter (fun e => fst e = key) (destructing s)).

(** A constructor of a key starts only when neither a constructor nor a
    destructor of the key is running, and so does a destructor. *)
Fixpoint serialised (key : K) (l : list (event (K := K) (V := V))) : Prop :=
  match l with
  | [] => True
  | e :: older =>
      serialised key older
      /\ match e with
         | ConstructorStarts k | DestructorStarts k _ =>
             k = key -> constructorsRunning key older = 0 /\ destructorsRunning key older = 0
         | _ => True
         end
  end.

(** The invariant, relative to the ends of the chains, and with the ends
    that the two maps give. *)
Definition coherent (ends : K -> option pid) (s : runtime) : Prop :=
  NoDup (allTargets s) /\ ordered ends s /\ logged s /\ forall key, serialised key (log s).

Definition consistent (s : runtime) : Prop := coherent (tail s) s.

End vocabulary.

Section facts.
Context {K : Type} `{EqDecision K} {V : Type}.
Local Abbreviation runtime := (runtime (K := K) (V := V)).
Local Abbreviation reaction := (reaction (K := K)).
Local Abbreviation outcome := (outcome (V := V)).
Local Abbreviation promise := (promise (K := K) (V := V)).
Local Abbreviation item := (item (K := K) (V := V)).
Implicit Types (s : runtime) (i j : item) (p q d src : pid) (r : reaction) (o : outcome).

Lemma pending_allocated s p : pending s p -> p < length (heap s).
Proof. intros [rs Hp]. by apply lookup_lt_Some in Hp. Qed.

Lemma pending_not_settled s p : pending s p -> settled s p -> False.
Proof. intros [rs Hp] (o & rs' & Hs). congruence. Qed.

Lemma holds_target s i : holds s i -> target i ∈ allTargets s.
Proof.
  unfold allTargets. destruct i as [r o|key p|key p|src r]; simpl; intros Hi.
  - apply elem_of_app. left. apply list_elem_of_fmap. by exists (r, o).
  - apply elem_of_app. right. apply elem_of_app. left. apply list_elem_of_fmap. by exists (key, p).
  - apply elem_of_app. right. apply elem_of_app. right. apply elem_of_app. left.
    apply list_elem_of_fmap. by exists (key, p).
  - destruct Hi as (c & Hc & Hr).
    apply elem_of_app. right. apply elem_of_app. right. apply elem_of_app. right.
    unfold waitTargets. apply list_elem_of_bind. exists c. split.
    + apply list_elem_of_fmap. by exists r.
    + by apply list_elem_of_lookup_2 in Hc.
Qed.

Lemma NoDup_fmap_eq {A B} (f : A -> B) (l : list A) x y :
  NoDup (f <$> l) -> x ∈ l -> y ∈ l -> f x = f y -> x = y.
Proof.
  induction l as [|a l IH]; simpl; intros Hnd Hx Hy Hf; [by apply elem_of_nil in Hx |].
  apply NoDup_cons in Hnd as [Hna Hnd].
  apply elem_of_cons in Hx as [->|Hx], Hy as [->|Hy]; [done | | | by apply IH].
  - destruct Hna. rewrite Hf. by apply list_elem_of_fmap_2.
  - destruct Hna. rewrite <- Hf. by apply list_elem_of_fmap_2.
Qed.

Lemma waitTargets_unique (h : list promise) a b ca cb t :
  NoDup (waitTargets h) -> h !! a = Some ca -> h !! b = Some cb ->
  t ∈ derivedOf <$> reactions ca -> t ∈ derivedOf <$> reactions cb -> a = b.
Proof.
  revert a b. induction h as [|c h IH]; intros a b Hnd Ha Hb Hta Htb; [done |].
  unfold waitTargets in Hnd. simpl in Hnd. apply NoDup_app in Hnd as (Hc & Hdisj & Hnd).
  destruct a as [|a], b as [|b]; simpl in *.
  - done.
  - injection Ha as ->. destruct (Hdisj t Hta).
    apply list_elem_of_bind. exists cb. split; [done | by apply list_elem_of_lookup_2 in Hb].
  - injection Hb as ->. destruct (Hdisj t Htb).
    apply list_elem_of_bind. exists ca. split; [done | by apply list_elem_of_lookup_2 in Ha].
  - f_equal. by apply IH.
Qed.

Lemma waitTargets_cell (h : list promise) a c :
  NoDup (waitTargets h) -> h !! a = Some c -> NoDup (derivedOf <$> reactions c).
Proof.
  revert a. induction h as [|c0 h IH]; intros a Hnd Ha; [done |].
  unfold waitTargets in Hnd. simpl in Hnd. apply NoDup_app in Hnd as (Hc & _ & Hnd).
  destruct a as [|a]; simpl in Ha; [by injection Ha as -> | by eapply IH].
Qed.

(** No promise has two items. *)
Lemma item_unique s i j :
  NoDup (allTargets s) -> holds s i -> holds s j -> target i = target j -> i = j.
Proof.
  unfold allTargets. intros Hnd Hi Hj Heq.
  apply NoDup_app in Hnd as (Hjobs & Hd1 & Hnd).
  apply NoDup_app in Hnd as (Hctor & Hd2 & Hnd).
  apply NoDup_app in Hnd as (Hdtor & Hd3 & Hwait).
  assert (Hin := fun i' Hi' => holds_target s i' Hi'). unfold allTargets in Hin.
  destruct i as [r o|key p|key p|src r], j as [r' o'|key' p'|key' p'|src' r'];
    simpl in Hi, Hj, Heq.
  - pose proof (NoDup_fmap_eq _ _ _ _ Hjobs Hi Hj Heq) as Hpair. by injection Hpair as -> ->.
  - destruct (Hd1 (derivedOf r)); [apply list_elem_of_fmap; by exists (r, o) |].
    rewrite Heq. apply elem_of_app. left. apply list_elem_of_fmap. by exists (key', p').
  - destruct (Hd1 (derivedOf r)); [apply list_elem_of_fmap; by exists (r, o) |].
    rewrite Heq. apply elem_of_app. right. apply elem_of_app. left.
    apply list_elem_of_fmap. by exists (key', p').
  - destruct (Hd1 (derivedOf r)); [apply list_elem_of_fmap; by exists (r, o) |].
    rewrite Heq. pose proof (holds_target s (IWait src' r') Hj) as Ht. unfold allTargets in Ht.
    apply elem_of_app. right. apply elem_of_app. right.
    destruct Hj as (c & Hc & Hr). unfold waitTargets. apply list_elem_of_bind. exists c.
    split; [apply list_elem_of_fmap; by exists r' | by apply list_elem_of_lookup_2 in Hc].
  - destruct (Hd1 (derivedOf r')); [apply list_elem_of_fmap; by exists (r', o') |].
    rewrite <- Heq. apply elem_of_app. left. apply list_elem_of_fmap. by exists (key, p).
  - pose proof (NoDup_fmap_eq _ _ _ _ Hctor Hi Hj Heq) as Hpair. by injection Hpair as -> ->.
  - destruct (Hd2 p); [apply list_elem_of_fmap; by exists (key, p) |].
    rewrite Heq. apply elem_of_app. left. apply list_elem_of_fmap. by exists (key', p').
  - destruct (Hd2 p); [apply list_elem_of_fmap; by exists (key, p) |].
    rewrite Heq. apply elem_of_app. right.
    destruct Hj as (c & Hc & Hr). unfold waitTargets. apply list_elem_of_bind. exists c.
    split; [apply list_elem_of_fmap; by exists r' | by apply list_elem_of_lookup_2 in Hc].
  - destruct (Hd1 (derivedOf r')); [apply list_elem_of_fmap; by exists (r', o') |].
    rewrite <- Heq. apply elem_of_app. right. apply elem_of_app. left.
    apply list_elem_of_fmap. by exists (key, p).
  - destruct (Hd2 p'); [apply list_elem_of_fmap; by exists (key', p') |].
    rewrite <- Heq. apply elem_of_app. left. apply list_elem_of_fmap. by exists (key, p).
  - pose proof (NoDup_fmap_eq _ _ _ _ Hdtor Hi Hj Heq) as Hpair. by injection Hpair as -> ->.
  - destruct (Hd3 p); [apply list_elem_of_fmap; by exists (key, p) |].
    rewrite Heq.
    destruct Hj as (c & Hc & Hr). unfold waitTargets. apply list_elem_of_bind. exists c.
    split; [apply list_elem_of_fmap; by exists r' | by apply list_elem_of_lookup_2 in Hc].
  - destruct (Hd1 (derivedOf r')); [apply list_elem_of_fmap; by exists (r', o') |].
    rewrite <- Heq. apply elem_of_app. right. apply elem_of_app. right.
    destruct Hi as (c & Hc & Hr). unfold waitTargets. apply list_elem_of_bind. exists c.
    split; [apply list_elem_of_fmap; by exists r | by apply list_elem_of_lookup_2 in Hc].
  - destruct (Hd2 p'); [apply list_elem_of_fmap; by exists (key', p') |].
    rewrite <- Heq. apply elem_of_app. right.
    destruct Hi as (c & Hc & Hr). unfold waitTargets. apply list_elem_of_bind. exists c.
    split; [apply list_elem_of_fmap; by exists r | by apply list_elem_of_lookup_2 in Hc].
  - destruct (Hd3 p'); [apply list_elem_of_fmap; by exists (key', p') |].
    rewrite <- Heq.
    destruct Hi as (c & Hc & Hr). unfold waitTargets. apply list_elem_of_bind. exists c.
    split; [apply list_elem_of_fmap; by exists r | by apply list_elem_of_lookup_2 in Hc].
  - destruct Hi as (c & Hc & Hr), Hj as (c' & Hc' & Hr').
    assert (src = src') as <-.
    { eapply (waitTargets_unique _ _ _ c c' (derivedOf r)); [done..| |].
      - apply list_elem_of_fmap. by exists r.
      - rewrite Heq. apply list_elem_of_fmap. by exists r'. }
    assert (c' = c) as -> by congruence.
    f_equal. eapply NoDup_fmap_eq; [by eapply waitTargets_cell | done..].
Qed.


(** *** How the primitive operations change the items *)

Lemma perm_last4 {A} (a b c w w' : list A) t :
  w' ≡ₚ t :: w -> a ++ b ++ c ++ w' ≡ₚ t :: a ++ b ++ c ++ w.
Proof. intros ->. by rewrite <- !Permutation_middle. Qed.

Lemma perm_first4 {A} (a a' b c w : list A) t :
  a' ≡ₚ t :: a -> a' ++ b ++ c ++ w ≡ₚ t :: a ++ b ++ c ++ w.
Proof. by intros ->. Qed.

Lemma perm_second4 {A} (a b b' c w : list A) t :
  b' ≡ₚ t :: b -> a ++ b' ++ c ++ w ≡ₚ t :: a ++ b ++ c ++ w.
Proof. intros ->. simpl. by rewrite <- !Permutation_middle. Qed.

Lemma perm_third4 {A} (a b c c' w : list A) t :
  c' ≡ₚ t :: c -> a ++ b ++ c' ++ w ≡ₚ t :: a ++ b ++ c ++ w.
Proof. intros ->. simpl. by rewrite <- !Permutation_middle. Qed.

Lemma waitTargets_app (h1 h2 : list promise) :
  waitTargets (h1 ++ h2) = waitTargets h1 ++ waitTargets h2.
Proof. unfold waitTargets. apply bind_app. Qed.

Lemma waitTargets_cons (c : promise) (h : list promise) :
  waitTargets (c :: h) = (derivedOf <$> reactions c) ++ waitTargets h.
Proof. reflexivity. Qed.

Lemma waitTargets_insert (h : list promise) p c c' :
  h !! p = Some c ->
  waitTargets (<[p := c']> h) ++ (derivedOf <$> reactions c)
  ≡ₚ waitTargets h ++ (derivedOf <$> reactions c').
Proof.
  intros Hp. pose proof (lookup_lt_Some _ _ _ Hp) as Hlt.
  rewrite insert_take_drop by done.
  rewrite <- (take_drop_middle h p c Hp) at 3.
  rewrite !waitTargets_app, !waitTargets_cons.
  set (A := waitTargets (take p h)). set (B := waitTargets (drop (S p) h)).
  set (X := derivedOf <$> reactions c). set (X' := derivedOf <$> reactions c').
  rewrite <- !(assoc_L (++)).
  apply Permutation_app_head.
  rewrite (comm (++) X' (B ++ X)), <- (assoc_L (++)).
  rewrite (comm (++) X (B ++ X')), <- (assoc_L (++)).
  apply Permutation_app_head. apply (comm (++)).
Qed.

Lemma holds_wait_lookup s src r :
  holds s (IWait src r) <-> exists c, heap s !! src = Some c /\ r ∈ reactions c.
Proof. done. Qed.

(** [then_] on a pending source registers a waiting reaction. *)
Section then_pending.
Variables (s : runtime) (src : pid) (mk : pid -> reaction) (rs : list reaction).
Hypothesis Hsrc : heap s !! src = Some {| state := None; reactions := rs |}.
Let d := length (heap s).
Let s' := snd (then_ src mk s).

Lemma then_pending_eq :
  then_ src mk s
  = (d, set_heap (<[src := {| state := None; reactions := rs ++ [mk d] |}]>
                    (heap s ++ [ {| state := None; reactions := [] |} ])) s).
Proof.
  unfold then_, alloc. simpl.
  rewrite lookup_app_l by (eapply lookup_lt_Some; exact Hsrc). by rewrite Hsrc.
Qed.

Lemma then_pending_lookup q c :
  heap s' !! q = Some c <->
  (q = src /\ c = {| state := None; reactions := rs ++ [mk d] |})
  \/ (q <> src /\ heap s !! q = Some c)
  \/ (q = d /\ c = {| state := None; reactions := [] |}).
Proof.
  unfold s'. rewrite then_pending_eq. simpl.
  pose proof (lookup_lt_Some _ _ _ Hsrc) as Hlt.
  destruct (decide (q = src)) as [->|Hne].
  - rewrite list_lookup_insert_eq by (rewrite length_app; simpl; lia).
    split; [intros [= <-]; by left | intros [[_ ->]|[[? _]|[? _]]]; [done | done | lia]].
  - rewrite list_lookup_insert_ne by done.
    destruct (decide (q < length (heap s))) as [Hq|Hq].
    + rewrite lookup_app_l by done.
      split; [by right; left | intros [[? _]|[[_ ?]|[? _]]]; [done | done | lia]].
    + destruct (decide (q = d)) as [->|Hqd].
      * rewrite lookup_app_r by done. replace (d - length (heap s)) with 0 by (unfold d; lia).
        simpl. split; [intros [= <-]; by right; right |].
        intros [[? _]|[[_ Hc]|[_ ->]]]; [done | | done].
        apply lookup_lt_Some in Hc. lia.
      * rewrite lookup_ge_None_2 by (rewrite length_app; simpl; unfold d in Hqd; lia).
        split; [done |]. intros [[? _]|[[_ Hc]|[? _]]]; [done | | done].
        apply lookup_lt_Some in Hc. lia.
Qed.

Lemma then_pending_holds i : holds s' i <-> holds s i \/ i = IWait src (mk d).
Proof.
  destruct i as [r o|key p|key p|src0 r].
  - unfold s'. rewrite then_pending_eq. simpl. split; [by left | by intros [?|?]].
  - unfold s'. rewrite then_pending_eq. simpl. split; [by left | by intros [?|?]].
  - unfold s'. rewrite then_pending_eq. simpl. split; [by left | by intros [?|?]].
  - rewrite !holds_wait_lookup. split.
    + intros (c & Hc & Hr). apply then_pending_lookup in Hc as [[-> ->]|[[Hne Hc]|[-> ->]]].
      * simpl in Hr. apply elem_of_app in Hr as [Hr|Hr%list_elem_of_singleton].
        -- left. eauto.
        -- right. by subst.
      * left. eauto.
      * by apply elem_of_nil in Hr.
    + intros [(c & Hc & Hr)|[= -> ->]].
      * destruct (decide (src0 = src)) as [->|Hne].
        -- exists {| state := None; reactions := rs ++ [mk d] |}. split.
           ++ apply then_pending_lookup. by left.
           ++ simpl. apply elem_of_app. left. rewrite Hsrc in Hc. by injection Hc as <-.
        -- exists c. split; [| done]. apply then_pending_lookup. right. by left.
      * exists {| state := None; reactions := rs ++ [mk d] |}. split.
        -- apply then_pending_lookup. by left.
        -- simpl. apply elem_of_app. right. by apply list_elem_of_singleton.
Qed.

Lemma then_pending_pending q : pending s' q <-> pending s q \/ q = d.
Proof.
  unfold pending. split.
  - intros (rs' & Hq). apply then_pending_lookup in Hq as [[-> _]|[[_ Hq]|[-> _]]];
      [left | left | right]; eauto.
  - intros [[rs' Hq]| ->].
    + destruct (decide (q = src)) as [->|Hne].
      * eexists. apply then_pending_lookup. by left.
      * eexists. apply then_pending_lookup. right. by left.
    + eexists. apply then_pending_lookup. right. by right.
Qed.

Lemma then_pending_settled q : settled s' q <-> settled s q.
Proof.
  unfold settled. split.
  - intros (o & rs' & Hq). apply then_pending_lookup in Hq as [[_ ?]|[[_ Hq]|[_ ?]]]; [done | eauto | done].
  - intros (o & rs' & Hq). exists o, rs'. apply then_pending_lookup. right. left.
    split; [congruence | done].
Qed.

Lemma then_pending_targets : allTargets s' ≡ₚ derivedOf (mk d) :: allTargets s.
Proof.
  unfold s', allTargets. rewrite then_pending_eq. simpl.
  apply perm_last4.
  rewrite insert_app_l by (eapply lookup_lt_Some; exact Hsrc).
  rewrite waitTargets_app, waitTargets_cons. simpl. rewrite app_nil_r.
  pose proof (waitTargets_insert (heap s) src _
                {| state := None; reactions := rs ++ [mk d] |} Hsrc) as Hins.
  simpl in Hins. rewrite fmap_app in Hins. simpl in Hins.
  rewrite (assoc_L (++)) in Hins.
  apply (Permutation_app_inv_r (derivedOf <$> rs)).
  etrans; [exact Hins |]. by rewrite <- Permutation_cons_append.
Qed.

End then_pending.


(** [new Promise]. *)
Lemma alloc_lookup s q c :
  heap (snd (alloc s)) !! q = Some c <->
  heap s !! q = Some c \/ (q = length (heap s) /\ c = {| state := None; reactions := [] |}).
Proof.
  simpl. destruct (decide (q < length (heap s))) as [Hq|Hq].
  - rewrite lookup_app_l by done. split; [by left | intros [?|[? _]]; [done | lia]].
  - destruct (decide (q = length (heap s))) as [->|Hne].
    + rewrite lookup_app_r, Nat.sub_diag by done. simpl.
      split; [intros [= <-]; by right | intros [Hc|[_ ->]]; [| done]].
      apply lookup_lt_Some in Hc. lia.
    + rewrite lookup_ge_None_2 by (rewrite length_app; simpl; lia).
      split; [done | intros [Hc|[? _]]; [| done]]. apply lookup_lt_Some in Hc. lia.
Qed.

Lemma alloc_holds s i : holds (snd (alloc s)) i <-> holds s i.
Proof.
  destruct i as [r o|key p|key p|src r]; [done..|].
  rewrite !holds_wait_lookup. split.
  - intros (c & Hc & Hr). apply alloc_lookup in Hc as [Hc|[_ ->]]; [eauto |].
    by apply elem_of_nil in Hr.
  - intros (c & Hc & Hr). exists c. split; [| done]. apply alloc_lookup. by left.
Qed.

Lemma alloc_pending s q : pending (snd (alloc s)) q <-> pending s q \/ q = length (heap s).
Proof.
  unfold pending. split.
  - intros (rs & Hq). apply alloc_lookup in Hq as [Hq|[-> _]]; eauto.
  - intros [[rs Hq]| ->]; eexists; apply alloc_lookup; [by left | by right].
Qed.

Lemma alloc_settled s q : settled (snd (alloc s)) q <-> settled s q.
Proof.
  unfold settled. split.
  - intros (o & rs & Hq). apply alloc_lookup in Hq as [Hq|[_ ?]]; [eauto | done].
  - intros (o & rs & Hq). exists o, rs. apply alloc_lookup. by left.
Qed.

Lemma alloc_targets s : allTargets (snd (alloc s)) = allTargets s.
Proof.
  unfold allTargets. simpl. rewrite waitTargets_app, waitTargets_cons. simpl.
  by rewrite !app_nil_r.
Qed.

(** [then_] on a settled source queues the job at once. *)
Lemma then_settled_eq s src mk o rs :
  heap s !! src = Some {| state := Some o; reactions := rs |} ->
  then_ src mk s
  = (length (heap s), set_jobs (jobs s ++ [(mk (length (heap s)), o)]) (snd (alloc s))).
Proof.
  intros Hsrc. unfold then_, alloc. simpl.
  rewrite lookup_app_l by (eapply lookup_lt_Some; exact Hsrc). by rewrite Hsrc.
Qed.

Lemma push_job_holds s r o i :
  holds (set_jobs (jobs s ++ [(r, o)]) s) i <-> holds s i \/ i = IJob r o.
Proof.
  destruct i as [r' o'|key p|key p|src r']; simpl; [| by split; [left | intros [?|?]]..].
  rewrite elem_of_app, list_elem_of_singleton. split; (intros [?|?]; [by left | right; congruence]).
Qed.

Lemma push_job_targets s r o :
  allTargets (set_jobs (jobs s ++ [(r, o)]) s) ≡ₚ derivedOf r :: allTargets s.
Proof.
  unfold allTargets. simpl. apply perm_first4.
  rewrite fmap_app. simpl. by rewrite <- Permutation_cons_append.
Qed.

Lemma asyncConstructor_holds s key p i :
  holds (asyncConstructor key p s) i <-> holds s i \/ i = ICtor key p.
Proof.
  destruct i as [r' o'|key' p'|key' p'|src r']; simpl;
    [by split; [left | intros [?|?]] | | by split; [left | intros [?|?]]..].
  rewrite elem_of_app, list_elem_of_singleton. split; (intros [?|?]; [by left | right; congruence]).
Qed.

Lemma asyncConstructor_targets s key p :
  allTargets (asyncConstructor key p s) ≡ₚ p :: allTargets s.
Proof.
  unfold allTargets. simpl. apply perm_second4.
  rewrite fmap_app. simpl. by rewrite <- Permutation_cons_append.
Qed.

Lemma asyncDestructor_holds s v key p i :
  holds (asyncDestructor v key p s) i <-> holds s i \/ i = IDtor key p.
Proof.
  destruct i as [r' o'|key' p'|key' p'|src r']; simpl;
    [by split; [left | intros [?|?]].. | | by split; [left | intros [?|?]]].
  rewrite elem_of_app, list_elem_of_singleton. split; (intros [?|?]; [by left | right; congruence]).
Qed.

Lemma asyncDestructor_targets s v key p :
  allTargets (asyncDestructor v key p s) ≡ₚ p :: allTargets s.
Proof.
  unfold allTargets. simpl. apply perm_third4.
  rewrite fmap_app. simpl. by rewrite <- Permutation_cons_append.
Qed.

(** Taking an element out of a list without duplicates. *)
Lemma elem_of_removed {A B} (f : A -> B) (before after : list A) (x y : A) :
  NoDup (f <$> before ++ x :: after) ->
  y ∈ before ++ after <-> y ∈ before ++ x :: after /\ y <> x.
Proof.
  intros Hnd. apply NoDup_fmap_1 in Hnd.
  apply NoDup_app in Hnd as (_ & Hdisj & Hnd). apply NoDup_cons in Hnd as [Hxa _].
  rewrite !elem_of_app, elem_of_cons. split.
  - intros [Hy|Hy]; (split; [tauto |]); intros ->; [| done].
    apply (Hdisj x Hy). by left.
  - intros [[?|[?|?]] ?]; tauto.
Qed.

Lemma NoDup_targets_parts s :
  NoDup (allTargets s) ->
  NoDup ((fun job : reaction * outcome => derivedOf (fst job)) <$> jobs s)
  /\ NoDup (snd <$> constructing s) /\ NoDup (snd <$> destructing s).
Proof.
  unfold allTargets. intros Hnd.
  apply NoDup_app in Hnd as (Hjobs & _ & Hnd).
  apply NoDup_app in Hnd as (Hctor & _ & Hnd).
  by apply NoDup_app in Hnd as (Hdtor & _ & _).
Qed.

(** A job leaves the queue. *)
Lemma pop_job_holds s r o before after i :
  NoDup (allTargets s) -> jobs s = before ++ (r, o) :: after ->
  holds (set_jobs (before ++ after) s) i <-> holds s i /\ i <> IJob r o.
Proof.
  intros Hnd Hjobs. apply NoDup_targets_parts in Hnd as (Hnd & _ & _). rewrite Hjobs in Hnd.
  destruct i as [r' o'|key p|key p|src r']; simpl; [| by split; [| intros [? _]]..].
  rewrite Hjobs, (elem_of_removed _ _ _ _ _ Hnd).
  split; (intros [? Hne]; split; [done | congruence]).
Qed.

Lemma pop_job_targets s r o before after :
  jobs s = before ++ (r, o) :: after ->
  allTargets s ≡ₚ derivedOf r :: allTargets (set_jobs (before ++ after) s).
Proof.
  intros Hjobs. unfold allTargets. rewrite Hjobs. simpl. apply perm_first4.
  rewrite !fmap_app. simpl. by rewrite <- Permutation_middle.
Qed.


(** An operation in flight ends. *)
Definition endConstructor (key : K) (before after : list (K * pid)) s : runtime :=
  {| heap := heap s; jobs := jobs s; constructing := before ++ after;
     destructing := destructing s; cache := cache s; destructions := destructions s;
     log := ConstructorEnds key :: log s |}.

Definition endDestructor (key : K) (before after : list (K * pid)) s : runtime :=
  {| heap := heap s; jobs := jobs s; constructing := constructing s;
     destructing := before ++ after; cache := cache s; destructions := destructions s;
     log := DestructorEnds key :: log s |}.

Lemma endConstructor_holds s key p before after i :
  NoDup (allTargets s) -> constructing s = before ++ (key, p) :: after ->
  holds (endConstructor key before after s) i <-> holds s i /\ i <> ICtor key p.
Proof.
  intros Hnd Hc. apply NoDup_targets_parts in Hnd as (_ & Hnd & _). rewrite Hc in Hnd.
  destruct i as [r' o'|key' p'|key' p'|src r']; simpl; [by split; [| intros [? _]] | |
    by split; [| intros [? _]]..].
  rewrite Hc, (elem_of_removed _ _ _ _ _ Hnd).
  split; (intros [? Hne]; split; [done | congruence]).
Qed.

Lemma endConstructor_targets s key p before after :
  constructing s = before ++ (key, p) :: after ->
  allTargets s ≡ₚ p :: allTargets (endConstructor key before after s).
Proof.
  intros Hc. unfold allTargets. rewrite Hc. simpl. apply perm_second4.
  rewrite !fmap_app. simpl. by rewrite <- Permutation_middle.
Qed.

Lemma endDestructor_holds s key p before after i :
  NoDup (allTargets s) -> destructing s = before ++ (key, p) :: after ->
  holds (endDestructor key before after s) i <-> holds s i /\ i <> IDtor key p.
Proof.
  intros Hnd Hc. apply NoDup_targets_parts in Hnd as (_ & _ & Hnd). rewrite Hc in Hnd.
  destruct i as [r' o'|key' p'|key' p'|src r']; simpl; [by split; [| intros [? _]].. | |
    by split; [| intros [? _]]].
  rewrite Hc, (elem_of_removed _ _ _ _ _ Hnd).
  split; (intros [? Hne]; split; [done | congruence]).
Qed.

Lemma endDestructor_targets s key p before after :
  destructing s = before ++ (key, p) :: after ->
  allTargets s ≡ₚ p :: allTargets (endDestructor key before after s).
Proof.
  intros Hc. unfold allTargets. rewrite Hc. simpl. apply perm_third4.
  rewrite !fmap_app. simpl. by rewrite <- Permutation_middle.
Qed.

(** A pending promise settles: its reactions become jobs. *)
Section settle_pending.
Variables (s : runtime) (p : pid) (o : outcome) (rs : list reaction).
Hypothesis Hp : heap s !! p = Some {| state := None; reactions := rs |}.
Let s' := settle p o s.

Lemma settle_pending_eq :
  settle p o s
  = set_jobs (jobs s ++ map (fun r => (r, o)) rs)
      (set_heap (<[p := {| state := Some o; reactions := [] |}]> (heap s)) s).
Proof. unfold settle. by rewrite Hp. Qed.

Lemma settle_pending_lookup q c :
  heap s' !! q = Some c <->
  (q = p /\ c = {| state := Some o; reactions := [] |}) \/ (q <> p /\ heap s !! q = Some c).
Proof.
  unfold s'. rewrite settle_pending_eq. simpl.
  pose proof (lookup_lt_Some _ _ _ Hp) as Hlt.
  destruct (decide (q = p)) as [->|Hne].
  - rewrite list_lookup_insert_eq by done.
    split; [intros [= <-]; by left | intros [[_ ->]|[? _]]; done].
  - rewrite list_lookup_insert_ne by done.
    split; [by right | intros [[? _]|[_ ?]]; done].
Qed.

Lemma settle_pending_holds i :
  holds s' i <->
  (holds s i /\ source i <> Some p) \/ (exists r, i = IJob r o /\ holds s (IWait p r)).
Proof.
  destruct i as [r' o'|key q|key q|src r'].
  - unfold s'. rewrite settle_pending_eq. simpl.
    rewrite elem_of_app, list_elem_of_fmap. split.
    + intros [Hj|(r & [= -> ->] & Hr)]; [by left |].
      right. exists r. split; [done |]. eauto.
    + intros [[Hj _]|(r & [= -> ->] & c & Hc & Hr)]; [by left |].
      right. exists r. split; [done |]. rewrite Hp in Hc. by injection Hc as <-.
  - unfold s'. rewrite settle_pending_eq. simpl.
    split; [by left | intros [[? _]|(r & ? & _)]; done].
  - unfold s'. rewrite settle_pending_eq. simpl.
    split; [by left | intros [[? _]|(r & ? & _)]; done].
  - rewrite !holds_wait_lookup. simpl. split.
    + intros (c & Hc & Hr). apply settle_pending_lookup in Hc as [[_ ->]|[Hne Hc]].
      * by apply elem_of_nil in Hr.
      * left. split; [eauto | congruence].
    + intros [[(c & Hc & Hr) Hne]|(r & ? & _)]; [| done].
      exists c. split; [| done]. apply settle_pending_lookup. right. split; [congruence | done].
Qed.

Lemma settle_pending_pending q : pending s' q <-> pending s q /\ q <> p.
Proof.
  unfold pending. split.
  - intros (rs' & Hq). apply settle_pending_lookup in Hq as [[_ ?]|[? ?]]; [done | eauto].
  - intros [(rs' & Hq) Hne]. exists rs'. apply settle_pending_lookup. by right.
Qed.

Lemma settle_pending_settled q : settled s' q <-> settled s q \/ q = p.
Proof.
  unfold settled. split.
  - intros (o' & rs' & Hq). apply settle_pending_lookup in Hq as [[-> _]|[_ ?]]; eauto.
  - intros [(o' & rs' & Hq)| ->].
    + destruct (decide (q = p)) as [->|Hne]; [congruence |].
      exists o', rs'. apply settle_pending_lookup. by right.
    + eexists _, _. apply settle_pending_lookup. by left.
Qed.

Lemma settle_pending_targets : allTargets s' ≡ₚ allTargets s.
Proof.
  unfold s', allTargets. rewrite settle_pending_eq. simpl.
  pose proof (waitTargets_insert (heap s) p _ {| state := Some o; reactions := [] |} Hp) as Hins.
  simpl in Hins. rewrite app_nil_r in Hins.
  rewrite fmap_app, <- list_fmap_compose. simpl.
  change (((fun job : reaction * outcome => derivedOf job.1) ∘ (fun r => (r, o))) <$> rs)
    with (derivedOf <$> rs).
  rewrite <- Hins.
  set (J := _ <$> jobs s). set (C := snd <$> _). set (D := snd <$> _).
  set (W := waitTargets _). set (X := derivedOf <$> rs).
  rewrite <- !(assoc_L (++)).
  apply Permutation_app_head.
  rewrite (assoc_L (++) C D), (assoc_L (++) X), (comm (++) X), <- !(assoc_L (++)).
  do 2 apply Permutation_app_head. apply (comm (++)).
Qed.

End settle_pending.


(** *** The order is kept *)

(** The end of a key's chain moves to a new promise. *)
Definition moveEnd (ends : K -> option pid) (key : K) (p : pid) : K -> option pid :=
  fun k => if decide (k = key) then Some p else ends k.

Lemma ordered_ext (ends ends' : K -> option pid) s :
  (forall key, ends' key = ends key) -> ordered ends s -> ordered ends' s.
Proof.
  intros Hext [H1 H2 H3 H4 H5 H6 H7 H8 H9 H10 H11].
  split; try done.
  - intros key p. rewrite Hext. apply H2.
  - intros key p. rewrite Hext. apply H4.
  - intros j Hj Hm. rewrite Hext. by apply H9.
Qed.

(** A state with the same items and promises, whose [destructions] hold
    old entries or ends of chains. *)
Lemma ordered_frame (ends : K -> option pid) s s' :
  ordered ends s ->
  (forall i, holds s' i <-> holds s i) ->
  (forall q, pending s' q <-> pending s q) ->
  (forall q, settled s' q <-> settled s q) ->
  length (heap s') = length (heap s) ->
  (forall key p, JS.map_get key (destructions s') = Some p ->
     JS.map_get key (destructions s) = Some p \/ ends key = Some p) ->
  ordered ends s'.
Proof.
  intros [H1 H2 H3 H4 H5 H6 H7 H8 H9 H10 H11] Hh Hp Hs Hlen Hd.
  split.
  - intros i Hi%Hh. by apply Hp, H1.
  - intros key p Hk. rewrite Hlen. by eapply H2.
  - intros key p [Hk|Hk]%Hd; rewrite Hlen; [by eapply H3 | by eapply H2].
  - intros key p Hk Hpe%Hp. destruct (H4 key p Hk Hpe) as (i & Hi & ?). exists i. by rewrite Hh.
  - intros key p [Hk|Hk]%Hd Hpe%Hp.
    + destruct (H5 key p Hk Hpe) as (i & Hi & ?). exists i. by rewrite Hh.
    + destruct (H4 key p Hk Hpe) as (i & Hi & ?). exists i. by rewrite Hh.
  - intros i src Hi%Hh Hsrc. destruct (H6 i src Hi Hsrc) as (Hlt & j & Hj & ?).
    split; [done |]. exists j. by rewrite Hh.
  - intros i j Hi%Hh Hj%Hh. by apply H7.
  - intros i j src Hi%Hh Hj%Hh. by apply H8.
  - intros j Hj%Hh Hm. destruct (H9 j Hj Hm) as (p & ? & ? & ?). exists p. by rewrite Hp.
  - intros src key info d Hi%Hh. by eapply H10.
  - intros key info d o Hi%Hh. apply Hs. by eapply H11.
Qed.

(** A new item for a fresh promise carries a key's chain on. *)
Lemma ordered_add (ends : K -> option pid) s s' (i0 : item) :
  ordered ends s ->
  (forall i, holds s' i <-> holds s i \/ i = i0) ->
  (forall q, pending s' q <-> pending s q \/ q = length (heap s)) ->
  (forall q, settled s' q <-> settled s q) ->
  length (heap s') = S (length (heap s)) ->
  destructions s' = destructions s ->
  target i0 = length (heap s) ->
  main i0 = true ->
  match source i0 with
  | Some src => ends (ikey i0) = Some src /\ pending s src
  | None => forall p, ends (ikey i0) = Some p -> settled s p
  end ->
  ordered (moveEnd ends (ikey i0) (target i0)) s'.
Proof.
  intros [H1 H2 H3 H4 H5 H6 H7 H8 H9 H10 H11] Hh Hp Hs Hlen Hd Ht Hm Hsrc.
  assert (Hold : forall i, holds s i -> target i < length (heap s)).
  { intros i Hi. by apply pending_allocated, H1. }
  unfold moveEnd. split.
  - intros i [Hi| ->]%Hh; apply Hp; [left; by apply H1 | by right].
  - intros key p. rewrite Hlen. destruct (decide (key = ikey i0)); [intros [= <-]; lia |].
    intros Hk%H2. lia.
  - intros key p. rewrite Hd, Hlen. intros Hk%H3. lia.
  - intros key p. destruct (decide (key = ikey i0)) as [->|Hne].
    + intros [= <-] _. exists i0. split; [apply Hh; by right | done].
    + intros Hk [Hpe| ->]%Hp; [| apply H2 in Hk; lia].
      destruct (H4 key p Hk Hpe) as (i & Hi & ?). exists i. split; [apply Hh; by left | done].
  - intros key p. rewrite Hd. intros Hk [Hpe| ->]%Hp; [| apply H3 in Hk; lia].
    destruct (H5 key p Hk Hpe) as (i & Hi & ?). exists i. split; [apply Hh; by left | done].
  - intros i src [Hi| ->]%Hh Hsi.
    + destruct (H6 i src Hi Hsi) as (Hlt & j & Hj & ?).
      split; [done |]. exists j. split; [apply Hh; by left | done].
    + rewrite Hsi in Hsrc. destruct Hsrc as [Hk Hpe].
      split; [rewrite Ht; by apply pending_allocated |].
      destruct (H4 _ _ Hk Hpe) as (j & Hj & ?). exists j. split; [apply Hh; by left | done].
  - intros i j [Hi| ->]%Hh [Hj| ->]%Hh Hmi Hmj Hsi Hk.
    + by apply H7.
    + rewrite Ht. apply Hold in Hi. lia.
    + rewrite Hsi in Hsrc. destruct (H9 j Hj Hmj) as (p & Hp' & Hpe & _).
      rewrite <- Hk in Hp'. destruct (pending_not_settled s p Hpe (Hsrc p Hp')).
    + done.
  - intros i j src [Hi| ->]%Hh [Hj| ->]%Hh Hmi Hmj Hsi Hk.
    + by eapply H8.
    + right. rewrite Ht. apply Hold in Hi. lia.
    + rewrite Hsi in Hsrc. destruct Hsrc as [Hends _].
      destruct (H9 j Hj Hmj) as (p & Hp' & _ & Hle).
      rewrite <- Hk, Hends in Hp'. injection Hp' as <-. by left.
    + by right.
  - intros j [Hj| ->]%Hh Hmj.
    + destruct (decide (ikey j = ikey i0)) as [Heq|Hne].
      * exists (target i0). split; [done |]. split; [apply Hp; by right |].
        rewrite Ht. apply Hold in Hj. lia.
      * destruct (H9 j Hj Hmj) as (p & ? & ? & ?). exists p.
        split; [done |]. split; [apply Hp; by left | done].
    + rewrite decide_True by done. exists (target i0).
      split; [done |]. split; [apply Hp; by right | done].
  - intros src key info d [Hi|Heq]%Hh; [by eapply H10 | by rewrite <- Heq in Hm].
  - intros key info d o [Hi|Heq]%Hh; [apply Hs; by eapply H11 | by rewrite <- Heq in Hm].
Qed.


(** A [catch] waits on the promise at the end of its key's chain. *)
Lemma ordered_add_catch (ends : K -> option pid) s s' key info :
  ordered ends s ->
  (forall i, holds s' i <-> holds s i \/ i = IWait info (CatchForget key info (length (heap s)))) ->
  (forall q, pending s' q <-> pending s q \/ q = length (heap s)) ->
  (forall q, settled s' q <-> settled s q) ->
  length (heap s') = S (length (heap s)) ->
  destructions s' = destructions s ->
  ends key = Some info -> pending s info ->
  ordered ends s'.
Proof.
  intros [H1 H2 H3 H4 H5 H6 H7 H8 H9 H10 H11] Hh Hp Hs Hlen Hd Hends Hinfo.
  split.
  - intros i [Hi| ->]%Hh; apply Hp; [left; by apply H1 | by right].
  - intros k p Hk%H2. lia.
  - intros k p. rewrite Hd, Hlen. intros Hk%H3. lia.
  - intros k p Hk [Hpe| ->]%Hp; [| apply H2 in Hk; lia].
    destruct (H4 k p Hk Hpe) as (i & Hi & ?). exists i. split; [apply Hh; by left | done].
  - intros k p. rewrite Hd. intros Hk [Hpe| ->]%Hp; [| apply H3 in Hk; lia].
    destruct (H5 k p Hk Hpe) as (i & Hi & ?). exists i. split; [apply Hh; by left | done].
  - intros i src [Hi| ->]%Hh Hsi.
    + destruct (H6 i src Hi Hsi) as (Hlt & j & Hj & ?).
      split; [done |]. exists j. split; [apply Hh; by left | done].
    + injection Hsi as <-. simpl. split; [by apply pending_allocated |].
      destruct (H4 _ _ Hends Hinfo) as (j & Hj & ?). exists j. split; [apply Hh; by left | done].
  - intros i j [Hi| ->]%Hh [Hj| ->]%Hh Hmi Hmj; [by apply H7 | done..].
  - intros i j src [Hi| ->]%Hh [Hj| ->]%Hh Hmi Hmj; [by apply H8 | done..].
  - intros j [Hj| ->]%Hh Hmj; [| done].
    destruct (H9 j Hj Hmj) as (p & ? & ? & ?). exists p.
    split; [done |]. split; [apply Hp; by left | done].
  - intros src k info' d [Hi|[= -> _ -> _]]%Hh; [by eapply H10 | done].
  - intros k info' d o [Hi|?]%Hh; [apply Hs; by eapply H11 | done].
Qed.

(** A queued job turns into the operation it starts. *)
Lemma ordered_convert (ends : K -> option pid) s s' (j j' : item) :
  NoDup (allTargets s) ->
  ordered ends s ->
  holds s j ->
  (forall i, holds s' i <-> (holds s i /\ i <> j) \/ i = j') ->
  (forall q, pending s' q <-> pending s q) ->
  (forall q, settled s' q <-> settled s q) ->
  length (heap s') = length (heap s) ->
  destructions s' = destructions s ->
  target j' = target j -> ikey j' = ikey j -> main j = true -> main j' = true ->
  source j = None -> source j' = None ->
  (forall r o, j' <> IJob r o) ->
  ordered ends s'.
Proof.
  intros Hnd [H1 H2 H3 H4 H5 H6 H7 H8 H9 H10 H11] Hj Hh Hp Hs Hlen Hd Ht Hk Hm Hm' Hsj Hsj' Hnj.
  (* every item of the new state has an item of the old state in its place *)
  assert (Hback : forall i, holds s' i ->
            exists i0, holds s i0 /\ target i0 = target i /\ ikey i0 = ikey i
                       /\ main i0 = main i /\ source i0 = source i).
  { intros i [[Hi _]| ->]%Hh; [by exists i |]. exists j. by rewrite Ht, Hk, Hm, Hm', Hsj, Hsj'. }
  assert (Hforth : forall i, holds s i ->
            exists i0, holds s' i0 /\ target i0 = target i /\ ikey i0 = ikey i
                       /\ main i0 = main i).
  { intros i Hi. destruct (decide (target i = target j)) as [Heq|Hne].
    - apply (item_unique s i j Hnd Hi Hj) in Heq as ->.
      exists j'. split; [apply Hh; by right |]. by rewrite Ht, Hk, Hm, Hm'.
    - exists i. split; [apply Hh; left; split; [done | by intros ->] | done]. }
  split.
  - intros i Hi. destruct (Hback i Hi) as (i0 & Hi0 & <- & _). by apply Hp, H1.
  - intros key p Hkp%H2. lia.
  - intros key p. rewrite Hd, Hlen. apply H3.
  - intros key p Hkp Hpe%Hp. destruct (H4 key p Hkp Hpe) as (i & Hi & Hmi & Hki & Hti).
    destruct (Hforth i Hi) as (i0 & Hi0 & <- & <- & <-) in Hmi, Hki, Hti. by exists i0.
  - intros key p. rewrite Hd. intros Hkp Hpe%Hp.
    destruct (H5 key p Hkp Hpe) as (i & Hi & Hmi & Hki & Hti).
    destruct (Hforth i Hi) as (i0 & Hi0 & <- & <- & <-) in Hmi, Hki, Hti. by exists i0.
  - intros i src Hi Hsi. destruct (Hback i Hi) as (i0 & Hi0 & <- & <- & _ & Hs0).
    rewrite <- Hs0 in Hsi. destruct (H6 i0 src Hi0 Hsi) as (Hlt & j0 & Hj0 & Hmj0 & Hkj0 & Htj0).
    split; [done |].
    destruct (Hforth j0 Hj0) as (j1 & Hj1 & <- & <- & <-) in Hmj0, Hkj0, Htj0. by exists j1.
  - intros a b Ha Hb Hma Hmb Hsa Hkab.
    destruct (Hback a Ha) as (a0 & Ha0 & <- & Hka & Hma0 & Hsa0).
    destruct (Hback b Hb) as (b0 & Hb0 & <- & Hkb & Hmb0 & _).
    apply H7; congruence.
  - intros a b src Ha Hb Hma Hmb Hsa Hkab.
    destruct (Hback a Ha) as (a0 & Ha0 & <- & Hka & Hma0 & Hsa0).
    destruct (Hback b Hb) as (b0 & Hb0 & <- & Hkb & Hmb0 & _).
    apply (H8 a0 b0 src); congruence.
  - intros b Hb Hmb. destruct (Hback b Hb) as (b0 & Hb0 & <- & <- & Hmb0 & _).
    destruct (H9 b0 Hb0 ltac:(congruence)) as (p & ? & ? & ?). exists p. by rewrite Hp.
  - intros src key info d [[Hi _]|Heq]%Hh; [by eapply H10 | by rewrite <- Heq in Hsj'].
  - intros key info d o [[Hi _]|Heq]%Hh; [apply Hs; by eapply H11 | by destruct (Hnj _ _ (eq_sym Heq))].
Qed.


(** The item of a promise is used up and the promise settles: the
    reactions that waited on it are queued. *)
Section consumed.
Variables (ends : K -> option pid) (s s' : runtime) (j : item) (o : outcome).
Hypothesis Hnd : NoDup (allTargets s).
Hypothesis Hord : ordered ends s.
Hypothesis Hj : holds s j.
Hypothesis Hsj : source j = None.
Hypothesis Hh : forall i, holds s' i <->
  (holds s i /\ i <> j /\ source i <> Some (target j))
  \/ (exists r, i = IJob r o /\ holds s (IWait (target j) r)).
Hypothesis Hp : forall q, pending s' q <-> pending s q /\ q <> target j.
Hypothesis Hs : forall q, settled s' q <-> settled s q \/ q = target j.
Hypothesis Hlen : length (heap s') = length (heap s).
Hypothesis Hd : destructions s' = destructions s.

Lemma consumed_other_target i : holds s i -> i <> j -> target i <> target j.
Proof. intros Hi Hne Heq. by apply Hne, (item_unique s i j Hnd Hi Hj). Qed.

Lemma consumed_waiting i :
  holds s i -> source i = Some (target j) -> ikey i = ikey j /\ main j = true /\ i <> j.
Proof.
  intros Hi Hsi. destruct (sources_driven _ _ Hord i _ Hi Hsi) as (_ & j0 & Hj0 & Hm0 & Hk0 & Ht0).
  apply (item_unique s j0 j Hnd Hj0 Hj) in Ht0 as ->.
  split; [done |]. split; [done |]. intros ->. congruence.
Qed.

Lemma consumed_back i :
  holds s' i ->
  exists i0, holds s i0 /\ i0 <> j /\ target i0 = target i /\ ikey i0 = ikey i
             /\ main i0 = main i
             /\ ((source i0 = source i /\ source i <> Some (target j))
                 \/ (source i0 = Some (target j) /\ source i = None)).
Proof.
  intros [(Hi & Hne & Hsi)|(r & -> & Hw)]%Hh.
  - exists i. repeat split; [done.. | by left].
  - exists (IWait (target j) r). repeat split; [done | | done.. | by right].
    intros Heq. rewrite <- Heq in Hsj. done.
Qed.

Lemma consumed_forth i :
  holds s i -> i <> j ->
  exists i1, holds s' i1 /\ target i1 = target i /\ ikey i1 = ikey i /\ main i1 = main i.
Proof.
  intros Hi Hne. destruct (decide (source i = Some (target j))) as [Hsi|Hsi].
  - destruct i as [r' o'|key q|key q|src r]; try done. injection Hsi as ->.
    exists (IJob r o). split; [| done]. apply Hh. right. by exists r.
  - exists i. split; [| done]. apply Hh. by left.
Qed.

Lemma ordered_consumed : ordered ends s'.
Proof.
  destruct Hord as [H1 H2 H3 H4 H5 H6 H7 H8 H9 H10 H11].
  split.
  - intros i Hi. destruct (consumed_back i Hi) as (i0 & Hi0 & Hne & <- & _).
    apply Hp. split; [by apply H1 | by apply consumed_other_target].
  - intros key p Hk%H2. lia.
  - intros key p. rewrite Hd, Hlen. apply H3.
  - intros key p Hk [Hpe Hpj]%Hp. destruct (H4 key p Hk Hpe) as (i & Hi & Hmi & Hki & Hti).
    destruct (consumed_forth i Hi) as (i1 & Hi1 & Ht1 & Hk1 & Hm1); [intros ->; done |].
    exists i1. repeat split; congruence.
  - intros key p. rewrite Hd. intros Hk [Hpe Hpj]%Hp.
    destruct (H5 key p Hk Hpe) as (i & Hi & Hmi & Hki & Hti).
    destruct (consumed_forth i Hi) as (i1 & Hi1 & Ht1 & Hk1 & Hm1); [intros ->; done |].
    exists i1. repeat split; congruence.
  - intros i src Hi Hsi.
    apply Hh in Hi as [(Hi & Hne & Hnp)|(r & -> & _)]; [| done].
    destruct (H6 i src Hi Hsi) as (Hlt & j0 & Hj0 & Hm0 & Hk0 & Ht0).
    split; [done |].
    destruct (consumed_forth j0 Hj0) as (j1 & Hj1 & Ht1 & Hk1 & Hm1).
    { intros ->. rewrite Ht0 in Hnp. by rewrite Hsi in Hnp. }
    exists j1. repeat split; congruence.
  - intros a b Ha Hb Hma Hmb Hsa Hkab.
    destruct (consumed_back a Ha) as (a0 & Ha0 & Hnea & Hta & Hka & Hma0 & Hsrc).
    destruct (consumed_back b Hb) as (b0 & Hb0 & Hneb & Htb & Hkb & Hmb0 & _).
    rewrite <- Hta, <- Htb.
    destruct Hsrc as [[Hs0 _]|[Hs0 _]].
    + apply H7; congruence.
    + destruct (consumed_waiting a0 Ha0 Hs0) as (Hkj & Hmj & _).
      destruct (H8 a0 b0 (target j) Ha0 Hb0) as [Hle|Hle]; [congruence.. | | done].
      pose proof (H7 j b0 Hj Hb0 Hmj ltac:(congruence) Hsj ltac:(congruence)) as Hge.
      destruct (consumed_other_target b0 Hb0 Hneb). lia.
  - intros a b src Ha Hb Hma Hmb Hsa Hkab.
    destruct (consumed_back a Ha) as (a0 & Ha0 & Hnea & Hta & Hka & Hma0 & Hsrc).
    destruct (consumed_back b Hb) as (b0 & Hb0 & Hneb & Htb & Hkb & Hmb0 & _).
    rewrite <- Hta, <- Htb.
    destruct Hsrc as [[Hs0 _]|[_ Hs0]]; [| congruence].
    apply (H8 a0 b0 src); congruence.
  - intros b Hb Hmb.
    destruct (consumed_back b Hb) as (b0 & Hb0 & Hneb & Htb & Hkb & Hmb0 & _).
    destruct (H9 b0 Hb0 ltac:(congruence)) as (p & Hkp & Hpe & Hle).
    exists p. split; [congruence |]. split; [| lia].
    apply Hp. split; [done |]. intros ->.
    destruct (H4 _ _ Hkp Hpe) as (i & Hi & Hmi & Hki & Hti).
    apply (item_unique s i j Hnd Hi Hj) in Hti as ->.
    pose proof (H7 j b0 Hj Hb0 Hmi ltac:(congruence) Hsj Hki) as Hge.
    destruct (consumed_other_target b0 Hb0 Hneb). lia.
  - intros src key info d Hi.
    apply Hh in Hi as [(Hi & _)|(r & ? & _)]; [by eapply H10 | done].
  - intros key info d o' Hi.
    apply Hh in Hi as [(Hi & _)|(r & [= <- <-] & Hw)].
    + apply Hs. left. by eapply H11.
    + apply Hs. right. symmetry. by eapply H10.
Qed.

End consumed.


(** A key without items may have the end of its chain moved back to its
    latest destruction. *)
Lemma ordered_vacate (ends ends' : K -> option pid) s :
  ordered ends s ->
  (forall key, ends' key = ends key
     \/ ((forall i, holds s i -> main i = true -> ikey i <> key)
         /\ ends' key = JS.map_get key (destructions s))) ->
  ordered ends' s.
Proof.
  intros [H1 H2 H3 H4 H5 H6 H7 H8 H9 H10 H11] Hends.
  split; try done.
  - intros key p. destruct (Hends key) as [-> |[_ ->]]; [apply H2 | apply H3].
  - intros key p. destruct (Hends key) as [-> |[Hnone ->]]; [apply H4 |].
    intros Hk Hpe. destruct (H5 key p Hk Hpe) as (i & Hi & Hmi & Hki & _).
    destruct (Hnone i Hi Hmi Hki).
  - intros j Hj Hmj. destruct (Hends (ikey j)) as [-> |[Hnone _]]; [by apply H9 |].
    destruct (Hnone j Hj Hmj eq_refl).
Qed.

(** *** The log is kept *)

Lemma filter_key_snoc (l : list (K * pid)) key key' p :
  length (filter (fun e => fst e = key') (l ++ [(key, p)]))
  = if decide (key = key') then S (length (filter (fun e => fst e = key') l))
    else length (filter (fun e => fst e = key') l).
Proof.
  rewrite filter_app, length_app. simpl.
  rewrite filter_cons, filter_nil. simpl.
  destruct (decide (key = key')); simpl; lia.
Qed.

Lemma filter_key_middle (before after : list (K * pid)) key key' p :
  length (filter (fun e => fst e = key') (before ++ after))
  = if decide (key = key')
    then pred (length (filter (fun e => fst e = key') (before ++ (key, p) :: after)))
    else length (filter (fun e => fst e = key') (before ++ (key, p) :: after)).
Proof.
  rewrite !filter_app, !length_app, filter_cons. simpl.
  destruct (decide (key = key')); simpl; lia.
Qed.

Lemma logged_same s s' :
  log s' = log s -> constructing s' = constructing s -> destructing s' = destructing s ->
  logged s -> logged s'.
Proof. unfold logged. by intros -> -> ->. Qed.

Lemma logged_asyncConstructor s key p : logged s -> logged (asyncConstructor key p s).
Proof.
  intros Hl key'. destruct (Hl key') as [Hc Hd]. simpl.
  rewrite filter_key_snoc. split; [| done].
  destruct (decide (key = key')); by rewrite Hc.
Qed.

Lemma logged_asyncDestructor s v key p : logged s -> logged (asyncDestructor v key p s).
Proof.
  intros Hl key'. destruct (Hl key') as [Hc Hd]. simpl.
  rewrite filter_key_snoc. split; [done |].
  destruct (decide (key = key')); by rewrite Hd.
Qed.

Lemma logged_endConstructor s key p before after :
  constructing s = before ++ (key, p) :: after ->
  logged s -> logged (endConstructor key before after s).
Proof.
  intros Heq Hl key'. destruct (Hl key') as [Hc Hd]. simpl.
  rewrite (filter_key_middle before after key key' p), <- Heq. split; [| done].
  destruct (decide (key = key')); by rewrite Hc.
Qed.

Lemma logged_endDestructor s key p before after :
  destructing s = before ++ (key, p) :: after ->
  logged s -> logged (endDestructor key before after s).
Proof.
  intros Heq Hl key'. destruct (Hl key') as [Hc Hd]. simpl.
  rewrite (filter_key_middle before after key key' p), <- Heq. split; [done |].
  destruct (decide (key = key')); by rewrite Hd.
Qed.

Lemma filter_key_none (l : list (K * pid)) key :
  (forall p, (key, p) ∉ l) -> length (filter (fun e => fst e = key) l) = 0.
Proof.
  intros Hnone. induction l as [|[k p] l IH]; [done |].
  rewrite filter_cons. simpl. destruct (decide (k = key)) as [->|Hne].
  - destruct (Hnone p). by left.
  - apply IH. intros p' Hin. apply (Hnone p'). by right.
Qed.

(** Nothing of the key is running. *)
Definition idle s (key : K) : Prop :=
  (forall p, ~ holds s (ICtor key p)) /\ (forall p, ~ holds s (IDtor key p)).

Lemma idle_counts s key :
  logged s -> idle s key ->
  constructorsRunning key (log s) = 0 /\ destructorsRunning key (log s) = 0.
Proof.
  intros Hl [Hc Hd]. destruct (Hl key) as [-> ->].
  split; by apply filter_key_none.
Qed.

(** A key with a main item that is not an operation in flight is idle; so
    is a key without main items. *)
Lemma idle_beside (ends : K -> option pid) s i :
  NoDup (allTargets s) -> ordered ends s ->
  holds s i -> main i = true -> source i = None ->
  (forall key p, i <> ICtor key p) -> (forall key p, i <> IDtor key p) ->
  idle s (ikey i).
Proof.
  intros Hnd Hord Hi Hmi Hsi Hnc Hndt.
  split; intros p Hp.
  - pose proof (active_first _ _ Hord i (ICtor (ikey i) p) Hi Hp Hmi eq_refl Hsi eq_refl) as H1.
    pose proof (active_first _ _ Hord (ICtor (ikey i) p) i Hp Hi eq_refl Hmi eq_refl eq_refl) as H2.
    apply (Hnc (ikey i) p). apply (item_unique s _ _ Hnd Hi Hp). simpl in *. lia.
  - pose proof (active_first _ _ Hord i (IDtor (ikey i) p) Hi Hp Hmi eq_refl Hsi eq_refl) as H1.
    pose proof (active_first _ _ Hord (IDtor (ikey i) p) i Hp Hi eq_refl Hmi eq_refl eq_refl) as H2.
    apply (Hndt (ikey i) p). apply (item_unique s _ _ Hnd Hi Hp). simpl in *. lia.
Qed.

Lemma idle_vacant (ends : K -> option pid) s key :
  ordered ends s -> (forall p, ends key = Some p -> settled s p) -> idle s key.
Proof.
  intros Hord Hends. split; intros p Hp.
  - destruct (ends_last _ _ Hord (ICtor key p) Hp eq_refl) as (q & Hq & Hpe & _).
    exact (pending_not_settled s q Hpe (Hends q Hq)).
  - destruct (ends_last _ _ Hord (IDtor key p) Hp eq_refl) as (q & Hq & Hpe & _).
    exact (pending_not_settled s q Hpe (Hends q Hq)).
Qed.

Lemma serialised_starts_constructor (l : list (event (K := K) (V := V))) key :
  constructorsRunning key l = 0 -> destructorsRunning key l = 0 ->
  (forall key', serialised key' l) ->
  forall key', serialised key' (ConstructorStarts key :: l).
Proof. intros Hc Hd Hs key'. simpl. split; [done |]. by intros <-. Qed.

Lemma serialised_starts_destructor (l : list (event (K := K) (V := V))) key v :
  constructorsRunning key l = 0 -> destructorsRunning key l = 0 ->
  (forall key', serialised key' l) ->
  forall key', serialised key' (DestructorStarts key v :: l).
Proof. intros Hc Hd Hs key'. simpl. split; [done |]. by intros <-. Qed.


(** *** The operations of the class keep the invariant *)

Lemma target_holds s p : p ∈ allTargets s -> exists i, holds s i /\ target i = p.
Proof.
  unfold allTargets. rewrite !elem_of_app, !list_elem_of_fmap.
  intros [([r o] & -> & Hin)|[([key q] & -> & Hin)|[([key q] & -> & Hin)|Hin]]].
  - by exists (IJob r o).
  - by exists (ICtor key q).
  - by exists (IDtor key q).
  - unfold waitTargets in Hin. apply list_elem_of_bind in Hin as (c & Hr & Hc).
    apply list_elem_of_fmap in Hr as (r & -> & Hr).
    apply list_elem_of_lookup_1 in Hc as (src & Hc).
    exists (IWait src r). split; [| done]. simpl. eauto.
Qed.

Lemma fresh_not_target (ends : K -> option pid) s :
  ordered ends s -> length (heap s) ∉ allTargets s.
Proof.
  intros Hord (i & Hi & Ht)%target_holds.
  apply (targets_pending _ _ Hord), pending_allocated in Hi. lia.
Qed.

Lemma coherent_frame (ends : K -> option pid) s s' :
  coherent ends s ->
  heap s' = heap s -> jobs s' = jobs s -> constructing s' = constructing s ->
  destructing s' = destructing s -> log s' = log s ->
  (forall key p, JS.map_get key (destructions s') = Some p ->
     JS.map_get key (destructions s) = Some p \/ ends key = Some p) ->
  coherent ends s'.
Proof.
  intros (Hnd & Hord & Hlog & Hser) Hh Hj Hc Hd Hl Hdes.
  assert (Hholds : forall i, holds s' i <-> holds s i).
  { intros [r o|key p|key p|src r]; simpl; by rewrite ?Hh, ?Hj, ?Hc, ?Hd. }
  split; [| split; [| split]].
  - unfold allTargets. by rewrite Hh, Hj, Hc, Hd.
  - apply (ordered_frame ends s s' Hord Hholds); [| | by rewrite Hh | done];
      intros q; unfold pending, settled; by rewrite Hh.
  - by apply (logged_same s s').
  - by rewrite Hl.
Qed.

Lemma coherent_ext (ends ends' : K -> option pid) s :
  (forall key, ends' key = ends key) -> coherent ends s -> coherent ends' s.
Proof. intros Hext (? & ? & ? & ?). split; [done |]. split; [by eapply ordered_ext | done]. Qed.

(** [then_] with a reaction that carries the chain of [key] on, applied to
    the end of that chain. *)
Lemma coherent_then_main (ends : K -> option pid) s key src (mk : pid -> reaction) :
  coherent ends s -> ends key = Some src ->
  (forall d, chains (mk d) = true /\ keyOf (mk d) = key /\ derivedOf (mk d) = d) ->
  let s' := snd (then_ src mk s) in
  coherent (moveEnd ends key (length (heap s))) s'
  /\ fst (then_ src mk s) = length (heap s)
  /\ cache s' = cache s /\ destructions s' = destructions s
  /\ length (heap s') = S (length (heap s))
  /\ (forall q, pending s q -> pending s' q)
  /\ pending s' (length (heap s)).
Proof.
  intros (Hnd & Hord & Hlog & Hser) Hends Hmk. simpl.
  destruct (Hmk (length (heap s))) as (Hchains & Hkey & Hderived).
  pose proof (ends_allocated _ _ Hord key src Hends) as Hlt.
  destruct (lookup_lt_is_Some_2 _ _ Hlt) as [[[o|] rs] Hsrc].
  - (* settled source *)
    rewrite (then_settled_eq s src mk o rs Hsrc). simpl.
    set (d := length (heap s)) in *.
    set (s' := set_jobs (jobs s ++ [(mk d, o)]) (snd (alloc s))).
    assert (Hholds : forall i, holds s' i <-> holds s i \/ i = IJob (mk d) o).
    { intros i. unfold s'. rewrite (push_job_holds (snd (alloc s)) (mk d) o i).
      by rewrite alloc_holds. }
    assert (Hpend : forall q, pending s' q <-> pending s q \/ q = d).
    { intros q. apply alloc_pending. }
    split; [| by rewrite length_app; simpl; repeat split;
                [lia | intros q ?; apply Hpend; by left | apply Hpend; by right]].
    split; [| split; [| split]].
    + unfold s'. rewrite (push_job_targets (snd (alloc s))), alloc_targets, Hderived.
      apply NoDup_cons. split; [by eapply fresh_not_target | done].
    + assert (Hadd : ordered (moveEnd ends (ikey (IJob (mk d) o)) (target (IJob (mk d) o))) s').
      { apply (ordered_add ends s s' (IJob (mk d) o) Hord Hholds Hpend).
        - intros q. apply alloc_settled.
        - simpl. rewrite length_app. simpl. lia.
        - done.
        - done.
        - done.
        - simpl. rewrite Hkey. intros p. rewrite Hends. intros [= <-]. by exists o, rs. }
      simpl in Hadd. by rewrite Hkey, Hderived in Hadd.
    + by apply (logged_same s).
    + done.
  - (* pending source *)
    rewrite (then_pending_eq s src mk rs Hsrc). simpl.
    set (d := length (heap s)) in *.
    pose proof (then_pending_holds s src mk rs Hsrc) as Hholds.
    pose proof (then_pending_pending s src mk rs Hsrc) as Hpend.
    pose proof (then_pending_settled s src mk rs Hsrc) as Hsett.
    pose proof (then_pending_targets s src mk rs Hsrc) as Htargets.
    rewrite (then_pending_eq s src mk rs Hsrc) in Hholds, Hpend, Hsett, Htargets.
    simpl in Hholds, Hpend, Hsett, Htargets. fold d in Hholds, Hpend, Hsett, Htargets.
    split; [| by rewrite length_insert, length_app; simpl; repeat split;
                [lia | intros q ?; apply Hpend; by left | apply Hpend; by right]].
    split; [| split; [| split]].
    + rewrite Htargets, Hderived.
      apply NoDup_cons. split; [by eapply fresh_not_target | done].
    + assert (Hadd : ordered (moveEnd ends (ikey (IWait src (mk d) : item))
                                        (target (IWait src (mk d) : item)))
                       (set_heap (<[src := {| state := None; reactions := rs ++ [mk d] |}]>
                                    (heap s ++ [ {| state := None; reactions := [] |} ])) s)).
      { apply (ordered_add ends s _ (IWait src (mk d)) Hord Hholds Hpend Hsett).
        - simpl. rewrite length_insert, length_app. simpl. lia.
        - done.
        - done.
        - done.
        - simpl. rewrite Hkey. split; [done | by exists rs]. }
      simpl in Hadd. by rewrite Hkey, Hderived in Hadd.
    + by apply (logged_same s).
    + done.
Qed.


(** The constructor called at once, for a key without a chain. *)
Lemma coherent_construct (ends : K -> option pid) s key :
  coherent ends s -> ends key = None ->
  let s' := asyncConstructor key (length (heap s)) (snd (alloc s)) in
  coherent (moveEnd ends key (length (heap s))) s'
  /\ cache s' = cache s /\ destructions s' = destructions s
  /\ length (heap s') = S (length (heap s))
  /\ (forall q, pending s q -> pending s' q)
  /\ pending s' (length (heap s)).
Proof.
  intros (Hnd & Hord & Hlog & Hser) Hends. simpl.
  set (d := length (heap s)) in *.
  set (s' := asyncConstructor key d (snd (alloc s))).
  assert (Hholds : forall i, holds s' i <-> holds s i \/ i = ICtor key d).
  { intros i. unfold s'. rewrite (asyncConstructor_holds (snd (alloc s)) key d i).
    by rewrite alloc_holds. }
  assert (Hpend : forall q, pending s' q <-> pending s q \/ q = d).
  { intros q. apply alloc_pending. }
  split; [| by rewrite length_app; simpl; repeat split;
              [lia | intros q ?; apply Hpend; by left | apply Hpend; by right]].
  assert (Hidle : idle s key).
  { apply (idle_vacant ends); [done |]. intros p. by rewrite Hends. }
  destruct (idle_counts s key Hlog Hidle) as [Hc0 Hd0].
  split; [| split; [| split]].
  - unfold s'. rewrite (asyncConstructor_targets (snd (alloc s))), alloc_targets.
    apply NoDup_cons. split; [by eapply fresh_not_target | done].
  - apply (ordered_add ends s s' (ICtor key d) Hord Hholds Hpend).
    + intros q. apply alloc_settled.
    + simpl. rewrite length_app. simpl. lia.
    + done.
    + done.
    + done.
    + simpl. intros p. by rewrite Hends.
  - unfold s'. apply logged_asyncConstructor. by apply (logged_same s).
  - by apply serialised_starts_constructor.
Qed.

(** The [catch] that [get] attaches to the promise it has just cached. *)
Lemma coherent_then_catch (ends : K -> option pid) s key info :
  coherent ends s -> ends key = Some info -> pending s info ->
  let s' := snd (then_ info (CatchForget key info) s) in
  coherent ends s'
  /\ cache s' = cache s /\ destructions s' = destructions s.
Proof.
  intros (Hnd & Hord & Hlog & Hser) Hends [rs Hsrc]. simpl.
  rewrite (then_pending_eq s info _ rs Hsrc). simpl.
  set (d := length (heap s)) in *.
  pose proof (then_pending_holds s info (CatchForget key info) rs Hsrc) as Hholds.
  pose proof (then_pending_pending s info (CatchForget key info) rs Hsrc) as Hpend.
  pose proof (then_pending_settled s info (CatchForget key info) rs Hsrc) as Hsett.
  pose proof (then_pending_targets s info (CatchForget key info) rs Hsrc) as Htargets.
  rewrite (then_pending_eq s info _ rs Hsrc) in Hholds, Hpend, Hsett, Htargets.
  simpl in Hholds, Hpend, Hsett, Htargets. fold d in Hholds, Hpend, Hsett, Htargets.
  split; [| done].
  split; [| split; [| split]].
  - rewrite Htargets. apply NoDup_cons. split; [by eapply fresh_not_target | done].
  - apply (ordered_add_catch ends s _ key info Hord Hholds Hpend Hsett).
    + simpl. rewrite length_insert, length_app. simpl. lia.
    + done.
    + done.
    + by exists rs.
  - by apply (logged_same s).
  - done.
Qed.

Lemma tail_cached s key p : JS.map_get key (cache s) = Some p -> tail s key = Some p.
Proof. unfold tail. by intros ->. Qed.

Lemma tail_uncached s key :
  JS.map_get key (cache s) = None -> tail s key = JS.map_get key (destructions s).
Proof. unfold tail. by intros ->. Qed.

(** [delete(key)]. *)
Lemma delete_coherent (ends : K -> option pid) s key :
  coherent ends s -> ends key = tail s key ->
  let s' := snd (delete key s) in
  exists ends',
    coherent ends' s' /\ ends' key = tail s' key
    /\ (forall k, k <> key -> ends' k = ends k /\ tail s' k = tail s k
                              /\ JS.map_get k (cache s') = JS.map_get k (cache s))
    /\ (forall q, pending s q -> pending s' q).
Proof.
  intros Hco Hends. unfold delete.
  destruct (JS.map_get key (cache s)) as [info|] eqn:Hcache.
  - rewrite (tail_cached s key info Hcache) in Hends.
    pose proof (coherent_then_main ends s key info (ThenDestruct key) Hco Hends
                  ltac:(done)) as Hthen.
    simpl in Hthen.
    destruct (then_ info (ThenDestruct key) s) as [destruction s1]. simpl in Hthen |- *.
    destruct Hthen as (Hco1 & -> & Hc1 & Hd1 & Hlen1 & Hpend1 & _).
    exists (moveEnd ends key (length (heap s))).
    split; [| split; [| split]].
    + apply (coherent_frame _ s1); [done.. |].
      intros k p. simpl. unfold moveEnd. destruct (decide (k = key)) as [->|Hne].
      * rewrite map_get_set_eq. intros [= <-]. by right.
      * rewrite map_get_set_ne by done. by left.
    + unfold moveEnd, tail. simpl. rewrite decide_True by done.
      by rewrite map_get_delete_eq, map_get_set_eq.
    + intros k Hne. unfold moveEnd, tail. simpl. rewrite decide_False by done.
      rewrite map_get_delete_ne, map_get_set_ne, Hc1, Hd1 by done. done.
    + done.
  - exists ends. simpl. split; [done |]. split; [done |]. split; done.
Qed.


Variable undefined : V.
Variable cacheSize : nat.

Lemma cache_first_cached (c : list (K * pid)) first p rest :
  c = (first, p) :: rest -> JS.map_get first c = Some p.
Proof. intros ->. simpl. by rewrite decide_True. Qed.

(** [set(key, info)], for a key that is not cached. *)
Lemma set_coherent (ends : K -> option pid) s key info :
  coherent ends s ->
  JS.map_get key (cache s) = None ->
  ends key = Some info -> pending s info ->
  (forall k, k <> key -> ends k = tail s k) ->
  let s' := set cacheSize key info s in
  exists ends',
    coherent ends' s' /\ (forall k, ends' k = tail s' k)
    /\ ends' key = Some info /\ pending s' info.
Proof.
  intros Hco Hcache Hends Hinfo Htails. unfold set.
  set (s2 := if cacheSize <=? length (cache s)
             then match cache s with
                  | (first, _) :: _ => snd (delete first s)
                  | [] => s
                  end
             else s).
  assert (Hs2 : exists ends2,
             coherent ends2 s2 /\ ends2 key = Some info /\ pending s2 info
             /\ JS.map_get key (cache s2) = None
             /\ (forall k, k <> key -> ends2 k = tail s2 k)).
  { unfold s2. destruct (cacheSize <=? length (cache s)); [| by exists ends].
    destruct (cache s) as [|[first p0] rest] eqn:Hc; [by exists ends; rewrite Hc |].
    assert (Hne : first <> key).
    { intros ->. simpl in Hcache. by rewrite decide_True in Hcache. }
    destruct (delete_coherent ends s first Hco (Htails first Hne))
      as (ends2 & Hco2 & Hfirst & Hothers & Hpend).
    exists ends2. split; [done |].
    destruct (Hothers key ltac:(done)) as (Hk1 & Hk2 & Hk3).
    split; [congruence |]. split; [by apply Hpend |]. split; [congruence |].
    intros k Hk. destruct (decide (k = first)) as [->|Hkf]; [done |].
    destruct (Hothers k Hkf) as (-> & -> & _). by apply Htails. }
  destruct Hs2 as (ends2 & Hco2 & Hkey2 & Hinfo2 & Hcache2 & Htails2).
  exists ends2. split; [| split; [| split]].
  - apply (coherent_frame _ s2); [done.. |]. intros k p. by left.
  - intros k. unfold tail. simpl. destruct (decide (k = key)) as [->|Hne].
    + by rewrite map_get_set_eq.
    + rewrite map_get_set_ne by done. by apply Htails2.
  - done.
  - done.
Qed.

(** [get(key)]. *)
Lemma get_consistent s key : consistent s -> consistent (snd (get cacheSize key s)).
Proof.
  unfold consistent, get. intros Hco.
  destruct (JS.map_get key (cache s)) as [info|] eqn:Hcache.
  - (* cached: moved to the end of the map *)
    simpl. apply (coherent_ext (tail s)).
    + intros k. unfold tail. simpl. destruct (decide (k = key)) as [->|Hne].
      * by rewrite map_get_set_eq, Hcache.
      * by rewrite map_get_set_ne, map_get_delete_ne.
    + apply (coherent_frame _ s); [done.. |]. intros k p. by left.
  - (* not cached *)
    set (first := match JS.map_get key (destructions s) with
                  | Some destruction => then_ destruction (ThenConstruct key) s
                  | None => let '(p, s) := alloc s in (p, asyncConstructor key p s)
                  end).
    assert (Hfirst : coherent (moveEnd (tail s) key (fst first)) (snd first)
                     /\ cache (snd first) = cache s /\ destructions (snd first) = destructions s
                     /\ pending (snd first) (fst first)
                     /\ fst first = length (heap s)).
    { unfold first. pose proof (tail_uncached s key Hcache) as Htail.
      destruct (JS.map_get key (destructions s)) as [destruction|] eqn:Hdes.
      - destruct (coherent_then_main (tail s) s key destruction (ThenConstruct key) Hco Htail
                    ltac:(done)) as (H1 & H2 & H3 & H4 & H5 & H6 & H7).
        rewrite H2. split; [done |]. split; [done |]. split; [done |]. split; done.
      - destruct (coherent_construct (tail s) s key Hco Htail) as (H1 & H3 & H4 & H5 & H6 & H7).
        simpl. split; [done |]. split; [done |]. split; [done |]. split; done. }
    destruct first as [info s1]. simpl in Hfirst.
    destruct Hfirst as (Hco1 & Hc1 & Hd1 & Hinfo1 & ->).
    assert (Hset := set_coherent (moveEnd (tail s) key (length (heap s))) s1 key
                      (length (heap s)) Hco1).
    destruct Hset as (ends3 & Hco3 & Htails3 & Hkey3 & Hinfo3).
    { by rewrite Hc1. }
    { unfold moveEnd. by rewrite decide_True. }
    { done. }
    { intros k Hk. unfold moveEnd, tail. rewrite decide_False by done. by rewrite Hc1, Hd1. }
    set (s3 := set cacheSize key (length (heap s)) s1) in *.
    destruct (coherent_then_catch ends3 s3 key (length (heap s)) Hco3 Hkey3 Hinfo3)
      as (Hco4 & Hc4 & Hd4).
    destruct (then_ (length (heap s)) (CatchForget key (length (heap s))) s3) as [x s4].
    simpl in Hco4, Hc4, Hd4 |- *.
    apply (coherent_ext ends3).
    + intros k. rewrite Htails3. unfold tail. simpl. rewrite Hc4, Hd4.
      destruct (decide (k = key)) as [->|Hne].
      * rewrite map_get_set_eq. rewrite <- Hkey3, Htails3. done.
      * by rewrite map_get_set_ne.
    + apply (coherent_frame _ s4); [done.. |]. intros k p. by left.
Qed.

Lemma delete_consistent s key : consistent s -> consistent (snd (delete key s)).
Proof.
  unfold consistent. intros Hco.
  destruct (delete_coherent (tail s) s key Hco eq_refl) as (ends' & Hco' & Hkey & Hothers & _).
  apply (coherent_ext ends'); [| done].
  intros k. destruct (decide (k = key)) as [->|Hne]; [done |].
  by destruct (Hothers k Hne) as (-> & -> & _).
Qed.


Lemma settle_fields s p o :
  log (settle p o s) = log s /\ constructing (settle p o s) = constructing s
  /\ destructing (settle p o s) = destructing s /\ cache (settle p o s) = cache s
  /\ destructions (settle p o s) = destructions s.
Proof. unfold settle. by destruct (heap s !! p) as [[[?|] ?]|]. Qed.

(** The item of a promise is used up, and the promise settles. *)
Lemma coherent_consumed (ends : K -> option pid) s mid (j : item) o :
  coherent ends s -> holds s j -> source j = None ->
  (forall i, holds mid i <-> holds s i /\ i <> j) ->
  allTargets s ≡ₚ target j :: allTargets mid ->
  heap mid = heap s -> destructions mid = destructions s ->
  logged mid -> (forall key, serialised key (log mid)) ->
  coherent ends (settle (target j) o mid).
Proof.
  intros (Hnd & Hord & Hlog & Hser) Hj Hsj Hmid Htargets Hheap Hdes Hlogm Hserm.
  destruct (targets_pending _ _ Hord j Hj) as [rs Hp]. rewrite <- Hheap in Hp.
  destruct (settle_fields mid (target j) o) as (Hf1 & Hf2 & Hf3 & Hf4 & Hf5).
  split; [| split; [| split]].
  - rewrite (settle_pending_targets mid (target j) o rs Hp).
    rewrite Htargets in Hnd. by apply NoDup_cons in Hnd as [_ ?].
  - apply (ordered_consumed ends s _ j o Hnd Hord Hj Hsj).
    + intros i. rewrite (settle_pending_holds mid (target j) o rs Hp). split.
      * intros [[[Hi Hne]%Hmid Hsi]|(r & -> & [Hw _]%Hmid)]; [by left | right; eauto].
      * intros [(Hi & Hne & Hsi)|(r & -> & Hw)].
        -- left. split; [by apply Hmid | done].
        -- right. exists r. split; [done |]. apply Hmid. split; [done |].
           intros Heq. by rewrite <- Heq in Hsj.
    + intros q. rewrite (settle_pending_pending mid (target j) o rs Hp).
      unfold pending. by rewrite Hheap.
    + intros q. rewrite (settle_pending_settled mid (target j) o rs Hp).
      unfold settled. by rewrite Hheap.
    + rewrite (settle_pending_eq mid (target j) o rs Hp). simpl.
      by rewrite length_insert, Hheap.
    + by rewrite Hf5.
  - by apply (logged_same mid).
  - by rewrite Hf1.
Qed.

Lemma tail_same s s' :
  cache s' = cache s -> destructions s' = destructions s -> forall k, tail s' k = tail s k.
Proof. unfold tail. by intros -> ->. Qed.

(** Running a queued job. *)
Lemma job_consistent s r o before after :
  consistent s -> jobs s = before ++ (r, o) :: after ->
  consistent (run undefined r o (set_jobs (before ++ after) s)).
Proof.
  unfold consistent. intros Hco Hjobs.
  pose proof Hco as (Hnd & Hord & Hlog & Hser).
  set (mid := set_jobs (before ++ after) s).
  assert (Hj : holds s (IJob r o)).
  { simpl. rewrite Hjobs. apply elem_of_app. right. by left. }
  pose proof (fun i => pop_job_holds s r o before after i Hnd Hjobs) as Hmid.
  pose proof (pop_job_targets s r o before after Hjobs) as Htargets.
  fold mid in Hmid, Htargets.
  assert (Hndmid : NoDup (allTargets mid)).
  { rewrite Htargets in Hnd. by apply NoDup_cons in Hnd as [_ ?]. }
  assert (Hlogmid : logged mid) by (by apply (logged_same s)).
  destruct r as [key d|key d|key info d].
  - (* the constructor starts *)
    simpl. split; [| split; [| split]].
    + rewrite asyncConstructor_targets. rewrite Htargets in Hnd. done.
    + apply (ordered_convert (tail s) s _ (IJob (ThenConstruct key d) o) (ICtor key d) Hnd Hord Hj);
        try done.
      intros i. rewrite asyncConstructor_holds, Hmid. done.
    + by apply logged_asyncConstructor.
    + destruct (idle_counts s key Hlog) as [Hc0 Hd0].
      { by apply (idle_beside (tail s) s (IJob (ThenConstruct key d) o)). }
      by apply serialised_starts_constructor.
  - destruct o as [v|].
    + (* the destructor starts *)
      simpl. split; [| split; [| split]].
      * rewrite asyncDestructor_targets. rewrite Htargets in Hnd. done.
      * apply (ordered_convert (tail s) s _ (IJob (ThenDestruct key d) (Fulfilled v))
                 (IDtor key d) Hnd Hord Hj); try done.
        intros i. rewrite asyncDestructor_holds, Hmid. done.
      * by apply logged_asyncDestructor.
      * destruct (idle_counts s key Hlog) as [Hc0 Hd0].
        { by apply (idle_beside (tail s) s (IJob (ThenDestruct key d) (Fulfilled v))). }
        by apply serialised_starts_destructor.
    + (* the rejection is passed on *)
      simpl.
      pose proof (coherent_consumed (tail s) s mid (IJob (ThenDestruct key d) Rejected) Rejected
                    Hco Hj eq_refl Hmid Htargets eq_refl eq_refl Hlogmid Hser) as Hnew.
      simpl in Hnew.
      destruct (settle_fields mid d Rejected) as (_ & _ & _ & Hc & Hd).
      eapply coherent_ext; [| exact Hnew]. by apply tail_same.
  - (* the catch *)
    set (forgot := match o with
                   | Rejected =>
                       if bool_decide (JS.map_get key (cache mid) = Some info)
                       then set_cache (JS.map_delete key (cache mid)) mid else mid
                   | Fulfilled _ => mid
                   end).
    set (o' := match o with Rejected => Fulfilled undefined | Fulfilled v => Fulfilled v end).
    assert (Hrun : run undefined (CatchForget key info d) o mid = settle d o' forgot).
    { unfold forgot, o'. by destruct o. }
    rewrite Hrun.
    assert (Hsame : heap forgot = heap s /\ jobs forgot = jobs mid
                    /\ constructing forgot = constructing s /\ destructing forgot = destructing s
                    /\ log forgot = log s /\ destructions forgot = destructions s).
    { unfold forgot. destruct o; [done |]. by destruct (bool_decide _). }
    destruct Hsame as (Hh & Hjb & Hc & Hd & Hl & Hdes).
    assert (Hnew : coherent (tail s) (settle d o' forgot)).
    { apply (coherent_consumed (tail s) s forgot (IJob (CatchForget key info d) o) o' Hco Hj
               eq_refl); try done.
      - intros i. rewrite <- Hmid.
        destruct i as [r' o''|key' p|key' p|src r']; simpl; by rewrite ?Hh, ?Hjb, ?Hc, ?Hd.
      - rewrite Htargets. unfold allTargets. by rewrite Hh, Hjb, Hc, Hd.
      - by apply (logged_same s).
      - by rewrite Hl. }
    destruct Hnew as (Hnd' & Hord' & Hlog' & Hser').
    split; [done |]. split; [| done].
    destruct (settle_fields forgot d o') as (_ & _ & _ & Hc' & Hd').
    assert (Hcf : forall k,
              JS.map_get k (cache forgot) = JS.map_get k (cache s)
              \/ (k = key /\ JS.map_get key (cache s) = Some info
                  /\ JS.map_get k (cache forgot) = None)).
    { intros k. unfold forgot. destruct o as [v|]; [by left |].
      destruct (bool_decide_reflect (JS.map_get key (cache mid) = Some info)) as [Hhit|Hmiss];
        [| by left].
      simpl. destruct (decide (k = key)) as [->|Hne].
      - right. by rewrite map_get_delete_eq.
      - left. by rewrite map_get_delete_ne. }
    apply (ordered_vacate (tail s)); [done |].
    intros k. unfold tail. rewrite Hc', Hd', Hdes.
    destruct (Hcf k) as [-> |(-> & Hhit & ->)]; [by left |].
    right. split; [| done].
    intros i Hi Hmi Hki.
    destruct (ends_last _ _ Hord' i Hi Hmi) as (p & Hp & Hpe & _).
    rewrite Hki in Hp. unfold tail in Hp. rewrite Hhit in Hp. injection Hp as <-.
    destruct (targets_pending _ _ Hord _ Hj) as [rs2 Hp2]. simpl in Hp2.
    rewrite <- Hh in Hp2.
    apply (settle_pending_pending forgot d o' rs2 Hp2) in Hpe as [Hpe _].
    unfold pending in Hpe. rewrite Hh in Hpe.
    exact (pending_not_settled s info Hpe (catch_after_info _ _ Hord key info d o Hj)).
Qed.


(** A constructor ends. *)
Lemma constructed_consistent s key p o before after :
  consistent s -> constructing s = before ++ (key, p) :: after ->
  consistent (settle p o (endConstructor key before after s)).
Proof.
  unfold consistent. intros Hco Heq.
  pose proof Hco as (Hnd & Hord & Hlog & Hser).
  assert (Hj : holds s (ICtor key p)).
  { simpl. rewrite Heq. apply elem_of_app. right. by left. }
  pose proof (coherent_consumed (tail s) s (endConstructor key before after s) (ICtor key p) o
                Hco Hj eq_refl) as Hnew.
  simpl in Hnew.
  destruct (settle_fields (endConstructor key before after s) p o) as (_ & _ & _ & Hc & Hd).
  eapply coherent_ext; [by apply tail_same |].
  apply Hnew; try done.
  - intros i. by apply endConstructor_holds.
  - by apply endConstructor_targets.
  - by apply (logged_endConstructor s key p).
Qed.

(** A destructor ends. *)
Lemma destructed_consistent s key p o before after :
  consistent s -> destructing s = before ++ (key, p) :: after ->
  consistent (settle p o (endDestructor key before after s)).
Proof.
  unfold consistent. intros Hco Heq.
  pose proof Hco as (Hnd & Hord & Hlog & Hser).
  assert (Hj : holds s (IDtor key p)).
  { simpl. rewrite Heq. apply elem_of_app. right. by left. }
  pose proof (coherent_consumed (tail s) s (endDestructor key before after s) (IDtor key p) o
                Hco Hj eq_refl) as Hnew.
  simpl in Hnew.
  destruct (settle_fields (endDestructor key before after s) p o) as (_ & _ & _ & Hc & Hd).
  eapply coherent_ext; [by apply tail_same |].
  apply Hnew; try done.
  - intros i. by apply endDestructor_holds.
  - by apply endDestructor_targets.
  - by apply (logged_endDestructor s key p).
Qed.

Lemma initial_no_items (i : item) : ~ holds (initial (K := K) (V := V)) i.
Proof.
  destruct i as [r o|key p|key p|src r]; simpl; try by intros ?%elem_of_nil.
  by intros (c & ? & _).
Qed.

Lemma initial_consistent : consistent (initial (K := K) (V := V)).
Proof.
  split; [| split; [| split]].
  - apply NoDup_nil_2.
  - split.
    + intros i Hi. destruct (initial_no_items i Hi).
    + done.
    + done.
    + done.
    + done.
    + intros i src Hi. destruct (initial_no_items i Hi).
    + intros i j Hi. destruct (initial_no_items i Hi).
    + intros i j src Hi. destruct (initial_no_items i Hi).
    + intros i Hi. destruct (initial_no_items i Hi).
    + intros src key info d Hi. destruct (initial_no_items _ Hi).
    + intros key info d o Hi. destruct (initial_no_items _ Hi).
  - done.
  - done.
Qed.

Lemma step_consistent s s' : consistent s -> step undefined cacheSize s s' -> consistent s'.
Proof.
  intros Hco Hstep.
  destruct Hstep as [key s|key s|r o before after s Hjobs|key p o before after s Hc
                    |key p o before after s Hd].
  - by apply get_consistent.
  - by apply delete_consistent.
  - by apply job_consistent.
  - by apply (constructed_consistent s key p o before after).
  - by apply (destructed_consistent s key p o before after).
Qed.

Lemma reachable_consistent s : reachable undefined cacheSize s -> consistent s.
Proof.
  induction 1 as [|s s' _ IH Hstep]; [apply initial_consistent | by eapply step_consistent].
Qed.

(** A log in which every start finds its key idle never has two
    constructors, or two destructors, of one key running. *)
Lemma serialised_bounded key (l : list (event (K := K) (V := V))) :
  serialised key l -> constructorsRunning key l <= 1 /\ destructorsRunning key l <= 1.
Proof.
  induction l as [|e l IH]; simpl; [lia |].
  intros [Hl He]. specialize (IH Hl).
  destruct e as [k|k|k v|k]; destruct (decide (k = key)) as [Heq|Hne]; try lia.
  - destruct (He Heq). lia.
  - destruct (He Heq). lia.
Qed.

Lemma serialised_older key (later older : list (event (K := K) (V := V))) :
  serialised key (later ++ older) -> serialised key older.
Proof. induction later as [|e later IH]; simpl; [done | intros [H _]; by apply IH]. Qed.

(** The running counts read from the log of a reachable state are the
    numbers of operations in flight. *)
Lemma reachable_logged s key :
  reachable undefined cacheSize s ->
  constructorsRunning key (log s) = length (filter (fun e => fst e = key) (constructing s))
  /\ destructorsRunning key (log s) = length (filter (fun e => fst e = key) (destructing s)).
Proof. intros Hr. by destruct (reachable_consistent s Hr) as (_ & _ & Hl & _). Qed.

Lemma reachable_serialised s key :
  reachable undefined cacheSize s -> serialised key (log s).
Proof. intros Hr. by destruct (reachable_consistent s Hr) as (_ & _ & _ & Hs). Qed.

End facts.
End LruOrder.

(** ** The LRU map: a second life of a key *)

Section lru_second_life.
Import Utils.
Local Open Scope nat_scope.

(** The key 7 is asked for again while its destruction is still queued:
    [get(7)] chains the new constructor after the destruction; the
    destructor starts, fails, and only then the constructor starts. *)
Definition afterSecondGet : runtime (K := nat) (V := nat) := snd (get 20 7 afterDelete).

Definition afterSecondDestructJob : runtime (K := nat) (V := nat) :=
  run 0 (ThenDestruct 7 2) (Fulfilled 1) (set_jobs ([] ++ []) afterSecondGet).

Definition afterFailedDestructor : runtime (K := nat) (V := nat) :=
  settle 2 Rejected
    {| heap := heap afterSecondDestructJob; jobs := jobs afterSecondDestructJob;
       constructing := constructing afterSecondDestructJob; destructing := [] ++ [];
       cache := cache afterSecondDestructJob;
       destructions := destructions afterSecondDestructJob;
       log := DestructorEnds 7 :: log afterSecondDestructJob |}.

Definition afterSecondConstructJob : runtime (K := nat) (V := nat) :=
  run 0 (ThenConstruct 7 3) Rejected (set_jobs ([] ++ []) afterFailedDestructor).

Lemma afterDelete_reachable : reachable 0 20 afterDelete.
Proof.
  eapply reachable_step; [| apply (step_delete 0 20 7 afterCatchJob)].
  eapply reachable_step;
    [| by apply (step_job 0 20 (CatchForget 7 0 1) (Fulfilled 1) [] [] afterConstructed)].
  eapply reachable_step; [| by apply (step_constructed 0 20 7 0 (Fulfilled 1) [] [] afterGet)].
  eapply reachable_step; [apply reachable_initial | apply (step_get 0 20 7 initial)].
Qed.

Lemma afterSecondConstructJob_reachable : reachable 0 20 afterSecondConstructJob.
Proof.
  eapply reachable_step;
    [| by apply (step_job 0 20 (ThenConstruct 7 3) Rejected [] [] afterFailedDestructor)].
  eapply reachable_step;
    [| by apply (step_destructed 0 20 7 2 Rejected [] [] afterSecondDestructJob)].
  eapply reachable_step;
    [| by apply (step_job 0 20 (ThenDestruct 7 2) (Fulfilled 1) [] [] afterSecondGet)].
  eapply reachable_step; [apply afterDelete_reachable | apply (step_get 0 20 7 afterDelete)].
Qed.

End lru_second_life.

(** C3. In every state the map can reach by interleaved [get] and [delete]
    calls, promise jobs and operations ending, and at every moment of the
    run that led there (every older part [e :: earlier] of the log, newest
    event first): at most one constructor and at most one destructor of a
    key are running, and when a constructor of the key starts, no
    destructor of the key that started before is still running (nor is
    another constructor of the key). *)
Theorem lru_constructors_and_destructors_serialised
    {K : Type} `{EqDecision K} {V : Type} (undefined : V) (cacheSize : nat)
    (s : Utils.runtime (K := K) (V := V)) (key : K) later e earlier :
  Utils.reachable undefined cacheSize s ->
  Utils.log s = later ++ e :: earlier ->
  (Utils.constructorsRunning key (e :: earlier) <= 1)%nat
  /\ (Utils.destructorsRunning key (e :: earlier) <= 1)%nat
  /\ (e = Utils.ConstructorStarts key ->
      Utils.destructorsRunning key earlier = 0%nat
      /\ Utils.constructorsRunning key earlier = 0%nat).
Proof.
  intros Hr Hlog.
  pose proof (LruOrder.reachable_serialised undefined cacheSize s key Hr) as Hs.
  rewrite Hlog in Hs. apply LruOrder.serialised_older in Hs.
  destruct (LruOrder.serialised_bounded key _ Hs) as [Hc Hd].
  split; [exact Hc | split; [exact Hd |]].
  intros ->. destruct Hs as [_ Hs]. by destruct (Hs eq_refl).
Qed.

Lemma lru_constructors_and_destructors_serialised_witness :
  Utils.reachable 0%nat 20 afterSecondConstructJob
  /\ Utils.log afterSecondConstructJob
     = [] ++ Utils.ConstructorStarts 7%nat
          :: [ Utils.DestructorEnds 7%nat; Utils.DestructorStarts 7%nat 1%nat;
               Utils.ConstructorEnds 7%nat; Utils.ConstructorStarts 7%nat ]
  /\ ((Utils.constructorsRunning 7%nat (Utils.log afterSecondConstructJob) <= 1)%nat
      /\ (Utils.destructorsRunning 7%nat (Utils.log afterSecondConstructJob) <= 1)%nat
      /\ ((Utils.ConstructorStarts 7%nat : Utils.event (K := nat) (V := nat))
          = Utils.ConstructorStarts 7%nat ->
          Utils.destructorsRunning 7%nat
            [ Utils.DestructorEnds 7%nat; Utils.DestructorStarts 7%nat 1%nat;
              Utils.ConstructorEnds 7%nat; Utils.ConstructorStarts 7%nat ] = 0%nat
          /\ Utils.constructorsRunning 7%nat
               [ Utils.DestructorEnds 7%nat; Utils.DestructorStarts 7%nat 1%nat;
                 Utils.ConstructorEnds 7%nat; Utils.ConstructorStarts 7%nat ] = 0%nat)).
Proof.
  split; [apply afterSecondConstructJob_reachable |].
  split; [reflexivity |].
  apply (lru_constructors_and_destructors_serialised 0%nat 20 afterSecondConstructJob 7%nat
           [] (Utils.ConstructorStarts 7%nat)
           [ Utils.DestructorEnds 7%nat; Utils.DestructorStarts 7%nat 1%nat;
             Utils.ConstructorEnds 7%nat; Utils.ConstructorStarts 7%nat ]);
    [apply afterSecondConstructJob_reachable | reflexivity].
Defined.

(** * Further properties *)

(** ** MediaBackend: encoder identifiers *)

Section encoder_ids.
Import MediaBackend.
Local Open Scope Z_scope.
Implicit Types (b : t) (id attempt : Z).

(** An identifier is in use when a segment is marked with it or an attached
    encoder carries it. *)
Definition idInUse (b : t) (id : Z) : Prop :=
  id ∈ segmentStatus b \/ exists entry, entry ∈ encoderHeads b /\ t_id entry.2 = id.

Lemma existsb_status_in (status : list Z) attempt :
  existsb (fun id => id =? attempt) status = true <-> attempt ∈ status.
Proof.
  rewrite existsb_exists. split.
  - intros (x & Hin & Heq). apply Z.eqb_eq in Heq as ->. by apply list_elem_of_In.
  - intros Hin. exists attempt. split; [by apply list_elem_of_In | apply Z.eqb_refl].
Qed.

Lemma existsb_encoder_in (heads : list (nat * TranscoderStatus)) attempt :
  existsb (fun encoder => t_id encoder =? attempt) (map snd heads) = true
  <-> exists entry, entry ∈ heads /\ t_id entry.2 = attempt.
Proof.
  rewrite existsb_exists. split.
  - intros (x & Hin & Heq). apply Z.eqb_eq in Heq.
    apply in_map_iff in Hin as (entry & <- & Hin). exists entry.
    split; [by apply list_elem_of_In | done].
  - intros (entry & Hin & Heq). exists entry.2. split; [| by apply Z.eqb_eq].
    apply in_map_iff. exists entry. split; [done | by apply list_elem_of_In].
Qed.

(** The loop returns the first attempt that is not in use. *)
Lemma findNextAvailableId_from_Some b (n : nat) : forall (i : Z) attempt,
  findNextAvailableId_from n i b = Some attempt ->
  exists j, i <= j < i + Z.of_nat n
            /\ attempt = Z.rem (lastAssignedId b + j) 252 + 2
            /\ ~ idInUse b attempt.
Proof.
  induction n as [|n IH]; intros i attempt Hfind; [done |].
  simpl in Hfind.
  destruct (existsb _ (segmentStatus b)) eqn:Hstatus.
  { destruct (IH _ _ Hfind) as (j & Hj & Heq & Hfree). exists j. split; [lia | done]. }
  destruct (existsb _ (map snd (encoderHeads b))) eqn:Hheads.
  { destruct (IH _ _ Hfind) as (j & Hj & Heq & Hfree). exists j. split; [lia | done]. }
  injection Hfind as <-. exists i. split; [lia |]. split; [done |].
  intros [Hin|Hin].
  - apply existsb_status_in in Hin. congruence.
  - apply existsb_encoder_in in Hin. congruence.
Qed.

Lemma findNextAvailableId_from_None b (n : nat) : forall (i : Z),
  findNextAvailableId_from n i b = None ->
  forall j, i <= j < i + Z.of_nat n -> idInUse b (Z.rem (lastAssignedId b + j) 252 + 2).
Proof.
  induction n as [|n IH]; intros i Hfind j Hj; [lia |].
  simpl in Hfind.
  destruct (decide (j = i)) as [->|Hne].
  - destruct (existsb _ (segmentStatus b)) eqn:Hstatus.
    { left. by apply existsb_status_in. }
    destruct (existsb _ (map snd (encoderHeads b))) eqn:Hheads; [| done].
    right. by apply existsb_encoder_in.
  - assert (Hrest : findNextAvailableId_from n (i + 1) b = None).
    { destruct (existsb _ (segmentStatus b)); [done |].
      by destruct (existsb _ (map snd (encoderHeads b))). }
    apply (IH _ Hrest). lia.
Qed.

(** The 252 attempts are the 252 identifiers from 2 to 253. *)
Lemma attempt_of_id (last id : Z) :
  1 <= last -> 2 <= id <= 253 ->
  exists j, -1 <= j < -1 + 252 /\ id = Z.rem (last + j) 252 + 2.
Proof.
  intros Hlast Hid. exists ((id - 1 - last) mod 252 - 1).
  pose proof (Z.mod_pos_bound (id - 1 - last) 252 ltac:(lia)) as Hb.
  split; [lia |].
  rewrite Z.rem_mod_nonneg by lia.
  replace (last + ((id - 1 - last) mod 252 - 1)) with ((last - 1) + (id - 1 - last) mod 252) by lia.
  rewrite Zplus_mod_idemp_r.
  replace (last - 1 + (id - 1 - last)) with (id - 2) by lia.
  rewrite Z.mod_small; lia.
Qed.

Lemma attempt_in_range (last j : Z) :
  1 <= last -> -1 <= j -> 2 <= Z.rem (last + j) 252 + 2 <= 253.
Proof.
  intros Hlast Hj. rewrite Z.rem_mod_nonneg by lia.
  pose proof (Z.mod_pos_bound (last + j) 252 ltac:(lia)). lia.
Qed.

(** The loop [for (let i = -1; i <= 250; i++)] makes 252 attempts. *)
Lemma findNextAvailableId_loop b :
  findNextAvailableId b
  = match findNextAvailableId_from 252 (-1) b with
    | Some attempt => JS.Ok (attempt, set_lastAssignedId attempt b)
    | None => JS.Throw "No available Uint8 value."
    end.
Proof. reflexivity. Qed.

Lemma findNextAvailableId_cases b :
  (exists attempt,
     findNextAvailableId_from 252 (-1) b = Some attempt
     /\ findNextAvailableId b = JS.Ok (attempt, set_lastAssignedId attempt b))
  \/ (findNextAvailableId_from 252 (-1) b = None
      /\ findNextAvailableId b = JS.Throw "No available Uint8 value.").
Proof.
  rewrite findNextAvailableId_loop.
  generalize (findNextAvailableId_from 252 (-1) b).
  intros [attempt|]; [left; exists attempt; split; reflexivity | right; split; reflexivity].
Qed.

(** What the loop finds, and what it means that it finds nothing. *)
Lemma findNextAvailableId_Ok b id b' :
  1 <= lastAssignedId b ->
  findNextAvailableId b = JS.Ok (id, b') ->
  2 <= id <= 253 /\ ~ idInUse b id /\ b' = set_lastAssignedId id b.
Proof.
  intros Hlast Hfind.
  destruct (findNextAvailableId_cases b) as [(attempt & Hloop & Heq)|(Hloop & Heq)];
    rewrite Heq in Hfind; [| discriminate Hfind].
  injection Hfind as <- <-.
  destruct (findNextAvailableId_from_Some _ _ _ _ Hloop) as (j & Hj & Hat & Hfree).
  clear Hloop Heq. subst attempt.
  split; [apply attempt_in_range; lia |]. split; [exact Hfree | reflexivity].
Qed.

Lemma findNextAvailableId_Throw b :
  1 <= lastAssignedId b ->
  (findNextAvailableId b = JS.Throw "No available Uint8 value."
   <-> forall id, 2 <= id <= 253 -> idInUse b id).
Proof.
  intros Hlast.
  destruct (findNextAvailableId_cases b) as [(attempt & Hloop & Heq)|(Hloop & Heq)];
    rewrite Heq.
  - split; [intros Hfind; discriminate Hfind |]. intros Hall.
    destruct (findNextAvailableId_from_Some _ _ _ _ Hloop) as (j & Hj & Hat & Hfree).
    clear Hloop Heq. subst attempt.
    destruct Hfree. apply Hall. apply attempt_in_range; lia.
  - split; [| reflexivity]. intros _ id Hid.
    destruct (attempt_of_id _ _ Hlast Hid) as (j & Hj & Hat).
    rewrite Hat. apply (findNextAvailableId_from_None _ _ _ Hloop). lia.
Qed.

End encoder_ids.

(** A 720p backend of four segments, as fresh as its constructor leaves it. *)
Definition fourSegments : MediaBackend.t :=
  MediaBackend.create
    {| MediaBackend.preset :=
         {| MediaBackend.name := "720p"; MediaBackend.resolution := 720;
            MediaBackend.videoBitrate := 4800; MediaBackend.audioBitrate := 160 |};
       MediaBackend.width := 1280; MediaBackend.height := 720 |}
    [0; 3; 6; 9.5; 13]%float "film.mkv" "out".

(** X1. [findNextAvailableId] hands out an identifier between 2 and 253 (so
    never [EMPTY], [DONE] or a reserved value) that marks no segment and that
    no attached encoder carries, and remembers it in [lastAssignedId]; nothing
    else changes. *)
Theorem findNextAvailableId_fresh (b b' : MediaBackend.t) (id : Z) :
  1 <= MediaBackend.lastAssignedId b ->
  MediaBackend.findNextAvailableId b = JS.Ok (id, b') ->
  2 <= id <= 253
  /\ ~ (id ∈ MediaBackend.segmentStatus b)
  /\ (forall transcoder status,
        (transcoder, status) ∈ MediaBackend.encoderHeads b -> MediaBackend.t_id status <> id)
  /\ b' = MediaBackend.set_lastAssignedId id b.
Proof.
  intros Hlast Hfind.
  destruct (findNextAvailableId_Ok b id b' Hlast Hfind) as (Hrange & Hfree & Heq).
  split; [exact Hrange |].
  split; [intros Hin; apply Hfree; left; exact Hin |].
  split; [| exact Heq].
  intros transcoder status Hin Hid. apply Hfree. right.
  exists (transcoder, status). split; [exact Hin | exact Hid].
Qed.

Lemma findNextAvailableId_fresh_witness :
  MediaBackend.findNextAvailableId fourSegments
  = JS.Ok (2, MediaBackend.set_lastAssignedId 2 fourSegments)
  /\ ~ (2 ∈ MediaBackend.segmentStatus fourSegments).
Proof.
  assert (Hrun : MediaBackend.findNextAvailableId fourSegments
                 = JS.Ok (2, MediaBackend.set_lastAssignedId 2 fourSegments))
    by (vm_compute; reflexivity).
  split; [exact Hrun |].
  apply (findNextAvailableId_fresh fourSegments _ 2 ltac:(vm_compute; discriminate) Hrun).
Defined.

(** X2. [findNextAvailableId] throws exactly when each of the 252 identifiers
    from 2 to 253 marks a segment or is carried by an attached encoder. *)
Theorem findNextAvailableId_throws_iff_exhausted (b : MediaBackend.t) :
  1 <= MediaBackend.lastAssignedId b ->
  (MediaBackend.findNextAvailableId b = JS.Throw "No available Uint8 value."
   <-> forall id, 2 <= id <= 253 -> idInUse b id).
Proof. apply findNextAvailableId_Throw. Qed.

Lemma findNextAvailableId_throws_iff_exhausted_witness :
  1 <= MediaBackend.lastAssignedId fourSegments
  /\ (MediaBackend.findNextAvailableId fourSegments = JS.Throw "No available Uint8 value."
      <-> forall id, 2 <= id <= 253 -> idInUse fourSegments id).
Proof.
  split; [vm_compute; discriminate |].
  apply (findNextAvailableId_throws_iff_exhausted fourSegments). vm_compute. discriminate.
Defined.

(** ** MediaBackend: starting and ending a transcoder *)

Section transcoders.
Import MediaBackend.
Local Open Scope Z_scope.
Implicit Types (b : t) (c : Closure).

(** Where the scan for a busy segment ends: at the given end when every
    segment it looks at is [EMPTY], else at the first that is not. *)
Lemma firstBusyFrom_cases (status : list Z) (endAt0 : Z) (n : nat) : forall (i : nat),
  (firstBusyFrom n i status endAt0 = endAt0
   /\ forall j, (i <= j < i + n)%nat -> status !! j = Some EMPTY)
  \/ (exists k, firstBusyFrom n i status endAt0 = Z.of_nat k
               /\ (i <= k < i + n)%nat
               /\ (forall j, (i <= j < k)%nat -> status !! j = Some EMPTY)
               /\ status !! k <> Some EMPTY).
Proof.
  induction n as [|n IH]; intros i; simpl.
  { left. split; [done | lia]. }
  destruct (status !! i) as [v|] eqn:Hi.
  - destruct (v =? EMPTY) eqn:Hv.
    + apply Z.eqb_eq in Hv as ->.
      destruct (IH (S i)) as [[Heq Hall]|(k & Heq & Hk & Hall & Hbusy)].
      * left. split; [done |]. intros j Hj.
        destruct (decide (j = i)) as [->|Hne]; [done | apply Hall; lia].
      * right. exists k. split; [done |]. split; [lia |]. split; [| done].
        intros j Hj. destruct (decide (j = i)) as [->|Hne]; [done | apply Hall; lia].
    + right. exists i. split; [done |]. split; [lia |]. split; [lia |].
      rewrite Hi. intros [= ->]. by rewrite Z.eqb_refl in Hv.
  - right. exists i. split; [done |]. split; [lia |]. split; [lia |]. by rewrite Hi.
Qed.

(** The end index lies beyond the start, within the video, and every segment
    strictly between the two is [EMPTY]. *)
Lemma chooseEndAt_range startAt b :
  0 <= startAt < segmentCount b ->
  startAt < chooseEndAt startAt b <= segmentCount b
  /\ forall i, startAt < i < chooseEndAt startAt b ->
               segmentStatus b !! Z.to_nat i = Some EMPTY.
Proof.
  intros Hs. unfold chooseEndAt.
  destruct (firstBusyFrom_cases (segmentStatus b) (Z.min (segmentCount b) (startAt + 512))
              (Z.to_nat (segmentCount b - (startAt + 1))) (Z.to_nat (startAt + 1)))
    as [[-> Hall]|(k & -> & Hk & Hall & _)].
  - split; [lia |]. intros i Hi. apply Hall. lia.
  - split; [lia |]. intros i Hi. apply Hall. lia.
Qed.

(** [startTranscode] in its four outcomes. *)
Lemma startTranscode_cases startAt transcoder b :
  (~ (0 <= startAt < segmentCount b)
   /\ startTranscode startAt transcoder b = JS.Throw "Starting point wrong.")
  \/ (0 <= startAt < segmentCount b
      /\ segmentStatus b !! Z.to_nat startAt <> Some EMPTY
      /\ startTranscode startAt transcoder b = JS.Throw "Segment already being encoded.")
  \/ (0 <= startAt < segmentCount b
      /\ segmentStatus b !! Z.to_nat startAt = Some EMPTY
      /\ exists msg, findNextAvailableId b = JS.Throw msg
                     /\ startTranscode startAt transcoder b = JS.Throw msg)
  \/ (0 <= startAt < segmentCount b
      /\ segmentStatus b !! Z.to_nat startAt = Some EMPTY
      /\ exists encoderId b1 started,
           findNextAvailableId b = JS.Ok (encoderId, b1)
           /\ startTranscode startAt transcoder b
              = JS.Ok (started,
                       set_encoderHeads
                         (JS.map_set transcoder {| t_head := startAt; t_id := encoderId |}
                            (encoderHeads b1))
                         (set_segmentStatus
                            (<[Z.to_nat startAt := encoderId]> (segmentStatus b1)) b1))
           /\ process started = transcoder
           /\ endAt started = chooseEndAt startAt b
           /\ segment_start_number (ffmpeg started) = startAt
           /\ segment_times (ffmpeg started)
              = subarray (breakpoints b) (Z.to_nat (startAt + 1))
                  (Z.to_nat (chooseEndAt startAt b))).
Proof.
  unfold startTranscode.
  destruct (0 <=? startAt) eqn:H0; destruct (startAt <? segmentCount b) eqn:H1; simpl;
    try (left; split; [lia | reflexivity]).
  right. assert (Hrange : 0 <= startAt < segmentCount b) by lia.
  destruct (bool_decide _) eqn:Hempty; simpl.
  - apply bool_decide_eq_true in Hempty. right.
    generalize (findNextAvailableId b). intros [[encoderId b1]|msg].
    + right. split; [exact Hrange |]. split; [exact Hempty |].
      eexists encoderId, b1, _. repeat split.
    + left. split; [exact Hrange |]. split; [exact Hempty |]. exists msg. split; reflexivity.
  - apply bool_decide_eq_false in Hempty. left. split; [exact Hrange |]. split; [exact Hempty | reflexivity].
Qed.

Lemma map_delete_set_fresh {K V : Type} `{EqDecision K} (k : K) (v : V) (m : list (K * V)) :
  JS.map_get k m = None -> JS.map_delete k (JS.map_set k v m) = m.
Proof.
  induction m as [|[k0 v0] m IH]; simpl.
  - intros _. by rewrite decide_True.
  - destruct (decide (k0 = k)) as [->|Hne]; [done |]. intros Hm.
    simpl. rewrite decide_False by done. by rewrite IH.
Qed.

Lemma map_delete_absent {K V : Type} `{EqDecision K} (k : K) (m : list (K * V)) :
  JS.map_get k m = None -> JS.map_delete k m = m.
Proof.
  induction m as [|[k0 v0] m IH]; simpl; [done |].
  destruct (decide (k0 = k)) as [->|Hne]; [done |]. intros Hm. by rewrite IH.
Qed.

Lemma at_Z_nonneg {A : Type} (l : list A) (i : Z) : 0 <= i -> JS.at_Z l i = l !! Z.to_nat i.
Proof. intros Hi. unfold JS.at_Z. by rewrite (proj2 (Z.leb_le 0 i) Hi). Qed.

Lemma writeAt_nonneg (i v : Z) (a : list Z) : 0 <= i -> writeAt i v a = <[Z.to_nat i := v]> a.
Proof. intros Hi. unfold writeAt. by rewrite (proj2 (Z.leb_le 0 i) Hi). Qed.

End transcoders.

(** X3. A successful [startTranscode(startAt)] takes a range that begins at
    [startAt], ends within the video, and holds only [EMPTY] segments after
    its first; it marks segment [startAt] with an identifier from 2 to 253
    that nothing else uses, registers the transcoder in [encoderHeads] with
    its head at [startAt], and changes nothing else but [lastAssignedId]. *)
Theorem startTranscode_takes_free_range
    (startAt : Z) (transcoder : nat) (b b' : MediaBackend.t) (started : MediaBackend.Started) :
  1 <= MediaBackend.lastAssignedId b ->
  MediaBackend.startTranscode startAt transcoder b = JS.Ok (started, b') ->
  0 <= startAt < MediaBackend.endAt started
  /\ MediaBackend.endAt started <= MediaBackend.segmentCount b
  /\ MediaBackend.segmentStatus b !! Z.to_nat startAt = Some MediaBackend.EMPTY
  /\ (forall i, startAt < i < MediaBackend.endAt started ->
                MediaBackend.segmentStatus b !! Z.to_nat i = Some MediaBackend.EMPTY)
  /\ exists encoderId,
       2 <= encoderId <= 253
       /\ ~ idInUse b encoderId
       /\ MediaBackend.segmentStatus b'
          = <[Z.to_nat startAt := encoderId]> (MediaBackend.segmentStatus b)
       /\ MediaBackend.encoderHeads b'
          = JS.map_set transcoder
              {| MediaBackend.t_head := startAt; MediaBackend.t_id := encoderId |}
              (MediaBackend.encoderHeads b)
       /\ MediaBackend.lastAssignedId b' = encoderId
       /\ MediaBackend.clients b' = MediaBackend.clients b
       /\ MediaBackend.breakpoints b' = MediaBackend.breakpoints b.
Proof.
  intros Hlast Hstart.
  destruct (startTranscode_cases startAt transcoder b)
    as [[_ Heq]|[(_ & _ & Heq)|[(_ & _ & msg & _ & Heq)
         |(Hrange & Hempty & encoderId & b1 & started' & Hid & Heq & _ & Hend & _)]]];
    rewrite Heq in Hstart; try discriminate Hstart.
  injection Hstart as <- <-.
  destruct (findNextAvailableId_Ok b encoderId b1 Hlast Hid) as (Hidr & Hfree & ->).
  destruct (chooseEndAt_range startAt b Hrange) as [Hend1 Hend2].
  rewrite Hend. split; [lia |]. split; [lia |]. split; [exact Hempty |]. split; [exact Hend2 |].
  exists encoderId. repeat split; try done; lia.
Qed.

Lemma startTranscode_takes_free_range_witness :
  exists started b',
    MediaBackend.startTranscode 1 7 fourSegments = JS.Ok (started, b')
    /\ 0 <= 1 < MediaBackend.endAt started
    /\ MediaBackend.endAt started <= MediaBackend.segmentCount fourSegments.
Proof.
  assert (Hrun : exists started b',
            MediaBackend.startTranscode 1 7 fourSegments = JS.Ok (started, b'))
    by (eexists _, _; vm_compute; reflexivity).
  destruct Hrun as (started & b' & Hrun).
  exists started, b'. split; [exact Hrun |].
  destruct (startTranscode_takes_free_range 1 7 fourSegments b' started
              ltac:(vm_compute; discriminate) Hrun) as (Hstart & Hend & _).
  split; [exact Hstart | exact Hend].
Defined.

(** X4. [startTranscode(startAt)] succeeds exactly when [startAt] is the index
    of a segment, that segment is [EMPTY], and an identifier from 2 to 253 is
    free; outside the video it fails on its first assertion and at a segment
    that is not [EMPTY] on its second. *)
Theorem startTranscode_succeeds_iff (startAt : Z) (transcoder : nat) (b : MediaBackend.t) :
  1 <= MediaBackend.lastAssignedId b ->
  ((exists started b', MediaBackend.startTranscode startAt transcoder b = JS.Ok (started, b'))
   <-> 0 <= startAt < MediaBackend.segmentCount b
       /\ MediaBackend.segmentStatus b !! Z.to_nat startAt = Some MediaBackend.EMPTY
       /\ exists id, 2 <= id <= 253 /\ ~ idInUse b id)
  /\ (MediaBackend.startTranscode startAt transcoder b = JS.Throw "Starting point wrong."
      <-> ~ (0 <= startAt < MediaBackend.segmentCount b))
  /\ (MediaBackend.startTranscode startAt transcoder b = JS.Throw "Segment already being encoded."
      <-> 0 <= startAt < MediaBackend.segmentCount b
          /\ MediaBackend.segmentStatus b !! Z.to_nat startAt <> Some MediaBackend.EMPTY).
Proof.
  intros Hlast.
  destruct (startTranscode_cases startAt transcoder b)
    as [[Hout Heq]|[(Hrange & Hbusy & Heq)|[(Hrange & Hempty & msg & Hid & Heq)
         |(Hrange & Hempty & encoderId & b1 & started & Hid & Heq & _)]]];
    rewrite Heq.
  - split; [| split].
    + split; [intros (? & ? & [=]) | intros (Hrange & _); by destruct Hout].
    + done.
    + split; [intros [=] | intros (Hrange & _); by destruct Hout].
  - split; [| split].
    + split; [intros (? & ? & [=]) | intros (_ & Hempty & _); by destruct Hbusy].
    + split; [intros [=] | intros Hout; by destruct Hout].
    + done.
  - assert (Hmsg : msg = "No available Uint8 value."%string).
    { destruct (findNextAvailableId_cases b) as [(attempt & _ & Heq')|(_ & Heq')];
        rewrite Heq' in Hid; [discriminate Hid | by injection Hid]. }
    subst msg. split; [| split].
    + split; [intros (? & ? & [=]) |]. intros (_ & _ & id & Hidr & Hfree).
      destruct Hfree. by apply (proj1 (findNextAvailableId_Throw b Hlast) Hid).
    + split; [intros [=] | intros Hout; by destruct Hout].
    + split; [intros [=] | intros (_ & Hbusy); by destruct Hbusy].
  - destruct (findNextAvailableId_Ok b encoderId b1 Hlast Hid) as (Hidr & Hfree & _).
    split; [| split].
    + split; [intros _ | intros _; by eexists _, _].
      split; [done |]. split; [done |]. by exists encoderId.
    + split; [intros [=] | intros Hout; by destruct Hout].
    + split; [intros [=] | intros (_ & Hbusy); by destruct Hbusy].
Qed.

Lemma startTranscode_succeeds_iff_witness :
  1 <= MediaBackend.lastAssignedId fourSegments
  /\ MediaBackend.startTranscode 4 7 fourSegments = JS.Throw "Starting point wrong.".
Proof.
  split; [vm_compute; discriminate |].
  apply (proj1 (proj2 (startTranscode_succeeds_iff 4 7 fourSegments
                         ltac:(vm_compute; discriminate)))).
  vm_compute. intros [_ Hlt]. discriminate Hlt.
Defined.

(** X5. A transcoder that exits before it has produced a segment leaves no
    trace but the advanced [lastAssignedId]: after [startTranscode] with a
    new process handle, the exit handler finds the transcoder attached (its
    assertion holds), frees segment [startAt] again and detaches it. *)
Theorem startTranscode_then_exit
    (startAt : Z) (transcoder : nat) (b b' : MediaBackend.t) (started : MediaBackend.Started) :
  1 <= MediaBackend.lastAssignedId b ->
  JS.map_get transcoder (MediaBackend.encoderHeads b) = None ->
  MediaBackend.startTranscode startAt transcoder b = JS.Ok (started, b') ->
  exists c,
    MediaBackend.handlersOf started b' = Some c
    /\ MediaBackend.c_transcoder c = transcoder
    /\ MediaBackend.t_head (MediaBackend.c_status c) = startAt
    /\ MediaBackend.c_endAt c = MediaBackend.endAt started
    /\ MediaBackend.onExit c b'
       = (MediaBackend.set_lastAssignedId (MediaBackend.c_encoderId c) b, JS.Ok tt).
Proof.
  intros Hlast Hnew Hstart.
  destruct (startTranscode_cases startAt transcoder b)
    as [[_ Heq]|[(_ & _ & Heq)|[(_ & _ & msg & _ & Heq)
         |(Hrange & Hempty & encoderId & b1 & started' & Hid & Heq & Hproc & _)]]];
    rewrite Heq in Hstart; try discriminate Hstart.
  injection Hstart as <- <-.
  destruct (findNextAvailableId_Ok b encoderId b1 Hlast Hid) as (_ & _ & ->).
  unfold MediaBackend.handlersOf. rewrite Hproc. simpl. rewrite map_get_set_eq. simpl.
  eexists. split; [reflexivity |]. simpl. repeat split.
  unfold MediaBackend.onExit. simpl.
  rewrite at_Z_nonneg by lia.
  rewrite list_lookup_insert_eq by (by apply lookup_lt_Some in Hempty).
  rewrite bool_decide_eq_true_2 by done. simpl.
  rewrite map_get_set_eq. rewrite writeAt_nonneg by lia.
  rewrite list_insert_insert_eq. rewrite (list_insert_id _ _ _ Hempty).
  rewrite map_delete_set_fresh by done.
  by destruct b.
Qed.

Lemma startTranscode_then_exit_witness :
  exists started b' c,
    MediaBackend.startTranscode 1 7 fourSegments = JS.Ok (started, b')
    /\ MediaBackend.handlersOf started b' = Some c
    /\ MediaBackend.onExit c b'
       = (MediaBackend.set_lastAssignedId (MediaBackend.c_encoderId c) fourSegments, JS.Ok tt).
Proof.
  assert (Hrun : exists started b',
            MediaBackend.startTranscode 1 7 fourSegments = JS.Ok (started, b'))
    by (eexists _, _; vm_compute; reflexivity).
  destruct Hrun as (started & b' & Hrun).
  destruct (startTranscode_then_exit 1 7 fourSegments b' started
              ltac:(vm_compute; discriminate) eq_refl Hrun) as (c & Hc & _ & _ & _ & Hexit).
  by exists started, b', c.
Defined.

(** ** MediaBackend: the lines of ffmpeg's segment list *)

Section segment_lines.
Import MediaBackend.
Local Open Scope Z_scope.
Implicit Types (b : t) (c : Closure) (s rest : string).

Lemma string_app_empty_r s : s +:+ "" = s.
Proof. induction s as [|a s IH]; [done |]. by rewrite string_app_cons, IH. Qed.

Lemma startsWith_append (p s : string) : JS.startsWith p (p +:+ s) = true.
Proof.
  induction p as [|a p IH]; [done |].
  rewrite string_app_cons. simpl. by rewrite Ascii.eqb_refl, IH.
Qed.

Lemma String_substring_middle (p m q : string) :
  String.substring (String.length p) (String.length m) (p +:+ m +:+ q) = m.
Proof.
  induction p as [|a p IH]; [| by rewrite string_app_cons].
  change ("" +:+ m +:+ q) with (m +:+ q). simpl.
  induction m as [|a m IH]; [by destruct q |].
  rewrite string_app_cons. simpl. by rewrite IH.
Qed.

Lemma endsWith_append (p s : string) : JS.endsWith p (s +:+ p) = true.
Proof.
  unfold JS.endsWith. rewrite string_length_append.
  rewrite (proj2 (Nat.leb_le _ _)) by lia. simpl.
  replace (String.length s + String.length p - String.length p)%nat with (String.length s) by lia.
  rewrite <- (string_app_empty_r p) at 2.
  rewrite String_substring_middle. apply String.eqb_refl.
Qed.

Lemma substring_middle (p m q : string) :
  JS.substring (Z.of_nat (String.length p))
    (Z.of_nat (String.length (p +:+ m +:+ q)) - Z.of_nat (String.length q)) (p +:+ m +:+ q)
  = m.
Proof.
  unfold JS.substring. rewrite !string_length_append.
  replace (Z.to_nat _) with (String.length p) by lia.
  replace (Z.to_nat _) with (String.length m) by lia.
  apply String_substring_middle.
Qed.

(** Reading decimal digits back. *)
Lemma decDigit_digit (n : Z) : 0 <= n < 10 -> decDigit (JS.digit n) = Some n.
Proof.
  intros Hn. remember (Z.to_nat n) as k eqn:Hk.
  assert (Hnk : n = Z.of_nat k) by lia. assert (Hlt : (k < 10)%nat) by lia.
  subst n. clear Hk Hn.
  do 10 (destruct k as [|k]; [reflexivity |]). lia.
Qed.

Lemma decPrefix_cons_digit (d : Z) (acc : option Z) rest :
  0 <= d < 10 ->
  decPrefix (String (JS.digit d) rest) acc = decPrefix rest (Some (default 0 acc * 10 + d)).
Proof. intros Hd. cbn [decPrefix]. by rewrite decDigit_digit. Qed.

Lemma digits_unfold (fuel : nat) (n : Z) :
  JS.digits (S fuel) n
  = if n <? 10 then String (JS.digit n) EmptyString
    else JS.digits fuel (n / 10) +:+ String (JS.digit (n mod 10)) EmptyString.
Proof. reflexivity. Qed.

Lemma decPrefix_digits (fuel : nat) : forall (n : Z) (acc : option Z) rest,
  0 <= n < 10 ^ Z.of_nat (S fuel) ->
  decPrefix (JS.digits (S fuel) n +:+ rest) acc
  = decPrefix rest
      (Some (default 0 acc * 10 ^ Z.of_nat (String.length (JS.digits (S fuel) n)) + n)).
Proof.
  induction fuel as [|fuel IH]; intros n acc rest Hn; rewrite digits_unfold.
  - assert (H10 : n < 10) by (change (10 ^ Z.of_nat 1) with 10 in Hn; lia).
    rewrite (proj2 (Z.ltb_lt _ _) H10). rewrite string_app_cons.
    change ("" +:+ rest) with rest.
    rewrite decPrefix_cons_digit by lia. cbn [String.length].
    change (10 ^ Z.of_nat 1) with 10. reflexivity.
  - destruct (n <? 10) eqn:H10.
    + apply Z.ltb_lt in H10. rewrite string_app_cons.
      change ("" +:+ rest) with rest.
      rewrite decPrefix_cons_digit by lia. cbn [String.length].
      change (10 ^ Z.of_nat 1) with 10. reflexivity.
    + apply Z.ltb_ge in H10.
      assert (Hq : 0 <= n / 10 < 10 ^ Z.of_nat (S fuel)).
      { split; [apply Z.div_pos; lia |]. apply Z.div_lt_upper_bound; [lia |].
        rewrite <- Z.pow_succ_r by lia. rewrite <- Nat2Z.inj_succ. exact (proj2 Hn). }
      rewrite string_app_assoc, (IH _ _ _ Hq). rewrite string_app_cons.
      change ("" +:+ rest) with rest.
      pose proof (Z.mod_pos_bound n 10 ltac:(lia)) as Hmod.
      rewrite decPrefix_cons_digit by lia. do 2 f_equal.
      rewrite string_length_append. cbn [String.length].
      rewrite Nat2Z.inj_add, Z.pow_add_r by lia. change (10 ^ Z.of_nat 1) with 10.
      set (p := 10 ^ Z.of_nat _). set (a := default 0 acc).
      change (default 0 (Some (a * p + n / 10))) with (a * p + n / 10).
      pose proof (Z.div_mod n 10 ltac:(lia)). lia.
Qed.

Lemma decPrefix_decimal (n : Z) (acc : option Z) rest :
  0 <= n ->
  decPrefix (JS.decimal n +:+ rest) acc
  = decPrefix rest (Some (default 0 acc * 10 ^ Z.of_nat (String.length (JS.decimal n)) + n)).
Proof.
  intros Hn. unfold JS.decimal. rewrite (proj2 (Z.ltb_ge _ _) Hn).
  apply decPrefix_digits. destruct (decimal_fuel n Hn) as [_ Hlt]. split; [done |].
  eapply Z.lt_le_trans; [exact Hlt |]. apply Z.pow_le_mono_l. lia.
Qed.

Lemma decPrefix_zeros (k : nat) : forall (acc : option Z) rest,
  default 0 acc = 0 ->
  exists acc', default 0 acc' = 0 /\ decPrefix (zeros k +:+ rest) acc = decPrefix rest acc'.
Proof.
  induction k as [|k IH]; intros acc rest Hacc; [by exists acc |].
  cbn [zeros]. rewrite string_app_cons. cbn [decPrefix].
  change (decDigit "0") with (Some 0). cbn beta iota.
  apply IH. change (default 0 (Some ?x)) with x. lia.
Qed.

(** A numeral that begins with a digit is read from its first character. *)
Lemma parseInt10_digit_first (a : ascii) rest d :
  decDigit a = Some d -> parseInt10 (String a rest) = decPrefix (String a rest) None.
Proof.
  intros Hd. unfold parseInt10.
  destruct a as [[] [] [] [] [] [] [] []]; vm_compute in Hd; try discriminate Hd; reflexivity.
Qed.

Lemma parseInt10_decPrefix s v : decPrefix s None = Some v -> parseInt10 s = Some v.
Proof.
  destruct s as [|a rest]; [done |]. intros Hv.
  destruct (decDigit a) as [d|] eqn:Hd.
  - by rewrite (parseInt10_digit_first a rest d Hd).
  - simpl in Hv. by rewrite Hd in Hv.
Qed.

(** The number ffmpeg wrote under [%05d] is read back. *)
Lemma parseInt10_printf_05d (i : Z) : 0 <= i -> parseInt10 (printf_05d i) = Some i.
Proof.
  intros Hi. apply parseInt10_decPrefix. unfold printf_05d.
  destruct (decPrefix_zeros (5 - String.length (JS.decimal i)) None (JS.decimal i) eq_refl)
    as (acc' & Hacc' & ->).
  rewrite <- (string_app_empty_r (JS.decimal i)).
  rewrite decPrefix_decimal by done. cbn [decPrefix]. rewrite Hacc'. reflexivity.
Qed.

(** What a line does to [segmentStatus]: the encoder's head is freed when the
    line is not about it, and the segment of the line is [DONE]. *)
Definition lineStatus (c : Closure) (index : option Z) (status : list Z) : list Z :=
  let encoderHead := t_head (c_status c) in
  let status :=
    if bool_decide (index = Some encoderHead) then status
    else if bool_decide (JS.at_Z status encoderHead = Some (c_encoderId c))
         then writeAt encoderHead EMPTY status
         else status in
  match index with
  | Some i => writeAt i DONE status
  | None => status
  end.

(** The index the handler reads in a line. *)
Definition lineIndex (b : t) (tsFileName : string) : option Z :=
  parseInt10
    (JS.substring (Z.of_nat (String.length (name (preset (config b)))) + 1)
       (Z.of_nat (String.length tsFileName) - 3) tsFileName).

Lemma moveHead_fields v c b :
  segmentStatus (moveHead v c b).2 = segmentStatus b
  /\ clients (moveHead v c b).2 = clients b
  /\ breakpoints (moveHead v c b).2 = breakpoints b
  /\ lastAssignedId (moveHead v c b).2 = lastAssignedId b
  /\ config (moveHead v c b).2 = config b
  /\ c_encoderId (moveHead v c b).1 = c_encoderId c
  /\ c_transcoder (moveHead v c b).1 = c_transcoder c
  /\ c_endAt (moveHead v c b).1 = c_endAt c.
Proof.
  unfold moveHead. simpl. by destruct (JS.map_get (c_transcoder c) (encoderHeads b)).
Qed.

(** A line that passes the assertion: what the handler leaves behind. *)
Lemma onLine_Ok videoMaxBufferLength c tsFileName b r b' :
  onLine videoMaxBufferLength c tsFileName b = JS.Ok (r, b') ->
  segmentStatus b' = lineStatus c (lineIndex b tsFileName) (segmentStatus b)
  /\ l_emitted r = (lineIndex b tsFileName, tsFileName)
  /\ clients b' = clients b
  /\ breakpoints b' = breakpoints b
  /\ lastAssignedId b' = lastAssignedId b
  /\ config b' = config b
  /\ c_encoderId (l_closure r) = c_encoderId c
  /\ c_transcoder (l_closure r) = c_transcoder c
  /\ c_endAt (l_closure r) = c_endAt c.
Proof.
  unfold onLine. fold (lineIndex b tsFileName).
  destruct (negb _); [discriminate |].
  unfold lineStatus.
  set (b1 := if bool_decide (lineIndex b tsFileName = Some (t_head (c_status c))) then b
             else if bool_decide (JS.at_Z (segmentStatus b) (t_head (c_status c))
                                  = Some (c_encoderId c))
                  then set_segmentStatus
                         (writeAt (t_head (c_status c)) EMPTY (segmentStatus b)) b
                  else b).
  assert (Hb1 : segmentStatus b1
                = (if bool_decide (lineIndex b tsFileName = Some (t_head (c_status c)))
                   then segmentStatus b
                   else if bool_decide (JS.at_Z (segmentStatus b) (t_head (c_status c))
                                        = Some (c_encoderId c))
                        then writeAt (t_head (c_status c)) EMPTY (segmentStatus b)
                        else segmentStatus b)
                /\ clients b1 = clients b /\ breakpoints b1 = breakpoints b
                /\ lastAssignedId b1 = lastAssignedId b /\ config b1 = config b).
  { unfold b1. by repeat destruct (bool_decide _). }
  destruct Hb1 as (Hs1 & Hc1 & Hbp1 & Hl1 & Hcfg1). rewrite <- Hs1.
  clearbody b1.
  destruct (lineIndex b tsFileName) as [i|].
  - destruct (c_endAt c - 1 <=? i).
    { intros [= <- <-]. simpl. by repeat split. }
    destruct (negb _).
    { intros [= <- <-]. simpl. by repeat split. }
    destruct (existsb _ _).
    + pose proof (moveHead_fields (i + 1) c
                    (set_segmentStatus (writeAt i DONE (segmentStatus b1)) b1)) as Hm.
      destruct (moveHead _ _ _) as [c' b2]. simpl in Hm.
      destruct Hm as (Hm1 & Hm2 & Hm3 & Hm4 & Hm5 & Hm6 & Hm7 & Hm8).
      intros [= <- <-]. simpl. repeat split; congruence.
    + intros [= <- <-]. simpl. by repeat split.
  - intros [= <- <-]. simpl. by repeat split.
Qed.

(** The handler throws exactly on a line that is not [<preset>-...ts]. *)
Lemma onLine_Throw videoMaxBufferLength c tsFileName b :
  JS.startsWith (name (preset (config b)) +:+ "-") tsFileName && JS.endsWith ".ts" tsFileName
  = true ->
  exists r b', onLine videoMaxBufferLength c tsFileName b = JS.Ok (r, b').
Proof.
  intros Hassert. unfold onLine. rewrite Hassert. cbn [negb].
  destruct (parseInt10 _) as [i|]; [| by eexists _, _].
  destruct (c_endAt c - 1 <=? i); [by eexists _, _ |].
  destruct (negb _); [by eexists _, _ |].
  destruct (existsb _ _); [| by eexists _, _].
  destruct (moveHead _ _ _) as [c' b2]. by eexists _, _.
Qed.

Lemma lineIndex_ffmpegFileName b (i : Z) :
  0 <= i -> lineIndex b (ffmpegFileName (name (preset (config b))) i) = Some i.
Proof.
  intros Hi. unfold lineIndex, ffmpegFileName.
  set (presetName := name (preset (config b))).
  etrans; [| exact (parseInt10_printf_05d i Hi)]. f_equal.
  rewrite <- (string_app_assoc presetName "-").
  replace (Z.of_nat (String.length presetName) + 1)
    with (Z.of_nat (String.length (presetName +:+ "-")))
    by (rewrite string_length_append; simpl; lia).
  change 3 with (Z.of_nat (String.length ".ts")).
  apply substring_middle.
Qed.

Lemma writeAt_lookup_eq (i v : Z) (a : list Z) :
  0 <= i < Z.of_nat (length a) -> writeAt i v a !! Z.to_nat i = Some v.
Proof.
  intros Hi. rewrite writeAt_nonneg by lia. apply list_lookup_insert_eq. lia.
Qed.

Lemma writeAt_length (i v : Z) (a : list Z) : length (writeAt i v a) = length a.
Proof. unfold writeAt. destruct (0 <=? i); [apply length_insert | done]. Qed.

Lemma lineStatus_length c index status : length (lineStatus c index status) = length status.
Proof.
  unfold lineStatus.
  destruct index as [i|]; repeat destruct (bool_decide _); by rewrite ?writeAt_length.
Qed.

End segment_lines.

(** X6. The line handler reads back the names ffmpeg writes: for every
    segment number [i >= 0], the line [<preset>-<i as %05d>.ts] passes the
    handler's assertion, the event it emits is the one for segment [i], and
    segment [i], when the video has it, is [DONE] afterwards. *)
Theorem onLine_reads_ffmpeg_name
    (videoMaxBufferLength : float) (c : MediaBackend.Closure) (b : MediaBackend.t) (i : Z) :
  0 <= i ->
  exists r b',
    MediaBackend.onLine videoMaxBufferLength c
      (MediaBackend.ffmpegFileName
         (MediaBackend.name (MediaBackend.preset (MediaBackend.config b))) i) b
    = JS.Ok (r, b')
    /\ MediaBackend.l_emitted r
       = (Some i,
          MediaBackend.ffmpegFileName
            (MediaBackend.name (MediaBackend.preset (MediaBackend.config b))) i)
    /\ (i < Z.of_nat (length (MediaBackend.segmentStatus b)) ->
        MediaBackend.segmentStatus b' !! Z.to_nat i = Some MediaBackend.DONE).
Proof.
  intros Hi.
  set (presetName := MediaBackend.name (MediaBackend.preset (MediaBackend.config b))).
  assert (Hassert :
    JS.startsWith (presetName +:+ "-") (MediaBackend.ffmpegFileName presetName i)
    && JS.endsWith ".ts" (MediaBackend.ffmpegFileName presetName i) = true).
  { unfold MediaBackend.ffmpegFileName. apply andb_true_intro. split.
    - rewrite <- (string_app_assoc presetName "-"). apply startsWith_append.
    - rewrite <- (string_app_assoc presetName "-"), <- string_app_assoc.
      apply endsWith_append. }
  destruct (onLine_Throw videoMaxBufferLength c _ b Hassert) as (r & b' & Hrun).
  exists r, b'. split; [exact Hrun |].
  destruct (onLine_Ok _ _ _ _ _ _ Hrun) as (Hstatus & Hemit & _).
  unfold presetName in *. rewrite lineIndex_ffmpegFileName in Hstatus, Hemit by done.
  split; [exact Hemit |].
  intros Hlt. rewrite Hstatus. unfold lineStatus.
  apply writeAt_lookup_eq.
  repeat destruct (bool_decide _); rewrite ?writeAt_length; lia.
Qed.

Lemma onLine_reads_ffmpeg_name_witness :
  exists r b',
    MediaBackend.onLine 60%float
      {| MediaBackend.c_transcoder := 7%nat;
         MediaBackend.c_status := {| MediaBackend.t_head := 1; MediaBackend.t_id := 2 |};
         MediaBackend.c_encoderId := 2; MediaBackend.c_endAt := 4 |}
      "720p-00001.ts" fourSegments
    = JS.Ok (r, b')
    /\ MediaBackend.l_emitted r = (Some 1, "720p-00001.ts"%string).
Proof.
  destruct (onLine_reads_ffmpeg_name 60%float
              {| MediaBackend.c_transcoder := 7%nat;
                 MediaBackend.c_status := {| MediaBackend.t_head := 1; MediaBackend.t_id := 2 |};
                 MediaBackend.c_encoderId := 2; MediaBackend.c_endAt := 4 |}
              fourSegments 1 ltac:(lia)) as (r & b' & Hrun & Hemit & _).
  exists r, b'. split; [exact Hrun | exact Hemit].
Defined.

(** ** MediaBackend: the life of a backend *)

Section backend_life.
Import MediaBackend.
Local Open Scope Z_scope.
Implicit Types (b : t) (c : Closure).

(** Two backend states that differ in their clients at most. *)
Definition sameMedia (b b' : t) : Prop :=
  segmentStatus b' = segmentStatus b /\ encoderHeads b' = encoderHeads b
  /\ lastAssignedId b' = lastAssignedId b /\ breakpoints b' = breakpoints b
  /\ config b' = config b.

Lemma sameMedia_refl b : sameMedia b b.
Proof. by repeat split. Qed.

Lemma sameMedia_trans b1 b2 b3 : sameMedia b1 b2 -> sameMedia b2 b3 -> sameMedia b1 b3.
Proof.
  intros (H1 & H2 & H3 & H4 & H5) (G1 & G2 & G3 & G4 & G5). repeat split; congruence.
Qed.

Lemma sameMedia_set_clients m b : sameMedia b (set_clients m b).
Proof. by repeat split. Qed.

Lemma getSegment_sameMedia clientId segmentNumber b :
  sameMedia b (getSegment clientId segmentNumber b).1.
Proof.
  unfold getSegment, lookupClient.
  destruct (JS.map_get clientId (clients b)) as [clientInfo|].
  - destruct (deleted clientInfo); [apply sameMedia_refl |].
    destruct (parseInt16 segmentNumber) as [n|]; [| apply sameMedia_refl].
    destruct (negb _); [apply sameMedia_refl |]. apply sameMedia_set_clients.
  - destruct (parseInt16 segmentNumber) as [n|]; [| apply sameMedia_set_clients].
    destruct (negb _); [apply sameMedia_set_clients |]. simpl.
    eapply sameMedia_trans; [| apply sameMedia_set_clients]. apply sameMedia_set_clients.
Qed.

Lemma removeClient_sameMedia clientId b : sameMedia b (removeClient clientId b).1.
Proof.
  unfold removeClient. destruct (JS.map_get clientId (clients b)) as [status|].
  - destruct (deleted status); [apply sameMedia_refl | apply sameMedia_set_clients].
  - apply sameMedia_set_clients.
Qed.

Lemma resolve_sameMedia encoders b unresolved playHead b0 :
  sameMedia b0 b -> sameMedia b0 (resolve (encoders, b, unresolved) playHead).1.2.
Proof.
  intros Hb. unfold resolve.
  destruct (JS.map_get (firstToEncode playHead) encoders) as [exactMatch|]; simpl.
  { eapply sameMedia_trans; [exact Hb | apply sameMedia_set_clients]. }
  destruct (JS.map_get (firstToEncode playHead - 1) encoders) as [minusOneMatch|]; simpl.
  { eapply sameMedia_trans; [exact Hb | apply sameMedia_set_clients]. }
  exact Hb.
Qed.

Lemma foldl_resolve_sameMedia playheads : forall st b0,
  sameMedia b0 st.1.2 -> sameMedia b0 (foldl resolve st playheads).1.2.
Proof.
  induction playheads as [|playHead playheads IH]; intros [[encoders b] unresolved] b0 Hb;
    [done |].
  simpl. apply IH. by apply resolve_sameMedia.
Qed.

Lemma recalculatePlan_sameMedia videoMinBufferLength b :
  sameMedia b (recalculatePlan videoMinBufferLength b).2.
Proof.
  unfold recalculatePlan. destruct (mapEncoders (encoderHeads b)) as [encoders kills].
  pose proof (foldl_resolve_sameMedia (omap (playheadOf videoMinBufferLength b) (clients b))
                (encoders, b, []) b (sameMedia_refl b)) as Hfold.
  by destruct (foldl resolve _ _) as [[encoders' b'] unresolved].
Qed.

(** A backend with the closures of the transcoders it has started. *)
Record Live := {
  backend : t;
  handlers : list Closure
}.

(** What can happen to a backend: requests and removals of clients, the
    timers of removals, recalculations (which plan, and later start
    transcoders), lines from the transcoders and their exits. *)
Inductive liveStep (videoMinBufferLength videoMaxBufferLength : float) : Live -> Live -> Prop :=
| live_getSegment clientId segmentNumber s :
    liveStep videoMinBufferLength videoMaxBufferLength s
      {| backend := (getSegment clientId segmentNumber (backend s)).1; handlers := handlers s |}
| live_removeClient clientId s :
    liveStep videoMinBufferLength videoMaxBufferLength s
      {| backend := (removeClient clientId (backend s)).1; handlers := handlers s |}
| live_removeClientTimeout clientId s :
    liveStep videoMinBufferLength videoMaxBufferLength s
      {| backend := removeClientTimeout clientId (backend s); handlers := handlers s |}
| live_recalculatePlan s :
    liveStep videoMinBufferLength videoMaxBufferLength s
      {| backend := (recalculatePlan videoMinBufferLength (backend s)).2;
         handlers := handlers s |}
| live_startTranscode startAt transcoder started b' c s :
    startTranscode startAt transcoder (backend s) = JS.Ok (started, b') ->
    handlersOf started b' = Some c ->
    liveStep videoMinBufferLength videoMaxBufferLength s
      {| backend := b'; handlers := c :: handlers s |}
| live_line before c after tsFileName r b' s :
    handlers s = before ++ c :: after ->
    onLine videoMaxBufferLength c tsFileName (backend s) = JS.Ok (r, b') ->
    liveStep videoMinBufferLength videoMaxBufferLength s
      {| backend := b'; handlers := before ++ l_closure r :: after |}
| live_exit c s :
    c ∈ handlers s ->
    liveStep videoMinBufferLength videoMaxBufferLength s
      {| backend := (onExit c (backend s)).1; handlers := handlers s |}.

(** The values a segment's status takes: [EMPTY], [DONE], or the identifier
    of an encoder, from 2 to 253. *)
Definition statusValue (v : Z) : Prop := v = EMPTY \/ v = DONE \/ 2 <= v <= 253.

(** What every step keeps. *)
Definition liveInvariant (s : Live) : Prop :=
  1 <= lastAssignedId (backend s)
  /\ Forall (fun c => 2 <= c_encoderId c <= 253) (handlers s)
  /\ Forall statusValue (segmentStatus (backend s)).

Lemma writeAt_Forall (P : Z -> Prop) (i v : Z) (a : list Z) :
  P v -> Forall P a -> Forall P (writeAt i v a).
Proof.
  intros Hv Ha. unfold writeAt. destruct (0 <=? i); [| done]. by apply Forall_insert.
Qed.

(** Writing at [i] a value over one that is not [DONE] leaves the [DONE]
    segments [DONE]. *)
Lemma writeAt_keeps_done (i v : Z) (a : list Z) (k : nat) :
  JS.at_Z a i <> Some DONE \/ v = DONE ->
  a !! k = Some DONE -> writeAt i v a !! k = Some DONE.
Proof.
  intros Hi Hk. unfold writeAt. destruct (0 <=? i) eqn:H0; [| done].
  destruct (decide (k = Z.to_nat i)) as [->|Hne].
  - destruct Hi as [Hi| ->].
    + unfold JS.at_Z in Hi. rewrite H0 in Hi. congruence.
    + apply list_lookup_insert_eq. by apply lookup_lt_Some in Hk.
  - by rewrite list_lookup_insert_ne.
Qed.

(** Freeing the head of an encoder, as the line and exit handlers do. *)
Lemma free_head_keeps_done (head id : Z) (a : list Z) (k : nat) :
  id <> DONE ->
  a !! k = Some DONE ->
  (if bool_decide (JS.at_Z a head = Some id) then writeAt head EMPTY a else a) !! k = Some DONE.
Proof.
  intros Hid Hk. destruct (bool_decide _) eqn:Hat; [| done].
  apply bool_decide_eq_true in Hat. apply writeAt_keeps_done; [| done].
  left. rewrite Hat. congruence.
Qed.

Lemma lineStatus_keeps_done c index (a : list Z) (k : nat) :
  c_encoderId c <> DONE -> a !! k = Some DONE -> lineStatus c index a !! k = Some DONE.
Proof.
  intros Hid Hk. unfold lineStatus.
  assert (Hfreed : (if bool_decide (index = Some (t_head (c_status c))) then a
                    else if bool_decide (JS.at_Z a (t_head (c_status c)) = Some (c_encoderId c))
                         then writeAt (t_head (c_status c)) EMPTY a else a) !! k = Some DONE).
  { destruct (bool_decide (index = _)); [done | by apply free_head_keeps_done]. }
  destruct index as [i|]; [| done]. apply writeAt_keeps_done; [by right | done].
Qed.

Lemma lineStatus_Forall c index (a : list Z) :
  Forall statusValue a -> Forall statusValue (lineStatus c index a).
Proof.
  intros Ha. unfold lineStatus.
  assert (Hfreed : Forall statusValue
            (if bool_decide (index = Some (t_head (c_status c))) then a
             else if bool_decide (JS.at_Z a (t_head (c_status c)) = Some (c_encoderId c))
                  then writeAt (t_head (c_status c)) EMPTY a else a)).
  { repeat destruct (bool_decide _); try done. apply writeAt_Forall; [by left | done]. }
  destruct index as [i|]; [| done]. apply writeAt_Forall; [right; by left | done].
Qed.

Lemma onExit_status c b :
  segmentStatus (onExit c b).1
  = (if bool_decide (JS.at_Z (segmentStatus b) (t_head (c_status c)) = Some (c_encoderId c))
     then writeAt (t_head (c_status c)) EMPTY (segmentStatus b) else segmentStatus b)
  /\ lastAssignedId (onExit c b).1 = lastAssignedId b
  /\ clients (onExit c b).1 = clients b
  /\ breakpoints (onExit c b).1 = breakpoints b.
Proof.
  unfold onExit. destruct (bool_decide _); simpl;
    by destruct (JS.map_get (c_transcoder c) _).
Qed.

(** What a successful [startTranscode] leaves behind. *)
Lemma startTranscode_Ok startAt transcoder b started b' :
  1 <= lastAssignedId b ->
  startTranscode startAt transcoder b = JS.Ok (started, b') ->
  exists encoderId,
    2 <= encoderId <= 253
    /\ 0 <= startAt
    /\ segmentStatus b !! Z.to_nat startAt = Some EMPTY
    /\ segmentStatus b' = <[Z.to_nat startAt := encoderId]> (segmentStatus b)
    /\ encoderHeads b'
       = JS.map_set transcoder {| t_head := startAt; t_id := encoderId |} (encoderHeads b)
    /\ lastAssignedId b' = encoderId
    /\ clients b' = clients b
    /\ breakpoints b' = breakpoints b
    /\ process started = transcoder.
Proof.
  intros Hlast Hstart.
  destruct (startTranscode_cases startAt transcoder b)
    as [[_ Heq]|[(_ & _ & Heq)|[(_ & _ & msg & _ & Heq)
         |(Hrange & Hempty & encoderId & b1 & started' & Hid & Heq & Hproc & _)]]];
    rewrite Heq in Hstart; try discriminate Hstart.
  injection Hstart as <- <-.
  destruct (findNextAvailableId_Ok b encoderId b1 Hlast Hid) as (Hidr & _ & ->).
  exists encoderId. repeat split; try done; lia.
Qed.

Lemma liveStep_invariant videoMinBufferLength videoMaxBufferLength s s' :
  liveStep videoMinBufferLength videoMaxBufferLength s s' ->
  liveInvariant s ->
  liveInvariant s'
  /\ length (segmentStatus (backend s')) = length (segmentStatus (backend s))
  /\ breakpoints (backend s') = breakpoints (backend s)
  /\ forall k, segmentStatus (backend s) !! k = Some DONE ->
               segmentStatus (backend s') !! k = Some DONE.
Proof.
  intros Hstep (Hlast & Hids & Hvalues).
  assert (Hsame : forall b', sameMedia (backend s) b' ->
            liveInvariant {| backend := b'; handlers := handlers s |}
            /\ length (segmentStatus b') = length (segmentStatus (backend s))
            /\ breakpoints b' = breakpoints (backend s)
            /\ forall k, segmentStatus (backend s) !! k = Some DONE ->
                         segmentStatus b' !! k = Some DONE).
  { intros b' (H1 & _ & H3 & H4 & _). unfold liveInvariant. simpl. rewrite H1, H3.
    by repeat split. }
  destruct Hstep as [clientId segmentNumber s|clientId s|clientId s|s
                    |startAt transcoder started b' c s Hstart Hc
                    |before c after tsFileName r b' s Hh Hline|c s Hc]; cbn [backend handlers].
  - apply (Hsame _ (getSegment_sameMedia clientId segmentNumber (backend s))).
  - apply (Hsame _ (removeClient_sameMedia clientId (backend s))).
  - apply (Hsame (removeClientTimeout clientId (backend s))).
    unfold removeClientTimeout. apply sameMedia_set_clients.
  - apply (Hsame _ (recalculatePlan_sameMedia videoMinBufferLength (backend s))).
  - destruct (startTranscode_Ok _ _ _ _ _ Hlast Hstart)
      as (encoderId & Hid & H0 & Hempty & Hstatus & Hheads & Hlast' & _ & Hbp & Hproc).
    assert (Hcid : c_encoderId c = encoderId).
    { unfold handlersOf in Hc. rewrite Hproc, Hheads, map_get_set_eq in Hc. simpl in Hc.
      by injection Hc as <-. }
    split; [| split; [| split]].
    + unfold liveInvariant. simpl. rewrite Hlast', Hstatus. split; [lia |]. split.
      * apply Forall_cons. split; [by rewrite Hcid | done].
      * apply Forall_insert; [done |]. right. by right.
    + rewrite Hstatus. apply length_insert.
    + done.
    + intros k Hk. rewrite Hstatus.
      destruct (decide (k = Z.to_nat startAt)) as [->|Hne]; [| by rewrite list_lookup_insert_ne].
      rewrite Hempty in Hk. discriminate Hk.
  - destruct (onLine_Ok _ _ _ _ _ _ Hline)
      as (Hstatus & _ & _ & Hbp & Hlast' & _ & Hcid & _).
    rewrite Hh in Hids. apply Forall_app in Hids as [Hbefore Hrest].
    apply Forall_cons in Hrest as [Hc Hafter].
    split; [| split; [| split]].
    + unfold liveInvariant. simpl. rewrite Hlast', Hstatus. split; [done |]. split.
      * apply Forall_app. split; [done |]. apply Forall_cons. split; [by rewrite Hcid | done].
      * by apply lineStatus_Forall.
    + rewrite Hstatus. apply lineStatus_length.
    + done.
    + intros k Hk. rewrite Hstatus. apply lineStatus_keeps_done; [| done].
      unfold DONE. lia.
  - destruct (onExit_status c (backend s)) as (Hstatus & Hlast' & _ & Hbp).
    assert (Hcid : 2 <= c_encoderId c <= 253).
    { rewrite Forall_forall in Hids. by apply Hids. }
    split; [| split; [| split]].
    + unfold liveInvariant. simpl. rewrite Hlast', Hstatus. split; [done |]. split; [done |].
      destruct (bool_decide _); [| done]. apply writeAt_Forall; [by left | done].
    + rewrite Hstatus. destruct (bool_decide _); [apply writeAt_length | done].
    + done.
    + intros k Hk. rewrite Hstatus. apply free_head_keeps_done; [| done].
      unfold DONE. lia.
Qed.

Lemma liveSteps_invariant videoMinBufferLength videoMaxBufferLength s s' :
  rtc (liveStep videoMinBufferLength videoMaxBufferLength) s s' ->
  liveInvariant s ->
  liveInvariant s'
  /\ length (segmentStatus (backend s')) = length (segmentStatus (backend s))
  /\ breakpoints (backend s') = breakpoints (backend s)
  /\ forall k, segmentStatus (backend s) !! k = Some DONE ->
               segmentStatus (backend s') !! k = Some DONE.
Proof.
  induction 1 as [s|s1 s2 s3 H12 _ IH]; intros Hinv.
  { split; [exact Hinv |]. split; [done |]. split; [done |]. by intros k Hk. }
  destruct (liveStep_invariant _ _ _ _ H12 Hinv) as (Hinv2 & Hlen2 & Hbp2 & Hdone2).
  destruct (IH Hinv2) as (Hinv3 & Hlen3 & Hbp3 & Hdone3).
  split; [done |]. split; [congruence |]. split; [congruence |].
  intros k Hk. by apply Hdone3, Hdone2.
Qed.

(** A backend as its constructor leaves it, without transcoders. *)
Definition newLive (config : QualityLevelConfig) (breakpoints : list float)
  (relPath outDir : string) : Live :=
  {| backend := create config breakpoints relPath outDir; handlers := [] |}.

Lemma newLive_invariant config breakpoints relPath outDir :
  liveInvariant (newLive config breakpoints relPath outDir).
Proof.
  unfold liveInvariant. simpl. split; [lia |]. split; [done |].
  apply Forall_replicate. by left.
Qed.

End backend_life.

(** A short life: the four-segment backend starts transcoder 7 at segment 0,
    the transcoder reports segment 0, and exits. *)
Definition liveStarted : Live :=
  match MediaBackend.startTranscode 0 7 fourSegments with
  | JS.Ok (started, b') =>
      {| backend := b';
         handlers := match MediaBackend.handlersOf started b' with
                     | Some c => [c]
                     | None => []
                     end |}
  | JS.Throw _ => {| backend := fourSegments; handlers := [] |}
  end.

Definition liveReported : Live :=
  match handlers liveStarted with
  | c :: _ =>
      match MediaBackend.onLine 60%float c "720p-00000.ts" (backend liveStarted) with
      | JS.Ok (r, b') => {| backend := b'; handlers := [MediaBackend.l_closure r] |}
      | JS.Throw _ => liveStarted
      end
  | [] => liveStarted
  end.

Definition liveExited : Live :=
  match handlers liveReported with
  | c :: _ =>
      {| backend := (MediaBackend.onExit c (backend liveReported)).1;
         handlers := handlers liveReported |}
  | [] => liveReported
  end.

Lemma liveReported_reachable :
  rtc (liveStep 30%float 60%float)
    (newLive (MediaBackend.config fourSegments) [0; 3; 6; 9.5; 13]%float "film.mkv" "out")
    liveReported.
Proof.
  eapply rtc_l.
  { eapply (live_startTranscode 30%float 60%float 0 7%nat); vm_compute; reflexivity. }
  eapply rtc_l; [| apply rtc_refl].
  eapply (live_line 30%float 60%float [] _ [] "720p-00000.ts"); vm_compute; reflexivity.
Qed.

Lemma liveExited_reachable : rtc (liveStep 30%float 60%float) liveReported liveExited.
Proof.
  eapply rtc_l; [| apply rtc_refl].
  eapply (live_exit 30%float 60%float); vm_compute. apply list_elem_of_here.
Qed.

(** X7. An encoded segment stays encoded: in the life of a backend, from its
    construction through requests, removals, recalculations, started
    transcoders, their lines and their exits, a segment that is [DONE] at one
    moment is [DONE] at every later one. *)
Theorem done_segments_stay_done
    (videoMinBufferLength videoMaxBufferLength : float)
    (config : MediaBackend.QualityLevelConfig) (breakpoints : list float)
    (relPath outDir : string) (s s' : Live) (k : nat) :
  rtc (liveStep videoMinBufferLength videoMaxBufferLength)
    (newLive config breakpoints relPath outDir) s ->
  rtc (liveStep videoMinBufferLength videoMaxBufferLength) s s' ->
  MediaBackend.segmentStatus (backend s) !! k = Some MediaBackend.DONE ->
  MediaBackend.segmentStatus (backend s') !! k = Some MediaBackend.DONE.
Proof.
  intros Hreach Hsteps Hdone.
  destruct (liveSteps_invariant _ _ _ _ Hreach (newLive_invariant _ _ _ _)) as (Hinv & _).
  destruct (liveSteps_invariant _ _ _ _ Hsteps Hinv) as (_ & _ & _ & Hkeep).
  by apply Hkeep.
Qed.

Lemma done_segments_stay_done_witness :
  MediaBackend.segmentStatus (backend liveReported) !! 0%nat = Some MediaBackend.DONE
  /\ MediaBackend.segmentStatus (backend liveExited) !! 0%nat = Some MediaBackend.DONE.
Proof.
  assert (Hdone : MediaBackend.segmentStatus (backend liveReported) !! 0%nat
                  = Some MediaBackend.DONE) by (vm_compute; reflexivity).
  split; [exact Hdone |].
  exact (done_segments_stay_done 30%float 60%float _ _ _ _ liveReported liveExited 0%nat
           liveReported_reachable liveExited_reachable Hdone).
Defined.

(** X8. The status array keeps its shape: in the life of a backend it always
    has one entry per segment, each entry is [EMPTY], [DONE] or an encoder
    identifier from 2 to 253 (never the reserved 1 or 254, never a value
    outside a byte), and the breakpoints never change. *)
Theorem segmentStatus_values
    (videoMinBufferLength videoMaxBufferLength : float)
    (config : MediaBackend.QualityLevelConfig) (breakpoints : list float)
    (relPath outDir : string) (s : Live) :
  rtc (liveStep videoMinBufferLength videoMaxBufferLength)
    (newLive config breakpoints relPath outDir) s ->
  length (MediaBackend.segmentStatus (backend s)) = (length breakpoints - 1)%nat
  /\ Forall statusValue (MediaBackend.segmentStatus (backend s))
  /\ MediaBackend.breakpoints (backend s) = breakpoints
  /\ 1 <= MediaBackend.lastAssignedId (backend s).
Proof.
  intros Hreach.
  destruct (liveSteps_invariant _ _ _ _ Hreach (newLive_invariant _ _ _ _))
    as ((Hlast & _ & Hvalues) & Hlen & Hbp & _).
  split; [| by repeat split].
  rewrite Hlen. simpl. apply length_replicate.
Qed.

Lemma segmentStatus_values_witness :
  length (MediaBackend.segmentStatus (backend liveReported)) = 4%nat
  /\ Forall statusValue (MediaBackend.segmentStatus (backend liveReported)).
Proof.
  destruct (segmentStatus_values 30%float 60%float _ _ _ _ liveReported liveReported_reachable)
    as (Hlen & Hvalues & _).
  split; [exact Hlen | exact Hvalues].
Defined.

(** ** MediaBackend: the variant manifest and the segment numbers in it *)

Section variant_manifest.
Import MediaBackend.
Local Open Scope Z_scope.
Implicit Types (b : t) (s rest : string).

Lemma hexDigit_hexChar (d : Z) : 0 <= d < 16 -> hexDigit (JS.hexChar d) = Some d.
Proof.
  intros Hd. remember (Z.to_nat d) as k eqn:Hk.
  assert (Hdk : d = Z.of_nat k) by lia. assert (Hlt : (k < 16)%nat) by lia.
  subst d. clear Hk Hd.
  do 16 (destruct k as [|k]; [reflexivity |]). lia.
Qed.

Lemma hexPrefix_cons_digit (d : Z) (acc : option Z) rest :
  0 <= d < 16 ->
  hexPrefix (String (JS.hexChar d) rest) acc = hexPrefix rest (Some (default 0 acc * 16 + d)).
Proof. intros Hd. cbn [hexPrefix]. by rewrite hexDigit_hexChar. Qed.

Lemma hexDigits_unfold (fuel : nat) (n : Z) :
  JS.hexDigits (S fuel) n
  = if n <? 16 then String (JS.hexChar n) EmptyString
    else JS.hexDigits fuel (n / 16) +:+ String (JS.hexChar (n mod 16)) EmptyString.
Proof. reflexivity. Qed.

Lemma hexPrefix_hexDigits (fuel : nat) : forall (n : Z) (acc : option Z) rest,
  0 <= n < 16 ^ Z.of_nat (S fuel) ->
  hexPrefix (JS.hexDigits (S fuel) n +:+ rest) acc
  = hexPrefix rest
      (Some (default 0 acc * 16 ^ Z.of_nat (String.length (JS.hexDigits (S fuel) n)) + n)).
Proof.
  induction fuel as [|fuel IH]; intros n acc rest Hn; rewrite hexDigits_unfold.
  - assert (H16 : n < 16) by (change (16 ^ Z.of_nat 1) with 16 in Hn; lia).
    rewrite (proj2 (Z.ltb_lt _ _) H16). rewrite string_app_cons.
    change ("" +:+ rest) with rest.
    rewrite hexPrefix_cons_digit by lia. cbn [String.length].
    change (16 ^ Z.of_nat 1) with 16. reflexivity.
  - destruct (n <? 16) eqn:H16.
    + apply Z.ltb_lt in H16. rewrite string_app_cons.
      change ("" +:+ rest) with rest.
      rewrite hexPrefix_cons_digit by lia. cbn [String.length].
      change (16 ^ Z.of_nat 1) with 16. reflexivity.
    + apply Z.ltb_ge in H16.
      assert (Hq : 0 <= n / 16 < 16 ^ Z.of_nat (S fuel)).
      { split; [apply Z.div_pos; lia |]. apply Z.div_lt_upper_bound; [lia |].
        rewrite <- Z.pow_succ_r by lia. rewrite <- Nat2Z.inj_succ. exact (proj2 Hn). }
      rewrite string_app_assoc, (IH _ _ _ Hq). rewrite string_app_cons.
      change ("" +:+ rest) with rest.
      pose proof (Z.mod_pos_bound n 16 ltac:(lia)) as Hmod.
      rewrite hexPrefix_cons_digit by lia. do 2 f_equal.
      rewrite string_length_append. cbn [String.length].
      rewrite Nat2Z.inj_add, Z.pow_add_r by lia. change (16 ^ Z.of_nat 1) with 16.
      set (p := 16 ^ Z.of_nat _). set (a := default 0 acc).
      change (default 0 (Some (a * p + n / 16))) with (a * p + n / 16).
      pose proof (Z.div_mod n 16 ltac:(lia)). lia.
Qed.

(** A string of hexadecimal digits only. *)
Fixpoint hexOnly (s : string) : Prop :=
  match s with
  | EmptyString => True
  | String a rest => is_Some (hexDigit a) /\ hexOnly rest
  end.

Lemma hexOnly_app s1 s2 : hexOnly s1 -> hexOnly s2 -> hexOnly (s1 +:+ s2).
Proof.
  induction s1 as [|a s1 IH]; [done |]. rewrite string_app_cons.
  intros [Ha Hs1] Hs2. split; [done | by apply IH].
Qed.

Lemma hexOnly_hexDigits (fuel : nat) : forall n, 0 <= n -> hexOnly (JS.hexDigits fuel n).
Proof.
  induction fuel as [|fuel IH]; intros n Hn; [done |].
  rewrite hexDigits_unfold. destruct (n <? 16) eqn:H16.
  - apply Z.ltb_lt in H16. split; [| done]. rewrite hexDigit_hexChar by lia. by eexists.
  - apply hexOnly_app; [apply IH, Z.div_pos; lia |].
    pose proof (Z.mod_pos_bound n 16 ltac:(lia)).
    split; [| done]. rewrite hexDigit_hexChar by lia. by eexists.
Qed.

(** Such a string has no [0x] to strip, no sign and no leading space. *)
Lemma strip0x_hexOnly s : hexOnly s -> strip0x s = s.
Proof.
  destruct s as [|a [|a2 rest]]; [done | by destruct a as [[] [] [] [] [] [] [] []] |].
  intros (_ & [d Hd] & _).
  destruct a as [[] [] [] [] [] [] [] []]; try reflexivity.
  destruct a2 as [[] [] [] [] [] [] [] []]; try reflexivity; vm_compute in Hd; discriminate Hd.
Qed.

Lemma parseInt16_hexOnly a rest :
  hexOnly (String a rest) -> parseInt16 (String a rest) = hexPrefix (String a rest) None.
Proof.
  intros Hs. pose proof (strip0x_hexOnly _ Hs) as Hstrip. destruct Hs as [[d Hd] _].
  destruct a as [[] [] [] [] [] [] [] []]; vm_compute in Hd; try discriminate Hd;
    (etrans; [| exact (f_equal (fun s => hexPrefix s None) Hstrip)]); reflexivity.
Qed.

(** The segment number the manifest writes is the one [parseInt] reads. *)
Lemma parseInt16_toString16 (n : Z) : 0 <= n -> parseInt16 (JS.toString16 n) = Some n.
Proof.
  intros Hn. unfold JS.toString16. rewrite (proj2 (Z.ltb_ge _ _) Hn).
  set (fuel := Z.to_nat (Z.log2 n)).
  assert (Hfuel : 0 <= n < 16 ^ Z.of_nat (S fuel)).
  { split; [done |]. destruct (decimal_fuel n Hn) as [_ Hlt].
    eapply Z.lt_le_trans; [exact Hlt |]. apply Z.pow_le_mono_l. lia. }
  pose proof (hexOnly_hexDigits (S fuel) n Hn) as Hhex.
  pose proof (hexPrefix_hexDigits fuel n None "" Hfuel) as Hread.
  rewrite string_app_empty_r in Hread.
  destruct (JS.hexDigits (S fuel) n) as [|a rest] eqn:Hs.
  - rewrite hexDigits_unfold in Hs. destruct (n <? 16); [discriminate Hs |].
    apply (f_equal String.length) in Hs. rewrite string_length_append in Hs.
    simpl in Hs. lia.
  - rewrite parseInt16_hexOnly by done. rewrite Hread. reflexivity.
Qed.

Lemma segmentLines_cons (qualityLevelName : string) (i : Z) (prev cur : float)
  (rest : list float) :
  segmentLines qualityLevelName i (prev :: cur :: rest)
  = match JS.Number_toFixed 3 (PrimFloat.sub cur prev) with
    | Some duration =>
        match segmentLines qualityLevelName (i + 1) (cur :: rest) with
        | Some more =>
            Some (("#EXTINF:" +:+ duration)
                    :: (qualityLevelName +:+ "." +:+ JS.toString16 i +:+ ".ts") :: more)
        | None => None
        end
    | None => None
    end.
Proof. reflexivity. Qed.

(** The lines of the segments: two per segment, the second naming it. *)
Lemma segmentLines_shape (qualityLevelName : string) (breakpoints : list float) :
  forall (i : Z) (lines : list string),
  segmentLines qualityLevelName i breakpoints = Some lines ->
  length lines = (2 * (length breakpoints - 1))%nat
  /\ forall k : nat, (S k < length breakpoints)%nat ->
       (exists prev cur duration,
          breakpoints !! k = Some prev /\ breakpoints !! S k = Some cur
          /\ JS.Number_toFixed 3 (PrimFloat.sub cur prev) = Some duration
          /\ lines !! (2 * k)%nat = Some ("#EXTINF:" +:+ duration))
       /\ lines !! (2 * k + 1)%nat
          = Some (qualityLevelName +:+ "." +:+ JS.toString16 (i + Z.of_nat k) +:+ ".ts").
Proof.
  induction breakpoints as [|prev rest IH]; intros i lines Hlines.
  { injection Hlines as <-. split; [done |]. simpl. lia. }
  destruct rest as [|cur rest].
  { injection Hlines as <-. split; [done |]. simpl. lia. }
  rewrite segmentLines_cons in Hlines.
  destruct (JS.Number_toFixed 3 (PrimFloat.sub cur prev)) as [duration|] eqn:Hd; [| done].
  destruct (segmentLines qualityLevelName (i + 1) (cur :: rest)) as [more|] eqn:Hmore; [| done].
  injection Hlines as <-.
  destruct (IH (i + 1) more Hmore) as [Hlen Hat].
  split; [simpl in *; lia |].
  intros [|k] Hk.
  - split; [by exists prev, cur, duration |]. simpl. by rewrite Z.add_0_r.
  - destruct (Hat k ltac:(simpl in *; lia)) as [(p & c & d & Hp & Hc & Hd' & Hl) Hname].
    replace (2 * S k)%nat with (S (S (2 * k))) by lia.
    replace (S (S (2 * k)) + 1)%nat with (S (S (2 * k + 1))) by lia.
    split; [by exists p, c, d |].
    change ((?a :: ?b :: more) !! S (S (2 * k + 1))) with (more !! (2 * k + 1)%nat).
    rewrite Hname. by replace (i + 1 + Z.of_nat k) with (i + Z.of_nat (S k)) by lia.
Qed.

End variant_manifest.

(** X9. [getVariantManifest] throws exactly for a backend without any
    breakpoint; otherwise, when it renders, the manifest has five header
    lines, two lines per segment and a closing line, and the lines of segment
    [k] (counting from 0) are the duration [breakpoints[k+1] - breakpoints[k]]
    with three decimals and the name [<preset>.<k+1 in hexadecimal>.ts]. *)
Theorem getVariantManifest_lists_every_segment (b : MediaBackend.t) :
  (MediaBackend.getVariantManifestLines b = JS.Throw "RangeError: Invalid array length"
   <-> MediaBackend.breakpoints b = [])
  /\ forall lines,
       MediaBackend.getVariantManifestLines b = JS.Ok (Some lines) ->
       length lines = (6 + 2 * (length (MediaBackend.breakpoints b) - 1))%nat
       /\ take 5 lines = [ "#EXTM3U"; "#EXT-X-PLAYLIST-TYPE:VOD"; "#EXT-X-TARGETDURATION:4.75";
                           "#EXT-X-VERSION:4"; "#EXT-X-MEDIA-SEQUENCE:0" ]%string
       /\ List.last lines ""%string = "#EXT-X-ENDLIST"%string
       /\ forall k : nat, (S k < length (MediaBackend.breakpoints b))%nat ->
            (exists prev cur duration,
               MediaBackend.breakpoints b !! k = Some prev
               /\ MediaBackend.breakpoints b !! S k = Some cur
               /\ JS.Number_toFixed 3 (PrimFloat.sub cur prev) = Some duration
               /\ lines !! (5 + 2 * k)%nat = Some ("#EXTINF:" +:+ duration))
            /\ lines !! (6 + 2 * k)%nat
               = Some (MediaBackend.name (MediaBackend.preset (MediaBackend.config b))
                         +:+ "." +:+ JS.toString16 (Z.of_nat (S k)) +:+ ".ts").
Proof.
  split.
  { unfold MediaBackend.getVariantManifestLines.
    destruct (MediaBackend.breakpoints b); [done |]. split; discriminate. }
  intros lines Hlines.
  assert (Hsome : exists segments,
            MediaBackend.segmentLines
              (MediaBackend.name (MediaBackend.preset (MediaBackend.config b))) 1
              (MediaBackend.breakpoints b) = Some segments
            /\ lines = [ "#EXTM3U"; "#EXT-X-PLAYLIST-TYPE:VOD"; "#EXT-X-TARGETDURATION:4.75";
                         "#EXT-X-VERSION:4"; "#EXT-X-MEDIA-SEQUENCE:0" ]%string
                         ++ segments ++ [ "#EXT-X-ENDLIST"%string ]).
  { unfold MediaBackend.getVariantManifestLines in Hlines.
    destruct (MediaBackend.breakpoints b) as [|first rest]; [discriminate Hlines |].
    generalize dependent (MediaBackend.segmentLines
      (MediaBackend.name (MediaBackend.preset (MediaBackend.config b))) 1 (first :: rest)).
    intros [segments|] Hlines; [| discriminate Hlines].
    exists segments. split; [reflexivity |]. by injection Hlines as <-. }
  destruct Hsome as (segments & Hseg & ->).
  destruct (segmentLines_shape _ _ _ _ Hseg) as [Hlen Hat].
  split; [| split; [| split]].
  - rewrite !length_app, Hlen. simpl. lia.
  - reflexivity.
  - rewrite app_assoc. apply last_last.
  - intros k Hk. destruct (Hat k Hk) as [(prev & cur & duration & Hp & Hc & Hd & Hl) Hname].
    split.
    + exists prev, cur, duration. repeat split; try done.
      rewrite lookup_app_r by (simpl; lia).
      replace (5 + 2 * k - _)%nat with (2 * k)%nat by (simpl; lia).
      rewrite lookup_app_l by (rewrite Hlen; lia). done.
    + rewrite lookup_app_r by (simpl; lia).
      replace (6 + 2 * k - _)%nat with (2 * k + 1)%nat by (simpl; lia).
      rewrite lookup_app_l by (rewrite Hlen; lia).
      rewrite Hname. by replace (1 + Z.of_nat k) with (Z.of_nat (S k)) by lia.
Qed.

Lemma getVariantManifest_lists_every_segment_witness :
  MediaBackend.getVariantManifestLines fourSegments
  = JS.Ok (Some [ "#EXTM3U"; "#EXT-X-PLAYLIST-TYPE:VOD"; "#EXT-X-TARGETDURATION:4.75";
                  "#EXT-X-VERSION:4"; "#EXT-X-MEDIA-SEQUENCE:0"; "#EXTINF:3.000"; "720p.1.ts";
                  "#EXTINF:3.000"; "720p.2.ts"; "#EXTINF:3.500"; "720p.3.ts";
                  "#EXTINF:3.500"; "720p.4.ts"; "#EXT-X-ENDLIST" ]%string)
  /\ length [ "#EXTM3U"; "#EXT-X-PLAYLIST-TYPE:VOD"; "#EXT-X-TARGETDURATION:4.75";
              "#EXT-X-VERSION:4"; "#EXT-X-MEDIA-SEQUENCE:0"; "#EXTINF:3.000"; "720p.1.ts";
              "#EXTINF:3.000"; "720p.2.ts"; "#EXTINF:3.500"; "720p.3.ts";
              "#EXTINF:3.500"; "720p.4.ts"; "#EXT-X-ENDLIST" ]%string
     = (6 + 2 * (length (MediaBackend.breakpoints fourSegments) - 1))%nat.
Proof.
  assert (Hrun : MediaBackend.getVariantManifestLines fourSegments
    = JS.Ok (Some [ "#EXTM3U"; "#EXT-X-PLAYLIST-TYPE:VOD"; "#EXT-X-TARGETDURATION:4.75";
                    "#EXT-X-VERSION:4"; "#EXT-X-MEDIA-SEQUENCE:0"; "#EXTINF:3.000"; "720p.1.ts";
                    "#EXTINF:3.000"; "720p.2.ts"; "#EXTINF:3.500"; "720p.3.ts";
                    "#EXTINF:3.500"; "720p.4.ts"; "#EXT-X-ENDLIST" ]%string))
    by (vm_compute; reflexivity).
  split; [exact Hrun |].
  exact (proj1 (proj2 (getVariantManifest_lists_every_segment fourSegments) _ Hrun)).
Defined.

(** X10. Every segment number the variant manifest writes is served: for a
    client that has not been removed, [getSegment] with the number [k+1] in
    hexadecimal, [k] a segment of the video, passes the range assertion,
    goes on with segment index [k] and the file name of segment [k], reports
    the file ready exactly when segment [k] is [DONE], and moves the
    client's head to [k]. *)
Theorem getSegment_serves_manifest_numbers (clientId : string) (b : MediaBackend.t) (k : nat) :
  (S k < length (MediaBackend.breakpoints b))%nat ->
  (forall status,
     JS.map_get clientId (MediaBackend.clients b) = Some status ->
     MediaBackend.deleted status = false) ->
  (MediaBackend.getSegment clientId (JS.toString16 (Z.of_nat (S k))) b).2
  = MediaBackend.Proceed
      (MediaBackend.segmentFileName
         (MediaBackend.name (MediaBackend.preset (MediaBackend.config b))) (Z.of_nat k))
      (bool_decide (MediaBackend.segmentStatus b !! k = Some MediaBackend.DONE))
      (Z.of_nat k)
  /\ MediaBackend.head
       <$> JS.map_get clientId
             (MediaBackend.clients
                (MediaBackend.getSegment clientId (JS.toString16 (Z.of_nat (S k))) b).1)
     = Some (Z.of_nat k).
Proof.
  intros Hk Halive. unfold MediaBackend.getSegment.
  rewrite parseInt16_toString16 by lia.
  replace (Z.of_nat (S k) - 1) with (Z.of_nat k) by lia.
  assert (Hlookup : exists b1 clientInfo,
            MediaBackend.lookupClient clientId b = (b1, Some clientInfo)
            /\ sameMedia b b1).
  { unfold MediaBackend.lookupClient.
    destruct (JS.map_get clientId (MediaBackend.clients b)) as [status|] eqn:Hc.
    - rewrite (Halive status eq_refl). eexists _, _. split; [done | apply sameMedia_refl].
    - eexists _, _. split; [done | apply sameMedia_set_clients]. }
  destruct Hlookup as (b1 & clientInfo & -> & Hstatus & _ & _ & Hbp & Hcfg).
  assert (Hin : (0 <=? Z.of_nat k) && (Z.of_nat k <? MediaBackend.segmentCount b1) = true).
  { unfold MediaBackend.segmentCount. rewrite Hbp.
    apply andb_true_intro. split; [apply Z.leb_le | apply Z.ltb_lt]; lia. }
  rewrite Hin. cbn [negb snd fst]. rewrite Hstatus, Hcfg, Nat2Z.id.
  split; [reflexivity |].
  unfold MediaBackend.onGetSegment. simpl. by rewrite map_get_set_eq.
Qed.

Lemma getSegment_serves_manifest_numbers_witness :
  (MediaBackend.getSegment "c1" "4" fourSegments).2
  = MediaBackend.Proceed "720p-00003.ts" false 3.
Proof.
  exact (proj1 (getSegment_serves_manifest_numbers "c1" fourSegments 3
                  ltac:(vm_compute; lia) ltac:(intros status Hs; discriminate Hs))).
Defined.

(** ** The file a segment is served from, and the file ffmpeg writes *)

Section served_file_names.
Import MediaBackend.
Local Open Scope Z_scope.

Lemma noDirective_cons (c : ascii) (s : string) :
  noDirective (String c s) = negb (Ascii.eqb c "%") && noDirective s.
Proof. reflexivity. Qed.

(** The pattern of [startTranscode], expanded. *)
Lemma expandPattern_preset (presetName : string) (n : Z) :
  noDirective presetName = true ->
  expandPattern (presetName +:+ "-%05d.ts") n = Some (ffmpegFileName presetName n).
Proof.
  unfold ffmpegFileName. induction presetName as [|c presetName IH].
  - intros _. reflexivity.
  - rewrite noDirective_cons. intros [Hc Hrest]%andb_prop.
    change (String c presetName +:+ "-%05d.ts") with (String c (presetName +:+ "-%05d.ts")).
    cbn [expandPattern]. apply negb_true_iff in Hc. rewrite Hc.
    by rewrite (IH Hrest).
Qed.

(** What a successful [startTranscode] tells ffmpeg about its files. *)
Lemma startTranscode_pattern startAt transcoder b started b' :
  startTranscode startAt transcoder b = JS.Ok (started, b') ->
  output_pattern (ffmpeg started) = name (preset (config b)) +:+ "-%05d.ts"
  /\ segment_start_number (ffmpeg started) = startAt.
Proof.
  unfold startTranscode.
  destruct (negb (_ && _)); [discriminate |].
  destruct (negb (bool_decide _)); [discriminate |].
  cbv zeta. generalize (findNextAvailableId b). intros [[encoderId b1]|msg]; [| discriminate].
  by intros [= <- _].
Qed.

(** [getSegment] for a segment of the video, from a client that is not
    removed. *)
Lemma getSegment_Proceed clientId b (k : nat) :
  (S k < length (breakpoints b))%nat ->
  (forall status, JS.map_get clientId (clients b) = Some status -> deleted status = false) ->
  (getSegment clientId (JS.toString16 (Z.of_nat (S k))) b).2
  = Proceed (segmentFileName (name (preset (config b))) (Z.of_nat k))
      (bool_decide (segmentStatus b !! k = Some DONE)) (Z.of_nat k).
Proof.
  intros Hk Halive. unfold getSegment.
  rewrite parseInt16_toString16 by lia.
  replace (Z.of_nat (S k) - 1) with (Z.of_nat k) by lia.
  assert (Hlookup : exists b1 clientInfo,
            lookupClient clientId b = (b1, Some clientInfo) /\ sameMedia b b1).
  { unfold lookupClient.
    destruct (JS.map_get clientId (clients b)) as [status|] eqn:Hc.
    - rewrite (Halive status eq_refl). eexists _, _. split; [done | apply sameMedia_refl].
    - eexists _, _. split; [done | apply sameMedia_set_clients]. }
  destruct Hlookup as (b1 & clientInfo & -> & Hstatus & _ & _ & Hbp & Hcfg).
  assert (Hin : (0 <=? Z.of_nat k) && (Z.of_nat k <? segmentCount b1) = true).
  { unfold segmentCount. rewrite Hbp.
    apply andb_true_intro. split; [apply Z.leb_le | apply Z.ltb_lt]; lia. }
  rewrite Hin. cbn [negb snd fst]. by rewrite Hstatus, Hcfg, Nat2Z.id.
Qed.

End served_file_names.

(** C10. The file [getSegment] serves a segment from, against the file
    ffmpeg writes it to. A transcoder of the backend is started with the
    output pattern [<preset>-%05d.ts], under which ffmpeg writes segment [k]
    to [<preset>-], [k] in at least five digits, [.ts]. [getSegment], asked
    for segment [k] of the video (the number [k+1] in hexadecimal, from a
    client that is not removed), goes on with a file name of its own making.
    Below 100000 that is the name ffmpeg wrote, with exactly five digits.
    From 100000 on it is [<preset>-], the numeral of
    [(k + 100000) mod 1000000] without its first digit, [.ts]: at most five
    characters where ffmpeg wrote at least six, so not the file ffmpeg
    wrote. *)
Theorem getSegment_fileName_vs_ffmpeg
    (clientId : string) (b b' later : MediaBackend.t) (k : nat)
    (startAt : Z) (transcoder : nat) (started : MediaBackend.Started) :
  MediaBackend.noDirective (MediaBackend.name (MediaBackend.preset (MediaBackend.config b)))
  = true ->
  MediaBackend.startTranscode startAt transcoder b = JS.Ok (started, b') ->
  MediaBackend.config later = MediaBackend.config b ->
  (S k < length (MediaBackend.breakpoints later))%nat ->
  (forall status,
     JS.map_get clientId (MediaBackend.clients later) = Some status ->
     MediaBackend.deleted status = false) ->
  let presetName := MediaBackend.name (MediaBackend.preset (MediaBackend.config b)) in
  exists fileName fileReady written,
    (MediaBackend.getSegment clientId (JS.toString16 (Z.of_nat (S k))) later).2
    = MediaBackend.Proceed fileName fileReady (Z.of_nat k)
    /\ MediaBackend.output_pattern (MediaBackend.ffmpeg started) = presetName +:+ "-%05d.ts"
    /\ MediaBackend.segment_start_number (MediaBackend.ffmpeg started) = startAt
    /\ MediaBackend.expandPattern (MediaBackend.output_pattern (MediaBackend.ffmpeg started))
         (Z.of_nat k)
       = Some written
    /\ written = presetName +:+ "-" +:+ MediaBackend.printf_05d (Z.of_nat k) +:+ ".ts"
    /\ (Z.of_nat k < 100000 ->
        fileName = written
        /\ String.length (MediaBackend.printf_05d (Z.of_nat k)) = 5%nat)
    /\ (100000 <= Z.of_nat k ->
        fileName
        = presetName +:+ "-"
            +:+ MediaBackend.substr1 (JS.decimal (Z.rem (Z.of_nat k + 100000) 1000000))
            +:+ ".ts"
        /\ (String.length
              (MediaBackend.substr1 (JS.decimal (Z.rem (Z.of_nat k + 100000) 1000000)))
            <= 5)%nat
        /\ (6 <= String.length (MediaBackend.printf_05d (Z.of_nat k)))%nat
        /\ fileName <> written).
Proof.
  intros Hname Hstart Hconfig Hk Halive presetName.
  destruct (startTranscode_pattern _ _ _ _ _ Hstart) as [Hpattern Hnumber].
  exists (MediaBackend.segmentFileName presetName (Z.of_nat k)),
         (bool_decide (MediaBackend.segmentStatus later !! k = Some MediaBackend.DONE)),
         (MediaBackend.ffmpegFileName presetName (Z.of_nat k)).
  split.
  { rewrite (getSegment_Proceed clientId later k Hk Halive). by rewrite Hconfig. }
  split; [exact Hpattern |]. split; [exact Hnumber |]. split.
  { rewrite Hpattern. by apply expandPattern_preset. }
  split; [reflexivity |].
  destruct (segmentFileName_cases presetName (Z.of_nat k)) as [Hsmall Hlarge].
  split.
  - intros Hlt. destruct (Hsmall ltac:(lia)) as (_ & Hlen & Heq). by split.
  - intros Hge. destruct (Hlarge Hge) as (Hsuffix & Hshort & Hlong & Hne).
    unfold MediaBackend.segmentFileName. rewrite <- Hsuffix.
    split; [reflexivity |]. split; [exact Hshort |]. split; [exact Hlong |].
    exact Hne.
Qed.

Lemma getSegment_fileName_vs_ffmpeg_witness :
  exists fileReady,
    (MediaBackend.getSegment "c1" "4" fourSegments).2
    = MediaBackend.Proceed "720p-00003.ts" fileReady 3.
Proof.
  destruct (MediaBackend.startTranscode 0 7 fourSegments) as [[started b']|msg] eqn:Hstart;
    [| vm_compute in Hstart; discriminate Hstart].
  destruct (getSegment_fileName_vs_ffmpeg "c1" fourSegments b' fourSegments 3 0 7%nat started
              eq_refl Hstart eq_refl ltac:(vm_compute; lia)
              ltac:(intros status Hs; discriminate Hs))
    as (fileName & fileReady & written & Hreply & _ & _ & _ & Hwritten & Hsmall & _).
  exists fileReady. destruct (Hsmall ltac:(lia)) as [Hsame _].
  etrans; [exact Hreply |]. rewrite Hsame, Hwritten. reflexivity.
Defined.

(** ** MediaBackend: what [recalculate] plans *)

Section recalculate.
Import MediaBackend.
Local Open Scope Z_scope.
Implicit Types (b : t) (encoders : list (Z * EncoderUse)) (kills : list nat).

Lemma map_set_absent {K V : Type} `{EqDecision K} (k : K) (v : V) (m : list (K * V)) :
  JS.map_get k m = None -> JS.map_set k v m = m ++ [(k, v)].
Proof.
  induction m as [|[k0 v0] m IH]; simpl; [done |].
  destruct (decide (k0 = k)) as [->|Hne]; [done |]. intros Hm. by rewrite IH.
Qed.

Lemma map_get_None_keys {K V : Type} `{EqDecision K} (k : K) (m : list (K * V)) :
  JS.map_get k m = None <-> k ∉ m.*1.
Proof.
  induction m as [|[k0 v0] m IH]; simpl.
  - split; [intros _; apply not_elem_of_nil | done].
  - rewrite not_elem_of_cons. destruct (decide (k0 = k)) as [->|Hne].
    + split; [done | by intros [? _]].
    + rewrite IH. split; [by split | by intros [_ ?]].
Qed.

Lemma map_set_keys_present {K V : Type} `{EqDecision K} (k : K) (v : V) (m : list (K * V)) :
  JS.map_get k m <> None -> (JS.map_set k v m).*1 = m.*1.
Proof.
  induction m as [|[k0 v0] m IH]; cbn [JS.map_set JS.map_get]; [done |].
  destruct (decide (k0 = k)) as [->|Hne]; [done |]. intros Hm.
  rewrite !fmap_cons. by rewrite IH.
Qed.

(** The first loop: every encoder is either filed under its head, with no
    client yet, or killed as the second one at its head. *)
Lemma mapEncoders_fold (heads : list (nat * TranscoderStatus)) : forall encoders kills,
  Forall (fun use => u_clients use = []) encoders.*2 ->
  let result := foldl
    (fun st entry =>
       let '(encoders, killOperations) := st in
       let '(process, status) := entry in
       match JS.map_get (t_head status) encoders with
       | Some _ => (encoders, killOperations ++ [process])
       | None =>
           (JS.map_set (t_head status) {| u_process := process; u_clients := [] |} encoders,
            killOperations)
       end)
    (encoders, kills) heads in
  Forall (fun use => u_clients use = []) result.1.*2
  /\ (u_process <$> result.1.*2) ++ result.2 ≡ₚ (u_process <$> encoders.*2) ++ kills ++ heads.*1
  /\ (forall h, h ∈ result.1.*1 <-> h ∈ encoders.*1 \/ h ∈ t_head <$> heads.*2).
Proof.
  induction heads as [|[process status] heads IH]; intros encoders kills Hnone; simpl.
  { split; [done |]. split; [by rewrite app_nil_r |]. intros h.
    split; [by left | intros [?|Hin]; [done | by apply elem_of_nil in Hin]]. }
  destruct (JS.map_get (t_head status) encoders) as [use|] eqn:Hget.
  - destruct (IH encoders (kills ++ [process]) Hnone) as (Hnone' & Hperm & Hkeys).
    split; [done |]. split.
    + rewrite Hperm. rewrite <- !app_assoc. simpl. done.
    + intros h. rewrite Hkeys, elem_of_cons. split; [intros [?|?]; auto |].
      intros [?|[->|?]]; auto. left.
      apply dec_stable. intros Hnot. apply map_get_None_keys in Hnot. congruence.
  - rewrite (map_set_absent _ _ _ Hget).
    destruct (IH (encoders ++ [(t_head status, {| u_process := process; u_clients := [] |})])
                kills) as (Hnone' & Hperm & Hkeys).
    { rewrite fmap_app. apply Forall_app. split; [done |]. by apply Forall_singleton. }
    split; [done |]. split.
    + rewrite Hperm. rewrite !fmap_app. simpl. rewrite <- !app_assoc. simpl.
      apply Permutation_app_head. rewrite Permutation_middle. done.
    + intros h. rewrite Hkeys, fmap_app, elem_of_app, elem_of_cons. simpl.
      rewrite list_elem_of_singleton. tauto.
Qed.

Lemma mapEncoders_facts (heads : list (nat * TranscoderStatus)) :
  Forall (fun use => u_clients use = []) (mapEncoders heads).1.*2
  /\ (u_process <$> (mapEncoders heads).1.*2) ++ (mapEncoders heads).2 ≡ₚ heads.*1
  /\ (forall h, h ∈ (mapEncoders heads).1.*1 <-> h ∈ t_head <$> heads.*2).
Proof.
  destruct (mapEncoders_fold heads [] [] (Forall_nil_2 _)) as (Hnone & Hperm & Hkeys).
  split; [exact Hnone |]. split; [exact Hperm |].
  intros h. rewrite (Hkeys h). split; [intros [Hin|?]; [by apply elem_of_nil in Hin | done] | by right].
Qed.

(** The encoders the last loop kills, when none has a client. *)
Lemma unused_all (uses : list EncoderUse) :
  Forall (fun use => u_clients use = []) uses ->
  omap (fun encoder => if (length (u_clients encoder) =? 0)%nat then Some (u_process encoder)
                       else None) uses
  = u_process <$> uses.
Proof.
  induction 1 as [|use uses Huse _ IH]; [done |].
  rewrite fmap_cons, <- IH. cbn [omap list_omap]. by rewrite Huse.
Qed.

(** A client that is removed, or has not asked for a segment yet, has no
    playhead. *)
Lemma playheads_none videoMinBufferLength b (clients : list (string * ClientStatus)) :
  Forall (fun entry => deleted entry.2 = true \/ head entry.2 < 0) clients ->
  omap (playheadOf videoMinBufferLength b) clients = [].
Proof.
  induction 1 as [|[client value] clients Hvalue _ IH]; [done |].
  cbn [omap list_omap]. fold (omap (playheadOf videoMinBufferLength b) clients).
  rewrite IH. cbn [playheadOf]. simpl in Hvalue.
  destruct Hvalue as [-> | Hhead]; [done |].
  rewrite (proj2 (Z.ltb_lt _ _) Hhead). by rewrite orb_true_r.
Qed.

End recalculate.

(** X11. When no client needs the backend (each one is removed or has not
    asked for a segment yet), [recalculate] kills every attached transcoder,
    each exactly once, plans no new one and leaves the backend as it is. *)
Theorem recalculatePlan_without_clients_kills_all
    (videoMinBufferLength : float) (b : MediaBackend.t) :
  Forall (fun entry => MediaBackend.deleted entry.2 = true \/ MediaBackend.head entry.2 < 0)
    (MediaBackend.clients b) ->
  (MediaBackend.recalculatePlan videoMinBufferLength b).2 = b
  /\ MediaBackend.unresolvedPlayheads (MediaBackend.recalculatePlan videoMinBufferLength b).1
     = []
  /\ MediaBackend.killOperations (MediaBackend.recalculatePlan videoMinBufferLength b).1
     ≡ₚ (MediaBackend.encoderHeads b).*1.
Proof.
  intros Hclients. unfold MediaBackend.recalculatePlan.
  rewrite (playheads_none _ _ _ Hclients).
  destruct (mapEncoders_facts (MediaBackend.encoderHeads b)) as (Hnone & Hperm & _).
  destruct (MediaBackend.mapEncoders (MediaBackend.encoderHeads b)) as [encoders kills].
  simpl in *. split; [done |]. split; [done |].
  change (map snd encoders) with (encoders.*2).
  rewrite (unused_all _ Hnone). rewrite <- Hperm. apply Permutation_app_comm.
Qed.

Lemma recalculatePlan_without_clients_kills_all_witness :
  MediaBackend.killOperations
    (MediaBackend.recalculatePlan 30%float
       (MediaBackend.removeClient "c1" (backend liveStarted)).1).1
  ≡ₚ [7%nat].
Proof.
  apply (proj2 (proj2 (recalculatePlan_without_clients_kills_all 30%float
                         (MediaBackend.removeClient "c1" (backend liveStarted)).1
                         ltac:(vm_compute; apply Forall_singleton; by left)))).
Defined.

Section recalculate_plan.
Import MediaBackend.
Local Open Scope Z_scope.
Implicit Types (b : t) (encoders : list (Z * EncoderUse)) (p : Playhead).

(** The scan of the mandatory buffer range stops at the first segment that
    is not [DONE], within the video and within the range. *)
Lemma shouldStartFrom_found (n : nat) (startTime videoMinBufferLength : float) b :
  forall (i r : Z),
  0 <= i ->
  shouldStartFrom n i startTime videoMinBufferLength b = r -> 0 <= r ->
  i <= r < segmentCount b
  /\ JS.at_Z (segmentStatus b) r <> Some DONE
  /\ PrimFloat.ltb (PrimFloat.sub (breakpointAt b r) startTime) videoMinBufferLength = true
  /\ forall j, i <= j < r -> JS.at_Z (segmentStatus b) j = Some DONE.
Proof.
  induction n as [|n IH]; intros i r Hi Hscan Hr; simpl in Hscan; [lia |].
  destruct (i <? segmentCount b) eqn:Hlt; [| simpl in Hscan; lia].
  destruct (PrimFloat.ltb _ _) eqn:Hwin; [| simpl in Hscan; lia].
  simpl in Hscan. apply Z.ltb_lt in Hlt.
  destruct (bool_decide (JS.at_Z (segmentStatus b) i = Some DONE)) eqn:Hdone; simpl in Hscan.
  - apply bool_decide_eq_true in Hdone.
    destruct (IH (i + 1) r ltac:(lia) Hscan Hr) as (Hrange & Hnot & Hw & Hall).
    split; [lia |]. split; [done |]. split; [done |].
    intros j Hj. destruct (decide (j = i)) as [->|Hne]; [done | apply Hall; lia].
  - apply bool_decide_eq_false in Hdone. subst r.
    split; [lia |]. split; [done |]. split; [done |]. intros j Hj. lia.
Qed.

Lemma playheadOf_Some videoMinBufferLength b client value p :
  playheadOf videoMinBufferLength b (client, value) = Some p ->
  p_client p = client /\ p_ref p = value
  /\ deleted value = false
  /\ 0 <= head value <= firstToEncode p
  /\ firstToEncode p < segmentCount b
  /\ bufferedLength p = firstToEncode p - head value
  /\ JS.at_Z (segmentStatus b) (firstToEncode p) <> Some DONE
  /\ (forall j, head value <= j < firstToEncode p -> JS.at_Z (segmentStatus b) j = Some DONE).
Proof.
  unfold playheadOf.
  destruct (deleted value) eqn:Hdel; [done |].
  destruct (head value <? 0) eqn:Hhead; [done |]. apply Z.ltb_ge in Hhead. simpl.
  destruct (0 <=? shouldStartFrom _ _ _ _ _) eqn:Hfound; [| done].
  apply Z.leb_le in Hfound. intros [= <-]. simpl.
  destruct (shouldStartFrom_found _ _ _ _ _ _ Hhead eq_refl Hfound) as (Hrange & Hnot & _ & Hall).
  repeat split; try done; lia.
Qed.

(** The second [filter]: the heads that have an encoder stay the same, and a
    playhead stays unresolved exactly when neither its first missing segment
    nor the one before is such a head. *)
Lemma resolve_keys encoders b unresolved p :
  (resolve (encoders, b, unresolved) p).1.1.*1 = encoders.*1.
Proof.
  unfold resolve.
  destruct (JS.map_get (firstToEncode p) encoders) as [exactMatch|] eqn:Hexact; simpl.
  { apply map_set_keys_present. congruence. }
  destruct (JS.map_get (firstToEncode p - 1) encoders) as [minusOneMatch|] eqn:Hminus; simpl.
  { apply map_set_keys_present. congruence. }
  done.
Qed.

Lemma foldl_resolve_unresolved (playheads : list Playhead) : forall encoders b unresolved,
  (foldl resolve (encoders, b, unresolved) playheads).1.1.*1 = encoders.*1
  /\ forall p, p ∈ (foldl resolve (encoders, b, unresolved) playheads).2
               <-> p ∈ unresolved
                   \/ (p ∈ playheads /\ (firstToEncode p ∉ encoders.*1)
                       /\ (firstToEncode p - 1 ∉ encoders.*1)).
Proof.
  induction playheads as [|playHead playheads IH]; intros encoders b unresolved.
  { split; [done |]. intros p. split; [by left |]. intros [?|[Hin _]]; [done |].
    by apply elem_of_nil in Hin. }
  cbn [foldl].
  pose proof (resolve_keys encoders b unresolved playHead) as Hkeys.
  assert (Hun : forall p, p ∈ (resolve (encoders, b, unresolved) playHead).2
                  <-> p ∈ unresolved
                      \/ (p = playHead /\ (firstToEncode p ∉ encoders.*1)
                          /\ (firstToEncode p - 1 ∉ encoders.*1))).
  { intros p. unfold resolve.
    destruct (JS.map_get (firstToEncode playHead) encoders) as [exactMatch|] eqn:Hexact; simpl.
    { split; [by left |]. intros [?|(-> & Hnot & _)]; [done |].
      apply map_get_None_keys in Hnot. congruence. }
    destruct (JS.map_get (firstToEncode playHead - 1) encoders) as [m|] eqn:Hminus; simpl.
    { split; [by left |]. intros [?|(-> & _ & Hnot)]; [done |].
      apply map_get_None_keys in Hnot. congruence. }
    rewrite elem_of_app, list_elem_of_singleton.
    apply map_get_None_keys in Hexact, Hminus.
    split; [intros [?| ->]; [by left | by right] | intros [?|(-> & _)]; [by left | by right]]. }
  destruct (resolve (encoders, b, unresolved) playHead) as [[encoders' b'] unresolved'].
  simpl in Hkeys, Hun.
  destruct (IH encoders' b' unresolved') as [Hkeys' Hun'].
  split; [congruence |].
  intros p. rewrite Hun', Hun, Hkeys, elem_of_cons. tauto.
Qed.

(** The sort keeps the playheads and orders them by their first missing
    segment. *)
Lemma insertPlayhead_perm p (l : list Playhead) : insertPlayhead p l ≡ₚ p :: l.
Proof.
  induction l as [|q l IH]; [done |]. simpl.
  destruct (0 <? firstToEncode p - firstToEncode q); [| done].
  rewrite IH. apply Permutation_swap.
Qed.

Lemma sortPlayheads_perm (l : list Playhead) : sortPlayheads l ≡ₚ l.
Proof.
  induction l as [|p l IH]; [done |]. simpl.
  rewrite insertPlayhead_perm. by rewrite IH.
Qed.

Lemma insertPlayhead_sorted p (l : list Playhead) :
  StronglySorted (fun p q => firstToEncode p <= firstToEncode q) l ->
  StronglySorted (fun p q => firstToEncode p <= firstToEncode q) (insertPlayhead p l).
Proof.
  induction 1 as [|q l Hl IH Hq]; simpl.
  { apply SSorted_cons; [apply SSorted_nil | apply Forall_nil_2]. }
  destruct (0 <? firstToEncode p - firstToEncode q) eqn:Hcmp.
  - apply Z.ltb_lt in Hcmp. apply SSorted_cons; [done |].
    rewrite (insertPlayhead_perm p l). apply Forall_cons. split; [lia | done].
  - apply Z.ltb_ge in Hcmp. apply SSorted_cons; [by apply SSorted_cons |].
    apply Forall_cons. split; [lia |].
    eapply Forall_impl; [exact Hq |]. simpl. intros r Hr. lia.
Qed.

Lemma sortPlayheads_sorted (l : list Playhead) :
  StronglySorted (fun p q => firstToEncode p <= firstToEncode q) (sortPlayheads l).
Proof.
  induction l as [|p l IH]; [apply SSorted_nil |]. simpl. by apply insertPlayhead_sorted.
Qed.

End recalculate_plan.

(** X12. [recalculate] plans a new transcoder only where one is missing. The
    unresolved playheads it reaches its [await] with are in ascending order
    of their first segment to encode, and each belongs to a client that is
    not removed and has asked for a segment; its first segment to encode is
    a segment of the video at or after the client's head that is not [DONE],
    every segment from the head up to it is [DONE], and no attached
    transcoder has its head at that segment or at the one before. *)
Theorem recalculatePlan_plans_only_what_is_missing
    (videoMinBufferLength : float) (b : MediaBackend.t) :
  StronglySorted (fun p q => MediaBackend.firstToEncode p <= MediaBackend.firstToEncode q)
    (MediaBackend.unresolvedPlayheads (MediaBackend.recalculatePlan videoMinBufferLength b).1)
  /\ forall p,
       p ∈ MediaBackend.unresolvedPlayheads
             (MediaBackend.recalculatePlan videoMinBufferLength b).1 ->
       (MediaBackend.p_client p, MediaBackend.p_ref p) ∈ MediaBackend.clients b
       /\ MediaBackend.deleted (MediaBackend.p_ref p) = false
       /\ 0 <= MediaBackend.head (MediaBackend.p_ref p) <= MediaBackend.firstToEncode p
       /\ MediaBackend.firstToEncode p < MediaBackend.segmentCount b
       /\ MediaBackend.bufferedLength p
          = MediaBackend.firstToEncode p - MediaBackend.head (MediaBackend.p_ref p)
       /\ JS.at_Z (MediaBackend.segmentStatus b) (MediaBackend.firstToEncode p)
          <> Some MediaBackend.DONE
       /\ (forall j,
             MediaBackend.head (MediaBackend.p_ref p) <= j < MediaBackend.firstToEncode p ->
             JS.at_Z (MediaBackend.segmentStatus b) j = Some MediaBackend.DONE)
       /\ (forall entry,
             entry ∈ MediaBackend.encoderHeads b ->
             MediaBackend.t_head entry.2 <> MediaBackend.firstToEncode p
             /\ MediaBackend.t_head entry.2 <> MediaBackend.firstToEncode p - 1).
Proof.
  unfold MediaBackend.recalculatePlan.
  destruct (mapEncoders_facts (MediaBackend.encoderHeads b)) as (_ & _ & Hheads).
  destruct (MediaBackend.mapEncoders (MediaBackend.encoderHeads b)) as [encoders kills].
  simpl in Hheads.
  pose proof (foldl_resolve_unresolved
                (omap (MediaBackend.playheadOf videoMinBufferLength b) (MediaBackend.clients b))
                encoders b []) as [_ Hun].
  destruct (foldl MediaBackend.resolve _ _) as [[encoders' b'] unresolved]. simpl in Hun |- *.
  split; [apply sortPlayheads_sorted |].
  intros p Hp. rewrite sortPlayheads_perm in Hp.
  apply Hun in Hp as [Hp|(Hp & Hexact & Hminus)]; [by apply elem_of_nil in Hp |].
  apply list_elem_of_omap in Hp as ([client value] & Hin & Hplay).
  destruct (playheadOf_Some _ _ _ _ _ Hplay)
    as (Hclient & Href & Hdel & Hhead & Hlt & Hbuf & Hnot & Hall).
  rewrite Hclient, Href.
  split; [done |]. split; [done |]. split; [done |]. split; [done |]. split; [done |].
  split; [done |]. split; [done |].
  intros entry Hentry.
  assert (Hkey : MediaBackend.t_head entry.2 ∈ encoders.*1).
  { apply Hheads. apply list_elem_of_fmap. exists entry.2. split; [done |].
    apply list_elem_of_fmap. by exists entry. }
  split; intros Heq; rewrite Heq in Hkey; contradiction.
Qed.

Lemma recalculatePlan_plans_only_what_is_missing_witness :
  {| MediaBackend.p_client := "c1"; MediaBackend.firstToEncode := 1;
     MediaBackend.bufferedLength := 0;
     MediaBackend.p_ref := {| MediaBackend.head := 1; MediaBackend.transcoder := None;
                              MediaBackend.deleted := false |} |}
  ∈ MediaBackend.unresolvedPlayheads
      (MediaBackend.recalculatePlan 30%float (MediaBackend.getSegment "c1" "2" fourSegments).1).1
  /\ JS.at_Z (MediaBackend.segmentStatus (MediaBackend.getSegment "c1" "2" fourSegments).1) 1
     <> Some MediaBackend.DONE.
Proof.
  assert (Hin :
    {| MediaBackend.p_client := "c1"; MediaBackend.firstToEncode := 1;
       MediaBackend.bufferedLength := 0;
       MediaBackend.p_ref := {| MediaBackend.head := 1; MediaBackend.transcoder := None;
                                MediaBackend.deleted := false |} |}
    ∈ MediaBackend.unresolvedPlayheads
        (MediaBackend.recalculatePlan 30%float
           (MediaBackend.getSegment "c1" "2" fourSegments).1).1)
    by (vm_compute; apply list_elem_of_here).
  split; [exact Hin |].
  destruct (proj2 (recalculatePlan_plans_only_what_is_missing 30%float
                     (MediaBackend.getSegment "c1" "2" fourSegments).1) _ Hin)
    as (_ & _ & _ & _ & _ & Hnot & _).
  exact Hnot.
Defined.


(** ** VideoInfo: the quality levels of a video *)

Section video_quality_levels.
Import VideoInfo.
Local Open Scope Z_scope.

(** [new Map(entries)] keeps every entry when no two share a key. *)
Lemma mapFromEntries_fold {V : Type} (entries : list (string * V)) : forall m,
  NoDup (m.*1 ++ entries.*1) ->
  foldl (fun m kv => JS.map_set kv.1 kv.2 m) m entries = m ++ entries.
Proof.
  induction entries as [|[k v] entries IH]; intros m Hnd; [by rewrite app_nil_r |].
  cbn [foldl fst snd]. rewrite fmap_cons in Hnd. cbn [fst] in Hnd.
  rewrite map_set_absent.
  - rewrite IH; [by rewrite <- app_assoc |].
    rewrite fmap_app, <- app_assoc. exact Hnd.
  - apply map_get_None_keys. apply NoDup_app in Hnd as (_ & Hdisj & _).
    intros Hin. apply (Hdisj k Hin). apply list_elem_of_here.
Qed.

Lemma mapFromEntries_NoDup {V : Type} (entries : list (string * V)) :
  NoDup entries.*1 -> mapFromEntries entries = entries.
Proof. intros Hnd. unfold mapFromEntries. by rewrite mapFromEntries_fold. Qed.

(** The presets, sorted by resolution and then by video bit rate, both
    descending: the order the source lists them in. *)
Lemma qualityLevelPresets_sorted :
  qualityLevelPresets
  = [ {| MediaBackend.name := "1080p-extra"; MediaBackend.resolution := 1080;
         MediaBackend.videoBitrate := 14400; MediaBackend.audioBitrate := 320 |};
      {| MediaBackend.name := "1080p"; MediaBackend.resolution := 1080;
         MediaBackend.videoBitrate := 9600; MediaBackend.audioBitrate := 224 |};
      {| MediaBackend.name := "720p"; MediaBackend.resolution := 720;
         MediaBackend.videoBitrate := 4800; MediaBackend.audioBitrate := 160 |};
      {| MediaBackend.name := "480p"; MediaBackend.resolution := 480;
         MediaBackend.videoBitrate := 2400; MediaBackend.audioBitrate := 128 |};
      {| MediaBackend.name := "360p"; MediaBackend.resolution := 360;
         MediaBackend.videoBitrate := 1200; MediaBackend.audioBitrate := 112 |} ].
Proof. vm_compute. reflexivity. Qed.

Lemma qualityLevelPresets_names : NoDup (MediaBackend.name <$> qualityLevelPresets).
Proof. rewrite qualityLevelPresets_sorted. simpl. apply NoDup_ListNoDup. repeat constructor; simpl; intuition discriminate. Qed.

Lemma sublist_List_filter {A : Type} (f : A -> bool) (l : list A) : sublist (List.filter f l) l.
Proof.
  induction l as [|x l IH]; [done |]. simpl.
  destruct (f x); [by apply sublist_skip | by apply sublist_cons].
Qed.

End video_quality_levels.

(** X13. A video descriptor is built only for a duration above half a
    second; it then has at least one quality level: one per preset whose
    resolution does not exceed the shorter side of the frame, in the order of
    the presets, or the lowest preset (360p) when there is none. No preset
    is lost in the map (their names differ), each level is filed under its
    preset's name, and none has a backend yet. *)
Theorem VideoInfo_create_quality_levels
    (fuel : nat) (relPath outDir : string) (duration width height : float)
    (rawIFrames : list float) (v : VideoInfo.t) :
  VideoInfo.create fuel relPath outDir duration width height rawIFrames = JS.Ok v ->
  PrimFloat.ltb 0.5 duration = true
  /\ MediaInfo.convertToSegments_default fuel rawIFrames duration = Some (VideoInfo.breakpoints v)
  /\ exists presets,
       presets <> []
       /\ sublist presets VideoInfo.qualityLevelPresets
       /\ (let fitting :=
             List.filter
               (fun preset =>
                  PrimFloat.leb (MediaBackend.resolution preset) (JS.Math_min width height))
               VideoInfo.qualityLevelPresets in
           presets = fitting
           \/ (fitting = []
               /\ presets = [ {| MediaBackend.name := "360p"; MediaBackend.resolution := 360;
                                 MediaBackend.videoBitrate := 1200;
                                 MediaBackend.audioBitrate := 112 |} ]))
       /\ VideoInfo.qualityLevels v
          = (fun preset =>
               (MediaBackend.name preset,
                {| VideoInfo.config :=
                     {| MediaBackend.preset := preset;
                        MediaBackend.width :=
                          JS.Math_round
                            (PrimFloat.mul (PrimFloat.div width (JS.Math_min width height))
                               (MediaBackend.resolution preset));
                        MediaBackend.height :=
                          JS.Math_round
                            (PrimFloat.mul (PrimFloat.div height (JS.Math_min width height))
                               (MediaBackend.resolution preset)) |};
                   VideoInfo.backend := None |})) <$> presets.
Proof.
  unfold VideoInfo.create. cbv zeta.
  set (fitting := List.filter _ VideoInfo.qualityLevelPresets).
  set (mk := fun preset : MediaBackend.QualityLevelPreset => _).
  assert (Hsub : sublist fitting VideoInfo.qualityLevelPresets) by apply sublist_List_filter.
  assert (Hkeys : forall presets, (mk <$> presets).*1 = MediaBackend.name <$> presets).
  { intros presets. by rewrite <- list_fmap_compose. }
  assert (Hmap : forall presets,
            sublist presets VideoInfo.qualityLevelPresets ->
            VideoInfo.mapFromEntries (map mk presets) = mk <$> presets).
  { intros presets Hp. apply mapFromEntries_NoDup. rewrite Hkeys.
    eapply sublist_NoDup; [exact qualityLevelPresets_names |].
    apply (fmap_sublist MediaBackend.name). exact Hp. }
  assert (Hlast : List.last (map Some VideoInfo.qualityLevelPresets) None
                  = Some {| MediaBackend.name := "360p"; MediaBackend.resolution := 360;
                            MediaBackend.videoBitrate := 1200;
                            MediaBackend.audioBitrate := 112 |})
    by (rewrite qualityLevelPresets_sorted; reflexivity).
  assert (Hlowest : sublist [ {| MediaBackend.name := "360p"; MediaBackend.resolution := 360;
                                 MediaBackend.videoBitrate := 1200;
                                 MediaBackend.audioBitrate := 112 |} ]
                      VideoInfo.qualityLevelPresets).
  { rewrite qualityLevelPresets_sorted. do 4 apply sublist_cons. apply sublist_skip, sublist_nil. }
  rewrite Hlast. clearbody fitting mk. clear Hkeys Hlast.
  destruct (PrimFloat.ltb 0.5 duration); [| discriminate]. cbn [negb].
  destruct (MediaInfo.convertToSegments_default fuel rawIFrames duration) as [breakpoints|];
    [| discriminate].
  intros Hv. assert (Hv' : v = {| VideoInfo.relPath := relPath; VideoInfo.outDir := outDir;
                         VideoInfo.qualityLevels :=
                           VideoInfo.mapFromEntries
                             (map mk (if (length fitting =? 0)%nat
                                      then [ {| MediaBackend.name := "360p";
                                                MediaBackend.resolution := 360;
                                                MediaBackend.videoBitrate := 1200;
                                                MediaBackend.audioBitrate := 112 |} ]
                                      else fitting));
                         VideoInfo.breakpoints := breakpoints |}) by congruence.
  clear Hv. subst v. cbn [VideoInfo.breakpoints VideoInfo.qualityLevels].
  split; [done |]. split; [done |].
  destruct fitting as [|first rest].
  - cbn [length Nat.eqb]. eexists. split; [| split; [exact Hlowest | split; [by right |]]].
    + done.
    + by apply Hmap.
  - cbn [length Nat.eqb]. exists (first :: rest).
    split; [done |]. split; [done |]. split; [by left |]. by apply Hmap.
Qed.

Lemma VideoInfo_create_quality_levels_witness :
  PrimFloat.ltb 0.5 31 = true
  /\ (VideoInfo.qualityLevels fullHdVideo).*1
     = [ "1080p-extra"; "1080p"; "720p"; "480p"; "360p" ]%string.
Proof.
  assert (Hrun : VideoInfo.create 3 "film.mkv" "out" 31 1920 1080 [3; 6; 20]%float
                 = JS.Ok fullHdVideo) by (vm_compute; reflexivity).
  split; [exact (proj1 (VideoInfo_create_quality_levels _ _ _ _ _ _ _ _ Hrun)) |].
  vm_compute. reflexivity.
Defined.

(** A backend is constructed on at least one breakpoint. *)
Lemma construct_Ok config breakpoints relPath outDir b :
  MediaBackend.construct config breakpoints relPath outDir = JS.Ok b ->
  b = MediaBackend.create config breakpoints relPath outDir /\ breakpoints <> [].
Proof.
  unfold MediaBackend.construct. destruct breakpoints; [discriminate |].
  by intros [= <-].
Qed.

(** X14. [getBackendByQualityLevel] builds the backend of a quality level on
    first use and keeps it: a successful call leaves the backend in the
    descriptor, the next call for the same level returns the same backend and
    changes nothing, and the other levels are as they were. A backend built
    now is the constructor's, with the breakpoints of the video. *)
Theorem getBackendByQualityLevel_memoises
    (qualityLevel : string) (v v' : VideoInfo.t) (r : option MediaBackend.t) :
  VideoInfo.getBackendByQualityLevel qualityLevel v = JS.Ok (r, v') ->
  exists level b,
    JS.map_get qualityLevel (VideoInfo.qualityLevels v) = Some level
    /\ r = Some b
    /\ (VideoInfo.backend level = None ->
        b = MediaBackend.create (VideoInfo.config level) (VideoInfo.breakpoints v)
              (VideoInfo.relPath v) (VideoInfo.outDir v))
    /\ (forall b0, VideoInfo.backend level = Some b0 -> b = b0 /\ v' = v)
    /\ JS.map_get qualityLevel (VideoInfo.qualityLevels v')
       = Some {| VideoInfo.config := VideoInfo.config level; VideoInfo.backend := Some b |}
    /\ VideoInfo.getBackendByQualityLevel qualityLevel v' = JS.Ok (Some b, v')
    /\ (forall other, other <> qualityLevel ->
          JS.map_get other (VideoInfo.qualityLevels v')
          = JS.map_get other (VideoInfo.qualityLevels v))
    /\ VideoInfo.breakpoints v' = VideoInfo.breakpoints v.
Proof.
  unfold VideoInfo.getBackendByQualityLevel.
  destruct (JS.map_get qualityLevel (VideoInfo.qualityLevels v)) as [level|] eqn:Hlevel;
    [| discriminate].
  destruct (VideoInfo.backend level) as [b0|] eqn:Hb.
  - intros [= <- <-]. exists level, b0. rewrite Hlevel, Hb.
    split; [done |]. split; [done |]. split; [done |].
    split; [by intros ? [= <-] |]. split; [by destruct level; simpl in *; subst |].
    by repeat split.
  - destruct (MediaBackend.construct _ _ _ _) as [b|msg] eqn:Hconstruct; [| discriminate].
    apply construct_Ok in Hconstruct as [Hcreate _].
    intros [= <- <-]. exists level, b. split; [done |]. split; [done |].
    split; [done |]. split; [intros b0 Hb0; congruence |].
    cbn [VideoInfo.qualityLevels VideoInfo.breakpoints VideoInfo.relPath VideoInfo.outDir].
    rewrite map_get_set_eq. cbn [VideoInfo.backend VideoInfo.config].
    split; [done |]. split; [done |]. split; [| done].
    intros other Hne. by apply map_get_set_ne.
Qed.

Lemma getBackendByQualityLevel_memoises_witness :
  exists b v',
    VideoInfo.getBackendByQualityLevel "720p" fullHdVideo = JS.Ok (Some b, v')
    /\ VideoInfo.getBackendByQualityLevel "720p" v' = JS.Ok (Some b, v').
Proof.
  assert (Hrun : exists r v', VideoInfo.getBackendByQualityLevel "720p" fullHdVideo = JS.Ok (r, v'))
    by (eexists _, _; vm_compute; reflexivity).
  destruct Hrun as (r & v' & Hrun).
  destruct (getBackendByQualityLevel_memoises "720p" fullHdVideo v' r Hrun)
    as (level & b & _ & -> & _ & _ & _ & Hagain & _).
  by exists b, v'.
Defined.


(** ** HlsVod: cache keys and the client tracker *)

Section client_tracker.
Import HlsVod.
Local Open Scope Z_scope.
Implicit Types (r : Router) (m : list (string * Lookup)).

Lemma map_delete_length {K V : Type} `{EqDecision K} (k : K) (m : list (K * V)) :
  (length (JS.map_delete k m) <= length m)%nat.
Proof.
  induction m as [|[k0 v0] m IH]; simpl; [done |].
  destruct (decide (k0 = k)); simpl; lia.
Qed.

Lemma map_delete_length_present {K V : Type} `{EqDecision K} (k : K) (m : list (K * V)) :
  JS.map_get k m <> None -> (length (JS.map_delete k m) < length m)%nat.
Proof.
  induction m as [|[k0 v0] m IH]; simpl; [done |].
  destruct (decide (k0 = k)) as [->|Hne]; simpl.
  - intros _. pose proof (map_delete_length k m). lia.
  - intros Hm. specialize (IH Hm). lia.
Qed.

Lemma map_set_length {K V : Type} `{EqDecision K} (k : K) (v : V) (m : list (K * V)) :
  (length (JS.map_set k v m) <= S (length m))%nat.
Proof.
  induction m as [|[k0 v0] m IH]; simpl; [done |].
  destruct (decide (k0 = k)); simpl; lia.
Qed.

Lemma map_delete_keys {K V : Type} `{EqDecision K} (k : K) (m : list (K * V)) :
  sublist (JS.map_delete k m).*1 m.*1 /\ k ∉ (JS.map_delete k m).*1.
Proof.
  induction m as [|[k0 v0] m [IH1 IH2]]; simpl.
  { split; [done | apply not_elem_of_nil]. }
  destruct (decide (k0 = k)) as [->|Hne]; simpl.
  - split; [by apply sublist_cons | done].
  - split; [by apply sublist_skip |]. rewrite not_elem_of_cons. split; [congruence | done].
Qed.

Lemma map_set_keys_NoDup {K V : Type} `{EqDecision K} (k : K) (v : V) (m : list (K * V)) :
  NoDup m.*1 -> NoDup (JS.map_set k v m).*1.
Proof.
  intros Hnd. destruct (JS.map_get k m) as [v0|] eqn:Hget.
  - rewrite map_set_keys_present; [done | congruence].
  - rewrite map_set_absent by done. rewrite fmap_app. simpl.
    apply NoDup_app. split; [done |]. split; [| apply NoDup_singleton].
    intros x Hx ->%list_elem_of_singleton. by apply map_get_None_keys in Hget.
Qed.

(** What the tracker keeps. *)
Definition trackerInvariant (limit : Z) r : Prop :=
  maxClientNumber r = limit
  /\ Z.of_nat (length (clientTracker r)) <= Z.max 0 (limit + 1)
  /\ NoDup (clientTracker r).*1.

Lemma trackerStep_invariant limit r r' :
  trackerStep r r' -> trackerInvariant limit r -> trackerInvariant limit r'.
Proof.
  intros Hstep (Hmax & Hlen & Hnd).
  assert (Hdel : forall clientId,
            trackerInvariant limit
              (set_clientTracker (JS.map_delete clientId (clientTracker r)) r)).
  { intros clientId. split; [done |]. simpl. split.
    - pose proof (map_delete_length clientId (clientTracker r)). lia.
    - eapply sublist_NoDup; [exact Hnd | apply map_delete_keys]. }
  destruct Hstep as [clientId type file qualityLevel r|clientId settled r0 r|clientId r].
  - unfold getBackend. cbv zeta.
    destruct (Hdel clientId) as (_ & Hlen1 & Hnd1).
    cbn [clientTracker set_clientTracker maxClientNumber] in Hlen1, Hnd1 |- *.
    pose proof (map_set_length clientId
                  {| mediaType := type; file := file; qualityLevel := qualityLevel |}
                  (JS.map_delete clientId (clientTracker r))) as Hset.
    destruct (JS.map_get clientId (clientTracker r)) as [existing|] eqn:Hget.
    + cbn [fst snd]. split; [done |].
      cbn [clientTracker set_clientTracker]. split; [| by apply map_set_keys_NoDup].
      pose proof (map_delete_length_present clientId (clientTracker r)
                    ltac:(rewrite Hget; discriminate)).
      lia.
    + destruct (maxClientNumber r <? _) eqn:Hfull.
      * set (m := JS.map_delete clientId (clientTracker r)) in *.
        destruct m as [|[victimKey victimValue] rest]; cbn [fst snd].
        { split; [done |]. cbn [clientTracker set_clientTracker]. by split. }
        split; [done |]. cbn [clientTracker set_clientTracker]. split.
        -- pose proof (map_delete_length victimKey ((victimKey, victimValue) :: rest)). lia.
        -- eapply sublist_NoDup; [exact Hnd1 | apply map_delete_keys].
      * apply Z.ltb_ge in Hfull. cbn [fst snd]. split; [done |].
        cbn [clientTracker set_clientTracker].
        split; [| by apply map_set_keys_NoDup]. lia.
  - unfold removeClient. destruct (JS.map_get clientId (clientTracker r0)); [| done].
    destruct settled as [| |reason]; [apply Hdel | done | done].
  - apply Hdel.
Qed.

Lemma trackerSteps_invariant limit r r' :
  rtc trackerStep r r' -> trackerInvariant limit r -> trackerInvariant limit r'.
Proof.
  induction 1 as [r|r1 r2 r3 H12 _ IH]; [done |].
  intros Hinv. by apply IH, (trackerStep_invariant limit r1).
Qed.

End client_tracker.

(** X15. The cache key of a media is read back by the constructor of
    [cachedMedia]: the letter that [ensureType] gives for ['video'] or
    ['audio'], followed by the file, makes the constructor ask the video or
    the audio class for exactly that file; any other type fails in
    [ensureType], and a key that begins with neither letter (the empty key
    too) is a ['Bad media type.'] *)
Theorem mediaOfKey_reads_cache_keys (typeStr file key : string) :
  (typeStr = "video"%string ->
   HlsVod.ensureType typeStr = JS.Ok "V"%string
   /\ HlsVod.mediaOfKey ("V" +:+ file) = JS.Ok (HlsVod.VideoKind, file))
  /\ (typeStr = "audio"%string ->
      HlsVod.ensureType typeStr = JS.Ok "A"%string
      /\ HlsVod.mediaOfKey ("A" +:+ file) = JS.Ok (HlsVod.AudioKind, file))
  /\ (typeStr <> "video"%string -> typeStr <> "audio"%string ->
      exists msg, HlsVod.ensureType typeStr = JS.Throw msg)
  /\ (~ (exists path, key = "V" +:+ path) -> ~ (exists path, key = "A" +:+ path) ->
      HlsVod.mediaOfKey key = JS.Throw "RangeError: Bad media type.").
Proof.
  split; [by intros -> |]. split; [by intros -> |]. split.
  - intros Hv Ha. unfold HlsVod.ensureType.
    destruct (String.eqb typeStr "video") eqn:Ev; [by apply String.eqb_eq in Ev |].
    destruct (String.eqb typeStr "audio") eqn:Ea; [by apply String.eqb_eq in Ea |].
    by eexists.
  - intros Hv Ha. unfold HlsVod.mediaOfKey. destruct key as [|c rest]; [done |].
    destruct (String.eqb (String c "") "V") eqn:Ev.
    { apply String.eqb_eq in Ev. injection Ev as ->. destruct Hv. by exists rest. }
    destruct (String.eqb (String c "") "A") eqn:Ea; [| done].
    apply String.eqb_eq in Ea. injection Ea as ->. destruct Ha. by exists rest.
Qed.

Lemma mediaOfKey_reads_cache_keys_witness :
  HlsVod.ensureType "video" = JS.Ok "V"%string
  /\ HlsVod.mediaOfKey "Vfilm.mkv" = JS.Ok (HlsVod.VideoKind, "film.mkv"%string)
  /\ HlsVod.mediaOfKey "" = JS.Throw "RangeError: Bad media type.".
Proof.
  split; [exact (proj1 (proj1 (mediaOfKey_reads_cache_keys "video" "film.mkv" "") eq_refl)) |].
  split; [exact (proj2 (proj1 (mediaOfKey_reads_cache_keys "video" "film.mkv" "") eq_refl)) |].
  apply (proj2 (proj2 (proj2 (mediaOfKey_reads_cache_keys "video" "film.mkv" ""))));
    intros [path Hpath]; discriminate Hpath.
Defined.

(** X16. The client tracker never holds a client twice and never more than
    [maxClientNumber + 1] clients (none for a negative limit): whatever
    requests and removals arrive at a router that starts without clients. *)
Theorem clientTracker_bounded (limit : Z) (r : HlsVod.Router) :
  rtc HlsVod.trackerStep {| HlsVod.maxClientNumber := limit; HlsVod.clientTracker := [] |} r ->
  HlsVod.maxClientNumber r = limit
  /\ Z.of_nat (length (HlsVod.clientTracker r)) <= Z.max 0 (limit + 1)
  /\ NoDup (HlsVod.clientTracker r).*1.
Proof.
  intros Hsteps. apply (trackerSteps_invariant limit _ _ Hsteps).
  split; [done |]. simpl. split; [lia | apply NoDup_nil_2].
Qed.

Lemma clientTracker_bounded_witness :
  Z.of_nat (length (HlsVod.clientTracker
    (HlsVod.getBackend "c2" "V" "b.mkv" "480p"
       (HlsVod.getBackend "c1" "V" "a.mkv" "720p"
          {| HlsVod.maxClientNumber := 1; HlsVod.clientTracker := [] |}).1.1).1.1))
  <= Z.max 0 (1 + 1).
Proof.
  apply (clientTracker_bounded 1).
  eapply rtc_l; [apply (HlsVod.tracker_getBackend "c1" "V" "a.mkv" "720p") |].
  eapply rtc_l; [apply (HlsVod.tracker_getBackend "c2" "V" "b.mkv" "480p") |].
  apply rtc_refl.
Defined.


(** ** The LRU map: the size and the order of the cache *)

Section lru_cache.
Import Utils.
Context {K : Type} `{EqDecision K} {V : Type}.
Variable undefined : V.
Variable cacheSize : nat.
Local Abbreviation runtime := (runtime (K := K) (V := V)).
Local Open Scope nat_scope.
Implicit Types (s : runtime) (key k : K).

Lemma then_cache src mk s : cache (then_ src mk s).2 = cache s.
Proof.
  unfold then_, alloc. simpl.
  by destruct (_ !! src) as [[[o|] rs]|].
Qed.

Lemma then_log src mk s : log (then_ src mk s).2 = log s.
Proof.
  unfold then_, alloc. simpl.
  by destruct (_ !! src) as [[[o|] rs]|].
Qed.

Lemma settle_cache p o s : cache (settle p o s) = cache s.
Proof. unfold settle. by destruct (heap s !! p) as [[[?|] ?]|]. Qed.

Lemma delete_cache key s : cache (delete key s).2 = JS.map_delete key (cache s).
Proof.
  unfold delete. destruct (JS.map_get key (cache s)) as [info|] eqn:Hget.
  - pose proof (then_cache info (ThenDestruct key) s) as Ht.
    destruct (then_ info (ThenDestruct key) s) as [destruction s1]. simpl in *. by rewrite Ht.
  - simpl. by rewrite map_delete_absent.
Qed.

(** What the cache keeps: no key twice, and no more entries than
    [cacheSize] (one, for a [cacheSize] of 0). *)
Definition cacheBounded s : Prop :=
  NoDup (cache s).*1 /\ length (cache s) <= max cacheSize 1.

Lemma cacheBounded_ext s s' : cache s' = cache s -> cacheBounded s -> cacheBounded s'.
Proof. unfold cacheBounded. by intros ->. Qed.

Lemma cacheBounded_delete key s : cacheBounded s -> cacheBounded (delete key s).2.
Proof.
  intros [Hnd Hlen]. unfold cacheBounded. rewrite delete_cache. split.
  - eapply sublist_NoDup; [exact Hnd | apply map_delete_keys].
  - pose proof (map_delete_length key (cache s)). lia.
Qed.

(** [set] of a key that is not cached puts it last. *)
Lemma set_cache_last key info s :
  JS.map_get key (cache s) = None ->
  cacheBounded s ->
  exists older,
    cache (set cacheSize key info s) = older ++ [(key, info)]
    /\ (key ∉ older.*1)
    /\ sublist older (cache s)
    /\ cacheBounded (set cacheSize key info s).
Proof.
  intros Hget [Hnd Hlen]. unfold set. cbv zeta.
  set (s1 := if cacheSize <=? length (cache s)
             then match cache s with
                  | (first, _) :: _ => (delete first s).2
                  | [] => s
                  end
             else s).
  assert (Hs1 : sublist (cache s1) (cache s)
                /\ (cacheSize <= length (cache s) -> cache s <> [] ->
                    length (cache s1) < length (cache s))).
  { unfold s1. destruct (cacheSize <=? length (cache s)) eqn:Hfull.
    - destruct (cache s) as [|[first info0] rest] eqn:Hc.
      { rewrite Hc. split; [done |]. by intros _ ?. }
      rewrite delete_cache, Hc. split.
      + simpl. rewrite decide_True by done.
        apply sublist_cons. rewrite fmap_cons in Hnd. apply NoDup_cons in Hnd as [Hfirst _].
        rewrite map_delete_absent; [done |]. by apply map_get_None_keys.
      + intros _ _. apply map_delete_length_present. simpl. by rewrite decide_True.
    - apply Nat.leb_gt in Hfull. split; [done | lia]. }
  destruct Hs1 as [Hsub Hshrink].
  assert (Habsent : JS.map_get key (cache s1) = None).
  { apply map_get_None_keys. apply map_get_None_keys in Hget. intros Hin. apply Hget.
    revert Hin. apply sublist_subseteq. by apply (fmap_sublist fst). }
  cbn [cache set_cache]. rewrite (map_set_absent _ _ _ Habsent).
  exists (cache s1). split; [done |]. split; [by apply map_get_None_keys |]. split; [done |].
  unfold cacheBounded. cbn [cache set_cache]. split.
  - rewrite fmap_app. apply NoDup_app. split.
    + eapply sublist_NoDup; [exact Hnd | by apply (fmap_sublist fst)].
    + split; [| apply NoDup_singleton].
      intros x Hx ->%list_elem_of_singleton. by apply map_get_None_keys in Habsent.
  - rewrite length_app. simpl.
    pose proof (sublist_length _ _ Hsub).
    destruct (decide (cacheSize <= length (cache s))) as [Hfull|Hroom]; [| lia].
    destruct (cache s) as [|entry rest] eqn:Hc.
    + apply sublist_nil_r in Hsub. rewrite Hsub. simpl. lia.
    + specialize (Hshrink Hfull ltac:(done)). simpl in *. lia.
Qed.

Lemma map_set_same_last (key : K) (info : pid) (older : list (K * pid)) :
  key ∉ older.*1 -> JS.map_set key info (older ++ [(key, info)]) = older ++ [(key, info)].
Proof.
  induction older as [|[k0 v0] older IH]; simpl.
  - intros _. by rewrite decide_True.
  - rewrite not_elem_of_cons. intros [Hne Hnot].
    rewrite decide_False by done. by rewrite IH.
Qed.

(** [get] leaves its key last in the cache, bound to the promise it
    returns. *)
Lemma get_cache_last key s :
  cacheBounded s ->
  exists older,
    cache (get cacheSize key s).2 = older ++ [(key, (get cacheSize key s).1)]
    /\ (key ∉ older.*1)
    /\ cacheBounded (get cacheSize key s).2.
Proof.
  intros Hb. unfold get.
  destruct (JS.map_get key (cache s)) as [info|] eqn:Hget.
  - cbn [fst snd cache set_cache].
    destruct (map_delete_keys key (cache s)) as [Hsub Hnot].
    rewrite map_set_absent by (by apply map_get_None_keys).
    exists (JS.map_delete key (cache s)). split; [done |]. split; [done |].
    destruct Hb as [Hnd Hlen]. unfold cacheBounded. cbn [cache set_cache]. split.
    + rewrite fmap_app. apply NoDup_app. split; [by eapply sublist_NoDup |].
      split; [| apply NoDup_singleton]. by intros x Hx ->%list_elem_of_singleton.
    + rewrite length_app. simpl.
      pose proof (map_delete_length_present key (cache s) ltac:(rewrite Hget; discriminate)).
      lia.
  - assert (Hfirst : exists info s1,
              match JS.map_get key (destructions s) with
              | Some destruction => then_ destruction (ThenConstruct key) s
              | None => let '(p, s0) := alloc s in (p, asyncConstructor key p s0)
              end = (info, s1) /\ cache s1 = cache s).
    { destruct (JS.map_get key (destructions s)) as [destruction|].
      - pose proof (then_cache destruction (ThenConstruct key) s) as Ht.
        destruct (then_ destruction (ThenConstruct key) s) as [info s1]. by exists info, s1.
      - by eexists _, _. }
    destruct Hfirst as (info & s1 & -> & Hs1).
    destruct (set_cache_last key info s1) as (older & Hcache & Hnot & _ & Hb').
    { by rewrite Hs1. }
    { by apply (cacheBounded_ext s). }
    pose proof (then_cache info (CatchForget key info) (set cacheSize key info s1)) as Ht.
    destruct (then_ info (CatchForget key info) (set cacheSize key info s1)) as [derived s2].
    cbn [fst snd] in Ht |- *. cbn [cache set_cache]. rewrite Ht, Hcache.
    rewrite map_set_same_last by done.
    exists older. split; [done |]. split; [done |].
    unfold cacheBounded. cbn [cache set_cache]. rewrite <- Hcache. exact Hb'.
Qed.

Lemma run_cacheBounded r o s : cacheBounded s -> cacheBounded (run undefined r o s).
Proof.
  intros Hb.
  destruct r as [key derived|key derived|key info derived], o as [v|]; cbn [run];
    try (by apply (cacheBounded_ext s); rewrite ?settle_cache).
  apply (cacheBounded_ext
           (if bool_decide (JS.map_get key (cache s) = Some info)
            then set_cache (JS.map_delete key (cache s)) s else s));
    [by rewrite settle_cache |].
  destruct (bool_decide _); [| done].
  destruct Hb as [Hnd Hlen]. split; cbn [cache set_cache].
  - eapply sublist_NoDup; [exact Hnd | apply map_delete_keys].
  - pose proof (map_delete_length key (cache s)). lia.
Qed.

Lemma step_cacheBounded s s' :
  step undefined cacheSize s s' -> cacheBounded s -> cacheBounded s'.
Proof.
  intros Hstep Hb.
  destruct Hstep as [key s|key s|r o before after s Hjobs|key p o before after s Hc
                    |key p o before after s Hd].
  - by destruct (get_cache_last key s Hb) as (_ & _ & _ & Hb').
  - by apply cacheBounded_delete.
  - apply run_cacheBounded. by apply (cacheBounded_ext s).
  - eapply cacheBounded_ext; [| exact Hb]. by rewrite settle_cache.
  - eapply cacheBounded_ext; [| exact Hb]. by rewrite settle_cache.
Qed.

Lemma reachable_cacheBounded s : reachable undefined cacheSize s -> cacheBounded s.
Proof.
  induction 1 as [|s s' _ IH Hstep]; [| by apply (step_cacheBounded s)].
  split; [apply NoDup_nil_2 | simpl; lia].
Qed.

End lru_cache.

(** X17. The cache of the LRU map never holds a key twice and never more
    than [cacheSize] entries (one entry, for a [cacheSize] of 0): in every
    state that calls of [get] and [delete], promise jobs and the ends of
    constructors and destructors can lead to. *)
Theorem lru_cache_bounded {K : Type} `{EqDecision K} {V : Type}
    (undefined : V) (cacheSize : nat) (s : Utils.runtime (K := K) (V := V)) :
  Utils.reachable undefined cacheSize s ->
  NoDup (Utils.cache s).*1 /\ (length (Utils.cache s) <= max cacheSize 1)%nat.
Proof. intros Hr. exact (reachable_cacheBounded undefined cacheSize s Hr). Qed.

Lemma lru_cache_bounded_witness :
  (length (Utils.cache afterSecondConstructJob) <= max 20 1)%nat.
Proof.
  exact (proj2 (lru_cache_bounded 0%nat 20 afterSecondConstructJob
                  afterSecondConstructJob_reachable)).
Defined.

(** X18. [get] makes its key the most recently used: in every reachable
    state, after [get(key)] the key is the last entry of the cache, bound to
    the very promise [get] returned; and for a key that was cached, that is
    the promise already in the cache, and nothing is constructed (the log is
    as it was). *)
Theorem lru_get_moves_key_last {K : Type} `{EqDecision K} {V : Type}
    (undefined : V) (cacheSize : nat) (s : Utils.runtime (K := K) (V := V)) (key : K) :
  Utils.reachable undefined cacheSize s ->
  (exists older,
     Utils.cache (Utils.get cacheSize key s).2
     = older ++ [(key, (Utils.get cacheSize key s).1)]
     /\ (key ∉ older.*1))
  /\ forall info,
       JS.map_get key (Utils.cache s) = Some info ->
       (Utils.get cacheSize key s).1 = info
       /\ Utils.log (Utils.get cacheSize key s).2 = Utils.log s
       /\ Utils.constructing (Utils.get cacheSize key s).2 = Utils.constructing s.
Proof.
  intros Hr. split.
  - destruct (get_cache_last cacheSize key s (reachable_cacheBounded undefined cacheSize s Hr))
      as (older & Hcache & Hnot & _).
    by exists older.
  - intros info Hget. unfold Utils.get. by rewrite Hget.
Qed.

Lemma lru_get_moves_key_last_witness :
  JS.map_get 7%nat (Utils.cache afterSecondConstructJob) = Some 3%nat
  /\ (Utils.get 20 7%nat afterSecondConstructJob).1 = 3%nat.
Proof.
  split; [reflexivity |].
  exact (proj1 (proj2 (lru_get_moves_key_last 0%nat 20 afterSecondConstructJob 7%nat
                         afterSecondConstructJob_reachable) 3%nat eq_refl)).
Defined.

(** ** The planner: where the breakpoints begin and end *)

Section planner_endpoints.
Import MediaInfo.

(** The loops of the planner only ever push to [segmentStartTimes]. *)
Lemma subdivide_grows fuel : forall i numOfSegmentsNeeded durationOfEach lastTime times lastTime' times',
  subdivide fuel i numOfSegmentsNeeded durationOfEach lastTime times = Some (lastTime', times') ->
  exists pushed, times' = times ++ pushed.
Proof.
  induction fuel as [|fuel IH]; intros i n d lastTime times lastTime' times'; cbn [subdivide].
  - destruct (PrimFloat.ltb i n); [done |]. intros [= _ <-]. exists []. by rewrite app_nil_r.
  - destruct (PrimFloat.ltb i n).
    + intros [pushed ->]%IH. eexists. by rewrite <- app_assoc.
    + intros [= _ <-]. exists []. by rewrite app_nil_r.
Qed.

Lemma visit_grows fuel L lo hi lastTime times time lastTime' times' :
  visit fuel L lo hi (lastTime, times) time = Some (lastTime', times') ->
  exists pushed, times' = times ++ pushed.
Proof.
  unfold visit.
  destruct (PrimFloat.ltb _ lo).
  { intros [= _ <-]. exists []. by rewrite app_nil_r. }
  destruct (PrimFloat.ltb _ hi).
  { intros [= _ <-]. by eexists. }
  cbv zeta.
  destruct (subdivide _ _ _ _ _ _) as [[last1 times1]|] eqn:Hsub; [| done].
  apply subdivide_grows in Hsub as [pushed ->].
  intros [= _ <-]. eexists. by rewrite <- app_assoc.
Qed.

Lemma visitAll_grows fuel L lo hi timeList : forall lastTime times lastTime' times',
  visitAll fuel L lo hi (lastTime, times) timeList = Some (lastTime', times') ->
  exists pushed, times' = times ++ pushed.
Proof.
  induction timeList as [|time rest IH]; intros lastTime times lastTime' times'; cbn [visitAll].
  - intros [= _ <-]. exists []. by rewrite app_nil_r.
  - destruct (visit fuel L lo hi (lastTime, times) time) as [[last1 times1]|] eqn:Hvisit; [| done].
    apply visit_grows in Hvisit as [pushed1 ->].
    intros [pushed2 ->]%IH. eexists. by rewrite <- app_assoc.
Qed.

Lemma convertToSegments_shape fuel rawTimeList duration segmentLength segmentOffset b :
  convertToSegments fuel rawTimeList duration segmentLength segmentOffset = Some b ->
  exists middle, b = 0%float :: middle ++ [duration].
Proof.
  unfold convertToSegments. cbv zeta.
  destruct (visitAll _ _ _ _ _ _) as [[lastTime times]|] eqn:Hvisit; [| done].
  apply visitAll_grows in Hvisit as [pushed ->].
  intros [= <-].
  destruct pushed as [|time pushed].
  - by exists [].
  - change (Nat.ltb 1 (length ([0%float] ++ time :: pushed))) with true. cbv iota.
    change (removelast ([0%float] ++ time :: pushed))
      with (0%float :: removelast (time :: pushed)).
    destruct (PrimFloat.ltb _ _).
    + by exists (removelast (time :: pushed) ++
                 [PrimFloat.sub duration
                    (PrimFloat.div (PrimFloat.sub duration
                        (List.last (0%float :: removelast (time :: pushed)) 0%float)) 2)]).
    + by exists (removelast (time :: pushed)).
Qed.

End planner_endpoints.

(** X19. Whatever the key frames and the parameters, the breakpoints that
    [convertToSegments] returns begin with 0 and end with the duration, the
    very numbers it was given: there are at least two of them, so at least
    one segment. *)
Theorem convertToSegments_endpoints
    (fuel : nat) (rawTimeList : list float) (duration segmentLength segmentOffset : float)
    (b : list float) :
  MediaInfo.convertToSegments fuel rawTimeList duration segmentLength segmentOffset = Some b ->
  head b = Some 0%float
  /\ List.last b 0%float = duration
  /\ (2 <= length b)%nat.
Proof.
  intros [middle ->]%convertToSegments_shape. split; [done |]. split.
  - change (0%float :: middle ++ [duration]) with ((0%float :: middle) ++ [duration]).
    apply last_last.
  - cbn [length]. rewrite length_app. cbn [length]. lia.
Qed.

Lemma convertToSegments_endpoints_witness :
  List.last [0; 3; 6; 9.5; 13; 16.5; 20; 22.75; 25.5; 28.25; 31]%float 0%float = 31%float.
Proof.
  exact (proj1 (proj2 (convertToSegments_endpoints 3 [3; 6; 20]%float 31 3.5 1.25 _ eq_refl))).
Defined.

(** ** The backends of a media descriptor *)

(** The backends a server hands out: the one an audio descriptor is built
    with, and the ones a freshly built video descriptor builds on request. *)
Inductive builtBackend : MediaBackend.t -> Prop :=
| built_audio fuel relPath outDir duration a :
    AudioInfo.create fuel relPath outDir duration = JS.Ok a ->
    builtBackend (AudioInfo.backend a)
| built_video fuel relPath outDir duration width height rawIFrames v qualityLevel b v' :
    VideoInfo.create fuel relPath outDir duration width height rawIFrames = JS.Ok v ->
    VideoInfo.getBackendByQualityLevel qualityLevel v = JS.Ok (Some b, v') ->
    builtBackend b.

Section built_backends.

Lemma map_set_Forall {K V : Type} `{EqDecision K} (P : K * V -> Prop) k v (m : list (K * V)) :
  P (k, v) -> Forall P m -> Forall P (JS.map_set k v m).
Proof.
  intros Hkv. induction 1 as [|[k' v'] m Hhead Htail IH]; cbn [JS.map_set].
  - by apply Forall_singleton.
  - destruct (decide (k' = k)); by apply Forall_cons.
Qed.

Lemma mapFromEntries_Forall {V : Type} (P : string * V -> Prop) (entries : list (string * V)) :
  Forall P entries -> Forall P (VideoInfo.mapFromEntries entries).
Proof.
  unfold VideoInfo.mapFromEntries. generalize (@nil (string * V)) (@Forall_nil_2 _ P).
  induction entries as [|[k v] entries IH]; intros m Hm Hall; [exact Hm |].
  apply Forall_cons in Hall as [Hkv Hall]. cbn [foldl fst snd].
  apply IH; [| done]. by apply map_set_Forall.
Qed.

(** A video descriptor as its constructor leaves it: breakpoints from the
    planner, and no backend built yet. *)
Lemma VideoInfo_create_fresh fuel relPath outDir duration width height rawIFrames v :
  VideoInfo.create fuel relPath outDir duration width height rawIFrames = JS.Ok v ->
  MediaInfo.convertToSegments_default fuel rawIFrames duration = Some (VideoInfo.breakpoints v)
  /\ Forall (fun entry => VideoInfo.backend entry.2 = None) (VideoInfo.qualityLevels v).
Proof.
  unfold VideoInfo.create. cbv zeta.
  set (presets := if (length _ =? 0)%nat then _ else _).
  set (mk := fun preset : MediaBackend.QualityLevelPreset => _).
  assert (Hall : Forall (fun entry => VideoInfo.backend entry.2 = None)
                   (VideoInfo.mapFromEntries (map mk presets))).
  { apply mapFromEntries_Forall. apply Forall_forall. intros entry Hin.
    apply list_elem_of_fmap in Hin as (preset & -> & _). reflexivity. }
  clearbody presets mk.
  destruct (PrimFloat.ltb 0.5 duration); [| discriminate]. cbn [negb].
  destruct (MediaInfo.convertToSegments_default fuel rawIFrames duration) as [breakpoints|];
    [| discriminate].
  intros [= <-]. by split.
Qed.

Lemma create_first_backend qualityLevel v b v' :
  Forall (fun entry => VideoInfo.backend entry.2 = None) (VideoInfo.qualityLevels v) ->
  VideoInfo.getBackendByQualityLevel qualityLevel v = JS.Ok (Some b, v') ->
  exists config,
    b = MediaBackend.create config (VideoInfo.breakpoints v) (VideoInfo.relPath v)
          (VideoInfo.outDir v).
Proof.
  intros Hnone. unfold VideoInfo.getBackendByQualityLevel.
  destruct (JS.map_get qualityLevel (VideoInfo.qualityLevels v)) as [level|] eqn:Hget; [| done].
  assert (Hlevel : VideoInfo.backend level = None).
  { apply map_get_Some_in in Hget.
    rewrite Forall_forall in Hnone. exact (Hnone _ Hget). }
  rewrite Hlevel.
  destruct (MediaBackend.construct _ _ _ _) as [b1|msg] eqn:Hconstruct; [| discriminate].
  apply construct_Ok in Hconstruct as [-> _]. intros [= <- _]. by eexists.
Qed.

(** Every backend is built on breakpoints of the planner. *)
Lemma builtBackend_create b :
  builtBackend b ->
  exists fuel rawIFrames duration breakpoints config relPath outDir,
    MediaInfo.convertToSegments_default fuel rawIFrames duration = Some breakpoints
    /\ b = MediaBackend.create config breakpoints relPath outDir.
Proof.
  intros [fuel relPath outDir duration a Ha
         |fuel relPath outDir duration width height rawIFrames v qualityLevel b0 v' Hv Hb].
  - unfold AudioInfo.create in Ha.
    destruct (PrimFloat.ltb 0.5 duration); [| discriminate]. cbn [negb] in Ha.
    destruct (MediaInfo.convertToSegments_default fuel [] duration) as [breakpoints|] eqn:Hplan;
      [| discriminate].
    destruct (MediaBackend.construct _ _ _ _) as [b1|msg] eqn:Hconstruct; [| discriminate].
    apply construct_Ok in Hconstruct as [-> _].
    injection Ha as <-. cbn [AudioInfo.backend]. by eexists fuel, [], duration, _, _, _, _.
  - apply VideoInfo_create_fresh in Hv as [Hplan Hnone].
    destruct (create_first_backend _ _ _ _ Hnone Hb) as [config ->].
    by eexists fuel, rawIFrames, duration, _, _, _, _.
Qed.

End built_backends.

(** X20. A backend never comes without segments. The backend of an audio
    descriptor, and each backend a new video descriptor builds, has the
    breakpoints of the planner, from 0 to the duration, hence at least one
    segment, all of them [EMPTY], with no transcoder and no client; so
    [getVariantManifest] does not throw for it, and a first request for
    segment 1 passes the range assertion. *)
Theorem built_backend_has_segments (b : MediaBackend.t) :
  builtBackend b ->
  (exists middle duration,
     MediaBackend.breakpoints b = 0%float :: middle ++ [duration]
     /\ MediaBackend.segmentStatus b = replicate (S (length middle)) MediaBackend.EMPTY)
  /\ 1 <= MediaBackend.segmentCount b
  /\ MediaBackend.encoderHeads b = []
  /\ MediaBackend.clients b = []
  /\ MediaBackend.getVariantManifestLines b <> JS.Throw "RangeError: Invalid array length"
  /\ forall clientId,
       (MediaBackend.getSegment clientId "1" b).2
       = MediaBackend.Proceed
           (MediaBackend.segmentFileName
              (MediaBackend.name (MediaBackend.preset (MediaBackend.config b))) 0)
           false 0.
Proof.
  intros Hb.
  destruct (builtBackend_create b Hb)
    as (fuel & rawIFrames & duration & breakpoints & config & relPath & outDir & Hplan & ->).
  apply convertToSegments_shape in Hplan as [middle ->].
  assert (Hlen : length (0%float :: middle ++ [duration]) = S (S (length middle))).
  { cbn [length]. rewrite length_app. cbn [length]. lia. }
  unfold MediaBackend.segmentCount.
  cbn [MediaBackend.create MediaBackend.breakpoints MediaBackend.segmentStatus
       MediaBackend.encoderHeads MediaBackend.clients MediaBackend.config].
  rewrite Hlen.
  split.
  { exists middle, duration. split; [done |]. reflexivity. }
  split; [lia |]. split; [done |]. split; [done |]. split; [done |].
  intros clientId. unfold MediaBackend.getSegment, MediaBackend.lookupClient.
  cbn [MediaBackend.create MediaBackend.clients JS.map_get].
  change (MediaBackend.parseInt16 "1") with (Some 1).
  cbv beta iota zeta.
  unfold MediaBackend.segmentCount, MediaBackend.set_clients, MediaBackend.create.
  cbn [MediaBackend.breakpoints MediaBackend.segmentStatus MediaBackend.config].
  rewrite Hlen.
  replace ((0 <=? 1 - 1) && (1 - 1 <? Z.of_nat (S (S (length middle))) - 1)) with true
    by (symmetry; apply andb_true_iff; split; [done | apply Z.ltb_lt; lia]).
  cbn [negb]. cbn [snd]. reflexivity.
Qed.

Definition shortSong : AudioInfo.t :=
  {| AudioInfo.relPath := "song.mp3"; AudioInfo.outDir := "/tmp/cache";
     AudioInfo.backend :=
       MediaBackend.create
         {| MediaBackend.preset := AudioInfo.audioPreset; MediaBackend.width := 0;
            MediaBackend.height := 0 |}
         [0; 4]%float "song.mp3" "/tmp/cache" |}.

Lemma built_backend_has_segments_witness :
  AudioInfo.create 1 "song.mp3" "/tmp/cache" 4%float = JS.Ok shortSong
  /\ 1 <= MediaBackend.segmentCount (AudioInfo.backend shortSong).
Proof.
  assert (Hsong : AudioInfo.create 1 "song.mp3" "/tmp/cache" 4%float = JS.Ok shortSong)
    by (vm_compute; reflexivity).
  split; [exact Hsong |].
  exact (proj1 (proj2 (built_backend_has_segments _
                         (built_audio 1 "song.mp3" "/tmp/cache" 4%float shortSong Hsong)))).
Defined.

(** ** [asyncDebounce]: one run at a time *)

Section debounce.
Import AsyncDebounce.
Context {T : Type}.
Local Abbreviation runtime := (runtime (T := T)).
Local Abbreviation promise := (promise (T := T)).
Local Abbreviation outcome := (outcome (T := T)).
Local Open Scope nat_scope.
Implicit Types (s : runtime) (p q d : pid) (r : reaction) (o : outcome) (rs : list reaction).

Definition derivedOf r : pid :=
  match r with
  | FinallyReset derived | ThenDebounced derived | Adopt derived => derived
  end.

Definition isReset r : bool :=
  match r with
  | FinallyReset _ => true
  | _ => false
  end.

(** How many of the reactions are callbacks of [finally]. *)
Definition resetsIn rs : nat := length (List.filter isReset rs).

Definition jobResets (j : list (reaction * outcome)) : nat := resetsIn j.*1.

Lemma resetsIn_app rs1 rs2 : resetsIn (rs1 ++ rs2) = resetsIn rs1 + resetsIn rs2.
Proof. unfold resetsIn. by rewrite List.filter_app, length_app. Qed.

Lemma jobResets_app (j1 j2 : list (reaction * outcome)) :
  jobResets (j1 ++ j2) = jobResets j1 + jobResets j2.
Proof. unfold jobResets. by rewrite fmap_app, resetsIn_app. Qed.

Lemma jobResets_settled o rs : jobResets (map (fun r => (r, o)) rs) = resetsIn rs.
Proof.
  unfold jobResets. f_equal. induction rs as [|r rs IH]; [done |]. simpl. by f_equal.
Qed.

(** A promise that reactions settle is never the promise of a run of
    [method], and it exists. *)
Definition okPid s d : Prop := (d ∉ running s) /\ d < length (heap s).

(** What the runtime keeps.
    - A run of [method] in flight has a pending promise, with one callback of
      [finally] waiting on it; no other promise has one.
    - Runs in flight and queued callbacks of [finally] together are one when
      [inProgress] is set and none when it is [null].
    - [nextCall] is set only while [inProgress] is. *)
Record wf s : Prop := {
  wf_running : forall p, p ∈ running s ->
    exists rs, heap s !! p = Some {| state := None; reactions := rs |} /\ resetsIn rs = 1;
  wf_others : forall q (pr : promise),
    heap s !! q = Some pr -> q ∉ running s -> resetsIn (reactions pr) = 0;
  wf_heap : forall q (pr : promise) r,
    heap s !! q = Some pr -> r ∈ reactions pr -> okPid s (derivedOf r);
  wf_jobs : forall r o, (r, o) ∈ jobs s -> okPid s (derivedOf r);
  wf_count : length (running s) + jobResets (jobs s)
             = match inProgress s with Some _ => 1 | None => 0 end;
  wf_next : nextCall s <> None -> inProgress s <> None
}.

Lemma wf_running_lt s p : wf s -> p ∈ running s -> p < length (heap s).
Proof.
  intros [Hrun _ _ _ _ _] Hp. destruct (Hrun p Hp) as (rs & Hlookup & _).
  by apply lookup_lt_Some in Hlookup.
Qed.

Lemma wf_initial : wf initial.
Proof.
  split; simpl; try done.
  - by intros p ?%elem_of_nil.
  - by intros r o ?%elem_of_nil.
Qed.

Lemma wf_alloc s : wf s -> wf (alloc s).2.
Proof.
  intros Hwf. pose proof (fun p => wf_running_lt s p Hwf) as Hlt.
  destruct Hwf as [Hrun Hoth Hheap Hjobs Hcount Hnext].
  split; simpl; try done.
  - intros p Hp. destruct (Hrun p Hp) as (rs & Hlookup & Hrs).
    exists rs. split; [| done]. by apply lookup_app_l_Some.
  - intros q pr Hq Hnot. apply lookup_app_Some in Hq as [Hq|[_ Hq]]; [by eapply Hoth |].
    apply list_lookup_singleton_Some in Hq as [_ <-]. done.
  - intros q pr r Hq Hr. unfold okPid in *. simpl. rewrite length_app. simpl.
    apply lookup_app_Some in Hq as [Hq|[_ Hq]].
    + destruct (Hheap q pr r Hq Hr) as [? ?]. split; [done | lia].
    + apply list_lookup_singleton_Some in Hq as [_ <-]. by apply elem_of_nil in Hr.
  - intros r o Hr. unfold okPid in *. simpl. rewrite length_app. simpl.
    destruct (Hjobs r o Hr) as [? ?]. split; [done | lia].
Qed.

Lemma register_running src r s : running (register src r s) = running s.
Proof. unfold register. by destruct (heap s !! src) as [[[?|] ?]|]. Qed.

Lemma register_length src r s : length (heap (register src r s)) = length (heap s).
Proof.
  unfold register. destruct (heap s !! src) as [[[?|] ?]|]; simpl; try done.
  by rewrite length_insert.
Qed.

Lemma register_vars src r s :
  inProgress (register src r s) = inProgress s /\ nextCall (register src r s) = nextCall s.
Proof. unfold register. by destruct (heap s !! src) as [[[?|] ?]|]. Qed.

Lemma settle_running d o s : running (settle d o s) = running s.
Proof. unfold settle. by destruct (heap s !! d) as [[[?|] ?]|]. Qed.

Lemma settle_length d o s : length (heap (settle d o s)) = length (heap s).
Proof.
  unfold settle. destruct (heap s !! d) as [[[?|] ?]|]; simpl; try done.
  by rewrite length_insert.
Qed.

Lemma settle_vars d o s :
  inProgress (settle d o s) = inProgress s /\ nextCall (settle d o s) = nextCall s.
Proof. unfold settle. by destruct (heap s !! d) as [[[?|] ?]|]. Qed.

(** Registering a reaction other than a callback of [finally]. *)
Lemma wf_register src r s :
  wf s -> isReset r = false -> okPid s (derivedOf r) -> wf (register src r s).
Proof.
  intros [Hrun Hoth Hheap Hjobs Hcount Hnext] Hr Hok. unfold register.
  destruct (heap s !! src) as [[[o|] rs]|] eqn:Hsrc; [| | by split].
  - split; simpl; try done.
    + intros r' o' [Hin|[= -> ->]%list_elem_of_singleton]%elem_of_app; [by eapply Hjobs |].
      exact Hok.
    + rewrite jobResets_app. unfold jobResets at 2, resetsIn. simpl. rewrite Hr. simpl.
      by rewrite Nat.add_0_r.
  - split; unfold okPid in *; simpl; rewrite ?length_insert; try done.
    + intros p Hp. destruct (Hrun p Hp) as (rs' & Hlookup & Hrs').
      destruct (decide (p = src)) as [->|Hne].
      * rewrite list_lookup_insert_eq by (by eapply lookup_lt_Some).
        eexists. split; [done |]. rewrite resetsIn_app.
        replace rs' with rs in Hrs' by congruence.
        unfold resetsIn at 2. simpl. rewrite Hr. simpl. lia.
      * rewrite list_lookup_insert_ne by done. by exists rs'.
    + intros q pr Hq Hnot. destruct (decide (q = src)) as [->|Hne].
      * rewrite list_lookup_insert_eq in Hq by (by eapply lookup_lt_Some).
        injection Hq as <-. simpl. rewrite resetsIn_app.
        pose proof (Hoth src _ Hsrc Hnot) as Hzero. simpl in Hzero. rewrite Hzero.
        unfold resetsIn. simpl. by rewrite Hr.
      * rewrite list_lookup_insert_ne in Hq by done. by eapply Hoth.
    + intros q pr r' Hq Hr'. destruct (decide (q = src)) as [->|Hne].
      * rewrite list_lookup_insert_eq in Hq by (by eapply lookup_lt_Some).
        injection Hq as <-. simpl in Hr'.
        apply elem_of_app in Hr' as [Hr'| ->%list_elem_of_singleton]; [| exact Hok].
        by eapply (Hheap src _ r' Hsrc).
      * rewrite list_lookup_insert_ne in Hq by done. by eapply Hheap.
Qed.

(** Settling a promise that is not the promise of a run of [method]. *)
Lemma wf_settle d o s : wf s -> d ∉ running s -> wf (settle d o s).
Proof.
  intros [Hrun Hoth Hheap Hjobs Hcount Hnext] Hd. unfold settle.
  destruct (heap s !! d) as [[[o'|] rs]|] eqn:Hsrc; [by split | | by split].
  pose proof (Hoth d _ Hsrc Hd) as Hnone. simpl in Hnone.
  split; unfold okPid in *; simpl; rewrite ?length_insert; try done.
  - intros p Hp. destruct (Hrun p Hp) as (rs' & Hlookup & Hrs').
    rewrite list_lookup_insert_ne by (by intros ->). by exists rs'.
  - intros q pr Hq Hnot. destruct (decide (q = d)) as [->|Hne].
    + rewrite list_lookup_insert_eq in Hq by (by eapply lookup_lt_Some). by injection Hq as <-.
    + rewrite list_lookup_insert_ne in Hq by done. by eapply Hoth.
  - intros q pr r Hq Hr. destruct (decide (q = d)) as [->|Hne].
    + rewrite list_lookup_insert_eq in Hq by (by eapply lookup_lt_Some).
      injection Hq as <-. by apply elem_of_nil in Hr.
    + rewrite list_lookup_insert_ne in Hq by done. by eapply Hheap.
  - intros r o0 [Hin|Hin]%elem_of_app; [by eapply Hjobs |].
    apply list_elem_of_fmap in Hin as (r' & [= -> ->] & Hr').
    by eapply (Hheap d _ r' Hsrc).
  - rewrite jobResets_app, jobResets_settled, Hnone. by rewrite Nat.add_0_r.
Qed.

(** [debounced] with no run in progress: it starts [method] and leaves the
    callback of [finally] waiting on its promise. *)
Lemma debounced_idle s :
  inProgress s = None ->
  debounced s
  = (S (length (heap s)),
     {| heap := heap s ++ [ {| state := None;
                               reactions := [FinallyReset (S (length (heap s)))] |};
                            {| state := None; reactions := [] |} ];
        jobs := jobs s; running := running s ++ [length (heap s)];
        inProgress := Some (S (length (heap s))); nextCall := nextCall s |}).
Proof.
  intros Hidle. unfold debounced. rewrite Hidle.
  unfold method, then_, alloc, register. simpl.
  rewrite length_app. simpl. rewrite Nat.add_1_r.
  rewrite lookup_app_l by (rewrite length_app; simpl; lia).
  rewrite list_lookup_middle by done.
  unfold set_inProgress, set_heap. simpl. f_equal. f_equal.
  rewrite insert_app_l by (rewrite length_app; simpl; lia).
  rewrite insert_app_r_alt by done. rewrite Nat.sub_diag. simpl.
  by rewrite <- app_assoc.
Qed.

(** [debounced] with a run in progress: it starts nothing, and hands out
    [nextCall], which it sets if need be. *)
Lemma debounced_busy s current :
  inProgress s = Some current ->
  running (debounced s).2 = running s
  /\ inProgress (debounced s).2 = Some current
  /\ nextCall (debounced s).2 = Some (debounced s).1
  /\ jobResets (jobs (debounced s).2) = jobResets (jobs s)
  /\ (forall next, nextCall s = Some next -> debounced s = (next, s)).
Proof.
  intros Hbusy. unfold debounced. rewrite Hbusy.
  destruct (nextCall s) as [next|] eqn:Hnext.
  { repeat split; try done. by intros ? [= <-]. }
  unfold then_, alloc, register. simpl.
  destruct (_ !! current) as [[[o|] rs]|]; simpl; repeat split; try done.
  rewrite jobResets_app. unfold jobResets at 2, resetsIn. simpl. lia.
Qed.

Lemma wf_set_nextCall next s : wf s -> inProgress s <> None -> wf (set_nextCall (Some next) s).
Proof. intros [Hrun Hoth Hheap Hjobs Hcount Hnext] Hbusy. by split. Qed.

Lemma wf_debounced s : wf s -> wf (debounced s).2.
Proof.
  intros Hwf. destruct (inProgress s) as [current|] eqn:Hvar.
  - unfold debounced. rewrite Hvar. destruct (nextCall s) as [next|] eqn:Hnext; [done |].
    assert (Hthen : then_ current ThenDebounced s
                    = (length (heap s),
                       register current (ThenDebounced (length (heap s))) (alloc s).2))
      by reflexivity.
    rewrite Hthen. cbv beta iota. cbn [snd]. apply wf_set_nextCall.
    + apply wf_register; [by apply wf_alloc | done |]. split; simpl.
      * intros Hin. apply (wf_running_lt s _ Hwf) in Hin. lia.
      * rewrite length_app. simpl. lia.
    + rewrite (proj1 (register_vars _ _ _)). simpl. by rewrite Hvar.
  - rewrite (debounced_idle s Hvar). simpl.
    destruct Hwf as [Hrun Hoth Hheap Hjobs Hcount Hnext]. rewrite Hvar in Hcount.
    assert (Hnil : running s = []) by (apply length_zero_iff_nil; lia).
    assert (Hjr : jobResets (jobs s) = 0) by lia.
    rewrite Hnil in *.
    split; unfold okPid in *; simpl; rewrite ?length_app; simpl; try done.
    + intros p ->%list_elem_of_singleton. eexists. split; [by apply list_lookup_middle | done].
    + intros q pr Hq Hnot. apply lookup_app_Some in Hq as [Hq|[Hge Hq]].
      * eapply Hoth; [exact Hq | by intros ?%elem_of_nil].
      * destruct (q - length (heap s)) as [|[|k]] eqn:Hk; simpl in Hq; [| by injection Hq as <- | done].
        exfalso. apply Hnot. apply list_elem_of_singleton. lia.
    + intros q pr r Hq Hr. apply lookup_app_Some in Hq as [Hq|[Hge Hq]].
      * destruct (Hheap q pr r Hq Hr) as [_ Hlt].
        split; [rewrite list_elem_of_singleton |]; lia.
      * destruct (q - length (heap s)) as [|[|k]] eqn:Hk; simpl in Hq; [| | done].
        -- injection Hq as <-. apply list_elem_of_singleton in Hr as ->. simpl.
           split; [rewrite list_elem_of_singleton |]; lia.
        -- injection Hq as <-. by apply elem_of_nil in Hr.
    + intros r o Hr. destruct (Hjobs r o Hr) as [_ Hlt].
      split; [rewrite list_elem_of_singleton |]; lia.
    + lia.
Qed.

Lemma debounced_okPid s d : wf s -> okPid s d -> okPid (debounced s).2 d.
Proof.
  intros Hwf [Hnot Hlt]. destruct (inProgress s) as [current|] eqn:Hvar.
  - destruct (debounced_busy s current Hvar) as (Hrun & _).
    split; [by rewrite Hrun |].
    unfold debounced. rewrite Hvar. destruct (nextCall s); [done |].
    unfold then_. simpl. rewrite register_length. simpl. rewrite length_app. simpl. lia.
  - rewrite (debounced_idle s Hvar). split; simpl.
    + rewrite elem_of_app, list_elem_of_singleton. intros [Hin| ->]; [done | lia].
    + rewrite length_app. simpl. lia.
Qed.

Lemma jobResets_middle (before after : list (reaction * outcome)) r o :
  jobResets (before ++ (r, o) :: after)
  = jobResets (before ++ after) + (if isReset r then 1 else 0).
Proof.
  rewrite !jobResets_app. change ((r, o) :: after) with ([(r, o)] ++ after).
  rewrite jobResets_app. unfold jobResets at 2, resetsIn. simpl. destruct (isReset r); simpl; lia.
Qed.

(** Taking a job off the queue. *)
Lemma wf_take_job r o before after s :
  wf s -> jobs s = before ++ (r, o) :: after -> isReset r = false ->
  wf (set_jobs (before ++ after) s) /\ okPid s (derivedOf r).
Proof.
  intros [Hrun Hoth Hheap Hjobs Hcount Hnext] Hq Hr.
  rewrite Hq, jobResets_middle, Hr, Nat.add_0_r in Hcount.
  split.
  - split; try done. simpl. intros r' o' Hin. apply (Hjobs r' o'). rewrite Hq.
    apply elem_of_app in Hin as [Hin|Hin]; apply elem_of_app; [by left | right].
    by apply list_elem_of_further.
  - apply (Hjobs r o). rewrite Hq. apply elem_of_app. right. apply list_elem_of_here.
Qed.

(** A queued callback of [finally] means the run has ended. *)
Lemma reset_queued r o before after s :
  wf s -> jobs s = before ++ (r, o) :: after -> isReset r = true ->
  running s = [] /\ jobResets (before ++ after) = 0 /\ inProgress s <> None.
Proof.
  intros [Hrun Hoth Hheap Hjobs Hcount Hnext] Hq Hr.
  rewrite Hq, jobResets_middle, Hr in Hcount.
  destruct (inProgress s); [| lia].
  split; [apply length_zero_iff_nil; lia |]. split; [lia | done].
Qed.

Lemma wf_run r o before after s :
  wf s -> jobs s = before ++ (r, o) :: after ->
  wf (run r o (set_jobs (before ++ after) s)).
Proof.
  intros Hwf Hq. destruct r as [d|d|d].
  - destruct (reset_queued _ _ _ _ _ Hwf Hq eq_refl) as (Hnil & Hzero & _).
    destruct Hwf as [Hrun Hoth Hheap Hjobs Hcount Hnext].
    assert (Hok : okPid s d).
    { apply (Hjobs (FinallyReset d) o). rewrite Hq. apply elem_of_app. right.
      apply list_elem_of_here. }
    unfold run. split; try done; simpl.
    + intros r' o' [Hin|[= -> ->]%list_elem_of_singleton]%elem_of_app; [| exact Hok].
      apply (Hjobs r' o'). rewrite Hq.
      apply elem_of_app in Hin as [Hin|Hin]; apply elem_of_app; [by left | right].
      by apply list_elem_of_further.
    + rewrite Hnil, jobResets_app, Hzero. reflexivity.
  - destruct (wf_take_job _ _ _ _ _ Hwf Hq eq_refl) as [Hwf' Hok].
    destruct o as [v|]; unfold run.
    + destruct (debounced (set_jobs (before ++ after) s)) as [returned s2] eqn:Hd.
      replace s2 with (debounced (set_jobs (before ++ after) s)).2 by (by rewrite Hd).
      apply wf_register; [by apply wf_debounced | done |].
      by apply debounced_okPid.
    + apply wf_settle; [done |]. exact (proj1 Hok).
  - destruct (wf_take_job _ _ _ _ _ Hwf Hq eq_refl) as [Hwf' Hok].
    unfold run. apply wf_settle; [done |]. exact (proj1 Hok).
Qed.

(** The end of a run of [method]: its callback of [finally] is queued. *)
Lemma wf_methodEnds p o before after s :
  wf s -> running s = before ++ p :: after ->
  wf (settle p o (set_running (before ++ after) s)).
Proof.
  intros [Hrun Hoth Hheap Hjobs Hcount Hnext] Hq.
  assert (Hone : before = [] /\ after = []).
  { assert (Hlen : length (running s) <= 1) by (destruct (inProgress s); lia).
    rewrite Hq, length_app in Hlen. simpl in Hlen.
    split; apply length_zero_iff_nil; lia. }
  destruct Hone as [-> ->]. simpl in Hq.
  destruct (Hrun p) as (rs & Hp & Hrs); [rewrite Hq; apply list_elem_of_here |].
  unfold settle. simpl. rewrite Hp.
  rewrite Hq in Hcount. simpl in Hcount.
  split; unfold okPid in *; simpl; rewrite ?length_insert; try done.
  - by intros p' ?%elem_of_nil.
  - intros q pr Hlookup _. destruct (decide (q = p)) as [->|Hne].
    + rewrite list_lookup_insert_eq in Hlookup by (by eapply lookup_lt_Some).
      by injection Hlookup as <-.
    + rewrite list_lookup_insert_ne in Hlookup by done.
      eapply Hoth; [exact Hlookup |]. rewrite Hq. by intros ?%list_elem_of_singleton.
  - intros q pr r Hlookup Hr. split; [by intros ?%elem_of_nil |].
    destruct (decide (q = p)) as [->|Hne].
    + rewrite list_lookup_insert_eq in Hlookup by (by eapply lookup_lt_Some).
      injection Hlookup as <-. by apply elem_of_nil in Hr.
    + rewrite list_lookup_insert_ne in Hlookup by done.
      exact (proj2 (Hheap q pr r Hlookup Hr)).
  - intros r o0 Hin. split; [by intros ?%elem_of_nil |].
    apply elem_of_app in Hin as [Hin|Hin]; [exact (proj2 (Hjobs r o0 Hin)) |].
    apply list_elem_of_fmap in Hin as (r' & [= -> ->] & Hr').
    exact (proj2 (Hheap p _ r' Hp Hr')).
  - rewrite jobResets_app, jobResets_settled, Hrs. lia.
Qed.

Lemma step_wf s s' : step s s' -> wf s -> wf s'.
Proof.
  intros [s0|r o before after s0 Hq|p o before after s0 Hq] Hwf.
  - by apply wf_debounced.
  - by apply wf_run.
  - by apply wf_methodEnds.
Qed.

Lemma reachable_wf s : reachable s -> wf s.
Proof.
  induction 1 as [|s s' _ IH Hstep]; [apply wf_initial | by apply (step_wf s)].
Qed.

Lemma quietStep_step s s' : quietStep s s' -> step s s'.
Proof. intros [s0|r o before after s0 Hq]; [apply step_call | by apply step_job]. Qed.

(** During a run of [method], with [nextCall] set: calls of [debounced] and
    jobs change neither the run nor the two variables. *)
Lemma quietStep_during_run s s' p next :
  quietStep s s' -> wf s -> running s = [p] -> nextCall s = Some next ->
  running s' = [p] /\ nextCall s' = Some next.
Proof.
  intros Hstep Hwf Hrun Hnext.
  assert (Hbusy : exists current, inProgress s = Some current).
  { destruct (inProgress s) as [current|] eqn:Hvar; [by exists current |].
    destruct Hwf as [_ _ _ _ _ Hnext']. destruct Hnext'; by rewrite ?Hnext. }
  destruct Hbusy as [current Hvar].
  destruct Hstep as [s|r o before after s Hq].
  - destruct (debounced_busy s current Hvar) as (_ & _ & _ & _ & Hsame).
    by rewrite (Hsame next Hnext).
  - assert (Hr : isReset r = false).
    { destruct (isReset r) eqn:Hr; [| done].
      destruct (reset_queued _ _ _ _ _ Hwf Hq Hr) as (Hnil & _). by rewrite Hnil in Hrun. }
    destruct r as [d|d|d]; [done | |].
    + destruct o as [v|]; unfold run.
      * destruct (debounced_busy (set_jobs (before ++ after) s) current Hvar)
          as (_ & _ & _ & _ & Hsame).
        rewrite (Hsame next Hnext). rewrite register_running.
        by rewrite (proj2 (register_vars _ _ _)).
      * by rewrite settle_running, (proj2 (settle_vars _ _ _)).
    + unfold run. by rewrite settle_running, (proj2 (settle_vars _ _ _)).
Qed.

End debounce.

(** X21. [asyncDebounce] keeps [method] from running twice at once: in every
    state that calls of [debounced], promise jobs and the ends of [method]
    can lead to, at most one call of [method] is in flight; while one is,
    [inProgress] is set, so a call of [debounced] starts none; and
    [nextCall] is set only while [inProgress] is. *)
Theorem asyncDebounce_not_reentrant {T : Type} (s : AsyncDebounce.runtime (T := T)) :
  AsyncDebounce.reachable s ->
  (length (AsyncDebounce.running s) <= 1)%nat
  /\ (AsyncDebounce.running s <> [] ->
      AsyncDebounce.inProgress s <> None
      /\ AsyncDebounce.running (AsyncDebounce.debounced s).2 = AsyncDebounce.running s)
  /\ (AsyncDebounce.nextCall s <> None -> AsyncDebounce.inProgress s <> None).
Proof.
  intros Hwf%reachable_wf.
  pose proof Hwf as [_ _ _ _ Hcount Hnext].
  split; [destruct (AsyncDebounce.inProgress s); lia |]. split; [| exact Hnext].
  intros Hrun. destruct (AsyncDebounce.inProgress s) as [current|] eqn:Hvar.
  - split; [done |]. by destruct (debounced_busy s current Hvar) as (-> & _).
  - destruct (AsyncDebounce.running s); [done | simpl in Hcount; lia].
Qed.

Lemma asyncDebounce_not_reentrant_witness :
  (length (AsyncDebounce.running
             (AsyncDebounce.debounced
                (AsyncDebounce.debounced (AsyncDebounce.initial (T := nat))).2).2) <= 1)%nat.
Proof.
  exact (proj1 (asyncDebounce_not_reentrant _
                  (AsyncDebounce.reachable_step _ _
                     (AsyncDebounce.reachable_step _ _ AsyncDebounce.reachable_initial
                        (AsyncDebounce.step_call _))
                     (AsyncDebounce.step_call _)))).
Defined.

(** X22. Calls during a run are collapsed into one: while a call of
    [method] is in flight, after a first call of [debounced], however many
    further calls and promise jobs follow, the run in flight stays the only
    one, and every call of [debounced] returns the promise the first call
    returned and changes nothing. *)
Theorem asyncDebounce_collapses_calls {T : Type} (s s' : AsyncDebounce.runtime (T := T)) :
  AsyncDebounce.reachable s ->
  AsyncDebounce.running s <> [] ->
  rtc AsyncDebounce.quietStep (AsyncDebounce.debounced s).2 s' ->
  AsyncDebounce.running s' = AsyncDebounce.running s
  /\ AsyncDebounce.debounced s' = ((AsyncDebounce.debounced s).1, s').
Proof.
  intros Hreach Hrun Hsteps.
  pose proof (reachable_wf s Hreach) as Hwf.
  assert (Hp : exists p, AsyncDebounce.running s = [p]).
  { pose proof Hwf as [_ _ _ _ Hcount _].
    destruct (AsyncDebounce.running s) as [|p [|q rest]]; [done | by exists p |].
    simpl in Hcount. destruct (AsyncDebounce.inProgress s); lia. }
  destruct Hp as [p Hp].
  assert (Hbusy : exists current, AsyncDebounce.inProgress s = Some current).
  { pose proof Hwf as [_ _ _ _ Hcount _]. rewrite Hp in Hcount.
    destruct (AsyncDebounce.inProgress s) as [current|]; [by exists current | simpl in Hcount; lia]. }
  destruct Hbusy as [current Hvar].
  destruct (debounced_busy s current Hvar) as (Hrun1 & Hvar1 & Hnext1 & _).
  set (first := (AsyncDebounce.debounced s).1) in *.
  assert (Hkeep : wf s' /\ AsyncDebounce.running s' = [p]
                  /\ AsyncDebounce.nextCall s' = Some first).
  { revert Hsteps. generalize (wf_debounced s Hwf). rewrite Hp in Hrun1.
    revert Hrun1 Hnext1. generalize (AsyncDebounce.debounced s).2. intros s1 Hr Hn Hw Hsteps.
    induction Hsteps as [s1|s1 s2 s3 Hstep _ IH]; [done |].
    destruct (quietStep_during_run s1 s2 p first Hstep Hw Hr Hn) as [Hr2 Hn2].
    apply IH; [done | done |]. apply (step_wf s1); [by apply quietStep_step | done]. }
  destruct Hkeep as (Hwf' & Hrun' & Hnext').
  split; [by rewrite Hp |].
  assert (Hbusy' : exists current', AsyncDebounce.inProgress s' = Some current').
  { destruct (AsyncDebounce.inProgress s') as [current'|] eqn:Hvar'; [by exists current' |].
    destruct Hwf' as [_ _ _ _ _ Hnext'']. destruct Hnext''; by rewrite ?Hnext'. }
  destruct Hbusy' as [current' Hvar'].
  destruct (debounced_busy s' current' Hvar') as (_ & _ & _ & _ & Hsame).
  exact (Hsame first Hnext').
Qed.

Lemma asyncDebounce_collapses_calls_witness :
  let during := (AsyncDebounce.debounced (AsyncDebounce.initial (T := nat))).2 in
  AsyncDebounce.running during = [0%nat]
  /\ AsyncDebounce.debounced (AsyncDebounce.debounced (AsyncDebounce.debounced during).2).2
     = ((AsyncDebounce.debounced during).1,
        (AsyncDebounce.debounced (AsyncDebounce.debounced during).2).2).
Proof.
  split; [reflexivity |].
  refine (proj2 (asyncDebounce_collapses_calls
                   (AsyncDebounce.debounced (AsyncDebounce.initial (T := nat))).2 _
                   (AsyncDebounce.reachable_step _ _ AsyncDebounce.reachable_initial
                      (AsyncDebounce.step_call _)) _ _)).
  - discriminate.
  - eapply rtc_l; [apply AsyncDebounce.quiet_call | apply rtc_refl].
Defined.

(** ** The router: a client that asks again *)

(** X23. A tracked client that asks again is never turned away and evicts
    nobody: [getBackend] succeeds, moves the client to the end of the tracker
    (the place of the most recent client) with its new lookup, keeps the
    other clients as they are, and leaves one callback on the promise the
    client was tracked with. Once that promise is fulfilled with a backend,
    the callback has the backend remove the client exactly when the quality
    level or the file differs from the request; for a rejected promise it
    makes no call, and for a promise fulfilled with [undefined] it throws
    before any call. A [removeClient] of the client then tells the backend
    of the new lookup to remove it and untracks it when that promise is
    fulfilled with a backend; it changes nothing when the promise is
    fulfilled with [undefined], and throws the reason, the client still
    tracked, when the promise is rejected. For a client that is not tracked
    it does nothing. *)
Theorem getBackend_tracked_client_moves_last
    (clientId type file qualityLevel : string) (r : HlsVod.Router) (old : HlsVod.Lookup) :
  JS.map_get clientId (HlsVod.clientTracker r) = Some old ->
  let new := {| HlsVod.mediaType := type; HlsVod.file := file;
                HlsVod.qualityLevel := qualityLevel |} in
  let others := JS.map_delete clientId (HlsVod.clientTracker r) in
  let r' := HlsVod.set_clientTracker (others ++ [(clientId, new)]) r in
  let callback := {| HlsVod.existing := old; HlsVod.cb_clientId := clientId;
                     HlsVod.cb_qualityLevel := qualityLevel; HlsVod.cb_file := file |} in
  HlsVod.getBackend clientId type file qualityLevel r = (r', [callback], JS.Ok new)
  /\ (forall other, other <> clientId ->
        JS.map_get other (HlsVod.clientTracker r') = JS.map_get other (HlsVod.clientTracker r))
  /\ (HlsVod.qualityLevel old = qualityLevel /\ HlsVod.file old = file ->
      HlsVod.thenCallback HlsVod.FulfilledBackend callback = JS.Ok [])
  /\ (HlsVod.qualityLevel old <> qualityLevel \/ HlsVod.file old <> file ->
      HlsVod.thenCallback HlsVod.FulfilledBackend callback
      = JS.Ok [ {| HlsVod.onBackend := old; HlsVod.removedClient := clientId |} ])
  /\ (forall reason, HlsVod.thenCallback (HlsVod.Rejected reason) callback = JS.Ok [])
  /\ (exists msg, HlsVod.thenCallback HlsVod.FulfilledUndefined callback = JS.Throw msg)
  /\ HlsVod.removeClient clientId HlsVod.FulfilledBackend r' r'
     = (HlsVod.set_clientTracker others r,
        [ {| HlsVod.onBackend := new; HlsVod.removedClient := clientId |} ], JS.Ok tt)
  /\ HlsVod.removeClient clientId HlsVod.FulfilledUndefined r' r' = (r', [], JS.Ok tt)
  /\ (forall reason,
        HlsVod.removeClient clientId (HlsVod.Rejected reason) r' r' = (r', [], JS.Throw reason))
  /\ (forall settled later,
        HlsVod.removeClient clientId settled (HlsVod.set_clientTracker others r) later
        = (later, [], JS.Ok tt)).
Proof.
  intros Hold new others r' callback.
  assert (Hnone : JS.map_get clientId others = None) by apply map_get_delete_eq.
  assert (Hset : JS.map_set clientId new others = others ++ [(clientId, new)])
    by (by apply map_set_absent).
  assert (Hnew : JS.map_get clientId (others ++ [(clientId, new)]) = Some new)
    by (rewrite <- Hset; apply map_get_set_eq).
  assert (Hdel : JS.map_delete clientId (others ++ [(clientId, new)]) = others).
  { rewrite <- Hset. rewrite map_delete_set_fresh; [done | exact Hnone]. }
  pose proof Hset as Hset'. unfold others, new in Hset'.
  split.
  { unfold HlsVod.getBackend. rewrite Hold. cbv zeta.
    cbn [HlsVod.clientTracker HlsVod.set_clientTracker fst snd].
    rewrite Hset'. reflexivity. }
  split.
  { intros other Hne. subst r'. cbn [HlsVod.clientTracker HlsVod.set_clientTracker].
    rewrite <- Hset. rewrite map_get_set_ne by done. by apply map_get_delete_ne. }
  unfold HlsVod.thenCallback, callback.
  cbn [HlsVod.existing HlsVod.cb_clientId HlsVod.cb_qualityLevel HlsVod.cb_file].
  split.
  { intros [-> ->]. by rewrite !String.eqb_refl. }
  split.
  { intros [Hq|Hf].
    - apply String.eqb_neq in Hq. by rewrite Hq.
    - apply String.eqb_neq in Hf. rewrite Hf. by rewrite orb_true_r. }
  split; [done |]. split; [by eexists |].
  unfold HlsVod.removeClient. subst r'.
  cbn [HlsVod.clientTracker HlsVod.set_clientTracker]. rewrite Hnew, Hdel, Hnone.
  by repeat split.
Qed.

Definition twoClients : HlsVod.Router :=
  {| HlsVod.maxClientNumber := 1;
     HlsVod.clientTracker :=
       [ ("c1"%string, {| HlsVod.mediaType := "V"; HlsVod.file := "a.mkv";
                          HlsVod.qualityLevel := "720p" |});
         ("c2"%string, {| HlsVod.mediaType := "V"; HlsVod.file := "b.mkv";
                          HlsVod.qualityLevel := "480p" |}) ] |}.

Lemma getBackend_tracked_client_moves_last_witness :
  HlsVod.thenCallback HlsVod.FulfilledBackend
    {| HlsVod.existing := {| HlsVod.mediaType := "V"; HlsVod.file := "a.mkv";
                             HlsVod.qualityLevel := "720p" |};
       HlsVod.cb_clientId := "c1"; HlsVod.cb_qualityLevel := "480p";
       HlsVod.cb_file := "a.mkv" |}
  = JS.Ok [ {| HlsVod.onBackend := {| HlsVod.mediaType := "V"; HlsVod.file := "a.mkv";
                                      HlsVod.qualityLevel := "720p" |};
               HlsVod.removedClient := "c1" |} ].
Proof.
  refine (proj1 (proj2 (proj2 (proj2
            (getBackend_tracked_client_moves_last "c1" "V" "a.mkv" "480p" twoClients
               {| HlsVod.mediaType := "V"; HlsVod.file := "a.mkv";
                  HlsVod.qualityLevel := "720p" |} eq_refl)))) _).
  left. discriminate.
Defined.

(** ** [recalculate]: which transcoders are killed *)

Section recalculate_kills.
Import MediaBackend.
Local Open Scope Z_scope.
Implicit Types (b : t) (encoders : list (Z * EncoderUse)) (p : Playhead).

(** The head of the encoder a playhead joins: the one at its first missing
    segment, else the one a segment before. *)
Definition targetOf (keys : list Z) p : option Z :=
  if decide (firstToEncode p ∈ keys) then Some (firstToEncode p)
  else if decide (firstToEncode p - 1 ∈ keys) then Some (firstToEncode p - 1)
  else None.

Lemma map_get_NoDup {K V : Type} `{EqDecision K} (k : K) (v : V) (m : list (K * V)) :
  NoDup m.*1 -> (k, v) ∈ m -> JS.map_get k m = Some v.
Proof.
  induction m as [|[k0 v0] m IH]; [by intros _ ?%elem_of_nil |].
  rewrite fmap_cons. cbn [fst JS.map_get]. intros [Hnot Hnd]%NoDup_cons.
  intros [[= -> ->]|Hin]%elem_of_cons.
  - by rewrite decide_True.
  - rewrite decide_False; [by apply IH |].
    intros ->. apply Hnot. apply list_elem_of_fmap. by exists (k, v).
Qed.

(** Without two encoders at one head, the first loop files every encoder
    and kills none. *)
Lemma mapEncoders_distinct_heads (heads : list (nat * TranscoderStatus)) :
  NoDup (t_head <$> heads.*2) ->
  mapEncoders heads
  = ((fun entry => (t_head entry.2, {| u_process := entry.1; u_clients := [] |})) <$> heads, []).
Proof.
  unfold mapEncoders. set (mk := fun entry : nat * TranscoderStatus => _).
  intros Hnd.
  enough (Hgen : forall filed : list (nat * TranscoderStatus),
            NoDup (t_head <$> (filed ++ heads).*2) ->
            foldl
              (fun st entry =>
                 let '(encoders, killOperations) := st in
                 let '(process, status) := entry in
                 match JS.map_get (t_head status) encoders with
                 | Some _ => (encoders, killOperations ++ [process])
                 | None =>
                     (JS.map_set (t_head status) {| u_process := process; u_clients := [] |}
                        encoders, killOperations)
                 end)
              (mk <$> filed, []) heads
            = (mk <$> (filed ++ heads), [])).
  { exact (Hgen [] Hnd). }
  clear Hnd. induction heads as [|[process status] heads IH]; intros filed Hnd.
  { by rewrite app_nil_r. }
  cbn [foldl].
  assert (Hfresh : JS.map_get (t_head status) (mk <$> filed) = None).
  { apply map_get_None_keys. rewrite <- list_fmap_compose.
    rewrite !fmap_app, fmap_cons in Hnd. apply NoDup_app in Hnd as (_ & Hdisj & _).
    intros Hin. apply (Hdisj (t_head status)).
    - rewrite <- list_fmap_compose. exact Hin.
    - apply list_elem_of_here. }
  rewrite Hfresh, (map_set_absent _ _ _ Hfresh).
  change ((mk <$> filed) ++ [(t_head status, {| u_process := process; u_clients := [] |})])
    with ((mk <$> filed) ++ (mk <$> [(process, status)])).
  rewrite <- fmap_app. rewrite IH.
  - by rewrite <- app_assoc.
  - by rewrite <- app_assoc.
Qed.

(** One playhead: the encoder it joins gets a client, the others stay as
    they are. *)
Lemma resolve_use encoders b unresolved p h use' :
  JS.map_get h (resolve (encoders, b, unresolved) p).1.1 = Some use' ->
  exists use,
    JS.map_get h encoders = Some use
    /\ u_process use' = u_process use
    /\ (u_clients use' = [] <-> u_clients use = [] /\ targetOf encoders.*1 p <> Some h).
Proof.
  unfold resolve, targetOf.
  destruct (JS.map_get (firstToEncode p) encoders) as [exactMatch|] eqn:Hexact.
  { rewrite decide_True by (apply dec_stable; intros Hnot%map_get_None_keys; congruence).
    cbn [fst]. destruct (decide (h = firstToEncode p)) as [->|Hne].
    - rewrite map_get_set_eq. intros [= <-]. exists exactMatch. cbn.
      split; [done |]. split; [done |].
      split; [intros [_ ?]%app_eq_nil; discriminate | by intros [_ ?]].
    - rewrite map_get_set_ne by done. intros Hget. exists use'.
      repeat split; try done. { by intros [= ?]. } tauto. }
  apply map_get_None_keys in Hexact. rewrite decide_False by done.
  destruct (JS.map_get (firstToEncode p - 1) encoders) as [minusOneMatch|] eqn:Hminus.
  { rewrite decide_True by (apply dec_stable; intros Hnot%map_get_None_keys; congruence).
    cbn [fst]. destruct (decide (h = firstToEncode p - 1)) as [->|Hne].
    - rewrite map_get_set_eq. intros [= <-]. exists minusOneMatch. cbn.
      split; [done |]. split; [done |].
      split; [intros [_ ?]%app_eq_nil; discriminate | by intros [_ ?]].
    - rewrite map_get_set_ne by done. intros Hget. exists use'.
      repeat split; try done. { by intros [= ?]. } tauto. }
  apply map_get_None_keys in Hminus. rewrite decide_False by done.
  cbn [fst]. intros Hget. exists use'. repeat split; try done. tauto.
Qed.

Lemma foldl_resolve_use (playheads : list Playhead) : forall encoders b unresolved h use',
  JS.map_get h (foldl resolve (encoders, b, unresolved) playheads).1.1 = Some use' ->
  exists use,
    JS.map_get h encoders = Some use
    /\ u_process use' = u_process use
    /\ (u_clients use' = []
        <-> u_clients use = [] /\ forall p, p ∈ playheads -> targetOf encoders.*1 p <> Some h).
Proof.
  induction playheads as [|playHead playheads IH]; intros encoders b unresolved h use'.
  { cbn [foldl fst]. intros Hget. exists use'. split; [done |]. split; [done |].
    split; [| by intros [? _]]. intros Hnone. split; [done |]. by intros p ?%elem_of_nil. }
  cbn [foldl].
  pose proof (resolve_keys encoders b unresolved playHead) as Hkeys.
  pose proof (resolve_use encoders b unresolved playHead h) as Hone.
  destruct (resolve (encoders, b, unresolved) playHead) as [[encoders1 b1] unresolved1].
  cbn [fst] in Hkeys, Hone.
  intros (use1 & Hget1 & Hprocess1 & Hclients1)%IH.
  destruct (Hone use1 Hget1) as (use & Hget & Hprocess & Hclients).
  exists use. split; [done |]. split; [congruence |].
  rewrite Hclients1, Hclients, Hkeys. split.
  - intros [[Hnone Hhead] Hrest]. split; [done |].
    intros p [->|Hin]%elem_of_cons; [done | by apply Hrest].
  - intros [Hnone Hall]. split; [split; [done |] |].
    + apply Hall. apply list_elem_of_here.
    + intros p Hin. apply Hall. by apply list_elem_of_further.
Qed.

End recalculate_kills.

(** X24. [recalculate] kills exactly the transcoders that no client waits
    for. When no two transcoders have their heads at the same segment, the
    processes it kills are those of the transcoders whose head is neither at
    the first missing segment of some playhead, nor one segment before it
    while no transcoder is at that segment itself. *)
Theorem recalculatePlan_kills_exactly_unneeded
    (videoMinBufferLength : float) (b : MediaBackend.t) (process : nat) :
  NoDup (MediaBackend.t_head <$> (MediaBackend.encoderHeads b).*2) ->
  let playheads :=
    omap (MediaBackend.playheadOf videoMinBufferLength b) (MediaBackend.clients b) in
  let needed (h : Z) :=
    exists p, p ∈ playheads
      /\ (MediaBackend.firstToEncode p = h
          \/ (MediaBackend.firstToEncode p - 1 = h
              /\ forall entry, entry ∈ MediaBackend.encoderHeads b ->
                   MediaBackend.t_head entry.2 <> MediaBackend.firstToEncode p)) in
  process ∈ MediaBackend.killOperations (MediaBackend.recalculatePlan videoMinBufferLength b).1
  <-> exists status,
        (process, status) ∈ MediaBackend.encoderHeads b
        /\ ~ needed (MediaBackend.t_head status).
Proof.
  intros Hnd playheads needed. unfold MediaBackend.recalculatePlan.
  rewrite (mapEncoders_distinct_heads _ Hnd). fold playheads.
  set (mk := fun entry : nat * MediaBackend.TranscoderStatus => _).
  set (encoders := mk <$> MediaBackend.encoderHeads b).
  assert (Hkeys0 : encoders.*1 = MediaBackend.t_head <$> (MediaBackend.encoderHeads b).*2).
  { unfold encoders. by rewrite <- !list_fmap_compose. }
  pose proof (foldl_resolve_use playheads encoders b []) as Huse.
  pose proof (foldl_resolve_unresolved playheads encoders b []) as [Hkeys _].
  destruct (foldl MediaBackend.resolve (encoders, b, []) playheads)
    as [[encoders' b'] unresolved].
  cbn [fst snd] in Huse, Hkeys.
  cbn [MediaBackend.killOperations fst app].
  assert (Htarget : forall h,
            h ∈ encoders.*1 ->
            (forall p, p ∈ playheads -> targetOf encoders.*1 p <> Some h) <-> ~ needed h).
  { intros h Hh. split.
    - intros Hall (p & Hp & Hcase). apply (Hall p Hp). unfold targetOf.
      destruct Hcase as [Hexact|[Hminus Hnobody]].
      + rewrite decide_True by (by rewrite Hexact). by rewrite Hexact.
      + rewrite decide_False.
        * rewrite decide_True by (by rewrite Hminus). by rewrite Hminus.
        * rewrite Hkeys0. intros (status & Heq & (entry & -> & Hin)%list_elem_of_fmap)%list_elem_of_fmap.
          by apply (Hnobody entry Hin).
    - intros Hnot p Hp Htarget. apply Hnot. exists p. split; [done |].
      unfold targetOf in Htarget.
      destruct (decide (MediaBackend.firstToEncode p ∈ encoders.*1)) as [|Habsent].
      { left. congruence. }
      destruct (decide (MediaBackend.firstToEncode p - 1 ∈ encoders.*1)); [| done].
      right. split; [congruence |]. intros entry Hin Heq. apply Habsent.
      rewrite Hkeys0, <- Heq. apply list_elem_of_fmap. exists entry.2. split; [done |].
      apply list_elem_of_fmap. by exists entry. }
  rewrite list_elem_of_omap. split.
  - intros (use' & Hin & Hsome).
    destruct (length (MediaBackend.u_clients use') =? 0)%nat eqn:Hlen; [| done].
    injection Hsome as <-. apply Nat.eqb_eq, length_zero_iff_nil in Hlen.
    apply list_elem_of_fmap in Hin as ([h use''] & -> & Hin). cbn [snd] in *.
    apply map_get_NoDup in Hin; [| by rewrite Hkeys, Hkeys0].
    destruct (Huse h use'' Hin) as (use & Hget & Hprocess & Hclients).
    apply map_get_Some_in in Hget as Hentry.
    apply list_elem_of_fmap in Hentry as ([process0 status] & [= -> ->] & Hhead).
    exists status. split; [by rewrite Hprocess |].
    apply Htarget; [| by apply Hclients].
    apply list_elem_of_fmap. exists (mk (process0, status)).
    split; [done |]. apply list_elem_of_fmap. by exists (process0, status).
  - intros (status & Hin & Hnot).
    assert (Hentry : mk (process, status) ∈ encoders)
      by (apply list_elem_of_fmap; by exists (process, status)).
    assert (Hh : MediaBackend.t_head status ∈ encoders.*1).
    { apply list_elem_of_fmap. by exists (mk (process, status)). }
    apply map_get_NoDup in Hentry; [| by rewrite Hkeys0].
    destruct (JS.map_get (MediaBackend.t_head status) encoders') as [use'|] eqn:Hget'.
    2:{ apply map_get_None_keys in Hget'. by rewrite Hkeys in Hget'. }
    destruct (Huse _ use' Hget') as (use & Hget & Hprocess & Hclients).
    assert (Huse0 : use = {| MediaBackend.u_process := process; MediaBackend.u_clients := [] |})
      by (unfold mk in Hentry; cbn [fst snd] in Hentry; congruence).
    subst use. cbn in Hprocess, Hclients.
    exists use'. split.
    + apply list_elem_of_fmap. exists (MediaBackend.t_head status, use'). split; [done |].
      by apply map_get_Some_in.
    + replace (MediaBackend.u_clients use') with (@nil string); [by rewrite Hprocess |].
      symmetry. apply Hclients. split; [done |]. by apply Htarget.
Qed.

Lemma recalculatePlan_kills_exactly_unneeded_witness :
  7%nat ∈ MediaBackend.killOperations
            (MediaBackend.recalculatePlan 30%float (backend liveStarted)).1.
Proof.
  apply (proj2 (recalculatePlan_kills_exactly_unneeded 30%float (backend liveStarted) 7%nat
                  ltac:(vm_compute; apply NoDup_singleton))).
  eexists. split.
  - vm_compute. apply list_elem_of_here.
  - intros (p & Hp & _). vm_compute in Hp. by apply elem_of_nil in Hp.
Defined.


(** ** A client that is removed before its first request *)

Section removed_clients.
Import MediaBackend.
Local Open Scope Z_scope.
Implicit Types (b : t) (s : Live).

(** Everything that can happen to a backend until the timer of
    [removeClient(clientId)] fires: requests and removals by any client, this
    one too; the timers of other clients; recalculations, both the plan and
    the loop that starts transcoders and hands them to the playheads; lines
    and exits of transcoders. *)
Inductive untilTimeout (clientId : string) (videoMinBufferLength videoMaxBufferLength : float) :
  Live -> Live -> Prop :=
| until_getSegment client segmentNumber s :
    untilTimeout clientId videoMinBufferLength videoMaxBufferLength s
      {| backend := (getSegment client segmentNumber (backend s)).1; handlers := handlers s |}
| until_removeClient client s :
    untilTimeout clientId videoMinBufferLength videoMaxBufferLength s
      {| backend := (removeClient client (backend s)).1; handlers := handlers s |}
| until_removeClientTimeout other s :
    other <> clientId ->
    untilTimeout clientId videoMinBufferLength videoMaxBufferLength s
      {| backend := removeClientTimeout other (backend s); handlers := handlers s |}
| until_recalculatePlan s :
    untilTimeout clientId videoMinBufferLength videoMaxBufferLength s
      {| backend := (recalculatePlan videoMinBufferLength (backend s)).2;
         handlers := handlers s |}
| until_assignTranscoder client process s :
    untilTimeout clientId videoMinBufferLength videoMaxBufferLength s
      {| backend := assignTranscoder client process (backend s); handlers := handlers s |}
| until_startTranscode startAt transcoder started b' c s :
    startTranscode startAt transcoder (backend s) = JS.Ok (started, b') ->
    handlersOf started b' = Some c ->
    untilTimeout clientId videoMinBufferLength videoMaxBufferLength s
      {| backend := b'; handlers := c :: handlers s |}
| until_line before c after tsFileName r b' s :
    handlers s = before ++ c :: after ->
    onLine videoMaxBufferLength c tsFileName (backend s) = JS.Ok (r, b') ->
    untilTimeout clientId videoMinBufferLength videoMaxBufferLength s
      {| backend := b'; handlers := before ++ l_closure r :: after |}
| until_exit c s :
    c ∈ handlers s ->
    untilTimeout clientId videoMinBufferLength videoMaxBufferLength s
      {| backend := (onExit c (backend s)).1; handlers := handlers s |}.

(** The record of a removed client that has asked for nothing, in a map
    without a key twice. *)
Definition stubKept (clientId : string) (m : list (string * ClientStatus)) : Prop :=
  NoDup m.*1
  /\ exists status,
       JS.map_get clientId m = Some status /\ deleted status = true /\ head status = -1.

Lemma stubKept_set clientId other status m :
  other <> clientId -> stubKept clientId m -> stubKept clientId (JS.map_set other status m).
Proof.
  intros Hne [Hnd Hstub]. split; [by apply map_set_keys_NoDup |].
  by rewrite map_get_set_ne.
Qed.

Lemma stubKept_delete clientId other m :
  other <> clientId -> stubKept clientId m -> stubKept clientId (JS.map_delete other m).
Proof.
  intros Hne [Hnd Hstub]. split.
  - eapply sublist_NoDup; [exact Hnd | apply map_delete_keys].
  - by rewrite map_get_delete_ne.
Qed.

(** A removed client is answered 409, and nothing changes. *)
Lemma getSegment_removed clientId segmentNumber b status :
  JS.map_get clientId (clients b) = Some status -> deleted status = true ->
  getSegment clientId segmentNumber b = (b, SendStatus409).
Proof. intros Hget Hdel. unfold getSegment, lookupClient. by rewrite Hget, Hdel. Qed.

Lemma getSegment_stubKept clientId client segmentNumber b :
  stubKept clientId (clients b) -> stubKept clientId (clients (getSegment client segmentNumber b).1).
Proof.
  intros Hstub. destruct (decide (client = clientId)) as [->|Hne].
  - destruct Hstub as [Hnd (status & Hget & Hdel & Hhead)].
    rewrite (getSegment_removed _ _ _ _ Hget Hdel). split; [done | by exists status].
  - assert (Hset : forall status m, stubKept clientId m ->
              stubKept clientId (JS.map_set client status m))
      by (intros status m; by apply stubKept_set).
    unfold getSegment, lookupClient.
    destruct (JS.map_get client (clients b)) as [clientInfo|].
    + destruct (deleted clientInfo); [exact Hstub |].
      destruct (parseInt16 segmentNumber) as [n|]; [| exact Hstub].
      destruct (negb _); [exact Hstub |]. cbn [fst]. unfold onGetSegment.
      cbn [clients set_clients]. by apply Hset.
    + destruct (parseInt16 segmentNumber) as [n|]; cbn [fst clients set_clients];
        [| by apply Hset].
      destruct (negb _); cbn [fst clients set_clients]; [by apply Hset |].
      unfold onGetSegment. cbn [clients set_clients]. by do 2 apply Hset.
Qed.

Lemma removeClient_stubKept clientId client b :
  stubKept clientId (clients b) -> stubKept clientId (clients (removeClient client b).1).
Proof.
  intros Hstub. unfold removeClient. destruct (decide (client = clientId)) as [->|Hne].
  - destruct Hstub as [Hnd (status & Hget & Hdel & Hhead)]. rewrite Hget, Hdel.
    split; [done | by exists status].
  - destruct (JS.map_get client (clients b)) as [status|]; cbn [fst clients set_clients];
      [| by apply stubKept_set].
    destruct (deleted status); cbn [fst clients set_clients]; [exact Hstub | by apply stubKept_set].
Qed.

Lemma assignTranscoder_stubKept clientId client process b :
  stubKept clientId (clients b) -> stubKept clientId (clients (assignTranscoder client process b)).
Proof.
  intros Hstub. unfold assignTranscoder.
  destruct (JS.map_get client (clients b)) as [status|] eqn:Hclient; [| done].
  destruct (decide (client = clientId)) as [->|Hne]; [| by apply stubKept_set].
  destruct Hstub as [Hnd (status' & Hget & Hdel & Hhead)].
  assert (status' = status) as -> by congruence.
  split; [by apply map_set_keys_NoDup |].
  cbn [clients set_clients]. rewrite map_get_set_eq. by eexists.
Qed.

(** The plan of [recalculate] gives transcoders to playheads, and a removed
    client has none. *)
Lemma resolve_stubKept clientId encoders b unresolved playHead :
  p_client playHead <> clientId ->
  stubKept clientId (clients b) ->
  stubKept clientId (clients (resolve (encoders, b, unresolved) playHead).1.2).
Proof.
  intros Hne Hstub. unfold resolve.
  destruct (JS.map_get (firstToEncode playHead) encoders) as [exactMatch|]; cbn [fst snd].
  { unfold attachClient. by apply stubKept_set. }
  destruct (JS.map_get (firstToEncode playHead - 1) encoders) as [minusOneMatch|]; cbn [fst snd].
  { unfold attachClient. by apply stubKept_set. }
  done.
Qed.

Lemma foldl_resolve_stubKept clientId (playheads : list Playhead) : forall st,
  Forall (fun playHead => p_client playHead <> clientId) playheads ->
  stubKept clientId (clients st.1.2) ->
  stubKept clientId (clients (foldl resolve st playheads).1.2).
Proof.
  induction playheads as [|playHead playheads IH]; intros [[encoders b] unresolved] Hall Hstub;
    [done |].
  apply Forall_cons in Hall as [Hne Hall]. cbn [foldl]. apply IH; [done |].
  by apply resolve_stubKept.
Qed.

Lemma recalculatePlan_stubKept clientId videoMinBufferLength b :
  stubKept clientId (clients b) ->
  stubKept clientId (clients (recalculatePlan videoMinBufferLength b).2).
Proof.
  intros Hstub. unfold recalculatePlan.
  destruct (mapEncoders (encoderHeads b)) as [encoders kills].
  assert (Hall : Forall (fun playHead => p_client playHead <> clientId)
                   (omap (playheadOf videoMinBufferLength b) (clients b))).
  { apply Forall_forall. intros playHead Hin Heq.
    apply list_elem_of_omap in Hin as ([client value] & Hin & Hplay).
    destruct (playheadOf_Some _ _ _ _ _ Hplay) as (Hclient & _ & Hdel & _).
    destruct Hstub as [Hnd (status & Hget & Hdel' & _)].
    rewrite Hclient in Heq. subst client.
    rewrite (map_get_NoDup _ _ _ Hnd Hin) in Hget. congruence. }
  pose proof (foldl_resolve_stubKept clientId _ (encoders, b, []) Hall Hstub) as Hfold.
  by destruct (foldl resolve _ _) as [[encoders' b'] unresolved].
Qed.

Lemma startTranscode_clients startAt transcoder b started b' :
  startTranscode startAt transcoder b = JS.Ok (started, b') -> clients b' = clients b.
Proof.
  intros Hstart.
  destruct (startTranscode_cases startAt transcoder b)
    as [[_ Hthrow]|[(_ & _ & Hthrow)|[(_ & _ & msg & _ & Hthrow)
       |(_ & _ & encoderId & b1 & started' & Hfind & Hok & _)]]];
    rewrite Hstart in *; try discriminate.
  injection Hok as _ ->.
  destruct (findNextAvailableId_cases b) as [(attempt & _ & Heq)|(_ & Heq)];
    rewrite Heq in Hfind; [| discriminate Hfind].
  by injection Hfind as _ <-.
Qed.

Lemma untilTimeout_stubKept clientId videoMinBufferLength videoMaxBufferLength s s' :
  untilTimeout clientId videoMinBufferLength videoMaxBufferLength s s' ->
  stubKept clientId (clients (backend s)) -> stubKept clientId (clients (backend s')).
Proof.
  intros [client segmentNumber s0|client s0|other s0 Hne|s0|client process s0
         |startAt transcoder started b' c s0 Hstart Hc
         |before c after tsFileName r b' s0 Hh Hline|c s0 Hc] Hstub; cbn [backend].
  - by apply getSegment_stubKept.
  - by apply removeClient_stubKept.
  - by apply stubKept_delete.
  - by apply recalculatePlan_stubKept.
  - by apply assignTranscoder_stubKept.
  - by rewrite (startTranscode_clients _ _ _ _ _ Hstart).
  - destruct (onLine_Ok _ _ _ _ _ _ Hline) as (_ & _ & -> & _). done.
  - destruct (onExit_status c (backend s0)) as (_ & _ & -> & _). done.
Qed.

Lemma untilTimeout_steps_stubKept clientId videoMinBufferLength videoMaxBufferLength s s' :
  rtc (untilTimeout clientId videoMinBufferLength videoMaxBufferLength) s s' ->
  stubKept clientId (clients (backend s)) -> stubKept clientId (clients (backend s')).
Proof.
  induction 1 as [s|s1 s2 s3 Hstep _ IH]; [done |].
  intros Hstub. apply IH. eapply untilTimeout_stubKept; [exact Hstep | exact Hstub].
Qed.

End removed_clients.

(** C7. [getSegment] answers 409 exactly when the client has a record with
    [deleted = true], and then changes nothing. For a client without a
    record it does not answer 409, and the backend it leaves has a record of
    the client, not deleted and without a transcoder: with [head = -1] when
    the request stops at the range assertion, and with the head moved on to
    the segment asked for when it goes on. [removeClient] for a client
    without a record stores the stub [head = -1, deleted = true] and goes on
    to recalculate and to arm its timer; and until that timer fires, whatever
    happens to the backend in between (requests and removals by any client,
    the timers of others, recalculations, transcoders starting, reporting
    segments and exiting), the record stays a stub and [getSegment] for the
    client answers 409 and changes nothing. *)
Theorem getSegment_409_exactly_when_deleted (clientId segmentNumber : string) (b : MediaBackend.t) :
  ((MediaBackend.getSegment clientId segmentNumber b).2 = MediaBackend.SendStatus409
   <-> exists status,
         JS.map_get clientId (MediaBackend.clients b) = Some status
         /\ MediaBackend.deleted status = true)
  /\ ((MediaBackend.getSegment clientId segmentNumber b).2 = MediaBackend.SendStatus409 ->
      (MediaBackend.getSegment clientId segmentNumber b).1 = b)
  /\ (JS.map_get clientId (MediaBackend.clients b) = None ->
      (MediaBackend.getSegment clientId segmentNumber b).2 <> MediaBackend.SendStatus409
      /\ exists record,
           JS.map_get clientId
             (MediaBackend.clients (MediaBackend.getSegment clientId segmentNumber b).1)
           = Some record
           /\ MediaBackend.deleted record = false
           /\ MediaBackend.transcoder record = None
           /\ match (MediaBackend.getSegment clientId segmentNumber b).2 with
              | MediaBackend.Proceed _ _ segmentIndex => MediaBackend.head record = segmentIndex
              | _ => MediaBackend.head record = -1
              end)
  /\ (JS.map_get clientId (MediaBackend.clients b) = None ->
      NoDup (MediaBackend.clients b).*1 ->
      (MediaBackend.removeClient clientId b).2 = true
      /\ JS.map_get clientId (MediaBackend.clients (MediaBackend.removeClient clientId b).1)
         = Some {| MediaBackend.head := -1; MediaBackend.transcoder := None;
                   MediaBackend.deleted := true |}
      /\ forall videoMinBufferLength videoMaxBufferLength handlers s,
           rtc (untilTimeout clientId videoMinBufferLength videoMaxBufferLength)
             {| backend := (MediaBackend.removeClient clientId b).1; handlers := handlers |} s ->
           (exists status,
              JS.map_get clientId (MediaBackend.clients (backend s)) = Some status
              /\ MediaBackend.deleted status = true
              /\ MediaBackend.head status = -1)
           /\ MediaBackend.getSegment clientId segmentNumber (backend s)
              = (backend s, MediaBackend.SendStatus409)).
Proof.
  split; [apply getSegment_409_iff |]. split; [| split].
  - intros (status & Hget & Hdel)%getSegment_409_iff.
    by rewrite (getSegment_removed _ _ _ _ Hget Hdel).
  - intros Hnone. split.
    { intros (status & Hsome & _)%getSegment_409_iff. congruence. }
    unfold MediaBackend.getSegment, MediaBackend.lookupClient. rewrite Hnone.
    destruct (MediaBackend.parseInt16 segmentNumber) as [n|]; cbn [fst snd].
    2:{ eexists. split; [apply map_get_set_eq | done]. }
    destruct (negb _); cbn [fst snd].
    { eexists. split; [apply map_get_set_eq | done]. }
    unfold MediaBackend.onGetSegment. cbn [MediaBackend.clients MediaBackend.set_clients].
    eexists. split; [apply map_get_set_eq | done].
  - intros Hnone Hnd.
    assert (Hremoved : MediaBackend.removeClient clientId b
                       = (MediaBackend.set_clients
                            (JS.map_set clientId
                               {| MediaBackend.head := -1; MediaBackend.transcoder := None;
                                  MediaBackend.deleted := true |} (MediaBackend.clients b)) b,
                          true)).
    { unfold MediaBackend.removeClient. by rewrite Hnone. }
    rewrite Hremoved. cbn [fst snd MediaBackend.clients MediaBackend.set_clients].
    split; [done |]. split; [apply map_get_set_eq |].
    intros videoMinBufferLength videoMaxBufferLength handlers s Hsteps.
    apply untilTimeout_steps_stubKept in Hsteps as [_ (status & Hget & Hdel & Hhead)].
    + split; [by exists status |]. by apply (getSegment_removed _ _ _ status).
    + cbn [backend MediaBackend.clients MediaBackend.set_clients]. split.
      * by apply map_set_keys_NoDup.
      * rewrite map_get_set_eq. by eexists.
Qed.

Lemma getSegment_409_exactly_when_deleted_witness :
  JS.map_get "c1" (MediaBackend.clients fourSegments) = None
  /\ NoDup (MediaBackend.clients fourSegments).*1
  /\ MediaBackend.getSegment "c1" "1" (MediaBackend.removeClient "c1" fourSegments).1
     = ((MediaBackend.removeClient "c1" fourSegments).1, MediaBackend.SendStatus409).
Proof.
  split; [reflexivity |]. split; [apply NoDup_nil_2 |].
  destruct (getSegment_409_exactly_when_deleted "c1" "1" fourSegments) as (_ & _ & _ & Hstub).
  destruct (Hstub eq_refl ltac:(apply NoDup_nil_2)) as (_ & _ & Hrace).
  exact (proj2 (Hrace 30%float 60%float []
                  {| backend := (MediaBackend.removeClient "c1" fourSegments).1; handlers := [] |}
                  (rtc_refl _ _))).
Defined.
